(** * Persistent splay trees with reference-counted path copying

    A verification development for [src/util/splay_tree.h].

    The C++ class [splay_tree<T, CMP>] is embedded shallowly: the store of
    [node] objects is a finite map from addresses to node records, every
    method is a function that takes the store (and the handle's [m_ptr]) and
    returns the new store (and the new [m_ptr]) in the option monad.  [None]
    stands for a run that aborts: a failed [lean_assert], the dereference of
    an address that is not allocated, or an exhausted loop budget.  The
    theorems below show that none of these happens on well-formed stores. *)

From stdpp Require Import base option list sorting gmap fin_maps fin_sets.
From Stdlib Require Import ZArith Lia.

Module splay_tree.

(** Addresses of heap-allocated nodes; [option ptr] is a [node *] that may
    be [nullptr]. *)
Abbreviation ptr := positive (only parsing).

(** [lean_assert(c)]: the run aborts when [c] is false. *)
Definition lean_assert (b : bool) : option unit :=
  if b then Some tt else None.

Section model.
Context {T : Type}.
Variable cmp : T → T → Z.

(** [struct node]: two child pointers, the value and the counter that
    [MK_LEAN_RC()] declares. *)
Record node := mk_node {
  m_left : option ptr;
  m_right : option ptr;
  m_value : T;
  m_rc : nat
}.

Local Abbreviation heap := (gmap positive node).

Definition is_shared (nd : node) : bool := bool_decide (1 < m_rc nd).

Definition with_rc (k : nat) (nd : node) : node :=
  mk_node (m_left nd) (m_right nd) (m_value nd) k.
Definition with_left (l : option ptr) (nd : node) : node :=
  mk_node l (m_right nd) (m_value nd) (m_rc nd).
Definition with_right (r : option ptr) (nd : node) : node :=
  mk_node (m_left nd) r (m_value nd) (m_rc nd).
Definition with_value (v : T) (nd : node) : node :=
  mk_node (m_left nd) (m_right nd) v (m_rc nd).

(** Modelled from the spec: the counter operations that the macro
    [MK_LEAN_RC()] of [util/rc.h] generates ([inc_ref], [dec_ref]; spec 4.1:
    "Dec to zero triggers recursive dec of children, then deallocation").
    [n->inc_ref()] adds one to the counter. *)
Definition node_inc_ref (p : ptr) (h : heap) : option heap :=
  nd ← h !! p;
  Some (<[p := with_rc (S (m_rc nd)) nd]> h).

(** [static void inc_ref(node * n) { if (n) n->inc_ref(); }] *)
Definition inc_ref (n : option ptr) (h : heap) : option heap :=
  match n with
  | Some p => node_inc_ref p h
  | None => Some h
  end.

(** Modelled from the spec: [dec_ref] of [MK_LEAN_RC()].
    [static void dec_ref(node * n) { if (n) n->dec_ref(); }] where
    [n->dec_ref()] subtracts one and, on reaching zero, runs [dealloc()],
    that is [delete this]: the destructor [~node()] releases [m_left] and
    then [m_right], and the cell is freed afterwards.  The recursion of the
    destructor is bounded by [fuel]. *)
Fixpoint dec_ref_fuel (fuel : nat) (n : option ptr) (h : heap) : option heap :=
  match n with
  | None => Some h
  | Some p =>
    nd ← h !! p;
    lean_assert (bool_decide (0 < m_rc nd));;
    let h := <[p := with_rc (m_rc nd - 1) nd]> h in
    if bool_decide (m_rc nd = 1) then
      match fuel with
      | 0 => None
      | S fuel =>
        h ← dec_ref_fuel fuel (m_left nd) h;
        h ← dec_ref_fuel fuel (m_right nd) h;
        Some (delete p h)
      end
    else Some h
  end.

Definition dec_ref (n : option ptr) (h : heap) : option heap :=
  dec_ref_fuel (size h) n h.

(** [explicit node(T const & v, node * left, node * right)]: the new object
    starts with [m_rc(0)] and takes a reference to each child.  [new] picks
    an address that is not in use. *)
Definition new_node (v : T) (left right : option ptr) (h : heap)
  : option (heap * ptr) :=
  let p := fresh (dom h) in
  let h := <[p := mk_node left right v 0]> h in
  h ← inc_ref left h;
  h ← inc_ref right h;
  Some (h, p).

(** [node(node const & n):node(n.m_value, n.m_left, n.m_right) {}] *)
Definition copy_node (n : ptr) (h : heap) : option (heap * ptr) :=
  nd ← h !! n;
  new_node (m_value nd) (m_left nd) (m_right nd) h.

(** A write to a field of the node at [p].  Every write of the class to an
    existing node goes through [store], which aborts on a shared node: this
    is the check [lean_assert(!n->is_shared())] that [update] makes, applied
    to each write, so that a run that does not abort has never rewritten a
    node whose counter exceeds one. *)
Definition store (p : ptr) (f : node → node) (h : heap) : option heap :=
  nd ← h !! p;
  lean_assert (negb (is_shared nd));;
  Some (<[p := f nd]> h).

(** [void update(node * n, node * l, node * r)] *)
Definition update (n : ptr) (l r : option ptr) (h : heap) : option heap :=
  nd ← h !! n;
  lean_assert (negb (is_shared nd));;
  h ← store n (with_left l) h;
  store n (with_right r) h.

(** [struct entry { bool m_right; node * m_node; }] *)
Record entry := mk_entry {
  entry_right : bool;
  entry_node : ptr
}.

(** The path of [splay_to_top], [insert_pull] and [pull_max] is a
    [std::vector<entry>] used as a stack.  It is a list whose head is
    [path.back()]: [push_back] is cons and [pop_back] is tail. *)

(** One round of the [while (path.size() > 1)] loop of [splay_to_top], after
    [p_entry] and [g_entry] were popped. *)
Definition splay_step (g_entry p_entry : entry) (n : ptr) (h : heap)
  : option heap :=
  let g_right := entry_right g_entry in
  let p_right := entry_right p_entry in
  let g := entry_node g_entry in
  let p := entry_node p_entry in
  gn ← h !! g;
  lean_assert (negb (is_shared gn));;
  pn ← h !! p;
  lean_assert (negb (is_shared pn));;
  nn ← h !! n;
  if negb g_right && negb p_right then
    (* zig-zig left: (g (p (n A B) C) D) ==> (n A (p B (g C D))) *)
    lean_assert (bool_decide (m_left gn = Some p));;
    let A := m_left nn in
    let B := m_right nn in
    let C := m_right pn in
    let D := m_right gn in
    h ← update g C D h;
    h ← update p B (Some g) h;
    update n A (Some p) h
  else if negb g_right && p_right then
    (* zig-zag left-right: (g (p A (n B C)) D) ==> (n (p A B) (g C D)) *)
    lean_assert (bool_decide (m_left gn = Some p));;
    let A := m_left pn in
    let B := m_left nn in
    let C := m_right nn in
    let D := m_right gn in
    h ← update p A B h;
    h ← update g C D h;
    update n (Some p) (Some g) h
  else if g_right && negb p_right then
    (* zig-zag right-left: (g A (p (n B C) D)) ==> (n (g A B) (p C D)) *)
    lean_assert (bool_decide (m_right gn = Some p));;
    let A := m_left gn in
    let B := m_left nn in
    let C := m_right nn in
    let D := m_right pn in
    h ← update g A B h;
    h ← update p C D h;
    update n (Some g) (Some p) h
  else
    lean_assert (g_right && p_right);;
    lean_assert (bool_decide (m_right gn = Some p));;
    (* zig-zig right: (g A (p B (n C D))) ==> (n (p (g A B) C) D) *)
    let A := m_left gn in
    let B := m_left pn in
    let C := m_left nn in
    let D := m_right nn in
    h ← update g A B h;
    h ← update p (Some g) C h;
    update n (Some p) D h.

(** [while (path.size() > 1) { ... }]: returns what is left of the path. *)
Fixpoint splay_loop (path : list entry) (n : ptr) (h : heap)
  : option (list entry * heap) :=
  match path with
  | p_entry :: g_entry :: path =>
    h ← splay_step g_entry p_entry n h;
    splay_loop path n h
  | _ => Some (path, h)
  end.

(** The last step of [splay_to_top], taken when [path.size() == 1]. *)
Definition splay_zig (p_entry : entry) (n : ptr) (h : heap) : option heap :=
  let p_right := entry_right p_entry in
  let p := entry_node p_entry in
  nn ← h !! n;
  pn ← h !! p;
  if negb p_right then
    (* zig left: (p (n A B) C) ==> (n A (p B C)) *)
    let A := m_left nn in
    let B := m_right nn in
    let C := m_right pn in
    h ← update p B C h;
    update n A (Some p) h
  else
    (* zig right: (p A (n B C)) ==> (n (p A B) C) *)
    let A := m_left pn in
    let B := m_left nn in
    let C := m_right nn in
    h ← update p A B h;
    update n (Some p) C h.

(** [void splay_to_top(std::vector<entry> & path, node * n)] *)
Definition splay_to_top (path : list entry) (n : ptr) (h : heap)
  : option heap :=
  nn ← h !! n;
  lean_assert (negb (is_shared nn));;
  '(path, h) ← splay_loop path n h;
  nn ← h !! n;
  lean_assert (negb (is_shared nn));;
  '(path, h) ← match path with
               | [p_entry] => h ← splay_zig p_entry n h; Some ([], h)
               | _ => Some (path, h)
               end;
  lean_assert (bool_decide (path = []));;
  nn ← h !! n;
  lean_assert (negb (is_shared nn));;
  Some h.

(** [bool check_invariant(node const * n) const]: the two comparisons are
    assertions, the result is always [true]. *)
Fixpoint check_invariant_fuel (fuel : nat) (n : option ptr) (h : heap)
  : option bool :=
  match n with
  | None => Some true
  | Some p =>
    match fuel with
    | 0 => None
    | S fuel =>
      nd ← h !! p;
      match m_left nd with
      | Some l =>
        check_invariant_fuel fuel (Some l) h;;
        ln ← h !! l;
        lean_assert (bool_decide (cmp (m_value ln) (m_value nd) < 0)%Z)
      | None => Some tt
      end;;
      match m_right nd with
      | Some r =>
        check_invariant_fuel fuel (Some r) h;;
        rn ← h !! r;
        lean_assert (bool_decide (cmp (m_value nd) (m_value rn) < 0)%Z)
      | None => Some tt
      end;;
      Some true
    end
  end.

(** [bool check_invariant() const { return check_invariant(m_ptr); }] *)
Definition check_invariant (h : heap) (m_ptr : option ptr) : option bool :=
  check_invariant_fuel (size h) m_ptr h.

(** [void update_parent(std::vector<entry> const & path, node * child)]:
    returns the store and the handle's [m_ptr]. *)
Definition update_parent (path : list entry) (child : ptr)
    (h : heap) (m_ptr : option ptr) : option (heap * option ptr) :=
  match path with
  | [] =>
    h ← node_inc_ref child h;
    h ← dec_ref m_ptr h;
    Some (h, Some child)
  | last :: _ =>
    h ← node_inc_ref child h;
    let parent := entry_node last in
    pn ← h !! parent;
    lean_assert (negb (is_shared pn));;
    if entry_right last then
      h ← dec_ref (m_right pn) h;
      h ← store parent (with_right (Some child)) h;
      Some (h, m_ptr)
    else
      h ← dec_ref (m_left pn) h;
      h ← store parent (with_left (Some child)) h;
      Some (h, m_ptr)
  end.

(** [static void to_buffer(node const * n, buffer<T> & r)] *)
Fixpoint to_buffer_fuel (fuel : nat) (n : option ptr) (h : heap)
    (r : list T) : option (list T) :=
  match n with
  | None => Some r
  | Some p =>
    match fuel with
    | 0 => None
    | S fuel =>
      nd ← h !! p;
      r ← to_buffer_fuel fuel (m_left nd) h r;
      to_buffer_fuel fuel (m_right nd) h (r ++ [m_value nd])
    end
  end.

(** [void to_buffer(buffer<T> & r) const], called on an empty buffer. *)
Definition to_buffer (h : heap) (m_ptr : option ptr) : option (list T) :=
  to_buffer_fuel (size h) m_ptr h [].

(** How the [while (true)] loop of [insert_pull] is left: by [return false]
    or by [break], with the locals that the code after the loop reads. *)
Inductive descent :=
  | descent_return (h : heap) (m_ptr : option ptr)
  | descent_break (h : heap) (m_ptr : option ptr)
      (path : list entry) (n : ptr) (found : bool).

(** The node that the loops of [insert_pull] and [pull_max] continue with:
    [if (n->is_shared()) { n = new node( *n); update_parent(path, n); }] *)
Definition unshare (path : list entry) (n : ptr) (h : heap)
    (m_ptr : option ptr) : option (heap * option ptr * ptr) :=
  nd ← h !! n;
  if is_shared nd then
    '(h, n) ← copy_node n h;
    '(h, m_ptr) ← update_parent path n h m_ptr;
    Some (h, m_ptr, n)
  else Some (h, m_ptr, n).

(** The [while (true)] loop of [insert_pull]; one unit of [fuel] per node
    that is visited. *)
Fixpoint insert_pull_loop (fuel : nat) (v : T) (is_insert : bool)
    (path : list entry) (n : option ptr) (h : heap) (m_ptr : option ptr)
  : option descent :=
  match n with
  | None =>
    if is_insert then
      '(h, n) ← new_node v None None h;
      '(h, m_ptr) ← update_parent path n h m_ptr;
      Some (descent_break h m_ptr path n false)
    else
      match path with
      | [] => Some (descent_return h m_ptr)
      | back :: path => Some (descent_break h m_ptr path (entry_node back) false)
      end
  | Some n =>
    match fuel with
    | 0 => None
    | S fuel =>
      '(h, m_ptr, n) ← unshare path n h m_ptr;
      nd ← h !! n;
      lean_assert (negb (is_shared nd));;
      let c := cmp v (m_value nd) in
      if bool_decide (c < 0)%Z then
        insert_pull_loop fuel v is_insert (mk_entry false n :: path)
          (m_left nd) h m_ptr
      else if bool_decide (c > 0)%Z then
        insert_pull_loop fuel v is_insert (mk_entry true n :: path)
          (m_right nd) h m_ptr
      else
        h ← (if is_insert then store n (with_value v) h else Some h);
        Some (descent_break h m_ptr path n true)
    end
  end.

(** [bool insert_pull(T const & v, bool is_insert)].  The thread-local
    [path] is empty whenever the method is entered, because [splay_to_top]
    pops every entry and the early [return false] is taken on an empty
    path; it is a local of the model. *)
Definition insert_pull (v : T) (is_insert : bool) (h : heap)
    (m_ptr : option ptr) : option (heap * option ptr * bool) :=
  d ← insert_pull_loop (size h) v is_insert [] m_ptr h m_ptr;
  match d with
  | descent_return h m_ptr => Some (h, m_ptr, false)
  | descent_break h m_ptr path n found =>
    h ← splay_to_top path n h;
    let m_ptr := Some n in
    b ← check_invariant h m_ptr;
    lean_assert b;;
    Some (h, m_ptr, found)
  end.

(** [bool pull(T const & v) { return insert_pull(v, false); }] *)
Definition pull (v : T) (h : heap) (m_ptr : option ptr)
  : option (heap * option ptr * bool) :=
  insert_pull v false h m_ptr.

(** The [while (true)] loop of [pull_max]. *)
Fixpoint pull_max_loop (fuel : nat) (path : list entry) (n : ptr)
    (h : heap) (m_ptr : option ptr) : option (heap * option ptr) :=
  match fuel with
  | 0 => None
  | S fuel =>
    '(h, m_ptr, n) ← unshare path n h m_ptr;
    nd ← h !! n;
    match m_right nd with
    | Some r =>
      pull_max_loop fuel (mk_entry true n :: path) r h m_ptr
    | None =>
      h ← splay_to_top path n h;
      let m_ptr := Some n in
      b ← check_invariant h m_ptr;
      lean_assert b;;
      Some (h, m_ptr)
    end
  end.

(** [void pull_max()] *)
Definition pull_max (h : heap) (m_ptr : option ptr)
  : option (heap * option ptr) :=
  match m_ptr with
  | None => Some (h, m_ptr)
  | Some n => pull_max_loop (size h) [] n h m_ptr
  end.

(** [splay_tree(splay_tree const & s)] and
    [splay_tree(splay_tree const & s, node * new_root)]: the new handle
    points to [new_root] and holds one more reference to it. *)
Definition copy (new_root : option ptr) (h : heap)
  : option (heap * option ptr) :=
  h ← inc_ref new_root h;
  Some (h, new_root).

(** [~splay_tree() { node::dec_ref(m_ptr); }] *)
Definition destroy (h : heap) (m_ptr : option ptr) : option heap :=
  dec_ref m_ptr h.

(** [void swap(splay_tree & t) { std::swap(m_ptr, t.m_ptr); }] *)
Definition swap (m_ptr t_ptr : option ptr) : option ptr * option ptr :=
  (t_ptr, m_ptr).

(** [bool empty() const { return m_ptr == nullptr; }] *)
Definition empty (m_ptr : option ptr) : bool :=
  match m_ptr with None => true | Some _ => false end.

(** [void clear() { node::dec_ref(m_ptr); m_ptr = nullptr; }] *)
Definition clear (h : heap) (m_ptr : option ptr)
  : option (heap * option ptr) :=
  h ← dec_ref m_ptr h;
  Some (h, None).

(** [splay_tree(splay_tree && s):CMP(s), m_ptr(s.m_ptr) { s.m_ptr = nullptr; }]:
    the [m_ptr] of the new handle and the [m_ptr] that is left in [s]. *)
Definition move_from (s_ptr : option ptr) : option ptr * option ptr :=
  (s_ptr, None).

(** [bool is_eqp(splay_tree const & t) const] *)
Definition is_eqp (m_ptr t_ptr : option ptr) : bool :=
  bool_decide (m_ptr = t_ptr).

(** [void insert(T const & v) { insert_pull(v, true); }] *)
Definition insert (v : T) (h : heap) (m_ptr : option ptr)
  : option (heap * option ptr) :=
  '(h, m_ptr, _) ← insert_pull v true h m_ptr;
  Some (h, m_ptr).

(** The loop of [find].  The result is the value that the returned pointer
    refers to, paired with the number of nodes whose value was compared
    with [v]. *)
Fixpoint find_loop (fuel : nat) (v : T) (n : option ptr) (h : heap)
    (steps : nat) : option (option T * nat) :=
  match n with
  | None => Some (None, steps)
  | Some p =>
    match fuel with
    | 0 => None
    | S fuel =>
      nd ← h !! p;
      let c := cmp v (m_value nd) in
      if bool_decide (c < 0)%Z then
        find_loop fuel v (m_left nd) h (S steps)
      else if bool_decide (c > 0)%Z then
        find_loop fuel v (m_right nd) h (S steps)
      else Some (Some (m_value nd), S steps)
    end
  end.

(** [T const * find(T const & v) const] *)
Definition find (v : T) (h : heap) (m_ptr : option ptr) : option (option T) :=
  fst <$> find_loop (size h) v m_ptr h 0.

(** The number of nodes that [find(v)] examines. *)
Definition find_cost (v : T) (h : heap) (m_ptr : option ptr) : option nat :=
  snd <$> find_loop (size h) v m_ptr h 0.

(** [template<typename F, typename R> static R fold(node const * n, F & f, R r)] *)
Fixpoint fold_fuel {R : Type} (fuel : nat) (n : option ptr) (h : heap)
    (f : T → R → R) (r : R) : option R :=
  match n with
  | None => Some r
  | Some p =>
    match fuel with
    | 0 => None
    | S fuel =>
      nd ← h !! p;
      r ← fold_fuel fuel (m_left nd) h f r;
      fold_fuel fuel (m_right nd) h f (f (m_value nd) r)
    end
  end.

(** [R fold(F f, R r) const { return fold(m_ptr, f, r); }] *)
Definition fold {R : Type} (h : heap) (m_ptr : option ptr)
    (f : T → R → R) (r : R) : option R :=
  fold_fuel (size h) m_ptr h f r.

(** [template<typename F> static void for_each(node const * n, F & f)].  The
    call [f(n->m_value)] acts on a state of type [S]; the result is the
    state after the last call. *)
Fixpoint for_each_fuel {S : Type} (fuel : nat) (n : option ptr) (h : heap)
    (f : T → S → S) (s : S) : option S :=
  match n with
  | None => Some s
  | Some p =>
    match fuel with
    | 0 => None
    | S fuel =>
      nd ← h !! p;
      s ← for_each_fuel fuel (m_left nd) h f s;
      for_each_fuel fuel (m_right nd) h f (f (m_value nd) s)
    end
  end.

(** [void for_each(F f) const { for_each(m_ptr, f); }] *)
Definition for_each {S : Type} (h : heap) (m_ptr : option ptr)
    (f : T → S → S) (s : S) : option S :=
  for_each_fuel (size h) m_ptr h f s.

(** [unsigned size() const
      { return fold([](T const &, unsigned a) { return a + 1; }, 0); }]
    with [unsigned] 32 bits wide, so that [a + 1] wraps at [2^32].  (The
    name [size] is the size of finite maps here.) *)
Definition tree_size (h : heap) (m_ptr : option ptr) : option Z :=
  fold h m_ptr (λ _ a, (a + 1) `mod` 2 ^ 32)%Z 0%Z.

(** [bool contains(T const & v) const { return find(v); }] *)
Definition contains (v : T) (h : heap) (m_ptr : option ptr) : option bool :=
  r ← find v h m_ptr;
  Some (bool_decide (is_Some r)).

(** [T const * find_memoize(T const & v)]: the value found (or nothing)
    together with the new store and [m_ptr]. *)
Definition find_memoize (v : T) (h : heap) (m_ptr : option ptr)
  : option (heap * option ptr * option T) :=
  '(h, m_ptr, found) ← pull v h m_ptr;
  if found : bool then
    root ← m_ptr;
    nd ← h !! root;
    lean_assert (bool_decide (cmp (m_value nd) v = 0)%Z);;
    Some (h, m_ptr, Some (m_value nd))
  else Some (h, m_ptr, None).

(** The block of [erase] that runs when [pull(v)] has found [v].  The
    locals [left] and [right] are handles ([left_p] and [right_p] are their
    [m_ptr]): they are built with the private constructor and destroyed,
    [right] first, when the block ends. *)
Definition erase_found (v : T) (h : heap) (m_ptr : option ptr)
  : option (heap * option ptr) :=
  root ← m_ptr;
  nd ← h !! root;
  lean_assert (bool_decide (cmp (m_value nd) v = 0)%Z);;
  '(h, left_p) ← copy (m_left nd) h;
  nd ← h !! root;
  '(h, right_p) ← copy (m_right nd) h;
  '(h, m_ptr, left_p, right_p) ←
    (if empty left_p then
       let '(m_ptr, right_p) := swap m_ptr right_p in
       Some (h, m_ptr, left_p, right_p)
     else if empty right_p then
       let '(m_ptr, left_p) := swap m_ptr left_p in
       Some (h, m_ptr, left_p, right_p)
     else
       '(h, m_ptr) ← clear h m_ptr;
       '(h, left_p) ← pull_max h left_p;
       l ← left_p;
       ln ← h !! l;
       lean_assert (bool_decide (m_right ln = None));;
       r ← right_p;
       h ← node_inc_ref r h;
       h ← store l (with_right right_p) h;
       let '(m_ptr, left_p) := swap m_ptr left_p in
       Some (h, m_ptr, left_p, right_p));
  h ← destroy h right_p;
  h ← destroy h left_p;
  Some (h, m_ptr).

(** [void erase(T const & v)] *)
Definition erase (v : T) (h : heap) (m_ptr : option ptr)
  : option (heap * option ptr) :=
  '(h, m_ptr, found) ← pull v h m_ptr;
  if found : bool then erase_found v h m_ptr else Some (h, m_ptr).

(** The free functions
    [splay_tree<T, CMP> insert(splay_tree<T, CMP> & t, T const & v)] and
    [erase]: [splay_tree<T, CMP> r(t); r.insert(v); return r;].  The result
    is the store and the [m_ptr] of the returned handle; [t] keeps its own
    [m_ptr]. *)
Definition nm_insert (t_ptr : option ptr) (v : T) (h : heap)
  : option (heap * option ptr) :=
  '(h, r) ← copy t_ptr h;
  insert v h r.

Definition nm_erase (t_ptr : option ptr) (v : T) (h : heap)
  : option (heap * option ptr) :=
  '(h, r) ← copy t_ptr h;
  erase v h r.

End model.

Arguments node : clear implicits.
Arguments entry : clear implicits.
Arguments descent : clear implicits.

End splay_tree.

Import splay_tree.

(** * Specification vocabulary *)

(** The contract of [CMP] (header comment of the class, spec 3): a
    three-way comparison that induces a strict total order; two values are
    equal when it returns zero. *)
Class Comparator {T : Type} (cmp : T → T → Z) : Prop := {
  cmp_antisym x y : (cmp x y < 0 ↔ cmp y x > 0)%Z;
  cmp_trans x y z : (cmp x y < 0 → cmp y z < 0 → cmp x z < 0)%Z;
  cmp_eq_lt x y z : (cmp x y = 0 → cmp y z < 0 → cmp x z < 0)%Z;
  cmp_lt_eq x y z : (cmp x y < 0 → cmp y z = 0 → cmp x z < 0)%Z
}.

(** The comparator of the end-to-end scenarios: [cmp(a,b) = sign(a-b)]. *)
Definition int_cmp (a b : Z) : Z := Z.sgn (a - b).

(** A comparator that looks at the key of a (key, payload) pair only. *)
Definition key_cmp (a b : Z * Z) : Z := Z.sgn (a.1 - b.1).

Section vocabulary.
Context {T : Type}.
Variable cmp : T → T → Z.

Local Abbreviation heap := (gmap positive (node T)).

Definition lt (x y : T) : Prop := (cmp x y < 0)%Z.

(** ** Sequences of elements *)

(** Insertion into an ascending sequence; an element that compares equal to
    [v] is replaced by [v]. *)
Fixpoint seq_insert (v : T) (l : list T) : list T :=
  match l with
  | [] => [v]
  | x :: l' =>
    if bool_decide (cmp v x < 0)%Z then v :: l
    else if bool_decide (cmp v x > 0)%Z then x :: seq_insert v l'
    else v :: l'
  end.

(** Removal of the elements that compare equal to [v]. *)
Fixpoint seq_erase (v : T) (l : list T) : list T :=
  match l with
  | [] => []
  | x :: l' =>
    if bool_decide (cmp v x = 0)%Z then seq_erase v l'
    else x :: seq_erase v l'
  end.

(** Some element of [l] compares equal to [v]. *)
Fixpoint seq_has (v : T) (l : list T) : bool :=
  match l with
  | [] => false
  | x :: l' => bool_decide (cmp v x = 0)%Z || seq_has v l'
  end.

(** Strictly ascending: every element is below every later one. *)
Definition ascending (l : list T) : Prop := StronglySorted lt l.

(** ** Trees of nodes *)

(** The shape that a pointer stands for: a binary tree whose nodes carry
    their address and their value. *)
Inductive atree :=
  | ALeaf
  | ANode (l : atree) (p : positive) (v : T) (r : atree).

Definition root (a : atree) : option positive :=
  match a with
  | ALeaf => None
  | ANode _ p _ _ => Some p
  end.

Fixpoint ptrs (a : atree) : list positive :=
  match a with
  | ALeaf => []
  | ANode l p _ r => ptrs l ++ p :: ptrs r
  end.

(** The values in order, which is what [to_buffer] produces. *)
Fixpoint vals (a : atree) : list T :=
  match a with
  | ALeaf => []
  | ANode l _ v r => vals l ++ v :: vals r
  end.

Fixpoint height (a : atree) : nat :=
  match a with
  | ALeaf => 0
  | ANode l _ _ r => S (height l `max` height r)
  end.

(** The fields of the node at [p] other than its counter. *)
Definition shape (h : heap) (p : positive)
  : option (option positive * option positive * T) :=
  (λ nd, (m_left nd, m_right nd, m_value nd)) <$> h !! p.

(** The counter of the node at [p], zero when there is none. *)
Definition rc_of (h : heap) (p : positive) : nat :=
  match h !! p with
  | Some nd => m_rc nd
  | None => 0
  end.

(** [repr h a]: in the store [h] the nodes of [a] are allocated and linked
    as [a] says. *)
Fixpoint repr (h : heap) (a : atree) : Prop :=
  match a with
  | ALeaf => True
  | ANode l p v r =>
    shape h p = Some (root l, root r, v) ∧ repr h l ∧ repr h r
  end.

(** The BST-order invariant as [check_invariant] states it: each child
    compares with its parent in the right direction. *)
Fixpoint locally_ordered (a : atree) : Prop :=
  match a with
  | ALeaf => True
  | ANode l _ v r =>
    match l with ALeaf => True | ANode _ _ x _ => lt x v end ∧
    match r with ALeaf => True | ANode _ _ x _ => lt v x end ∧
    locally_ordered l ∧ locally_ordered r
  end.

(** ** Reference counting *)

(** How many of the two child slots of a node point to [p]. *)
Definition slot_count (s : option positive * option positive) (p : positive)
  : nat :=
  (if decide (s.1 = Some p) then 1 else 0) +
  (if decide (s.2 = Some p) then 1 else 0).

Definition links (h : heap) : gmap positive (option positive * option positive) :=
  (λ nd, (m_left nd, m_right nd)) <$> h.

(** The number of child slots in the store that point to [p]. *)
Definition slot_refs (lk : gmap positive (option positive * option positive))
    (p : positive) : nat :=
  map_fold (λ _ s acc, slot_count s p + acc) 0 lk.

Definition heap_refs (h : heap) (p : positive) : nat := slot_refs (links h) p.

(** The number of handles whose [m_ptr] is [p]. *)
Fixpoint root_refs (roots : list (option positive)) (p : positive) : nat :=
  match roots with
  | [] => 0
  | r :: roots => (if decide (r = Some p) then 1 else 0) + root_refs roots p
  end.

(** Incoming references of [p]: parent slots plus handle roots. *)
Definition refs (h : heap) (roots : list (option positive)) (p : positive)
  : nat :=
  heap_refs h p + root_refs roots p.

(** Refcount correctness: every counter equals the number of incoming
    references (and nothing points to an address that is not allocated). *)
Definition counted (h : heap) (roots : list (option positive)) : Prop :=
  ∀ p, rc_of h p = refs h roots p.

(** Every allocated node belongs to one of the [trees]. *)
Definition tight (h : heap) (trees : list atree) : Prop :=
  ∀ p, is_Some (h !! p) → ∃ t, t ∈ trees ∧ p ∈ ptrs t.

(** [trees] lists the tree of every live handle: the counters are right
    for these handles, and each tree is in the store, in BST order. *)
Record wf (h : heap) (trees : list atree) : Prop := {
  wf_counted : counted h (root <$> trees);
  wf_repr : Forall (repr h) trees;
  wf_asc : Forall (λ a, ascending (vals a)) trees
}.

(** The stores that the operations keep: well-formed, and every node is
    in the tree of a handle. *)
Definition wft (h : heap) (trees : list atree) : Prop :=
  wf h trees ∧ tight h trees.

(** The well-formed stores: [roots] lists the [m_ptr] of every live
    handle. *)
Definition Inv (h : heap) (roots : list (option positive)) : Prop :=
  ∃ trees, roots = root <$> trees ∧ wf h trees.

(** ** Paths *)

(** A frame of a path: the direction taken at a node, the node, and the
    subtree that was not entered. *)
Record frame := mk_frame {
  f_right : bool;
  f_node : positive;
  f_value : T;
  f_other : atree
}.

Definition plug_frame (f : frame) (a : atree) : atree :=
  if f_right f then ANode (f_other f) (f_node f) (f_value f) a
  else ANode a (f_node f) (f_value f) (f_other f).

(** The tree around a subtree; the head of [ctx] is the innermost frame. *)
Definition plug (ctx : list frame) (a : atree) : atree :=
  foldl (λ a f, plug_frame f a) a ctx.

Definition path_of (ctx : list frame) : list (entry) :=
  (λ f, mk_entry (f_right f) (f_node f)) <$> ctx.

(** The frames are in the store: each path node is unshared, its other
    child is [f_other], and the slot that the path follows holds [nxt] at
    the innermost frame and the next path node elsewhere. *)
Fixpoint path_ok (h : heap) (ctx : list frame) (nxt : option positive)
  : Prop :=
  match ctx with
  | [] => True
  | f :: ctx =>
    shape h (f_node f) = Some (
      if f_right f then (root (f_other f), nxt, f_value f)
      else (nxt, root (f_other f), f_value f)) ∧
    rc_of h (f_node f) = 1 ∧
    repr h (f_other f) ∧
    path_ok h ctx (Some (f_node f))
  end.

(** The rewrites of [splay_to_top] on trees.  [n] has the children [A]
    and [B]; a rewrite returns the children that [n] has afterwards.
    [rotate2] is a round of the loop, with grandparent [g] and parent [p];
    [rotate1] is the last step, with parent [p]. *)
Definition rotate2 (g p : frame) (A B : atree) : atree * atree :=
  match f_right g, f_right p with
  | false, false =>
    (* zig-zig left: (g (p (n A B) C) D) ==> (n A (p B (g C D))) *)
    (A, ANode B (f_node p) (f_value p)
          (ANode (f_other p) (f_node g) (f_value g) (f_other g)))
  | false, true =>
    (* zig-zag left-right: (g (p A (n B C)) D) ==> (n (p A B) (g C D)) *)
    (ANode (f_other p) (f_node p) (f_value p) A,
     ANode B (f_node g) (f_value g) (f_other g))
  | true, false =>
    (* zig-zag right-left: (g A (p (n B C) D)) ==> (n (g A B) (p C D)) *)
    (ANode (f_other g) (f_node g) (f_value g) A,
     ANode B (f_node p) (f_value p) (f_other p))
  | true, true =>
    (* zig-zig right: (g A (p B (n C D))) ==> (n (p (g A B) C) D) *)
    (ANode (ANode (f_other g) (f_node g) (f_value g) (f_other p))
       (f_node p) (f_value p) A, B)
  end.

Definition rotate1 (p : frame) (A B : atree) : atree * atree :=
  if f_right p then
    (* zig right: (p A (n B C)) ==> (n (p A B) C) *)
    (ANode (f_other p) (f_node p) (f_value p) A, B)
  else
    (* zig left: (p (n A B) C) ==> (n A (p B C)) *)
    (A, ANode B (f_node p) (f_value p) (f_other p)).

(** What [splay_to_top] computes, on trees: [n] with children [A] and [B]
    is rotated to the top of the frames. *)
Fixpoint splay (ctx : list frame) (A : atree) (n : positive) (x : T)
    (B : atree) : atree :=
  match ctx with
  | p :: g :: ctx =>
    let '(A', B') := rotate2 g p A B in splay ctx A' n x B'
  | [p] =>
    let '(A', B') := rotate1 p A B in ANode A' n x B'
  | [] => ANode A n x B
  end.

(** [rewrites h path n before after]: on a store that holds the tree
    [before], [splay_to_top(path, n)] runs to the end, the store then holds
    the tree [after], and every counter is what it was. *)
Definition rewrites (h : heap) (path : list entry) (n : positive)
    (before after : atree) : Prop :=
  repr h before →
  ∃ h', splay_to_top path n h = Some h' ∧ repr h' after ∧
        ∀ q, rc_of h' q = rc_of h q.

(** The nodes of a path together with the nodes of the subtrees beside
    it. *)
Definition ctx_ptrs (ctx : list frame) : list positive :=
  ctx ≫= (λ f, f_node f :: ptrs (f_other f)).

(** The child slots of the nodes [L] that point to [p], and the number of
    times [p] occurs in [L]. *)
Definition sum_links (h : heap) (L : list positive) (p : positive) : nat :=
  sum_list_with (λ q, default 0 ((λ s, slot_count s p) <$> links h !! q)) L.

Definition occurrences (L : list positive) (p : positive) : nat :=
  sum_list_with (λ q, if decide (q = p) then 1 else 0) L.

(** The state of a descent ([insert_pull], [pull_max]) in a store where the
    other handles hold the trees [bs]: the path stands for [ctx], the
    current pointer for [a], and no other handle reaches a path node. *)
Record descent_inv (h : heap) (m_ptr : option positive) (bs : list atree)
    (ctx : list frame) (a : atree) : Prop := {
  di_counted : counted h (m_ptr :: (root <$> bs));
  di_top : m_ptr = root (plug ctx a);
  di_path : path_ok h ctx (root a);
  di_cur : repr h a;
  di_asc : ascending (vals (plug ctx a));
  di_others : Forall (repr h) bs;
  di_excl : ∀ b f, b ∈ bs → f ∈ ctx → f_node f ∉ ptrs b
}.

(** The outcome of the loop of [insert_pull], started anywhere on the way
    down: [l1] and [l2] are the values around the current subtree. *)
Definition descent_post (v : T) (is_insert : bool) (bs : list atree)
    (h : heap) (m : option positive) (ctx : list frame) (a : atree)
    (l1 l2 : list T) (d : descent T) : Prop :=
  match d with
  | descent_return h' m' =>
    h' = h ∧ m' = m ∧ a = ALeaf ∧ ctx = [] ∧ is_insert = false
  | descent_break h' m' path' n found =>
    ∃ ctx' A x B,
      path' = path_of ctx' ∧
      descent_inv h' m' bs ctx' (ANode A n x B) ∧
      rc_of h' n = 1 ∧
      (∀ b, b ∈ bs → n ∉ ptrs b) ∧
      vals (plug ctx' (ANode A n x B)) =
        l1 ++ (if is_insert then seq_insert v (vals a) else vals a) ++ l2 ∧
      found = seq_has v (vals a) ∧
      (found = true → cmp v x = 0%Z) ∧
      (is_insert = true → x = v) ∧
      (is_insert = true → found = false →
         A = ALeaf ∧ B = ALeaf ∧ h !! n = None) ∧
      (∀ q, is_Some (h !! q) → is_Some (h' !! q))
  end.

End vocabulary.

Arguments atree : clear implicits.
Arguments frame : clear implicits.

(** * Programs over several handles *)

Section worlds.
Context {T : Type}.
Variable cmp : T → T → Z.

Local Abbreviation heap := (gmap positive (node T)).

(** The store together with the [m_ptr] of every live handle. *)
Record world := mk_world {
  w_heap : heap;
  w_handles : list (option positive)
}.

(** A call on the handle number [i] (and [j]); [op_new] is the default
    constructor and [op_copy] the copy constructor, both add a handle at
    the end of the table. *)
Inductive op :=
  | op_new
  | op_copy (i : nat)
  | op_insert (i : nat) (v : T)
  | op_erase (i : nat) (v : T)
  | op_find (i : nat) (v : T)
  | op_find_memoize (i : nat) (v : T)
  | op_clear (i : nat)
  | op_swap (i j : nat).

Definition step (o : op) (w : world) : option world :=
  let h := w_heap w in
  let hs := w_handles w in
  match o with
  | op_new => Some (mk_world h (hs ++ [None]))
  | op_copy i =>
    m ← hs !! i;
    '(h, r) ← copy m h;
    Some (mk_world h (hs ++ [r]))
  | op_insert i v =>
    m ← hs !! i;
    '(h, m) ← insert cmp v h m;
    Some (mk_world h (<[i := m]> hs))
  | op_erase i v =>
    m ← hs !! i;
    '(h, m) ← erase cmp v h m;
    Some (mk_world h (<[i := m]> hs))
  | op_find i v =>
    m ← hs !! i;
    find cmp v h m;;
    Some w
  | op_find_memoize i v =>
    m ← hs !! i;
    '(h, m, _) ← find_memoize cmp v h m;
    Some (mk_world h (<[i := m]> hs))
  | op_clear i =>
    m ← hs !! i;
    '(h, m) ← clear h m;
    Some (mk_world h (<[i := m]> hs))
  | op_swap i j =>
    mi ← hs !! i;
    mj ← hs !! j;
    let '(mi, mj) := swap mi mj in
    Some (mk_world h (<[j := mj]> (<[i := mi]> hs)))
  end.

Fixpoint run (ops : list op) (w : world) : option world :=
  match ops with
  | [] => Some w
  | o :: ops => w ← step o w; run ops w
  end.

(** The handles that an operation names exist. *)
Definition op_valid (o : op) (w : world) : Prop :=
  match o with
  | op_new => True
  | op_copy i | op_insert i _ | op_erase i _ | op_find i _
  | op_find_memoize i _ | op_clear i => i < length (w_handles w)
  | op_swap i j => i < length (w_handles w) ∧ j < length (w_handles w)
  end.

(** The handles whose tree an operation may change. *)
Definition op_handles (o : op) : list nat :=
  match o with
  | op_new | op_copy _ | op_find _ _ => []
  | op_insert i _ | op_erase i _ | op_find_memoize i _ | op_clear i => [i]
  | op_swap i j => [i; j]
  end.

(** What an operation does to the element sequences of the handles. *)
Definition seq_step (o : op) (ls : list (list T)) : option (list (list T)) :=
  match o with
  | op_new => Some (ls ++ [[]])
  | op_copy i => xs ← ls !! i; Some (ls ++ [xs])
  | op_insert i v => xs ← ls !! i; Some (<[i := seq_insert cmp v xs]> ls)
  | op_erase i v => xs ← ls !! i; Some (<[i := seq_erase cmp v xs]> ls)
  | op_find i _ | op_find_memoize i _ => ls !! i;; Some ls
  | op_clear i => ls !! i;; Some (<[i := []]> ls)
  | op_swap i j =>
    xi ← ls !! i;
    xj ← ls !! j;
    Some (<[j := xi]> (<[i := xj]> ls))
  end.

(** A program on the element sequences. *)
Fixpoint seq_run (ops : list op) (ls : list (list T))
  : option (list (list T)) :=
  match ops with
  | [] => Some ls
  | o :: ops => ls ← seq_step o ls; seq_run ops ls
  end.

(** What [to_buffer] reads from each handle of a world. *)
Definition contents (w : world) : list (option (list T)) :=
  (λ m, to_buffer (w_heap w) m) <$> w_handles w.

(** The world before the first handle is made. *)
Definition empty_world : world := mk_world ∅ [].

(** [reaches h o p]: the node [p] is reachable from the pointer [o] along
    child pointers. *)
Inductive reaches (h : heap) : option positive → positive → Prop :=
  | reaches_root p : is_Some (h !! p) → reaches h (Some p) p
  | reaches_left o p nd q :
    reaches h o p → h !! p = Some nd → m_left nd = Some q → reaches h o q
  | reaches_right o p nd q :
    reaches h o p → h !! p = Some nd → m_right nd = Some q → reaches h o q.

(** The node [p] is reachable from a live handle. *)
Definition live (w : world) (p : positive) : Prop :=
  ∃ m, m ∈ w_handles w ∧ reaches (w_heap w) m p.

(** No node is allocated that no handle reaches. *)
Definition no_garbage (w : world) : Prop :=
  ∀ p, is_Some (w_heap w !! p) → live w p.

(** The BST-order invariant at the node [p], as [check_invariant] asserts
    it: the left child is below and the right child above. *)
Definition ordered_at (h : heap) (p : positive) : Prop :=
  ∀ nd, h !! p = Some nd →
    (∀ q qn, m_left nd = Some q → h !! q = Some qn →
       (cmp (m_value qn) (m_value nd) < 0)%Z) ∧
    (∀ q qn, m_right nd = Some q → h !! q = Some qn →
       (cmp (m_value nd) (m_value qn) < 0)%Z).

End worlds.

Arguments world : clear implicits.
Arguments op : clear implicits.

(** * Scenarios *)

(** The world that a program over the integers builds from nothing. *)
Definition world_of (ops : list (op Z)) : world Z :=
  default empty_world (run int_cmp ops empty_world).

(** The same for (key, payload) pairs that are compared by their key. *)
Definition keyed_world_of (ops : list (op (Z * Z))) : world (Z * Z) :=
  default empty_world (run key_cmp ops empty_world).

(** One handle that holds nothing, {1}, {1, 2}, {1, 2, 3} and
    {1, 2, 3, 4} (a chain of left children); two handles
    that share the tree of {1, 2, 3}; and one handle that holds the pair
    with key 1 and payload 10. *)
Definition scenario_empty : world Z := world_of [op_new].
Definition scenario_1 : world Z := world_of [op_new; op_insert 0 1%Z].
Definition scenario_12 : world Z :=
  world_of [op_new; op_insert 0 1%Z; op_insert 0 2%Z].
Definition scenario_123 : world Z :=
  world_of [op_new; op_insert 0 1%Z; op_insert 0 2%Z; op_insert 0 3%Z].
Definition scenario_shared : world Z :=
  world_of [op_new; op_insert 0 1%Z; op_insert 0 2%Z; op_insert 0 3%Z;
            op_copy 0].
Definition scenario_1234 : world Z :=
  world_of [op_new; op_insert 0 1%Z; op_insert 0 2%Z; op_insert 0 3%Z;
            op_insert 0 4%Z].
Definition scenario_keyed : world (Z * Z) :=
  keyed_world_of [op_new; op_insert 0 (1%Z, 10%Z)].

(** A store of three unshared nodes at the addresses 1, 2 and 3, which hold
    the values 10, 20 and 30 in some order. *)
Definition three_nodes (n1 n2 n3 : option positive * option positive * Z)
  : gmap positive (node Z) :=
  let mk (s : option positive * option positive * Z) :=
    mk_node s.1.1 s.1.2 s.2 1 in
  <[1%positive := mk n1]> (<[2%positive := mk n2]> (<[3%positive := mk n3]> ∅)).

(** * Facts about comparators and ascending sequences *)

Section seq_facts.
Context {T : Type} {cmp : T → T → Z} `{!Comparator cmp}.

Implicit Types (x y z v : T) (l : list T).

Lemma cmp_gt_lt x y : (cmp x y > 0 ↔ cmp y x < 0)%Z.
Proof. by rewrite (cmp_antisym y x). Qed.

Lemma cmp_irrefl x : ¬ (cmp x x < 0)%Z.
Proof. intros Hlt. pose proof (proj1 (cmp_antisym x x) Hlt). lia. Qed.

Lemma cmp_refl x : cmp x x = 0%Z.
Proof.
  pose proof (cmp_irrefl x). pose proof (cmp_gt_lt x x). lia.
Qed.

Lemma cmp_eq_sym x y : cmp x y = 0%Z → cmp y x = 0%Z.
Proof.
  intros Heq. pose proof (cmp_antisym x y). pose proof (cmp_gt_lt x y). lia.
Qed.

Lemma cmp_eq_trans x y z : cmp x y = 0%Z → cmp y z = 0%Z → cmp x z = 0%Z.
Proof.
  intros Hxy Hyz.
  destruct (Z.lt_trichotomy (cmp x z) 0) as [Hlt|[?|Hgt]]; [|done|].
  - pose proof (cmp_eq_lt y x z (cmp_eq_sym _ _ Hxy) Hlt). lia.
  - assert (cmp z x < 0)%Z as Hzx by (apply cmp_gt_lt; lia).
    pose proof (cmp_lt_eq z x y Hzx Hxy) as Hzy.
    apply cmp_antisym in Hzy. lia.
Qed.

Lemma lt_le_false x y : lt cmp x y → ¬ (cmp y x < 0)%Z ∧ cmp y x ≠ 0%Z.
Proof.
  unfold lt. intros Hlt. pose proof (cmp_antisym x y). lia.
Qed.

Lemma ascending_app_cons l1 x l2 :
  ascending cmp (l1 ++ x :: l2) ↔
  ascending cmp l1 ∧ ascending cmp l2 ∧
  Forall (λ y, lt cmp y x) l1 ∧ Forall (lt cmp x) l2.
Proof.
  unfold ascending. rewrite StronglySorted_app, StronglySorted_cons.
  split.
  - intros (Hcross & H1 & H2 & H3). repeat split; try done.
    apply Forall_forall. intros y Hy. apply (Hcross y x Hy). by left.
  - intros (H1 & H2 & H3 & H4). repeat split; try done.
    intros y z Hy Hz. rewrite Forall_forall in H3, H4.
    apply elem_of_cons in Hz as [->|Hz]; [by apply H3|].
    apply (cmp_trans y x z); [by apply H3 | by apply H4].
Qed.

Lemma seq_insert_app_lt v l1 x l2 :
  (cmp v x < 0)%Z →
  seq_insert cmp v (l1 ++ x :: l2) = seq_insert cmp v l1 ++ x :: l2.
Proof.
  intros Hlt. induction l1 as [|y l1 IH]; simpl.
  - by rewrite bool_decide_true.
  - repeat case_bool_decide; simpl; by rewrite ?IH.
Qed.

Lemma seq_insert_above v l :
  Forall (λ y, lt cmp y v) l → seq_insert cmp v l = l ++ [v].
Proof.
  induction 1 as [|y l Hy _ IH]; simpl; [done|].
  destruct (lt_le_false _ _ Hy).
  rewrite bool_decide_false by done.
  rewrite bool_decide_true; [by rewrite IH|].
  apply cmp_gt_lt, Hy.
Qed.

Lemma seq_insert_app_above v l1 l2 :
  Forall (λ y, lt cmp y v) l1 →
  seq_insert cmp v (l1 ++ l2) = l1 ++ seq_insert cmp v l2.
Proof.
  induction 1 as [|y l Hy _ IH]; simpl; [done|].
  destruct (lt_le_false _ _ Hy).
  rewrite bool_decide_false by done.
  rewrite bool_decide_true; [by rewrite IH|].
  apply cmp_gt_lt, Hy.
Qed.

Lemma seq_insert_app_gt v l1 x l2 :
  Forall (λ y, lt cmp y x) l1 → (cmp v x > 0)%Z →
  seq_insert cmp v (l1 ++ x :: l2) = l1 ++ x :: seq_insert cmp v l2.
Proof.
  intros Hl1 Hgt. rewrite seq_insert_app_above.
  - simpl. rewrite bool_decide_false by lia. by rewrite bool_decide_true.
  - eapply Forall_impl; [done|]. intros y Hy.
    apply (cmp_trans y x v); [done | by apply cmp_gt_lt].
Qed.

Lemma seq_insert_app_eq v l1 x l2 :
  Forall (λ y, lt cmp y x) l1 → cmp v x = 0%Z →
  seq_insert cmp v (l1 ++ x :: l2) = l1 ++ v :: l2.
Proof.
  intros Hl1 Heq. rewrite seq_insert_app_above.
  - simpl. rewrite !bool_decide_false by lia. done.
  - eapply Forall_impl; [done|]. intros y Hy.
    apply (cmp_lt_eq y x v); [done | by apply cmp_eq_sym].
Qed.

Lemma ascending_nil : ascending cmp [].
Proof. constructor. Qed.

Lemma ascending_singleton x : ascending cmp [x].
Proof. repeat constructor. Qed.

Lemma ascending_replace l1 x v l2 :
  cmp v x = 0%Z → ascending cmp (l1 ++ x :: l2) → ascending cmp (l1 ++ v :: l2).
Proof.
  intros Heq. rewrite !ascending_app_cons.
  intros (? & ? & H1 & H2). repeat split; try done.
  - eapply Forall_impl; [exact H1|]. intros y Hy.
    apply (cmp_lt_eq y x v); [done | by apply cmp_eq_sym].
  - eapply Forall_impl; [exact H2|]. intros y Hy.
    by apply (cmp_eq_lt v x y).
Qed.

Lemma seq_insert_elem_of v l y :
  y ∈ seq_insert cmp v l → y = v ∨ y ∈ l.
Proof.
  induction l as [|x l IH]; simpl.
  - intros ?%list_elem_of_singleton. by left.
  - repeat case_bool_decide; rewrite !elem_of_cons; intuition.
Qed.

Lemma ascending_seq_insert v l :
  ascending cmp l → ascending cmp (seq_insert cmp v l).
Proof.
  unfold ascending. induction 1 as [|x l Hl IH Hx]; simpl.
  - apply ascending_singleton.
  - repeat case_bool_decide.
    + constructor; [by constructor|]. constructor; [done|].
      eapply Forall_impl; [exact Hx|]. intros y Hy. by apply (cmp_trans v x y).
    + constructor; [done|]. apply Forall_forall. intros y Hy.
      apply seq_insert_elem_of in Hy as [->|Hy].
      * by apply cmp_gt_lt.
      * rewrite Forall_forall in Hx. by apply Hx.
    + constructor; [done|].
      eapply Forall_impl; [exact Hx|]. intros y Hy.
      apply (cmp_eq_lt v x y); [lia | done].
Qed.

Lemma seq_erase_app v l1 l2 :
  seq_erase cmp v (l1 ++ l2) = seq_erase cmp v l1 ++ seq_erase cmp v l2.
Proof.
  induction l1 as [|x l1 IH]; simpl; [done|].
  case_bool_decide; by rewrite IH.
Qed.

Lemma seq_has_false v l :
  seq_has cmp v l = false ↔ Forall (λ y, cmp v y ≠ 0%Z) l.
Proof.
  induction l as [|x l IH]; simpl.
  - split; [constructor | done].
  - rewrite orb_false_iff, IH, Forall_cons, bool_decide_eq_false. done.
Qed.

Lemma seq_has_true v l :
  seq_has cmp v l = true ↔ ∃ y, y ∈ l ∧ cmp v y = 0%Z.
Proof.
  induction l as [|x l IH]; simpl.
  - split; [done|]. intros (y & Hy & _). by apply elem_of_nil in Hy.
  - rewrite orb_true_iff, IH, bool_decide_eq_true. split.
    + intros [?|(y & ? & ?)]; [exists x | exists y];
        rewrite elem_of_cons; auto.
    + intros (y & [->|?]%elem_of_cons & ?); eauto.
Qed.

Lemma seq_has_app v l1 l2 :
  seq_has cmp v (l1 ++ l2) = seq_has cmp v l1 || seq_has cmp v l2.
Proof.
  induction l1 as [|x l1 IH]; simpl; [done|]. by rewrite IH, orb_assoc.
Qed.

Lemma seq_erase_absent v l :
  seq_has cmp v l = false → seq_erase cmp v l = l.
Proof.
  rewrite seq_has_false. induction 1 as [|x l Hx _ IH]; simpl; [done|].
  rewrite bool_decide_false by done. by rewrite IH.
Qed.

Lemma seq_has_erase v l : seq_has cmp v (seq_erase cmp v l) = false.
Proof.
  induction l as [|x l IH]; simpl; [done|].
  case_bool_decide; simpl; [done|]. by rewrite bool_decide_false.
Qed.

Lemma seq_erase_sublist v l : seq_erase cmp v l `sublist_of` l.
Proof.
  induction l as [|x l IH]; simpl; [done|].
  case_bool_decide; by constructor.
Qed.

Lemma ascending_sublist l1 l2 :
  l1 `sublist_of` l2 → ascending cmp l2 → ascending cmp l1.
Proof.
  unfold ascending. induction 1 as [|x l1 l2 Hsub IH|x l1 l2 Hsub IH].
  - done.
  - rewrite !StronglySorted_cons. intros [Hx Hs]. split; [|by apply IH].
    rewrite Forall_forall in *. intros y Hy. apply Hx.
    by eapply elem_of_sublist.
  - rewrite StronglySorted_cons. intros [_ Hs]. by apply IH.
Qed.

Lemma ascending_seq_erase v l :
  ascending cmp l → ascending cmp (seq_erase cmp v l).
Proof. apply ascending_sublist, seq_erase_sublist. Qed.

Lemma seq_has_insert v l : seq_has cmp v (seq_insert cmp v l) = true.
Proof.
  induction l as [|x l IH]; simpl.
  - by rewrite cmp_refl.
  - repeat case_bool_decide; simpl; rewrite ?cmp_refl; simpl; try done.
    rewrite IH. apply orb_true_r.
Qed.

(** An ascending sequence holds at most one element equal to [v]; the
    elements before it are below [v] and those after it above. *)
Lemma ascending_split_at v l1 x l2 :
  ascending cmp (l1 ++ x :: l2) → cmp v x = 0%Z →
  seq_has cmp v l1 = false ∧ seq_has cmp v l2 = false.
Proof.
  rewrite ascending_app_cons. intros (_ & _ & H1 & H2) Heq.
  rewrite !seq_has_false. split.
  - eapply Forall_impl; [exact H1|]. intros y Hy Hvy.
    apply (cmp_irrefl y). apply (cmp_lt_eq y x y); [done|].
    apply (cmp_eq_trans x v y); [by apply cmp_eq_sym | done].
  - eapply Forall_impl; [exact H2|]. intros y Hy Hvy.
    apply (cmp_irrefl x). apply (cmp_lt_eq x y x); [done|].
    apply cmp_eq_sym. apply (cmp_eq_trans x v y); [by apply cmp_eq_sym | done].
Qed.

Lemma seq_erase_found v l1 x l2 :
  ascending cmp (l1 ++ x :: l2) → cmp v x = 0%Z →
  seq_erase cmp v (l1 ++ x :: l2) = l1 ++ l2.
Proof.
  intros Hasc Heq. destruct (ascending_split_at v l1 x l2) as [H1 H2]; [done..|].
  rewrite seq_erase_app. simpl. rewrite bool_decide_true by done.
  by rewrite !seq_erase_absent.
Qed.

End seq_facts.

(** * Facts about trees in the store *)

Section tree_facts.
Context {T : Type}.

Local Abbreviation heap := (gmap positive (node T)).
Implicit Types (h : heap) (a b : atree T) (p q : positive).

Lemma shape_insert h q (nd : node T) p :
  shape (<[q := nd]> h) p =
  if decide (q = p) then Some (m_left nd, m_right nd, m_value nd)
  else shape h p.
Proof.
  unfold shape. rewrite lookup_insert. by case_decide.
Qed.

Lemma shape_insert_ne h q (nd : node T) p :
  q ≠ p → shape (<[q := nd]> h) p = shape h p.
Proof. intros. rewrite shape_insert. by case_decide. Qed.

Lemma shape_delete_ne h q p : q ≠ p → shape (delete q h) p = shape h p.
Proof. intros. unfold shape. by rewrite lookup_delete_ne. Qed.

Lemma shape_lookup h p (nd : node T) :
  h !! p = Some nd → shape h p = Some (m_left nd, m_right nd, m_value nd).
Proof. intros Hp. unfold shape. by rewrite Hp. Qed.

Lemma shape_Some h p sl sr v :
  shape h p = Some (sl, sr, v) →
  ∃ k, h !! p = Some (mk_node sl sr v k).
Proof.
  unfold shape. destruct (h !! p) as [[l r x k]|]; simpl; [|done].
  intros [= -> -> ->]. by exists k.
Qed.

Lemma rc_of_insert h q (nd : node T) p :
  rc_of (<[q := nd]> h) p = if decide (q = p) then m_rc nd else rc_of h p.
Proof. unfold rc_of. rewrite lookup_insert. by case_decide. Qed.

Lemma rc_of_lookup h p (nd : node T) : h !! p = Some nd → rc_of h p = m_rc nd.
Proof. intros Hp. unfold rc_of. by rewrite Hp. Qed.

Lemma repr_frame h h' a :
  (∀ q, q ∈ ptrs a → shape h' q = shape h q) → repr h a → repr h' a.
Proof.
  induction a as [|l IHl p v r IHr]; simpl; [done|].
  intros Hsame (Hp & Hl & Hr). split_and!.
  - rewrite Hsame; [done|]. set_solver.
  - apply IHl; [|done]. intros q Hq. apply Hsame. set_solver.
  - apply IHr; [|done]. intros q Hq. apply Hsame. set_solver.
Qed.

Lemma repr_allocated h a q : repr h a → q ∈ ptrs a → is_Some (h !! q).
Proof.
  induction a as [|l IHl p v r IHr]; simpl.
  - intros _ Hq. by apply elem_of_nil in Hq.
  - intros (Hp & Hl & Hr) Hq.
    apply elem_of_app in Hq as [Hq|[->|Hq]%elem_of_cons]; auto.
    apply shape_Some in Hp as [k ->]. eauto.
Qed.

Lemma repr_fresh h a : repr h a → fresh (dom h) ∉ ptrs a.
Proof.
  intros Hrepr Hin. apply (repr_allocated _ _ _ Hrepr) in Hin.
  apply elem_of_dom in Hin. by apply is_fresh in Hin.
Qed.

(** The value stored at a node of [a] is one of the values of [a]. *)
Lemma repr_value h a q :
  repr h a → q ∈ ptrs a → ∃ sl sr v, shape h q = Some (sl, sr, v) ∧ v ∈ vals a.
Proof.
  induction a as [|l IHl p v r IHr]; simpl.
  - intros _ Hq. by apply elem_of_nil in Hq.
  - intros (Hp & Hl & Hr) Hq.
    apply elem_of_app in Hq as [Hq|[->|Hq]%elem_of_cons].
    + destruct (IHl Hl Hq) as (sl & sr & x & ? & ?).
      exists sl, sr, x. split; [done|]. set_solver.
    + exists (root l), (root r), v. split; [done|]. set_solver.
    + destruct (IHr Hr Hq) as (sl & sr & x & ? & ?).
      exists sl, sr, x. split; [done|]. set_solver.
Qed.

(** A node of [a] is its root or the child of a node of [a]. *)
Lemma repr_parent h a q :
  repr h a → q ∈ ptrs a →
  root a = Some q ∨
  ∃ x sl sr v, x ∈ ptrs a ∧ shape h x = Some (sl, sr, v) ∧
    (sl = Some q ∨ sr = Some q).
Proof.
  induction a as [|l IHl p v r IHr]; simpl.
  - intros _ Hq. by apply elem_of_nil in Hq.
  - intros (Hp & Hl & Hr) Hq.
    apply elem_of_app in Hq as [Hq|[->|Hq]%elem_of_cons]; [|by left|].
    + right. destruct (IHl Hl Hq) as [Hroot|(x & sl & sr & y & ? & ? & ?)].
      * exists p, (root l), (root r), v. split_and!; [set_solver|done|by left].
      * exists x, sl, sr, y. split_and!; [set_solver|done..].
    + right. destruct (IHr Hr Hq) as [Hroot|(x & sl & sr & y & ? & ? & ?)].
      * exists p, (root l), (root r), v. split_and!; [set_solver|done|by right].
      * exists x, sl, sr, y. split_and!; [set_solver|done..].
Qed.

Lemma root_in_ptrs a p : root a = Some p → p ∈ ptrs a.
Proof. destruct a; simpl; [done|]. intros [= ->]. set_solver. Qed.

Lemma height_le_ptrs a : height a ≤ length (ptrs a).
Proof.
  induction a as [|l IHl p v r IHr]; simpl; [done|].
  rewrite length_app. simpl. lia.
Qed.

Lemma NoDup_allocated_size h (l : list positive) :
  NoDup l → (∀ q, q ∈ l → is_Some (h !! q)) → length l ≤ size h.
Proof.
  intros Hnd Hin. rewrite <-size_dom, <-(size_list_to_set (C:=gset positive)) by done.
  apply subseteq_size. intros q Hq. apply elem_of_list_to_set in Hq.
  by apply elem_of_dom, Hin.
Qed.

Lemma vals_plug (ctx : list (frame T)) :
  ∃ l1 l2, ∀ a, vals (plug ctx a) = l1 ++ vals a ++ l2.
Proof.
  induction ctx as [|f ctx IH].
  - exists [], []. intros a. simpl. by rewrite app_nil_r.
  - destruct IH as (l1 & l2 & IH). unfold plug in *. simpl.
    unfold plug_frame. destruct (f_right f).
    + exists (l1 ++ vals (f_other f) ++ [f_value f]), l2. intros a.
      rewrite IH. simpl. by rewrite <-!app_assoc.
    + exists l1, (f_value f :: vals (f_other f) ++ l2). intros a.
      rewrite IH. simpl. by rewrite <-!app_assoc.
Qed.

Lemma ptrs_plug (ctx : list (frame T)) :
  ∃ l1 l2, ∀ a, ptrs (plug ctx a) = l1 ++ ptrs a ++ l2.
Proof.
  induction ctx as [|f ctx IH].
  - exists [], []. intros a. simpl. by rewrite app_nil_r.
  - destruct IH as (l1 & l2 & IH). unfold plug in *. simpl.
    unfold plug_frame. destruct (f_right f).
    + exists (l1 ++ ptrs (f_other f) ++ [f_node f]), l2. intros a.
      rewrite IH. simpl. by rewrite <-!app_assoc.
    + exists l1, (f_node f :: ptrs (f_other f) ++ l2). intros a.
      rewrite IH. simpl. by rewrite <-!app_assoc.
Qed.

End tree_facts.

Section order_facts.
Context {T : Type} {cmp : T → T → Z} `{!Comparator cmp}.

Local Abbreviation heap := (gmap positive (node T)).
Implicit Types (h : heap) (a b : atree T) (p q : positive).

(** Two trees whose values are separated by the order share no node. *)
Lemma repr_separated h a b :
  repr h a → repr h b →
  (∀ x y, x ∈ vals a → y ∈ vals b → lt cmp x y) →
  ∀ q, q ∈ ptrs a → q ∉ ptrs b.
Proof.
  intros Ha Hb Hlt q Hqa Hqb.
  destruct (repr_value h a q Ha Hqa) as (sl & sr & x & Hx & Hxa).
  destruct (repr_value h b q Hb Hqb) as (sl' & sr' & y & Hy & Hyb).
  rewrite Hx in Hy. injection Hy as -> -> ->.
  by apply (cmp_irrefl y), Hlt.
Qed.

(** A tree in BST order has no node twice. *)
Lemma ptrs_NoDup h a : repr h a → ascending cmp (vals a) → NoDup (ptrs a).
Proof.
  induction a as [|l IHl p v r IHr]; simpl; [constructor|].
  intros (Hp & Hl & Hr). rewrite ascending_app_cons.
  intros (Hal & Har & Hlv & Hvr). rewrite Forall_forall in Hlv, Hvr.
  assert (p ∉ ptrs l) as Hpl.
  { intros Hin. destruct (repr_value h l p Hl Hin) as (sl & sr & x & Hx & Hxl).
    rewrite Hp in Hx. injection Hx as _ _ <-.
    by apply (cmp_irrefl v), Hlv. }
  assert (p ∉ ptrs r) as Hpr.
  { intros Hin. destruct (repr_value h r p Hr Hin) as (sl & sr & x & Hx & Hxr).
    rewrite Hp in Hx. injection Hx as _ _ <-.
    by apply (cmp_irrefl v), Hvr. }
  apply NoDup_app. split_and!.
  - by apply IHl.
  - intros q Hql [->|Hqr]%elem_of_cons; [done|].
    revert Hqr. eapply (repr_separated h l r); [done..| |done].
    intros x y Hx Hy. apply (cmp_trans x v y); [by apply Hlv | by apply Hvr].
  - apply NoDup_cons. split; [done | by apply IHr].
Qed.

Lemma tree_fits h a : repr h a → ascending cmp (vals a) → height a ≤ size h.
Proof.
  intros Hrepr Hasc. etrans; [apply height_le_ptrs|].
  apply NoDup_allocated_size; [by eapply ptrs_NoDup|].
  intros q. by apply repr_allocated.
Qed.

Lemma ascending_locally_ordered a : ascending cmp (vals a) → locally_ordered cmp a.
Proof.
  induction a as [|l IHl p v r IHr]; simpl; [done|].
  rewrite ascending_app_cons. intros (Hal & Har & Hlv & Hvr).
  rewrite Forall_forall in Hlv, Hvr. split_and!; auto.
  - destruct l as [|? ? x ?]; [done|]. apply Hlv. simpl. set_solver.
  - destruct r as [|? ? x ?]; [done|]. apply Hvr. simpl. set_solver.
Qed.

End order_facts.

Section splay_facts.
Context {T : Type}.

Implicit Types (a A B : atree T) (ctx : list (frame T)).

Lemma list_pair_ind {X} (P : list X → Prop) :
  P [] → (∀ x, P [x]) → (∀ x y l, P l → P (x :: y :: l)) → ∀ l, P l.
Proof.
  intros Hnil Hone Hstep l.
  cut (P l ∧ ∀ x, P (x :: l)); [by intros [? _]|].
  induction l as [|y l [IH1 IH2]]; split; auto.
Qed.

Lemma plug_cons f ctx a : plug (f :: ctx) a = plug ctx (plug_frame f a).
Proof. done. Qed.

Lemma plug_app ctx1 ctx2 a : plug (ctx1 ++ ctx2) a = plug ctx2 (plug ctx1 a).
Proof. unfold plug. by rewrite foldl_app. Qed.

Lemma rotate2_vals g p A n x B :
  vals (rotate2 g p A B).1 ++ x :: vals (rotate2 g p A B).2 =
  vals (plug_frame g (plug_frame p (ANode A n x B))).
Proof.
  unfold rotate2, plug_frame.
  destruct (f_right g), (f_right p); simpl;
    repeat first [rewrite <-app_assoc | progress simpl]; done.
Qed.

Lemma rotate2_ptrs g p A n x B :
  ptrs (rotate2 g p A B).1 ++ n :: ptrs (rotate2 g p A B).2 =
  ptrs (plug_frame g (plug_frame p (ANode A n x B))).
Proof.
  unfold rotate2, plug_frame.
  destruct (f_right g), (f_right p); simpl;
    repeat first [rewrite <-app_assoc | progress simpl]; done.
Qed.

Lemma splay_vals ctx A n x B :
  vals (splay ctx A n x B) = vals (plug ctx (ANode A n x B)).
Proof.
  revert A B. induction ctx as [|p|p g ctx IH] using list_pair_ind; intros A B.
  - done.
  - simpl. unfold rotate1, plug, plug_frame. simpl.
    destruct (f_right p); simpl; by rewrite <-?app_assoc.
  - rewrite !plug_cons. destruct (vals_plug ctx) as (l1 & l2 & Hplug).
    rewrite Hplug, <-(rotate2_vals g p A n x B). cbn [splay].
    destruct (rotate2 g p A B) as [A' B']. by rewrite IH, Hplug.
Qed.

Lemma splay_ptrs ctx A n x B :
  ptrs (splay ctx A n x B) = ptrs (plug ctx (ANode A n x B)).
Proof.
  revert A B. induction ctx as [|p|p g ctx IH] using list_pair_ind; intros A B.
  - done.
  - simpl. unfold rotate1, plug, plug_frame. simpl.
    destruct (f_right p); simpl; by rewrite <-?app_assoc.
  - rewrite !plug_cons. destruct (ptrs_plug ctx) as (l1 & l2 & Hplug).
    rewrite Hplug, <-(rotate2_ptrs g p A n x B). cbn [splay].
    destruct (rotate2 g p A B) as [A' B']. by rewrite IH, Hplug.
Qed.

Lemma splay_root ctx A n x B : root (splay ctx A n x B) = Some n.
Proof.
  revert A B. induction ctx as [|p|p g ctx IH] using list_pair_ind; intros A B.
  - done.
  - simpl. by destruct (rotate1 p A B).
  - simpl. destruct (rotate2 g p A B). apply IH.
Qed.

Lemma ptrs_plug_perm ctx a : ptrs (plug ctx a) ≡ₚ ptrs a ++ ctx_ptrs ctx.
Proof.
  revert a. induction ctx as [|f ctx IH]; intros a.
  - simpl. by rewrite app_nil_r.
  - rewrite plug_cons, IH. unfold ctx_ptrs. simpl. fold (ctx_ptrs ctx).
    unfold plug_frame. destruct (f_right f); simpl; solve_Permutation.
Qed.

End splay_facts.

(** * Counting references *)

Section count_facts.
Context {T : Type}.

Local Abbreviation heap := (gmap positive (node T)).
Implicit Types (h : heap) (p q x : positive).
Implicit Types (lk : gmap positive (option positive * option positive)).

Lemma slot_refs_insert_fresh lk x s p :
  lk !! x = None →
  slot_refs (<[x := s]> lk) p = slot_count s p + slot_refs lk p.
Proof.
  intros Hx. unfold slot_refs.
  rewrite map_fold_insert_L; [done| |done]. intros. lia.
Qed.

Lemma slot_refs_delete lk x s p :
  lk !! x = Some s →
  slot_refs lk p = slot_count s p + slot_refs (delete x lk) p.
Proof.
  intros Hx. unfold slot_refs.
  rewrite (map_fold_delete_L _ _ x s lk); [done| |done]. intros. lia.
Qed.

Lemma slot_refs_update lk x s s' p :
  lk !! x = Some s →
  slot_refs (<[x := s']> lk) p + slot_count s p =
  slot_refs lk p + slot_count s' p.
Proof.
  intros Hx. rewrite (slot_refs_delete lk x s p Hx).
  rewrite <-(insert_delete_eq lk x s').
  rewrite slot_refs_insert_fresh by apply lookup_delete_eq. lia.
Qed.

Lemma links_lookup h x :
  links h !! x = (λ nd, (m_left nd, m_right nd)) <$> h !! x.
Proof. unfold links. by rewrite lookup_fmap. Qed.

Lemma links_insert h x (nd : node T) :
  links (<[x := nd]> h) = <[x := (m_left nd, m_right nd)]> (links h).
Proof. unfold links. by rewrite fmap_insert. Qed.

Lemma links_delete h x : links (delete x h) = delete x (links h).
Proof. unfold links. by rewrite fmap_delete. Qed.

Lemma heap_refs_insert_fresh h x (nd : node T) p :
  h !! x = None →
  heap_refs (<[x := nd]> h) p =
  slot_count (m_left nd, m_right nd) p + heap_refs h p.
Proof.
  intros Hx. unfold heap_refs. rewrite links_insert.
  apply slot_refs_insert_fresh. by rewrite links_lookup, Hx.
Qed.

Lemma heap_refs_delete h x (nd : node T) p :
  h !! x = Some nd →
  heap_refs h p =
  slot_count (m_left nd, m_right nd) p + heap_refs (delete x h) p.
Proof.
  intros Hx. unfold heap_refs. rewrite links_delete.
  apply slot_refs_delete. by rewrite links_lookup, Hx.
Qed.

Lemma heap_refs_update h x (nd nd' : node T) p :
  h !! x = Some nd →
  heap_refs (<[x := nd']> h) p + slot_count (m_left nd, m_right nd) p =
  heap_refs h p + slot_count (m_left nd', m_right nd') p.
Proof.
  intros Hx. unfold heap_refs. rewrite links_insert.
  apply slot_refs_update. by rewrite links_lookup, Hx.
Qed.

(** A write that keeps both child pointers keeps every count. *)
Lemma heap_refs_same_links h x (nd nd' : node T) p :
  h !! x = Some nd →
  m_left nd' = m_left nd → m_right nd' = m_right nd →
  heap_refs (<[x := nd']> h) p = heap_refs h p.
Proof.
  intros Hx Hl Hr. pose proof (heap_refs_update h x nd nd' p Hx) as Hupd.
  rewrite Hl, Hr in Hupd. lia.
Qed.

Lemma heap_refs_ge h x (nd : node T) p :
  h !! x = Some nd → slot_count (m_left nd, m_right nd) p ≤ heap_refs h p.
Proof. intros Hx. rewrite (heap_refs_delete h x nd p Hx). lia. Qed.

Lemma heap_refs_ge2 h x y (ndx ndy : node T) p :
  x ≠ y → h !! x = Some ndx → h !! y = Some ndy →
  slot_count (m_left ndx, m_right ndx) p +
  slot_count (m_left ndy, m_right ndy) p ≤ heap_refs h p.
Proof.
  intros Hne Hx Hy. rewrite (heap_refs_delete h x ndx p Hx).
  assert (delete x h !! y = Some ndy) as Hy' by by rewrite lookup_delete_ne.
  rewrite (heap_refs_delete _ y ndy p Hy'). lia.
Qed.

Lemma root_refs_app roots1 roots2 p :
  root_refs (roots1 ++ roots2) p = root_refs roots1 p + root_refs roots2 p.
Proof. induction roots1 as [|r roots1 IH]; simpl; [done|]. rewrite IH. lia. Qed.

Lemma root_refs_ge roots p : Some p ∈ roots → 1 ≤ root_refs roots p.
Proof.
  induction roots as [|r roots IH]; simpl.
  - intros Hin. by apply elem_of_nil in Hin.
  - intros [<-|Hin]%elem_of_cons.
    + rewrite decide_True by done. lia.
    + apply IH in Hin. lia.
Qed.

Lemma root_refs_perm roots1 roots2 p :
  roots1 ≡ₚ roots2 → root_refs roots1 p = root_refs roots2 p.
Proof. induction 1; simpl; lia. Qed.

Lemma slot_count_pair (sl sr : option positive) p :
  slot_count (sl, sr) p =
  (if decide (sl = Some p) then 1 else 0) + (if decide (sr = Some p) then 1 else 0).
Proof. done. Qed.

Lemma slot_count_points (sl sr : option positive) p :
  sl = Some p ∨ sr = Some p → 1 ≤ slot_count (sl, sr) p.
Proof.
  rewrite slot_count_pair. intros [->| ->]; repeat case_decide; try done; lia.
Qed.

End count_facts.

(** * The primitive operations *)

Section prim_facts.
Context {T : Type}.

Local Abbreviation heap := (gmap positive (node T)).
Implicit Types (h : heap) (p q x : positive) (o : option positive).

Lemma lookup_shape_rc h p sl sr (v : T) k :
  shape h p = Some (sl, sr, v) → rc_of h p = k →
  h !! p = Some (mk_node sl sr v k).
Proof.
  intros [k' Hp]%shape_Some Hrc.
  rewrite (rc_of_lookup _ _ _ Hp) in Hrc. simpl in Hrc. by subst.
Qed.

Lemma shape_rc_lookup h p (nd : node T) :
  h !! p = Some nd →
  shape h p = Some (m_left nd, m_right nd, m_value nd) ∧ rc_of h p = m_rc nd.
Proof. intros Hp. by rewrite (shape_lookup _ _ _ Hp), (rc_of_lookup _ _ _ Hp). Qed.

Lemma shape_is_Some h p : is_Some (shape h p) ↔ is_Some (h !! p).
Proof. unfold shape. by rewrite fmap_is_Some. Qed.

Lemma same_shapes_links h h' :
  (∀ q, shape h' q = shape h q) → links h' = links h.
Proof.
  intros Hsame. apply map_eq. intros q. rewrite !links_lookup.
  specialize (Hsame q). unfold shape in Hsame.
  destruct (h' !! q), (h !! q); simplify_eq/=; [|done]. congruence.
Qed.

Lemma same_shapes_heap_refs h h' p :
  (∀ q, shape h' q = shape h q) → heap_refs h' p = heap_refs h p.
Proof. intros Hsame. unfold heap_refs. by rewrite (same_shapes_links h h'). Qed.

Lemma same_shapes_dom h h' :
  (∀ q, shape h' q = shape h q) → dom h' = dom h.
Proof.
  intros Hsame. apply set_eq. intros q.
  by rewrite !elem_of_dom, <-!shape_is_Some, Hsame.
Qed.

Lemma rc_of_fresh h : rc_of h (fresh (dom h)) = 0.
Proof.
  unfold rc_of. destruct (h !! fresh (dom h)) eqn:Hp; [|done].
  exfalso. apply (is_fresh (dom h)). apply elem_of_dom. eauto.
Qed.

Lemma lookup_fresh h : h !! fresh (dom h) = None.
Proof. apply not_elem_of_dom, is_fresh. Qed.

Lemma node_inc_ref_spec h p :
  is_Some (h !! p) →
  ∃ h', node_inc_ref p h = Some h' ∧
    (∀ q, shape h' q = shape h q) ∧
    (∀ q, rc_of h' q = rc_of h q + if decide (p = q) then 1 else 0).
Proof.
  intros [nd Hp]. unfold node_inc_ref. rewrite Hp. simpl.
  eexists. split; [done|]. split; intros q.
  - rewrite shape_insert. case_decide; [|done]. subst.
    by rewrite (shape_lookup _ _ _ Hp).
  - rewrite rc_of_insert. case_decide; [|lia]. subst.
    rewrite (rc_of_lookup _ _ _ Hp). simpl. lia.
Qed.

Lemma inc_ref_spec h o :
  (∀ p, o = Some p → is_Some (h !! p)) →
  ∃ h', inc_ref o h = Some h' ∧
    (∀ q, shape h' q = shape h q) ∧
    (∀ q, rc_of h' q = rc_of h q + if decide (o = Some q) then 1 else 0).
Proof.
  intros Ho. destruct o as [p|]; simpl.
  - destruct (node_inc_ref_spec h p) as (h' & ? & ? & Hrc); [by apply Ho|].
    exists h'. split_and!; [done..|]. intros q. rewrite Hrc.
    repeat case_decide; simplify_eq; done.
  - exists h. split_and!; [done..|]. intros q. lia.
Qed.

(** Releasing a reference to a shared node only lowers its counter. *)
Lemma dec_ref_fuel_shared fuel h o :
  (∀ p, o = Some p → 1 < rc_of h p) →
  ∃ h', dec_ref_fuel fuel o h = Some h' ∧
    (∀ q, shape h' q = shape h q) ∧
    (∀ q, rc_of h' q + (if decide (o = Some q) then 1 else 0) = rc_of h q).
Proof.
  intros Ho. destruct o as [p|].
  - specialize (Ho p eq_refl). unfold rc_of in Ho.
    destruct (h !! p) as [nd|] eqn:Hp; [|lia].
    destruct fuel; simpl; rewrite Hp; simpl;
      rewrite (bool_decide_true (0 < m_rc nd)) by lia; simpl;
      rewrite (bool_decide_false (m_rc nd = 1)) by lia.
    all: eexists; split; [done|]; split; intros q.
    all: rewrite ?shape_insert, ?rc_of_insert; repeat case_decide; simplify_eq;
      rewrite ?(shape_lookup _ _ _ Hp), ?(rc_of_lookup _ _ _ Hp); simpl;
      try done; lia.
  - exists h. destruct fuel; simpl; split_and!; try done; intros q; lia.
Qed.

Lemma dec_ref_shared h o :
  (∀ p, o = Some p → 1 < rc_of h p) →
  ∃ h', dec_ref o h = Some h' ∧
    (∀ q, shape h' q = shape h q) ∧
    (∀ q, rc_of h' q + (if decide (o = Some q) then 1 else 0) = rc_of h q).
Proof. apply dec_ref_fuel_shared. Qed.

Lemma new_node_spec h (v : T) l r :
  (∀ p, l = Some p → is_Some (h !! p)) →
  (∀ p, r = Some p → is_Some (h !! p)) →
  ∃ h', new_node v l r h = Some (h', fresh (dom h)) ∧
    (∀ q, shape h' q =
          if decide (q = fresh (dom h)) then Some (l, r, v) else shape h q) ∧
    (∀ q, rc_of h' q = rc_of h q + slot_count (l, r) q) ∧
    (∀ q, heap_refs h' q = heap_refs h q + slot_count (l, r) q).
Proof.
  intros Hl Hr. unfold new_node.
  set (p' := fresh (dom h)). set (h0 := <[p' := mk_node l r v 0]> h).
  assert (h !! p' = None) as Hfresh by apply lookup_fresh.
  assert (∀ o, (∀ p, o = Some p → is_Some (h !! p)) →
          ∀ h1, dom h1 = dom h0 → ∀ p, o = Some p → is_Some (h1 !! p)) as Halloc.
  { intros o Ho h1 Hdom p ->. apply elem_of_dom. rewrite Hdom.
    unfold h0. rewrite dom_insert. apply elem_of_union_r, elem_of_dom. eauto. }
  destruct (inc_ref_spec h0 l) as (h1 & -> & Hs1 & Hrc1); [by eapply Halloc|].
  destruct (inc_ref_spec h1 r) as (h2 & Hinc2 & Hs2 & Hrc2).
  { eapply Halloc; [done|]. by apply same_shapes_dom. }
  simpl. rewrite Hinc2. simpl. exists h2. split; [done|].
  assert (∀ q, shape h2 q = shape h0 q) as Hs by (intros; by rewrite Hs2, Hs1).
  split_and!; intros q.
  - rewrite Hs. unfold h0. rewrite shape_insert.
    repeat case_decide; simplify_eq; done.
  - rewrite Hrc2, Hrc1. unfold h0. rewrite rc_of_insert, slot_count_pair. simpl.
    case_decide; simpl; [|lia]. subst q.
    rewrite (decide_False (P := l = Some p')), (decide_False (P := r = Some p')).
    + unfold rc_of. rewrite Hfresh. lia.
    + intros ->. destruct (Hr p' eq_refl). congruence.
    + intros ->. destruct (Hl p' eq_refl). congruence.
  - rewrite (same_shapes_heap_refs h0 h2) by done. unfold h0.
    rewrite heap_refs_insert_fresh by done. simpl. lia.
Qed.

Lemma store_spec h p (f : node T → node T) sl sr v :
  shape h p = Some (sl, sr, v) → rc_of h p ≤ 1 →
  store p f h = Some (<[p := f (mk_node sl sr v (rc_of h p))]> h).
Proof.
  intros Hs Hrc. unfold store.
  rewrite (lookup_shape_rc h p sl sr v _ Hs eq_refl). simpl.
  unfold is_shared. simpl. rewrite bool_decide_false by lia. done.
Qed.

Lemma update_spec h n l r sl sr (v : T) :
  shape h n = Some (sl, sr, v) → rc_of h n ≤ 1 →
  update n l r h = Some (<[n := mk_node l r v (rc_of h n)]> h).
Proof.
  intros Hs Hrc. unfold update.
  rewrite (lookup_shape_rc h n sl sr v _ Hs eq_refl). simpl.
  unfold is_shared at 1. simpl. rewrite bool_decide_false by lia. simpl.
  erewrite store_spec by done. simpl.
  erewrite store_spec; cycle 1.
  { by rewrite shape_insert, decide_True. }
  { rewrite rc_of_insert, decide_True by done. done. }
  rewrite rc_of_insert, decide_True by done. simpl.
  by rewrite insert_insert_eq.
Qed.

End prim_facts.

(** * [splay_to_top] on the store *)

Section splay_heap.
Context {T : Type}.

Local Abbreviation heap := (gmap positive (node T)).
Implicit Types (h : heap) (p q x n : positive) (o : option positive).
Implicit Types (a A B : atree T) (ctx : list (frame T)) (f g : frame T).

Lemma update_effect h n l r sl sr (v : T) :
  shape h n = Some (sl, sr, v) → rc_of h n ≤ 1 →
  ∃ h', update n l r h = Some h' ∧
    (∀ q, shape h' q = if decide (q = n) then Some (l, r, v) else shape h q) ∧
    (∀ q, rc_of h' q = rc_of h q).
Proof.
  intros Hs Hrc. rewrite (update_spec h n l r sl sr v Hs Hrc).
  eexists. split; [done|]. split; intros q.
  - rewrite shape_insert. repeat case_decide; simplify_eq; done.
  - rewrite rc_of_insert. case_decide; by simplify_eq.
Qed.

Lemma is_shared_false sl sr (v : T) k :
  k ≤ 1 → is_shared (mk_node sl sr v k) = false.
Proof. intros. unfold is_shared. simpl. by rewrite bool_decide_false by lia. Qed.

Lemma lean_assert_true (b : bool) : b = true → lean_assert b = Some tt.
Proof. by intros ->. Qed.

(** What a path of two frames and its subtrees being free of repetitions
    gives to one round of the loop. *)
Lemma round_separation A n B f g :
  NoDup (ptrs A ++ n :: ptrs B ++ ctx_ptrs [f; g]) →
  (n ≠ f_node f ∧ n ≠ f_node g ∧ f_node f ≠ f_node g) ∧
  (∀ a q, a ∈ [A; B; f_other f; f_other g] → q ∈ ptrs a →
     q ≠ n ∧ q ≠ f_node f ∧ q ≠ f_node g).
Proof.
  unfold ctx_ptrs. simpl. rewrite app_nil_r.
  repeat first [rewrite NoDup_app | rewrite NoDup_cons].
  intros Hnd. split.
  - split_and!; intros Heq; rewrite Heq in *; set_solver.
  - intros a q Ha Hq. repeat apply elem_of_cons in Ha as [->|Ha];
      [..|by apply elem_of_nil in Ha]; split_and!; intros ->; set_solver.
Qed.

Lemma path_entry_lookup h f nxt :
  shape h (f_node f) = Some (
    if f_right f then (root (f_other f), nxt, f_value f)
    else (nxt, root (f_other f), f_value f)) →
  rc_of h (f_node f) = 1 →
  h !! f_node f = Some (
    if f_right f then mk_node (root (f_other f)) nxt (f_value f) 1
    else mk_node nxt (root (f_other f)) (f_value f) 1).
Proof.
  intros Hs Hrc. destruct (f_right f); by apply lookup_shape_rc.
Qed.

(** One round of the loop of [splay_to_top] performs [rotate2]. *)
Lemma splay_step_spec h (g p : frame T) n A B (x : T) nxt :
  path_ok h [p; g] nxt →
  shape h n = Some (root A, root B, x) → rc_of h n = 1 →
  repr h A → repr h B →
  NoDup (ptrs A ++ n :: ptrs B ++ ctx_ptrs [p; g]) →
  ∃ h',
    splay_step (mk_entry (f_right g) (f_node g))
      (mk_entry (f_right p) (f_node p)) n h = Some h' ∧
    shape h' n = Some (root (rotate2 g p A B).1, root (rotate2 g p A B).2, x) ∧
    repr h' (rotate2 g p A B).1 ∧ repr h' (rotate2 g p A B).2 ∧
    (∀ q, rc_of h' q = rc_of h q) ∧
    (∀ q, q ≠ n → q ≠ f_node p → q ≠ f_node g → shape h' q = shape h q).
Proof.
  intros (Hp & Hrcp & HOp & Hg & Hrcg & HOg & _) Hn Hrcn HA HB Hnd.
  apply round_separation in Hnd as ((Hnp & Hng & Hpg) & Hsep).
  pose proof (path_entry_lookup h p nxt Hp Hrcp) as Hlp.
  pose proof (path_entry_lookup h g _ Hg Hrcg) as Hlg.
  pose proof (lookup_shape_rc h n _ _ _ _ Hn Hrcn) as Hln.
  assert (∀ h1 a, a ∈ [A; B; f_other p; f_other g] → repr h a →
    (∀ q, q ≠ n → q ≠ f_node p → q ≠ f_node g → shape h1 q = shape h q) →
    repr h1 a) as Hframe.
  { intros h1 a Ha Hrepr Hsame. eapply repr_frame; [|done].
    intros q Hq. destruct (Hsep a q Ha Hq) as (? & ? & ?). by apply Hsame. }
  unfold splay_step, rotate2. simpl. rewrite Hlg, Hlp, Hln.
  destruct (f_right g), (f_right p); simpl;
    rewrite ?is_shared_false by lia; simpl;
    rewrite ?bool_decide_true by done; simpl.
  all: match goal with
       | |- ∃ _, (update ?x ?l ?r ?h0 ≫= _) = _ ∧ _ =>
         edestruct (update_effect h0 x l r) as (h1 & -> & Hs1 & Hrc1);
           [done|lia|]; simpl
       end.
  all: match goal with
       | |- ∃ _, (update ?x ?l ?r ?h0 ≫= _) = _ ∧ _ =>
         edestruct (update_effect h0 x l r) as (h2 & -> & Hs2 & Hrc2);
           [by rewrite Hs1, decide_False by done|rewrite Hrc1; lia|]; simpl
       end.
  all: match goal with
       | |- ∃ _, update ?x ?l ?r ?h0 = _ ∧ _ =>
         edestruct (update_effect h0 x l r) as (h3 & -> & Hs3 & Hrc3);
           [by rewrite Hs2, Hs1, !decide_False by done|
            rewrite Hrc2, Hrc1; lia|]
       end.
  all: assert (∀ q, q ≠ n → q ≠ f_node p → q ≠ f_node g →
                shape h3 q = shape h q) as Hsame
    by (intros q ? ? ?; by rewrite Hs3, Hs2, Hs1, !decide_False by done).
  all: exists h3; split; [done|]; split;
    [by rewrite Hs3, decide_True by done|].
  all: split_and!; [..|intros q; by rewrite Hrc3, Hrc2, Hrc1|done].
  all: simpl; split_and?;
    try (apply Hframe; [set_solver|done..]).
  all: rewrite Hs3, ?Hs2, ?Hs1;
    repeat (case_decide; simplify_eq); done.
Qed.

(** The last step of [splay_to_top] performs [rotate1]. *)
Lemma splay_zig_spec h (p : frame T) n A B (x : T) nxt :
  path_ok h [p] nxt →
  shape h n = Some (root A, root B, x) → rc_of h n = 1 →
  repr h A → repr h B →
  NoDup (ptrs A ++ n :: ptrs B ++ ctx_ptrs [p]) →
  ∃ h',
    splay_zig (mk_entry (f_right p) (f_node p)) n h = Some h' ∧
    shape h' n = Some (root (rotate1 p A B).1, root (rotate1 p A B).2, x) ∧
    repr h' (rotate1 p A B).1 ∧ repr h' (rotate1 p A B).2 ∧
    (∀ q, rc_of h' q = rc_of h q) ∧
    (∀ q, q ≠ n → q ≠ f_node p → shape h' q = shape h q).
Proof.
  intros (Hp & Hrcp & HOp & _) Hn Hrcn HA HB Hnd.
  assert (n ≠ f_node p ∧
          ∀ a q, a ∈ [A; B; f_other p] → q ∈ ptrs a → q ≠ n ∧ q ≠ f_node p)
    as [Hnp Hsep].
  { revert Hnd. unfold ctx_ptrs. simpl. rewrite app_nil_r.
    repeat first [rewrite NoDup_app | rewrite NoDup_cons].
    intros Hnd. split.
    - intros Heq; rewrite Heq in *; set_solver.
    - intros a q Ha Hq. repeat apply elem_of_cons in Ha as [->|Ha];
        [..|by apply elem_of_nil in Ha]; split_and!; intros ->; set_solver. }
  pose proof (path_entry_lookup h p nxt Hp Hrcp) as Hlp.
  pose proof (lookup_shape_rc h n _ _ _ _ Hn Hrcn) as Hln.
  assert (∀ h1 a, a ∈ [A; B; f_other p] → repr h a →
    (∀ q, q ≠ n → q ≠ f_node p → shape h1 q = shape h q) →
    repr h1 a) as Hframe.
  { intros h1 a Ha Hrepr Hsame. eapply repr_frame; [|done].
    intros q Hq. destruct (Hsep a q Ha Hq) as (? & ?). by apply Hsame. }
  unfold splay_zig, rotate1. simpl. rewrite Hlp, Hln.
  destruct (f_right p); simpl.
  all: match goal with
       | |- ∃ _, (update ?x ?l ?r ?h0 ≫= _) = _ ∧ _ =>
         edestruct (update_effect h0 x l r) as (h1 & -> & Hs1 & Hrc1);
           [done|lia|]; simpl
       end.
  all: match goal with
       | |- ∃ _, update ?x ?l ?r ?h0 = _ ∧ _ =>
         edestruct (update_effect h0 x l r) as (h2 & -> & Hs2 & Hrc2);
           [by rewrite Hs1, decide_False by done|rewrite Hrc1; lia|]
       end.
  all: assert (∀ q, q ≠ n → q ≠ f_node p → shape h2 q = shape h q) as Hsame
    by (intros q ? ?; by rewrite Hs2, Hs1, !decide_False by done).
  all: exists h2; split; [done|]; split;
    [by rewrite Hs2, decide_True by done|].
  all: split_and!; [..|intros q; by rewrite Hrc2, Hrc1|done].
  all: simpl; split_and?;
    try (apply Hframe; [set_solver|done..]).
  all: rewrite Hs2, ?Hs1;
    repeat (case_decide; simplify_eq); done.
Qed.

Lemma path_ok_frame h h' ctx nxt :
  (∀ q, q ∈ ctx_ptrs ctx → shape h' q = shape h q ∧ rc_of h' q = rc_of h q) →
  path_ok h ctx nxt → path_ok h' ctx nxt.
Proof.
  revert nxt. induction ctx as [|f ctx IH]; intros nxt Hsame; simpl; [done|].
  unfold ctx_ptrs in Hsame. simpl in Hsame. fold (ctx_ptrs ctx) in Hsame.
  intros (Hf & Hrc & HO & Hrest).
  destruct (Hsame (f_node f)) as [-> ->]; [set_solver|]. split_and!; [done..| |].
  - eapply repr_frame; [|done]. intros q Hq. apply Hsame. set_solver.
  - apply IH; [|done]. intros q Hq. apply Hsame. set_solver.
Qed.

Lemma ctx_ptrs_cons f ctx :
  ctx_ptrs (f :: ctx) = f_node f :: ptrs (f_other f) ++ ctx_ptrs ctx.
Proof. done. Qed.

Lemma ctx_ptrs_app ctx1 ctx2 :
  ctx_ptrs (ctx1 ++ ctx2) = ctx_ptrs ctx1 ++ ctx_ptrs ctx2.
Proof. unfold ctx_ptrs. by rewrite bind_app. Qed.

Lemma path_node_in_ctx_ptrs f ctx : f ∈ ctx → f_node f ∈ ctx_ptrs ctx.
Proof.
  intros Hin. unfold ctx_ptrs. apply list_elem_of_bind.
  exists f. split; [|done]. set_solver.
Qed.

(** The loop of [splay_to_top] leaves at most one frame. *)
Lemma splay_loop_spec n (x : T) ctx :
  ∀ h A B nxt,
  path_ok h ctx nxt →
  shape h n = Some (root A, root B, x) → rc_of h n = 1 →
  repr h A → repr h B →
  NoDup (ptrs A ++ n :: ptrs B ++ ctx_ptrs ctx) →
  ∃ h' ctx' A' B' nxt',
    splay_loop (path_of ctx) n h = Some (path_of ctx', h') ∧
    length ctx' ≤ 1 ∧ ctx' ⊆ ctx ∧
    path_ok h' ctx' nxt' ∧
    shape h' n = Some (root A', root B', x) ∧
    repr h' A' ∧ repr h' B' ∧
    NoDup (ptrs A' ++ n :: ptrs B' ++ ctx_ptrs ctx') ∧
    splay ctx A n x B = splay ctx' A' n x B' ∧
    (∀ q, rc_of h' q = rc_of h q) ∧
    (∀ q, q ≠ n → q ∉ f_node <$> ctx → shape h' q = shape h q).
Proof.
  induction ctx as [|p|p g ctx IH] using list_pair_ind;
    intros h A B nxt Hpath Hn Hrcn HA HB Hnd.
  - exists h, [], A, B, nxt. simpl. split_and!; try done. lia.
  - exists h, [p], A, B, nxt. split_and!; try done.
  - destruct Hpath as (Hp & Hrcp & HOp & Hg & Hrcg & HOg & Hpath).
    assert (NoDup (ptrs A ++ n :: ptrs B ++ ctx_ptrs [p; g]) ∧
            ∀ q, q ∈ ctx_ptrs ctx → q ≠ n ∧ q ≠ f_node p ∧ q ≠ f_node g)
      as [Hnd2 Hsep].
    { assert ((ptrs A ++ n :: ptrs B ++ ctx_ptrs [p; g]) ++ ctx_ptrs ctx =
              ptrs A ++ n :: ptrs B ++ ctx_ptrs (p :: g :: ctx)) as Heq.
      { change (p :: g :: ctx) with ([p; g] ++ ctx). rewrite ctx_ptrs_app.
        repeat first [rewrite <-app_assoc | rewrite <-app_comm_cons]. done. }
      rewrite <-Heq in Hnd. apply NoDup_app in Hnd as (Hnd2 & Hsep & _).
      split; [done|]. intros q Hq.
      split_and!; intros ->; eapply Hsep; try done;
        unfold ctx_ptrs; simpl; set_solver. }
    destruct (splay_step_spec h g p n A B x nxt)
      as (h1 & Hstep & Hn1 & HA1 & HB1 & Hrc1 & Hs1); try done.
    destruct (IH h1 (rotate2 g p A B).1 (rotate2 g p A B).2 (Some (f_node g)))
      as (h' & ctx' & A' & B' & nxt' & Hloop & Hlen & Hsub & Hpath' & Hn' & HA' &
          HB' & Hnd' & Hsplay & Hrc' & Hs'); try done.
    { eapply path_ok_frame; [|done]. intros q Hq.
      destruct (Hsep q Hq) as (? & ? & ?). split; [by apply Hs1|by apply Hrc1]. }
    { by rewrite Hrc1. }
    { assert (ptrs (rotate2 g p A B).1 ++ n :: ptrs (rotate2 g p A B).2 ++
                ctx_ptrs ctx ≡ₚ
              ptrs A ++ n :: ptrs B ++ ctx_ptrs (p :: g :: ctx)) as Heq.
      { change (p :: g :: ctx) with ([p; g] ++ ctx). rewrite ctx_ptrs_app.
        rewrite app_comm_cons, app_assoc, (rotate2_ptrs g p A n x B).
        change (plug_frame g (plug_frame p (ANode A n x B)))
          with (plug [p; g] (ANode A n x B)).
        rewrite ptrs_plug_perm. simpl.
        repeat first [rewrite <-app_assoc | rewrite <-app_comm_cons]. done. }
      by rewrite Heq. }
    exists h', ctx', A', B', nxt'. split_and!; try done.
    + simpl. rewrite Hstep. simpl. done.
    + set_solver.
    + simpl. by destruct (rotate2 g p A B).
    + intros q. by rewrite Hrc', Hrc1.
    + intros q Hqn Hq. rewrite Hs', Hs1; set_solver.
Qed.

(** [splay_to_top] runs without a failed assertion and performs [splay];
    it writes to the path nodes and to [n] only, and to no counter. *)
Lemma splay_to_top_spec h ctx n A B (x : T) nxt :
  path_ok h ctx nxt →
  shape h n = Some (root A, root B, x) → rc_of h n = 1 →
  repr h A → repr h B →
  NoDup (ptrs A ++ n :: ptrs B ++ ctx_ptrs ctx) →
  ∃ h', splay_to_top (path_of ctx) n h = Some h' ∧
    repr h' (splay ctx A n x B) ∧
    (∀ q, rc_of h' q = rc_of h q) ∧
    (∀ q, q ≠ n → q ∉ f_node <$> ctx → shape h' q = shape h q).
Proof.
  intros Hpath Hn Hrcn HA HB Hnd.
  destruct (splay_loop_spec n x ctx h A B nxt)
    as (h1 & ctx1 & A1 & B1 & nxt1 & Hloop & Hlen & Hsub & Hpath1 & Hn1 & HA1 &
        HB1 & Hnd1 & Hsplay & Hrc1 & Hs1); try done.
  unfold splay_to_top.
  rewrite (lookup_shape_rc h n _ _ _ _ Hn Hrcn). simpl.
  rewrite ?is_shared_false by lia. simpl. rewrite Hloop. simpl.
  assert (rc_of h1 n = 1) as Hrcn1 by by rewrite Hrc1.
  rewrite (lookup_shape_rc h1 n _ _ _ _ Hn1 Hrcn1). simpl.
  rewrite ?is_shared_false by lia. simpl. rewrite Hsplay.
  destruct ctx1 as [|p [|g ctx1]]; simpl in Hlen; [| |lia].
  - simpl. rewrite (lookup_shape_rc h1 n _ _ _ _ Hn1 Hrcn1). simpl.
    rewrite ?is_shared_false by lia. simpl.
    exists h1. split_and!; done.
  - destruct (splay_zig_spec h1 p n A1 B1 x nxt1)
      as (h2 & Hzig & Hn2 & HA2 & HB2 & Hrc2 & Hs2); try done.
    cbn [path_of fmap list_fmap]. rewrite Hzig. simpl.
    assert (rc_of h2 n = 1) as Hrcn2 by by rewrite Hrc2.
    rewrite (lookup_shape_rc h2 n _ _ _ _ Hn2 Hrcn2). simpl.
    rewrite ?is_shared_false by lia. simpl.
    exists h2. split_and!; [done| | |].
    + destruct (rotate1 p A1 B1) as [A2 B2]. simpl. done.
    + intros q. by rewrite Hrc2.
    + intros q Hqn Hq. rewrite Hs2, Hs1; [done..|].
      intros ->. apply Hq. apply list_elem_of_fmap. exists p. split; [done|].
      apply Hsub. set_solver.
Qed.

End splay_heap.

(** * Rearranging an owned tree keeps the counts *)

Section rearrange.
Context {T : Type}.

Local Abbreviation heap := (gmap positive (node T)).
Implicit Types (h : heap) (p q x n : positive) (o : option positive).
Implicit Types (a : atree T) (L : list positive).

Lemma sum_links_cons h q L p :
  sum_links h (q :: L) p =
  default 0 ((λ s, slot_count s p) <$> links h !! q) + sum_links h L p.
Proof. done. Qed.

Lemma sum_links_app h L1 L2 p :
  sum_links h (L1 ++ L2) p = sum_links h L1 p + sum_links h L2 p.
Proof. unfold sum_links. by rewrite sum_list_with_app. Qed.

Lemma occurrences_app L1 L2 p :
  occurrences (L1 ++ L2) p = occurrences L1 p + occurrences L2 p.
Proof. unfold occurrences. by rewrite sum_list_with_app. Qed.

Lemma occurrences_perm L1 L2 p :
  L1 ≡ₚ L2 → occurrences L1 p = occurrences L2 p.
Proof. unfold occurrences. by intros ->. Qed.

Lemma sum_links_same h h' L p :
  (∀ q, q ∈ L → shape h' q = shape h q) → sum_links h' L p = sum_links h L p.
Proof.
  induction L as [|q L IH]; intros Hsame; [done|].
  rewrite !sum_links_cons, IH by (intros; apply Hsame; set_solver).
  f_equal. rewrite !links_lookup.
  assert (shape h' q = shape h q) as Hq by (apply Hsame; set_solver).
  unfold shape in Hq. destruct (h' !! q), (h !! q); simplify_eq/=; [|done].
  congruence.
Qed.

Lemma sum_links_lookup h q (nd : node T) p :
  h !! q = Some nd →
  default 0 ((λ s, slot_count s p) <$> links h !! q) =
  slot_count (m_left nd, m_right nd) p.
Proof. intros Hq. by rewrite links_lookup, Hq. Qed.

(** Two stores that differ only in the child slots of the nodes [L]. *)
Lemma heap_refs_rearrange L : ∀ h h' p,
  NoDup L →
  (∀ q, q ∉ L → shape h' q = shape h q) →
  (∀ q, q ∈ L → is_Some (h !! q) ∧ is_Some (h' !! q)) →
  heap_refs h' p + sum_links h L p = heap_refs h p + sum_links h' L p.
Proof.
  induction L as [|q L IH]; intros h h' p Hnd Hsame Halloc.
  - unfold sum_links. simpl. rewrite (same_shapes_heap_refs h h'); [done|].
    intros q. apply Hsame. set_solver.
  - apply NoDup_cons in Hnd as [Hq Hnd].
    destruct (Halloc q) as [[nd Hnd1] [nd' Hnd2]]; [set_solver|].
    set (h2 := <[q := nd]> h').
    assert (heap_refs h2 p + sum_links h L p =
            heap_refs h p + sum_links h2 L p) as IH'.
    { apply IH; [done| |].
      - intros y Hy. unfold h2. rewrite shape_insert. case_decide.
        + subst. by rewrite (shape_lookup _ _ _ Hnd1).
        + apply Hsame. set_solver.
      - intros y Hy. destruct (Halloc y) as [? ?]; [set_solver|].
        split; [done|]. unfold h2. rewrite lookup_insert_ne; [done|].
        intros ->. done. }
    assert (sum_links h2 L p = sum_links h' L p) as Hsum.
    { apply sum_links_same. intros y Hy. unfold h2.
      apply shape_insert_ne. intros ->. done. }
    pose proof (heap_refs_update h' q nd' nd p Hnd2) as Hupd. fold h2 in Hupd.
    rewrite !sum_links_cons.
    rewrite (sum_links_lookup h q nd p Hnd1), (sum_links_lookup h' q nd' p Hnd2).
    lia.
Qed.

(** Inside a tree every node is referenced once, except that the root is
    referenced from outside. *)
Lemma repr_links_sum h a p :
  repr h a →
  sum_links h (ptrs a) p + (if decide (root a = Some p) then 1 else 0) =
  occurrences (ptrs a) p.
Proof.
  induction a as [|l IHl q v r IHr]; simpl; [done|].
  intros (Hq & Hl & Hr). specialize (IHl Hl). specialize (IHr Hr).
  apply shape_Some in Hq as [k Hq].
  rewrite sum_links_app, sum_links_cons, occurrences_app.
  rewrite (sum_links_lookup h q _ p Hq). simpl.
  change (occurrences (q :: ptrs r) p)
    with ((if decide (q = p) then 1 else 0) + occurrences (ptrs r) p).
  rewrite slot_count_pair. simpl.
  repeat case_decide; simplify_eq; lia.
Qed.

(** A handle whose tree is rearranged in place, with the same nodes and
    the same counters, leaves every count right. *)
Lemma rearranged_counted h h' a a' os :
  counted h (root a :: os) →
  repr h a → repr h' a' →
  ptrs a' ≡ₚ ptrs a → NoDup (ptrs a) →
  (∀ q, rc_of h' q = rc_of h q) →
  (∀ q, q ∉ ptrs a → shape h' q = shape h q) →
  counted h' (root a' :: os).
Proof.
  intros Hcnt Ha Ha' Hperm Hnd Hrc Hsame p.
  specialize (Hcnt p). unfold refs in *. simpl in *. rewrite Hrc, Hcnt.
  assert (heap_refs h' p + sum_links h (ptrs a) p =
          heap_refs h p + sum_links h' (ptrs a) p) as Hre.
  { apply heap_refs_rearrange; [done..|].
    intros q Hq. split; [by eapply repr_allocated|].
    eapply repr_allocated; [done|]. by rewrite Hperm. }
  pose proof (repr_links_sum h a p Ha) as Hsum.
  pose proof (repr_links_sum h' a' p Ha') as Hsum'.
  rewrite (occurrences_perm _ _ p Hperm) in Hsum'.
  assert (sum_links h' (ptrs a') p = sum_links h' (ptrs a) p) as Hs.
  { unfold sum_links. by rewrite Hperm. }
  rewrite Hs in Hsum'.
  repeat case_decide; lia.
Qed.

End rearrange.

(** * The descent of [insert_pull] and [pull_max] *)

Section descent.
Context {T : Type} {cmp : T → T → Z} `{!Comparator cmp}.

Local Abbreviation heap := (gmap positive (node T)).
Implicit Types (h : heap) (p q n : positive) (o m : option positive).
Implicit Types (a b l r A B : atree T) (ctx : list (frame T)) (f : frame T).
Implicit Types (bs : list (atree T)) (v x : T).

Lemma repr_plug h ctx a :
  path_ok h ctx (root a) → repr h a → repr h (plug ctx a).
Proof.
  revert a. induction ctx as [|f ctx IH]; intros a; [done|].
  intros (Hf & Hrc & HO & Hpath) Ha. rewrite plug_cons. apply IH.
  - unfold plug_frame. by destruct (f_right f).
  - unfold plug_frame. destruct (f_right f); simpl; done.
Qed.

Lemma root_plug_frame f a : root (plug_frame f a) = Some (f_node f).
Proof. unfold plug_frame. by destruct (f_right f). Qed.

Lemma root_plug_cons f ctx a b : root (plug (f :: ctx) a) = root (plug (f :: ctx) b).
Proof.
  revert f a b. induction ctx as [|g ctx IH]; intros f a b.
  - unfold plug. simpl. by rewrite !root_plug_frame.
  - rewrite (plug_cons f), (plug_cons f). apply IH.
Qed.

Lemma vals_plug_same ctx a b : vals a = vals b → vals (plug ctx a) = vals (plug ctx b).
Proof.
  intros Hab. destruct (vals_plug ctx) as (l1 & l2 & Hplug).
  by rewrite !Hplug, Hab.
Qed.

Lemma descent_repr h m bs ctx a :
  descent_inv cmp h m bs ctx a → repr h (plug ctx a).
Proof. intros [? ? ? ? ? ? ?]. by apply repr_plug. Qed.

Lemma descent_NoDup h m bs ctx a :
  descent_inv cmp h m bs ctx a → NoDup (ptrs a ++ ctx_ptrs ctx).
Proof.
  intros Hdi. rewrite <-ptrs_plug_perm.
  eapply ptrs_NoDup; [by eapply descent_repr|]. by destruct Hdi.
Qed.

Lemma descent_asc_cur h m bs ctx a :
  descent_inv cmp h m bs ctx a → ascending cmp (vals a).
Proof.
  intros [_ _ _ _ Hasc _ _]. destruct (vals_plug ctx) as (l1 & l2 & Hplug).
  rewrite Hplug in Hasc. unfold ascending in *.
  by apply StronglySorted_app_1_r, StronglySorted_app_1_l in Hasc.
Qed.

(** The counter of the current node counts the slot (or the handle) that
    the descent came through; when it is one, no other handle reaches the
    node. *)
Lemma descent_exclusive h m bs ctx l q x r :
  descent_inv cmp h m bs ctx (ANode l q x r) →
  1 ≤ rc_of h q ∧
  (rc_of h q ≤ 1 → ∀ b, b ∈ bs → q ∉ ptrs b).
Proof.
  intros [Hcnt Htop Hpath Hcur Hasc Hbs Hexcl].
  pose proof (Hcnt q) as Hq. unfold refs in Hq. simpl in *.
  destruct ctx as [|f ctx].
  - simpl in Htop. subst m. rewrite decide_True in Hq by done.
    split; [lia|]. intros Hle b Hb Hin.
    assert (repr h b) as Hrb by by eapply Forall_forall in Hbs.
    destruct (repr_parent h b q Hrb Hin)
      as [Hroot|(y & sl & sr & w & Hy & Hsy & Hpt)].
    + assert (1 ≤ root_refs (root <$> bs) q); [|lia].
      apply root_refs_ge. rewrite <-Hroot. apply list_elem_of_fmap. eauto.
    + apply shape_Some in Hsy as [k Hly].
      pose proof (heap_refs_ge h y _ q Hly) as Hge. simpl in Hge.
      pose proof (slot_count_points sl sr q Hpt). lia.
  - destruct Hpath as (Hf & Hrcf & HO & Hpath).
    assert (∃ sl sr w k, h !! f_node f = Some (mk_node sl sr w k) ∧
                       (sl = Some q ∨ sr = Some q)) as (sl & sr & w & k & Hlf & Hptf).
    { destruct (f_right f); apply shape_Some in Hf as [k Hlf];
        do 4 eexists; (split; [exact Hlf|]); auto. }
    pose proof (heap_refs_ge h _ _ q Hlf) as Hge. simpl in Hge.
    pose proof (slot_count_points sl sr q Hptf).
    split; [lia|]. intros Hle b Hb Hin.
    assert (repr h b) as Hrb by by eapply Forall_forall in Hbs.
    destruct (repr_parent h b q Hrb Hin)
      as [Hroot|(y & sl' & sr' & w' & Hy & Hsy & Hpt)].
    + assert (1 ≤ root_refs (root <$> bs) q); [|lia].
      apply root_refs_ge. rewrite <-Hroot. apply list_elem_of_fmap. eauto.
    + apply shape_Some in Hsy as [k' Hly].
      assert (y ≠ f_node f) as Hne.
      { intros ->. eapply Hexcl; [done| |done]. set_solver. }
      pose proof (heap_refs_ge2 h y (f_node f) _ _ q Hne Hly Hlf) as Hge2.
      simpl in Hge2. pose proof (slot_count_points sl' sr' q Hpt). lia.
Qed.

(** Allocating a node and linking it in place of the current pointer, as
    the descent does for a clone and for a new leaf: what the store looks
    like afterwards.  [a0] is the tree that the slot held. *)
Lemma attach_run h m ctx a0 sl sr v os :
  (∀ p, sl = Some p → is_Some (h !! p)) →
  (∀ p, sr = Some p → is_Some (h !! p)) →
  path_ok h ctx (root a0) →
  m = root (plug ctx a0) →
  (∀ q0, root a0 = Some q0 → 1 < rc_of h q0) →
  (∀ f, head ctx = Some f →
     sl ≠ Some (f_node f) ∧ sr ≠ Some (f_node f) ∧ root a0 ≠ Some (f_node f)) →
  let p' := fresh (dom h) in
  ∃ h1 h' m',
    new_node v sl sr h = Some (h1, p') ∧
    update_parent (path_of ctx) p' h1 m = Some (h', m') ∧
    m' = (if ctx is [] then Some p' else m) ∧
    shape h' p' = Some (sl, sr, v) ∧
    (∀ q, q ≠ p' → (∀ f, head ctx = Some f → q ≠ f_node f) →
       shape h' q = shape h q) ∧
    (∀ f, head ctx = Some f →
       shape h' (f_node f) = Some (
         if f_right f then (root (f_other f), Some p', f_value f)
         else (Some p', root (f_other f), f_value f))) ∧
    (∀ q, rc_of h' q + (if decide (root a0 = Some q) then 1 else 0) =
          rc_of h q + slot_count (sl, sr) q + (if decide (q = p') then 1 else 0)) ∧
    (∀ q, refs h' (m' :: os) q + (if decide (root a0 = Some q) then 1 else 0) =
          refs h (m :: os) q + slot_count (sl, sr) q +
          (if decide (q = p') then 1 else 0)).
Proof.
  intros Hsl Hsr Hpath Htop Hshared Hhead p'.
  destruct (new_node_spec h v sl sr Hsl Hsr) as (h1 & Hnew & Hs1 & Hrc1 & Href1).
  fold p' in Hnew, Hs1.
  assert (h !! p' = None) as Hfresh by apply lookup_fresh.
  assert (rc_of h p' = 0) as Hrcf by apply rc_of_fresh.
  assert (shape h p' = None) as Hsf by (unfold shape; by rewrite Hfresh).
  assert (root a0 ≠ Some p') as Hroot.
  { intros Heq. specialize (Hshared p' Heq). lia. }
  destruct (node_inc_ref_spec h1 p') as (h2 & Hinc & Hs2 & Hrc2).
  { apply shape_is_Some. rewrite Hs1, decide_True by done. eauto. }
  destruct (dec_ref_shared h2 (root a0)) as (h3 & Hdec & Hs3 & Hrc3).
  { intros q0 Hq0. specialize (Hshared q0 Hq0). rewrite Hrc2, Hrc1. lia. }
  exists h1. destruct ctx as [|f ctx].
  - (* the handle itself is re-linked *)
    simpl in Htop. subst m. exists h3, (Some p'). simpl.
    rewrite Hinc. simpl. rewrite Hdec. simpl.
    split_and!; try done.
    + by rewrite Hs3, Hs2, Hs1, decide_True.
    + intros q Hq _. by rewrite Hs3, Hs2, Hs1, decide_False.
    + intros q. specialize (Hrc3 q). rewrite Hrc2, Hrc1 in Hrc3.
      repeat case_decide; simplify_eq; lia.
    + intros q. unfold refs. simpl.
      rewrite (same_shapes_heap_refs h1 h3) by (intros; by rewrite Hs3, Hs2).
      rewrite Href1. repeat case_decide; simplify_eq; lia.
  - (* the parent is re-linked *)
    destruct (Hhead f eq_refl) as (Hfl & Hfr & Hf0).
    destruct Hpath as (Hf & Hrcf1 & HO & Hpath).
    assert (f_node f ≠ p') as Hfp.
    { intros Heq. rewrite Heq, Hsf in Hf. done. }
    assert (shape h2 (f_node f) = shape h (f_node f)) as Hsf2
      by by rewrite Hs2, Hs1, decide_False.
    assert (rc_of h2 (f_node f) = 1) as Hrcf2.
    { rewrite Hrc2, Hrc1, Hrcf1, slot_count_pair. simpl.
      repeat case_decide; simplify_eq; lia. }
    assert (rc_of h3 (f_node f) = 1) as Hrcf3.
    { specialize (Hrc3 (f_node f)). rewrite decide_False in Hrc3 by done. lia. }
    exists (<[f_node f :=
              if f_right f
              then mk_node (root (f_other f)) (Some p') (f_value f) 1
              else mk_node (Some p') (root (f_other f)) (f_value f) 1]> h3), m.
    split; [done|]. split.
    { cbn [path_of fmap list_fmap update_parent entry_node entry_right].
      rewrite Hinc. simpl. rewrite <-Hsf2 in Hf.
      destruct (f_right f).
      - rewrite (lookup_shape_rc h2 _ _ _ _ _ Hf Hrcf2). simpl.
        rewrite Hdec. simpl.
        erewrite store_spec; [|by rewrite Hs3|lia]. simpl. by rewrite Hrcf3.
      - rewrite (lookup_shape_rc h2 _ _ _ _ _ Hf Hrcf2). simpl.
        rewrite Hdec. simpl.
        erewrite store_spec; [|by rewrite Hs3|lia]. simpl. by rewrite Hrcf3. }
    split; [done|]. split_and!.
    + rewrite shape_insert_ne by done. by rewrite Hs3, Hs2, Hs1, decide_True.
    + intros q Hq Hqf. specialize (Hqf f eq_refl). simpl in Hqf.
      rewrite shape_insert_ne by done. by rewrite Hs3, Hs2, Hs1, decide_False.
    + intros ? [= <-]. rewrite shape_insert, decide_True by done.
      by destruct (f_right f).
    + intros q. rewrite rc_of_insert. specialize (Hrc3 q).
      rewrite Hrc2, Hrc1 in Hrc3.
      destruct (decide (f_node f = q)) as [<-|Hne].
      * rewrite Hrcf3, slot_count_pair in Hrc3. rewrite slot_count_pair.
        destruct (f_right f); simpl in *; repeat case_decide; simplify_eq; lia.
      * repeat case_decide; simplify_eq; lia.
    + intros q. unfold refs. simpl.
      assert (h3 !! f_node f = Some (
                if f_right f
                then mk_node (root (f_other f)) (root a0) (f_value f) 1
                else mk_node (root a0) (root (f_other f)) (f_value f) 1)) as Hl3.
      { rewrite <-Hsf2, <-Hs3 in Hf. destruct (f_right f);
          by apply lookup_shape_rc. }
      pose proof (heap_refs_update h3 (f_node f) _
        (if f_right f
         then mk_node (root (f_other f)) (Some p') (f_value f) 1
         else mk_node (Some p') (root (f_other f)) (f_value f) 1) q Hl3) as Hupd.
      rewrite (same_shapes_heap_refs h1 h3) in Hupd
        by (intros; by rewrite Hs3, Hs2).
      rewrite Href1 in Hupd.
      set (S := slot_count (sl, sr) q) in *. clearbody S.
      assert ((if decide (Some p' = Some q) then 1 else 0) =
              (if decide (q = p') then 1 else 0)) as Hpq
        by (repeat case_decide; simplify_eq; done).
      clear -Hupd Hpq. rewrite !slot_count_pair in Hupd.
      destruct (f_right f); simpl in Hupd; rewrite Hpq in Hupd; lia.
Qed.

Lemma allocated_ne_fresh h q : is_Some (h !! q) → q ≠ fresh (dom h).
Proof.
  intros Hq ->. apply (is_fresh (dom h)). by apply elem_of_dom.
Qed.

Lemma descent_allocated h m bs ctx a q :
  descent_inv cmp h m bs ctx a → q ∈ ptrs a ++ ctx_ptrs ctx → is_Some (h !! q).
Proof.
  intros Hdi Hq. eapply repr_allocated; [by eapply descent_repr|].
  by rewrite ptrs_plug_perm.
Qed.

Lemma ctx_ptrs_head f ctx : f_node f ∈ ctx_ptrs (f :: ctx).
Proof. rewrite ctx_ptrs_cons. apply elem_of_cons. by left. Qed.

Lemma ctx_ptrs_other f ctx q :
  q ∈ ptrs (f_other f) → q ∈ ctx_ptrs (f :: ctx).
Proof.
  intros Hq. rewrite ctx_ptrs_cons. apply elem_of_cons. right.
  apply elem_of_app. by left.
Qed.

Lemma ctx_ptrs_tail f ctx q : q ∈ ctx_ptrs ctx → q ∈ ctx_ptrs (f :: ctx).
Proof.
  intros Hq. rewrite ctx_ptrs_cons. apply elem_of_cons. right.
  apply elem_of_app. by right.
Qed.

Lemma NoDup_ctx_ptrs_cons f ctx :
  NoDup (ctx_ptrs (f :: ctx)) →
  f_node f ∉ ptrs (f_other f) ∧ f_node f ∉ ctx_ptrs ctx ∧
  (∀ q, q ∈ ptrs (f_other f) → q ∉ ctx_ptrs ctx) ∧
  NoDup (ctx_ptrs ctx).
Proof.
  rewrite ctx_ptrs_cons, NoDup_cons, NoDup_app, not_elem_of_app.
  intros ((? & ?) & ? & ? & ?). done.
Qed.

Lemma attach_spec h m bs ctx a0 l v r :
  descent_inv cmp h m bs ctx a0 →
  (∀ q0, root a0 = Some q0 → 1 < rc_of h q0) →
  repr h l → repr h r →
  (∀ q, q ∈ ptrs l ++ ptrs r → q ∈ ptrs a0) →
  let p' := fresh (dom h) in
  ascending cmp (vals (plug ctx (ANode l p' v r))) →
  ∃ h1 h' m',
    new_node v (root l) (root r) h = Some (h1, p') ∧
    update_parent (path_of ctx) p' h1 m = Some (h', m') ∧
    descent_inv cmp h' m' bs ctx (ANode l p' v r) ∧
    rc_of h' p' = 1 ∧
    (∀ b, b ∈ bs → p' ∉ ptrs b) ∧
    (∀ q, is_Some (h !! q) → is_Some (h' !! q)) ∧
    (∀ q, q ∈ ptrs a0 → shape h' q = shape h q).
Proof.
  intros Hdi Hshared Hl Hr Hsub p' Hasc.
  pose proof (descent_NoDup _ _ _ _ _ Hdi) as Hnd.
  pose proof (descent_allocated h m bs ctx a0) as Halloc.
  specialize (Halloc) with (1 := Hdi).
  apply NoDup_app in Hnd as (Hnd0 & Hsep & Hndc).
  assert (∀ q, q ∈ ptrs a0 → is_Some (h !! q)) as Halloc0.
  { intros q Hq. apply Halloc, elem_of_app. by left. }
  assert (∀ q, q ∈ ctx_ptrs ctx → is_Some (h !! q)) as Hallocc.
  { intros q Hq. apply Halloc, elem_of_app. by right. }
  assert (∀ q, q ∈ ptrs l → q ∈ ptrs a0) as Hsubl.
  { intros q Hq. apply Hsub, elem_of_app. by left. }
  assert (∀ q, q ∈ ptrs r → q ∈ ptrs a0) as Hsubr.
  { intros q Hq. apply Hsub, elem_of_app. by right. }
  assert (∀ q, root l = Some q → q ∈ ptrs a0) as Hrl.
  { intros q Hq. by apply Hsubl, root_in_ptrs. }
  assert (∀ q, root r = Some q → q ∈ ptrs a0) as Hrr.
  { intros q Hq. by apply Hsubr, root_in_ptrs. }
  assert (∀ q, root a0 = Some q → q ∈ ptrs a0) as Hr0.
  { intros q Hq. by apply root_in_ptrs. }
  destruct Hdi as [Hcnt Htop Hpath Hcur Hasc0 Hbs Hexcl].
  destruct (attach_run h m ctx a0 (root l) (root r) v (root <$> bs))
    as (h1 & h' & m' & Hnew & Hupd & Hm' & Hsp & Hsame & Hshead & Hrc & Hrefs);
    try done.
  { intros q Hq. by apply Halloc0, Hrl. }
  { intros q Hq. by apply Halloc0, Hrr. }
  { intros f Hf. destruct ctx as [|f' ctx]; simpl in Hf; [done|].
    injection Hf as ->. pose proof (ctx_ptrs_head f ctx) as Hfin.
    split_and!; intros Heq; eapply Hsep; eauto. }
  fold p' in Hnew, Hupd, Hm', Hsp, Hsame, Hshead, Hrc, Hrefs.
  assert (∀ q, is_Some (h !! q) → q ≠ p') as Hnp
    by (intros; by apply allocated_ne_fresh).
  assert (rc_of h p' = 0) as Hrcp by apply rc_of_fresh.
  assert (∀ q, q ∈ ctx_ptrs ctx → rc_of h' q = rc_of h q) as Hrcctx.
  { intros q Hq. specialize (Hrc q). rewrite slot_count_pair in Hrc.
    simpl in Hrc.
    assert (root l ≠ Some q) by (intros Heq; eapply Hsep; eauto).
    assert (root r ≠ Some q) by (intros Heq; eapply Hsep; eauto).
    assert (root a0 ≠ Some q) by (intros Heq; eapply Hsep; eauto).
    assert (q ≠ p') by by apply Hnp, Hallocc.
    rewrite !decide_False in Hrc by done. lia. }
  exists h1, h', m'. split; [done|]. split; [done|].
  assert (∀ t, (∀ q, q ∈ ptrs t → is_Some (h !! q)) →
               (∀ f q, head ctx = Some f → q ∈ ptrs t → q ≠ f_node f) →
               repr h t → repr h' t) as Hframe.
  { intros t Ht Hhd Hrt. eapply repr_frame; [|done]. intros q Hq.
    apply Hsame; [by apply Hnp, Ht|]. intros f Hf. by eapply Hhd. }
  assert (∀ t, (∀ q, q ∈ ptrs t → q ∈ ptrs a0) → repr h t → repr h' t)
    as Hframe_sub.
  { intros t Ht Hrt. apply Hframe; [| |done].
    - intros q Hq. by apply Halloc0, Ht.
    - intros f q Hf Hq ->. destruct ctx as [|f' ctx]; simpl in Hf; [done|].
      injection Hf as ->.
      eapply (Hsep (f_node f)); [by apply Ht|apply ctx_ptrs_head]. }
  split_and!.
  - split.
    + intros q. specialize (Hrc q). specialize (Hrefs q). specialize (Hcnt q).
      clear -Hrc Hrefs Hcnt. lia.
    + rewrite Hm'. destruct ctx as [|f ctx]; [done|].
      rewrite Htop. apply root_plug_cons.
    + destruct ctx as [|f ctx]; [done|]. simpl.
      destruct Hpath as (Hf & Hrcf & HO & Hpath).
      pose proof (ctx_ptrs_head f ctx) as Hfin.
      apply NoDup_ctx_ptrs_cons in Hndc as (Hfo & Hfc & Hoc & Hndc).
      split_and!.
      * by apply Hshead.
      * by rewrite Hrcctx.
      * apply Hframe; [| |done].
        -- intros q Hq. by apply Hallocc, ctx_ptrs_other.
        -- intros f' q [= <-] Hq ->. done.
      * eapply path_ok_frame; [|done]. intros q Hq.
        pose proof (ctx_ptrs_tail f ctx q Hq) as Hqin. split.
        -- apply Hsame; [by apply Hnp, Hallocc|].
           intros f' [= <-] ->. done.
        -- by apply Hrcctx.
    + simpl. split_and!; [done|by apply Hframe_sub..].
    + done.
    + apply Forall_forall. intros b Hb. rewrite Forall_forall in Hbs.
      eapply repr_frame; [|by apply Hbs]. intros q Hq. apply Hsame.
      * apply Hnp. eapply repr_allocated; [by apply Hbs|done].
      * intros f Hf ->. destruct ctx as [|f' ctx]; simpl in Hf; [done|].
        injection Hf as ->. eapply (Hexcl b f); [done| |done].
        apply elem_of_cons. by left.
    + done.
  - specialize (Hrc p'). rewrite slot_count_pair in Hrc. simpl in Hrc.
    assert (root l ≠ Some p') by (intros Heq; apply (Hnp p'); [by apply Halloc0, Hrl|done]).
    assert (root r ≠ Some p') by (intros Heq; apply (Hnp p'); [by apply Halloc0, Hrr|done]).
    assert (root a0 ≠ Some p') by (intros Heq; apply (Hnp p'); [by apply Halloc0, Hr0|done]).
    rewrite !decide_False, decide_True in Hrc by done. lia.
  - intros b Hb Hin. eapply Hnp; [|done]. eapply repr_allocated; [|done].
    by eapply Forall_forall in Hbs.
  - intros q Hq. apply shape_is_Some.
    destruct (decide (q = p')) as [->|Hne]; [by rewrite Hsp|].
    destruct ctx as [|f ctx].
    + rewrite Hsame; [by apply shape_is_Some|done|done].
    + destruct (decide (q = f_node f)) as [->|Hne2].
      * by rewrite (Hshead f).
      * rewrite Hsame; [by apply shape_is_Some|done|].
        by intros f' [= <-].
  - intros q Hq. apply Hsame; [by apply Hnp, Halloc0|].
    intros f Hf ->. destruct ctx as [|f' ctx]; simpl in Hf; [done|].
    injection Hf as ->. eapply (Hsep (f_node f)); [done|apply ctx_ptrs_head].
Qed.

(** [unshare]: afterwards the current node belongs to this handle alone. *)
Lemma unshare_spec h m bs ctx l q x r :
  descent_inv cmp h m bs ctx (ANode l q x r) →
  ∃ h' m' n,
    unshare (path_of ctx) q h m = Some (h', m', n) ∧
    descent_inv cmp h' m' bs ctx (ANode l n x r) ∧
    rc_of h' n = 1 ∧
    (∀ b, b ∈ bs → n ∉ ptrs b) ∧
    (∀ q', is_Some (h !! q') → is_Some (h' !! q')) ∧
    (if decide (1 < rc_of h q)
     then n = fresh (dom h) ∧ shape h' q = shape h q
     else n = q ∧ h' = h).
Proof.
  intros Hdi. pose proof (di_cur _ _ _ _ _ _ Hdi) as (Hq & Hl & Hr).
  apply shape_Some in Hq as [k Hq].
  pose proof (rc_of_lookup _ _ _ Hq) as Hrc. simpl in Hrc.
  unfold unshare. rewrite Hq. simpl. unfold is_shared. simpl.
  destruct (decide (1 < k)) as [Hk|Hk].
  - rewrite bool_decide_true by done.
    unfold copy_node. rewrite Hq. simpl.
    destruct (attach_spec h m bs ctx (ANode l q x r) l x r)
      as (h1 & h' & m' & Hnew & Hupd & Hdi' & Hrc' & Hexcl & Hmono & Hsame);
      try done.
    { intros q0 [= <-]. by rewrite Hrc. }
    { intros q0 Hq0. simpl. apply elem_of_app in Hq0 as [?|?];
        apply elem_of_app; [by left|right]. apply elem_of_cons. by right. }
    { erewrite vals_plug_same; [by apply (di_asc _ _ _ _ _ _ Hdi)|done]. }
    rewrite Hnew. simpl. rewrite Hupd. simpl.
    eexists _, _, _. split; [done|]. split_and!; try done.
    rewrite Hrc, decide_True by done. split; [done|].
    apply Hsame. simpl. apply elem_of_app. right. apply elem_of_cons. by left.
  - rewrite bool_decide_false by done.
    destruct (descent_exclusive h m bs ctx l q x r Hdi) as [Hge Hexcl].
    exists h, m, q. split_and!; [done|done|lia| |done|].
    + apply Hexcl. lia.
    + by rewrite Hrc, decide_False by done.
Qed.

(** Entering a child of the current node, which belongs to this handle
    alone, puts a frame on the path. *)
Lemma descent_push h m bs ctx l n x r (d : bool) :
  descent_inv cmp h m bs ctx (ANode l n x r) →
  rc_of h n = 1 →
  (∀ b, b ∈ bs → n ∉ ptrs b) →
  descent_inv cmp h m bs
    (mk_frame d n x (if d then l else r) :: ctx) (if d then r else l).
Proof.
  intros [Hcnt Htop Hpath (Hn & Hl & Hr) Hasc Hbs Hexcl] Hrc Hnb.
  assert (plug (mk_frame d n x (if d then l else r) :: ctx)
            (if d then r else l) = plug ctx (ANode l n x r)) as Hplug.
  { rewrite plug_cons. unfold plug_frame. by destruct d. }
  split; try done.
  - by rewrite Hplug.
  - simpl. split_and!; try done; by destruct d.
  - by destruct d.
  - by rewrite Hplug.
  - intros b f Hb [->|Hf]%elem_of_cons; [by apply Hnb|by apply Hexcl].
Qed.

(** Backing up from an empty slot to the node above it. *)
Lemma descent_pop h m bs f ctx :
  descent_inv cmp h m bs (f :: ctx) ALeaf →
  ∃ A B,
    plug_frame f ALeaf = ANode A (f_node f) (f_value f) B ∧
    descent_inv cmp h m bs ctx (ANode A (f_node f) (f_value f) B) ∧
    rc_of h (f_node f) = 1 ∧
    (∀ b, b ∈ bs → f_node f ∉ ptrs b).
Proof.
  intros [Hcnt Htop (Hf & Hrc & HO & Hpath) _ Hasc Hbs Hexcl].
  assert (∃ A B, plug_frame f ALeaf = ANode A (f_node f) (f_value f) B ∧
                 repr h (ANode A (f_node f) (f_value f) B)) as (A & B & HAB & Hrepr).
  { unfold plug_frame. destruct (f_right f); eexists _, _; split; done. }
  exists A, B. split; [done|]. rewrite plug_cons, HAB in Htop, Hasc.
  split_and!; [|done|].
  - split; try done. intros b f' Hb Hf'. apply Hexcl; [done|].
    apply elem_of_cons. by right.
  - intros b Hb. apply Hexcl; [done|]. apply elem_of_cons. by left.
Qed.

(** Overwriting the value of the current node by a value that compares
    equal. *)
Lemma descent_overwrite h m bs ctx l n x r v :
  descent_inv cmp h m bs ctx (ANode l n x r) →
  rc_of h n = 1 →
  (∀ b, b ∈ bs → n ∉ ptrs b) →
  cmp v x = 0%Z →
  descent_inv cmp (<[n := mk_node (root l) (root r) v 1]> h) m bs ctx
    (ANode l n v r).
Proof.
  intros Hdi Hrc Hnb Heq.
  pose proof (descent_NoDup _ _ _ _ _ Hdi) as Hnd. simpl in Hnd.
  rewrite <-app_assoc in Hnd. apply NoDup_app in Hnd as (_ & Hlsep & Hnd).
  simpl in Hnd. apply NoDup_cons in Hnd as (Hn & _).
  rewrite not_elem_of_app in Hn. destruct Hn as [Hnr Hnc].
  assert (n ∉ ptrs l) as Hnl.
  { intros Hin. eapply Hlsep; [done|]. simpl. apply elem_of_cons. by left. }
  destruct Hdi as [Hcnt Htop Hpath (Hn & Hl & Hr) Hasc Hbs Hexcl].
  pose proof (lookup_shape_rc h n _ _ _ _ Hn Hrc) as Hln.
  assert (∀ t, n ∉ ptrs t → repr h t →
               repr (<[n := mk_node (root l) (root r) v 1]> h) t) as Hframe.
  { intros t Ht Hrt. eapply repr_frame; [|done]. intros q Hq.
    apply shape_insert_ne. by intros ->. }
  split.
  - intros p. rewrite rc_of_insert. unfold refs.
    rewrite (heap_refs_same_links h n _ _ p Hln) by done.
    specialize (Hcnt p). unfold refs in Hcnt. case_decide; [|done].
    subst. by rewrite <-Hcnt, Hrc.
  - rewrite Htop. destruct ctx as [|f ctx]; [done|]. apply root_plug_cons.
  - eapply path_ok_frame; [|done]. intros q Hq.
    assert (n ≠ q) by by intros ->.
    by rewrite shape_insert_ne, rc_of_insert, decide_False.
  - simpl. rewrite shape_insert, decide_True by done.
    split_and!; [done|by apply Hframe..].
  - destruct (vals_plug ctx) as (l1 & l2 & Hplug). rewrite Hplug in *.
    simpl in *.
    assert (∀ y, l1 ++ (vals l ++ y :: vals r) ++ l2 =
                 (l1 ++ vals l) ++ y :: (vals r ++ l2)) as Hre
      by (intros; by rewrite <-!app_assoc).
    rewrite Hre in *. by eapply ascending_replace.
  - apply Forall_forall. intros b Hb. rewrite Forall_forall in Hbs.
    apply Hframe; [by apply Hnb|by apply Hbs].
  - done.
Qed.

Lemma seq_has_app_lt v (l1 : list T) x (l2 : list T) :
  ascending cmp (l1 ++ x :: l2) → (cmp v x < 0)%Z →
  seq_has cmp v (l1 ++ x :: l2) = seq_has cmp v l1.
Proof.
  rewrite ascending_app_cons. intros (_ & _ & _ & Hx) Hlt.
  rewrite seq_has_app. simpl. rewrite bool_decide_false by lia. simpl.
  assert (seq_has cmp v l2 = false) as ->; [|by rewrite orb_false_r].
  apply seq_has_false. eapply Forall_impl; [exact Hx|]. intros y Hy Heq.
  pose proof (cmp_lt_eq x y v Hy (cmp_eq_sym _ _ Heq)) as Hxv.
  apply cmp_antisym in Hxv. lia.
Qed.

Lemma seq_has_app_gt v (l1 : list T) x (l2 : list T) :
  ascending cmp (l1 ++ x :: l2) → (cmp v x > 0)%Z →
  seq_has cmp v (l1 ++ x :: l2) = seq_has cmp v l2.
Proof.
  rewrite ascending_app_cons. intros (_ & _ & Hx & _) Hgt.
  rewrite seq_has_app. simpl. rewrite bool_decide_false by lia. simpl.
  assert (seq_has cmp v l1 = false) as ->; [|done].
  apply seq_has_false. eapply Forall_impl; [exact Hx|]. intros y Hy Heq.
  pose proof (cmp_eq_lt v y x Heq Hy). lia.
Qed.

Lemma insert_pull_loop_null fuel v is_insert path h m :
  insert_pull_loop cmp fuel v is_insert path None h m =
  if is_insert then
    '(h, n) ← new_node v None None h;
    '(h, m) ← update_parent path n h m;
    Some (descent_break h m path n false)
  else
    match path with
    | [] => Some (descent_return h m)
    | back :: path => Some (descent_break h m path (entry_node back) false)
    end.
Proof. by destruct fuel. Qed.

Lemma insert_pull_loop_node fuel v is_insert path n h m :
  insert_pull_loop cmp (S fuel) v is_insert path (Some n) h m =
  '(h, m, n) ← unshare path n h m;
  nd ← h !! n;
  lean_assert (negb (is_shared nd));;
  let c := cmp v (m_value nd) in
  if bool_decide (c < 0)%Z then
    insert_pull_loop cmp fuel v is_insert (mk_entry false n :: path)
      (m_left nd) h m
  else if bool_decide (c > 0)%Z then
    insert_pull_loop cmp fuel v is_insert (mk_entry true n :: path)
      (m_right nd) h m
  else
    h ← (if is_insert then store n (with_value v) h else Some h);
    Some (descent_break h m path n true).
Proof. done. Qed.

Lemma insert_pull_loop_spec v is_insert bs a :
  ∀ fuel ctx h m (l1 l2 : list T),
  descent_inv cmp h m bs ctx a →
  height a ≤ fuel →
  (∀ t, vals (plug ctx t) = l1 ++ vals t ++ l2) →
  Forall (λ y, lt cmp y v) l1 → Forall (lt cmp v) l2 →
  ∃ d,
    insert_pull_loop cmp fuel v is_insert (path_of ctx) (root a) h m = Some d ∧
    descent_post cmp v is_insert bs h m ctx a l1 l2 d.
Proof.
  induction a as [|l IHl q x r IHr];
    intros fuel ctx h m l1 l2 Hdi Hfuel Hplug Hlo Hhi.
  - (* an empty slot *)
    simpl root. rewrite insert_pull_loop_null. destruct is_insert.
    + destruct (attach_spec h m bs ctx ALeaf ALeaf v ALeaf)
        as (h1 & h' & m' & Hnew & Hupd & Hdi' & Hrc' & Hexcl & Hmono & _);
        try done.
      { rewrite Hplug. simpl. apply ascending_app_cons.
        pose proof (di_asc _ _ _ _ _ _ Hdi) as Hasc. rewrite Hplug in Hasc.
        simpl in Hasc. unfold ascending in *.
        split_and!; [|by apply StronglySorted_app_1_r in Hasc|done..].
        by apply StronglySorted_app_1_l in Hasc. }
      simpl in Hnew. rewrite Hnew. simpl. rewrite Hupd. simpl.
      eexists. split; [done|]. cbn [descent_post].
      exists ctx, ALeaf, v, ALeaf. split_and!; try done.
      intros _ _. split_and!; [done..|]. apply lookup_fresh.
    + destruct ctx as [|f ctx].
      * eexists. split; [done|]. simpl. done.
      * destruct (descent_pop h m bs f ctx Hdi) as (A & B & HAB & Hdi' & Hrc & Hexcl).
        eexists. split; [done|]. cbn [descent_post].
        exists ctx, A, (f_value f), B. split_and!; try done.
        cbn [entry_node]. rewrite <-HAB, <-plug_cons. by rewrite Hplug.
  - (* a node *)
    destruct fuel as [|fuel]; [simpl in Hfuel; lia|].
    simpl in Hfuel. simpl root. rewrite insert_pull_loop_node.
    pose proof (descent_asc_cur _ _ _ _ _ Hdi) as Hascq. simpl in Hascq.
    pose proof Hascq as Hascq'.
    apply ascending_app_cons in Hascq' as (Hal & Har & Hlx & Hxr).
    destruct (unshare_spec h m bs ctx l q x r Hdi)
      as (h1 & m1 & n & Hun & Hdi1 & Hrc1 & Hexcl1 & Hmono1 & _).
    rewrite Hun. simpl.
    pose proof (di_cur _ _ _ _ _ _ Hdi1) as (Hn & Hl & Hr).
    pose proof (lookup_shape_rc h1 n _ _ _ _ Hn Hrc1) as Hln.
    rewrite Hln. simpl.
    destruct (decide (cmp v x < 0)%Z) as [Hlt|Hnlt];
      [|destruct (decide (cmp v x > 0)%Z) as [Hgt|Hngt]].
    + (* left *)
      rewrite bool_decide_true by done.
      destruct (IHl fuel (mk_frame false n x r :: ctx) h1 m1 l1
                  (x :: vals r ++ l2)) as (d & Hloop & Hpost).
      { by apply (descent_push h1 m1 bs ctx l n x r false). }
      { lia. }
      { intros t. rewrite plug_cons. unfold plug_frame. simpl.
        rewrite Hplug. simpl. by rewrite <-app_assoc. }
      { done. }
      { constructor; [done|]. apply Forall_app. split; [|done].
        eapply Forall_impl; [exact Hxr|]. intros y Hy.
        by apply (cmp_trans v x y). }
      exists d. split; [exact Hloop|].
      destruct d as [h' m'|h' m' path' n' found]; cbn [descent_post] in *.
      { destruct Hpost as (_ & _ & _ & ? & _). done. }
      destruct Hpost as (ctx' & A & x' & B & Hpath' & Hdi' & Hrc' & Hexcl' &
                         Hvals & Hfound & Hfx & Hix & Hleaf & Hmono').
      exists ctx', A, x', B. split_and!; try done.
      * rewrite Hvals. cbn [vals]. rewrite (seq_insert_app_lt v _ x _ Hlt).
        destruct is_insert; by rewrite <-app_assoc.
      * cbn [vals]. by rewrite (seq_has_app_lt v _ x _ Hascq Hlt).
      * intros Hi Hf. destruct (Hleaf Hi Hf) as (? & ? & Hnone).
        split_and!; [done..|].
        destruct (h !! n') eqn:Hhn; [|done].
        destruct (Hmono1 n') as [? Hsome]; [eauto|]. congruence.
      * intros q' Hq'. by apply Hmono', Hmono1.
    + (* right *)
      rewrite bool_decide_false, bool_decide_true by done.
      destruct (IHr fuel (mk_frame true n x l :: ctx) h1 m1
                  (l1 ++ vals l ++ [x]) l2) as (d & Hloop & Hpost).
      { by apply (descent_push h1 m1 bs ctx l n x r true). }
      { lia. }
      { intros t. rewrite plug_cons. unfold plug_frame. simpl.
        rewrite Hplug. simpl. by rewrite <-!app_assoc. }
      { apply Forall_app. split; [done|]. apply Forall_app. split.
        - eapply Forall_impl; [exact Hlx|]. intros y Hy.
          apply (cmp_trans y x v); [done|by apply cmp_gt_lt].
        - constructor; [by apply cmp_gt_lt|constructor]. }
      { done. }
      exists d. split; [exact Hloop|].
      destruct d as [h' m'|h' m' path' n' found]; cbn [descent_post] in *.
      { destruct Hpost as (_ & _ & _ & ? & _). done. }
      destruct Hpost as (ctx' & A & x' & B & Hpath' & Hdi' & Hrc' & Hexcl' &
                         Hvals & Hfound & Hfx & Hix & Hleaf & Hmono').
      exists ctx', A, x', B. split_and!; try done.
      * rewrite Hvals. cbn [vals]. rewrite (seq_insert_app_gt v _ x _ Hlx Hgt).
        destruct is_insert; by rewrite <-!app_assoc.
      * cbn [vals]. by rewrite (seq_has_app_gt v _ x _ Hascq Hgt).
      * intros Hi Hf. destruct (Hleaf Hi Hf) as (? & ? & Hnone).
        split_and!; [done..|].
        destruct (h !! n') eqn:Hhn; [|done].
        destruct (Hmono1 n') as [? Hsome]; [eauto|]. congruence.
      * intros q' Hq'. by apply Hmono', Hmono1.
    + (* found *)
      rewrite !bool_decide_false by done.
      assert (cmp v x = 0%Z) as Heq by lia.
      assert (seq_has cmp v (vals l ++ x :: vals r) = true) as Hhas.
      { rewrite seq_has_app. simpl. rewrite bool_decide_true by done.
        apply orb_true_r. }
      destruct is_insert.
      * erewrite store_spec; [|done|lia]. simpl. rewrite Hrc1.
        eexists. split; [done|]. cbn [descent_post].
        exists ctx, l, v, r. split_and!; try done.
        -- by apply (descent_overwrite h1 m1 bs ctx l n x r v).
        -- rewrite rc_of_insert. by rewrite decide_True.
        -- cbn [vals]. rewrite Hplug, (seq_insert_app_eq v _ x _ Hlx Heq). done.
        -- intros _. apply cmp_refl.
        -- intros q' Hq'. apply Hmono1 in Hq'.
           rewrite lookup_insert. by case_decide.
      * simpl. eexists. split; [done|]. cbn [descent_post].
        exists ctx, l, x, r. split_and!; try done.
        by rewrite Hplug.
Qed.

End descent.

(** * The read-only operations *)

Section reading.
Context {T : Type} {cmp : T → T → Z} `{!Comparator cmp}.

Local Abbreviation heap := (gmap positive (node T)).
Implicit Types (h : heap) (p q n : positive) (o m : option positive).
Implicit Types (a b l r A B : atree T) (v x : T).

Lemma check_invariant_fuel_ok h a :
  ∀ fuel, repr h a → ascending cmp (vals a) → height a ≤ fuel →
  check_invariant_fuel cmp fuel (root a) h = Some true.
Proof.
  induction a as [|l IHl p v r IHr]; intros fuel Hrepr Hasc Hfuel.
  - by destruct fuel.
  - destruct fuel as [|fuel]; [simpl in Hfuel; lia|].
    simpl in Hfuel. destruct Hrepr as (Hp & Hl & Hr).
    apply shape_Some in Hp as [k Hp].
    simpl in Hasc. apply ascending_app_cons in Hasc as (Hal & Har & Hlv & Hvr).
    rewrite Forall_forall in Hlv, Hvr.
    simpl. rewrite Hp. simpl.
    assert (match root l with
            | Some l0 =>
              check_invariant_fuel cmp fuel (Some l0) h;;
              ln ← h !! l0;
              lean_assert (bool_decide (cmp (m_value ln) v < 0)%Z)
            | None => Some tt
            end = Some tt) as ->.
    { destruct l as [|ll lp lv lr]; [done|].
      assert (height (ANode ll lp lv lr) ≤ fuel) as Hfl by lia.
      pose proof (IHl fuel Hl Hal Hfl) as IH. cbn [root] in *.
      rewrite IH. simpl.
      destruct Hl as (Hlp & _). apply shape_Some in Hlp as [kl ->]. simpl.
      rewrite bool_decide_true; [done|]. apply Hlv. simpl. set_solver. }
    simpl.
    assert (match root r with
            | Some r0 =>
              check_invariant_fuel cmp fuel (Some r0) h;;
              rn ← h !! r0;
              lean_assert (bool_decide (cmp v (m_value rn) < 0)%Z)
            | None => Some tt
            end = Some tt) as ->.
    { destruct r as [|rl rp rv rr]; [done|].
      assert (height (ANode rl rp rv rr) ≤ fuel) as Hfr by lia.
      pose proof (IHr fuel Hr Har Hfr) as IH. cbn [root] in *.
      rewrite IH. simpl.
      destruct Hr as (Hrp & _). apply shape_Some in Hrp as [kr ->]. simpl.
      rewrite bool_decide_true; [done|]. apply Hvr. simpl. set_solver. }
    done.
Qed.

Lemma check_invariant_ok h a :
  repr h a → ascending cmp (vals a) → check_invariant cmp h (root a) = Some true.
Proof.
  intros Hrepr Hasc. apply check_invariant_fuel_ok; [done..|].
  by apply tree_fits.
Qed.

Lemma to_buffer_fuel_ok h a :
  ∀ fuel acc, repr h a → height a ≤ fuel →
  to_buffer_fuel fuel (root a) h acc = Some (acc ++ vals a).
Proof.
  induction a as [|l IHl p v r IHr]; intros fuel acc Hrepr Hfuel.
  - destruct fuel; simpl; by rewrite app_nil_r.
  - destruct fuel as [|fuel]; [simpl in Hfuel; lia|].
    simpl in Hfuel. destruct Hrepr as (Hp & Hl & Hr).
    apply shape_Some in Hp as [k Hp].
    simpl. rewrite Hp. simpl. rewrite (IHl fuel acc Hl) by lia. simpl.
    rewrite (IHr fuel _ Hr) by lia. by rewrite <-!app_assoc.
Qed.

(** [to_buffer] yields the values of the tree in order. *)
Lemma to_buffer_ok h a :
  repr h a → ascending cmp (vals a) → to_buffer h (root a) = Some (vals a).
Proof.
  intros Hrepr Hasc. unfold to_buffer.
  rewrite (to_buffer_fuel_ok h a) by (done || by apply tree_fits). done.
Qed.

Lemma find_loop_ok v h a :
  ∀ fuel steps, repr h a → ascending cmp (vals a) → height a ≤ fuel →
  ∃ res k,
    find_loop cmp fuel v (root a) h steps = Some (res, k) ∧
    bool_decide (is_Some res) = seq_has cmp v (vals a) ∧
    (∀ y, res = Some y → y ∈ vals a ∧ cmp v y = 0%Z) ∧
    (∀ l p x r, a = ANode l p x r → cmp v x = 0%Z →
       res = Some x ∧ k = S steps).
Proof.
  induction a as [|l IHl p x r IHr]; intros fuel steps Hrepr Hasc Hfuel.
  - exists None, steps. destruct fuel; simpl; split_and!; done.
  - destruct fuel as [|fuel]; [simpl in Hfuel; lia|].
    simpl in Hfuel. destruct Hrepr as (Hp & Hl & Hr).
    apply shape_Some in Hp as [k Hp].
    simpl in Hasc. pose proof Hasc as Hasc'.
    apply ascending_app_cons in Hasc' as (Hal & Har & Hlv & Hvr).
    cbn [vals]. simpl find_loop. rewrite Hp. simpl.
    destruct (decide (cmp v x < 0)%Z) as [Hlt|Hnlt];
      [|destruct (decide (cmp v x > 0)%Z) as [Hgt|Hngt]].
    + rewrite bool_decide_true by done.
      destruct (IHl fuel (S steps) Hl Hal) as (res & k' & Hfind & Hhas & Hres & _);
        [lia|].
      exists res, k'. split_and!; [done| | |].
      * by rewrite (seq_has_app_lt v _ x _ Hasc Hlt).
      * intros y Hy. destruct (Hres y Hy). split; [|done].
        apply elem_of_app. by left.
      * intros ? ? ? ? [= <- <- <- <-] ?. lia.
    + rewrite bool_decide_false, bool_decide_true by done.
      destruct (IHr fuel (S steps) Hr Har) as (res & k' & Hfind & Hhas & Hres & _);
        [lia|].
      exists res, k'. split_and!; [done| | |].
      * by rewrite (seq_has_app_gt v _ x _ Hasc Hgt).
      * intros y Hy. destruct (Hres y Hy). split; [|done].
        apply elem_of_app. right. apply elem_of_cons. by right.
      * intros ? ? ? ? [= <- <- <- <-] ?. lia.
    + rewrite !bool_decide_false by done.
      assert (cmp v x = 0%Z) as Heq by lia.
      exists (Some x), (S steps). split_and!; [done| | |].
      * rewrite seq_has_app. simpl. rewrite (bool_decide_true (cmp v x = 0%Z)) by done.
        by rewrite orb_true_r.
      * intros y [= <-]. split; [|done]. apply elem_of_app. right.
        apply elem_of_cons. by left.
      * by intros ? ? ? ? [= <- <- <- <-] ?.
Qed.

End reading.

(** * The operations of a handle *)

Section operations.
Context {T : Type} {cmp : T → T → Z} `{!Comparator cmp}.

Local Abbreviation heap := (gmap positive (node T)).
Implicit Types (h : heap) (p q n : positive) (o m : option positive).
Implicit Types (a b l r A B : atree T) (ctx : list (frame T)) (f : frame T).
Implicit Types (bs : list (atree T)) (v x : T).

Lemma wf_descent h a bs :
  wf cmp h (a :: bs) → descent_inv cmp h (root a) bs [] a.
Proof.
  intros [Hcnt Hrepr Hasc].
  apply Forall_cons in Hrepr as [Ha Hbs]. apply Forall_cons in Hasc as [Haa _].
  split; try done. intros b f _ Hf. by apply elem_of_nil in Hf.
Qed.

Lemma splay_is_node ctx A n x B :
  ∃ L R, splay ctx A n x B = ANode L n x R.
Proof.
  revert A B. induction ctx as [|p|p g ctx IH] using list_pair_ind; intros A B.
  - by exists A, B.
  - simpl. destruct (rotate1 p A B) as [A' B']. by exists A', B'.
  - simpl. destruct (rotate2 g p A B) as [A' B']. apply IH.
Qed.

(** The state after a descent, once [splay_to_top] has run and the root
    pointer is set to the splayed node. *)
Lemma splay_descent h m bs ctx A n x B :
  descent_inv cmp h m bs ctx (ANode A n x B) →
  rc_of h n = 1 →
  (∀ b, b ∈ bs → n ∉ ptrs b) →
  Forall (λ b, ascending cmp (vals b)) bs →
  ∃ h',
    splay_to_top (path_of ctx) n h = Some h' ∧
    check_invariant cmp h' (Some n) = Some true ∧
    wf cmp h' (splay ctx A n x B :: bs) ∧
    (∀ q, rc_of h' q = rc_of h q) ∧
    (∀ q, is_Some (h !! q) → is_Some (h' !! q)).
Proof.
  intros Hdi Hrc Hexcl Hbsasc.
  pose proof (descent_NoDup _ _ _ _ _ Hdi) as Hnd.
  pose proof (descent_repr _ _ _ _ _ Hdi) as Hplug.
  destruct Hdi as [Hcnt Htop Hpath (Hn & HA & HB) Hasc Hbs Hexclp].
  assert (NoDup (ptrs (plug ctx (ANode A n x B)))) as Hndp
    by by eapply ptrs_NoDup.
  destruct (splay_to_top_spec h ctx n A B x (Some n))
    as (h' & Hsplay & Hrepr' & Hrc' & Hs'); try done.
  { simpl in Hnd. by rewrite <-app_assoc in Hnd. }
  assert (ascending cmp (vals (splay ctx A n x B))) as Hasc'
    by by rewrite splay_vals.
  exists h'. split; [done|]. split.
  { rewrite <-(splay_root ctx A n x B). by apply check_invariant_ok. }
  assert (∀ q, q ∉ ptrs (plug ctx (ANode A n x B)) → shape h' q = shape h q)
    as Hframe.
  { intros q Hq. rewrite ptrs_plug_perm in Hq. apply not_elem_of_app in Hq as [Hq1 Hq2].
    apply Hs'.
    - intros ->. apply Hq1. simpl. apply elem_of_app. right.
      apply elem_of_cons. by left.
    - intros (f & -> & Hf)%list_elem_of_fmap. apply Hq2.
      by apply path_node_in_ctx_ptrs. }
  split_and!.
  - split.
    + simpl. rewrite splay_root, <-(splay_root ctx A n x B).
      eapply (rearranged_counted h h' (plug ctx (ANode A n x B))); try done.
      * by rewrite <-Htop.
      * by rewrite splay_ptrs.
    + apply Forall_cons. split; [done|].
      apply Forall_forall. intros b Hb. rewrite Forall_forall in Hbs.
      eapply repr_frame; [|by apply Hbs]. intros q Hq. apply Hs'.
      * intros ->. by eapply Hexcl.
      * intros (f & -> & Hf)%list_elem_of_fmap. by eapply Hexclp.
    + by apply Forall_cons.
  - done.
  - intros q Hq. apply shape_is_Some.
    destruct (decide (q ∈ ptrs (plug ctx (ANode A n x B)))) as [Hin|Hnin].
    + apply shape_is_Some. eapply repr_allocated; [done|].
      by rewrite splay_ptrs.
    + rewrite Hframe by done. by apply shape_is_Some.
Qed.

(** [insert_pull] on a well-formed store. *)
Lemma insert_pull_spec v is_insert h a bs :
  wf cmp h (a :: bs) →
  ∃ d h' m' found a',
    insert_pull_loop cmp (size h) v is_insert [] (root a) h (root a) = Some d ∧
    descent_post cmp v is_insert bs h (root a) [] a [] [] d ∧
    insert_pull cmp v is_insert h (root a) = Some (h', m', found) ∧
    root a' = m' ∧
    wf cmp h' (a' :: bs) ∧
    vals a' = (if is_insert then seq_insert cmp v (vals a) else vals a) ∧
    found = seq_has cmp v (vals a) ∧
    (∀ q, is_Some (h !! q) → is_Some (h' !! q)) ∧
    match d with
    | descent_return _ _ => h' = h ∧ a' = ALeaf ∧ a = ALeaf
    | descent_break _ _ _ n found' =>
      found' = found ∧
      ∃ L x R, a' = ANode L n x R ∧ rc_of h' n = 1 ∧
        (∀ b, b ∈ bs → n ∉ ptrs b) ∧
        (found = true → cmp v x = 0%Z) ∧
        (is_insert = true → x = v)
    end.
Proof.
  intros Hwf. pose proof (wf_descent h a bs Hwf) as Hdi.
  destruct Hwf as [Hcnt Hrepr Hasc].
  apply Forall_cons in Hrepr as [Ha Hbs]. apply Forall_cons in Hasc as [Haa Hbsa].
  destruct (insert_pull_loop_spec v is_insert bs a (size h) [] h (root a) [] [])
    as (d & Hloop & Hpost); try done.
  { by apply tree_fits. }
  { intros t. simpl. by rewrite app_nil_r. }
  exists d. unfold insert_pull. change (path_of []) with (@nil (entry)) in Hloop.
  rewrite Hloop. simpl.
  destruct d as [h1 m1|h1 m1 path n found]; cbn [descent_post] in Hpost.
  - destruct Hpost as (-> & -> & -> & _ & ->).
    exists h, None, false, ALeaf. split_and!; try done.
    split; [done|by apply Forall_cons|]. apply Forall_cons.
    split; [apply ascending_nil|done].
  - destruct Hpost as (ctx' & A & x & B & -> & Hdi' & Hrc' & Hexcl' &
                       Hvals & Hfound & Hfx & Hix & Hleaf & Hmono').
    destruct (splay_descent h1 m1 bs ctx' A n x B)
      as (h2 & Hsplay & Hcheck & Hwf2 & Hrc2 & Hmono2); try done.
    rewrite Hsplay. simpl. rewrite Hcheck. simpl.
    destruct (splay_is_node ctx' A n x B) as (L & R & HLR).
    exists h2, (Some n), found, (splay ctx' A n x B).
    split_and!; try done.
    + eexists ctx', A, x, B. split_and!; done.
    + apply splay_root.
    + rewrite splay_vals, Hvals. simpl. by rewrite app_nil_r.
    + intros q Hq. by apply Hmono2, Hmono'.
    + exists L, x, R. split_and!; try done. by rewrite Hrc2.
Qed.

Lemma splay_all_right ctx A n x B :
  Forall (λ f, f_right f = true) ctx →
  ∃ L, splay ctx A n x B = ANode L n x B.
Proof.
  revert A. induction ctx as [|p|p g ctx IH] using list_pair_ind; intros A Hctx.
  - by exists A.
  - apply Forall_cons in Hctx as [Hp _]. simpl. unfold rotate1. rewrite Hp.
    by eexists.
  - apply Forall_cons in Hctx as [Hp Hctx]. apply Forall_cons in Hctx as [Hg Hctx].
    simpl. unfold rotate2. rewrite Hp, Hg. by apply IH.
Qed.

Lemma pull_max_loop_node fuel path n h m :
  pull_max_loop cmp (S fuel) path n h m =
  '(h, m, n) ← unshare path n h m;
  nd ← h !! n;
  match m_right nd with
  | Some r => pull_max_loop cmp fuel (mk_entry true n :: path) r h m
  | None =>
    h ← splay_to_top path n h;
    let m := Some n in
    b ← check_invariant cmp h m;
    lean_assert b;;
    Some (h, m)
  end.
Proof. done. Qed.

(** The loop of [pull_max], started anywhere on the right spine. *)
Lemma pull_max_loop_spec bs a :
  ∀ fuel ctx h m (l1 : list T) q,
  root a = Some q →
  descent_inv cmp h m bs ctx a →
  height a ≤ fuel →
  (∀ t, vals (plug ctx t) = l1 ++ vals t) →
  Forall (λ f, f_right f = true) ctx →
  Forall (λ b, ascending cmp (vals b)) bs →
  ∃ h' n L x,
    pull_max_loop cmp fuel (path_of ctx) q h m = Some (h', Some n) ∧
    wf cmp h' (ANode L n x ALeaf :: bs) ∧
    vals (ANode L n x ALeaf) = l1 ++ vals a ∧
    rc_of h' n = 1 ∧
    (∀ b, b ∈ bs → n ∉ ptrs b) ∧
    (∀ q', is_Some (h !! q') → is_Some (h' !! q')).
Proof.
  induction a as [|l _ q0 x r IHr];
    intros fuel ctx h m l1 q Hroot Hdi Hfuel Hplug Hright Hbsa; [done|].
  injection Hroot as ->.
  destruct fuel as [|fuel]; [simpl in Hfuel; lia|]. simpl in Hfuel.
  rewrite pull_max_loop_node.
  destruct (unshare_spec h m bs ctx l q x r Hdi)
    as (h1 & m1 & n & Hun & Hdi1 & Hrc1 & Hexcl1 & Hmono1 & _).
  rewrite Hun. simpl.
  pose proof (di_cur _ _ _ _ _ _ Hdi1) as (Hn & Hl & Hr).
  pose proof (lookup_shape_rc h1 n _ _ _ _ Hn Hrc1) as Hln.
  rewrite Hln. simpl.
  destruct r as [|rl rq rx rr].
  - simpl root.
    destruct (splay_descent h1 m1 bs ctx l n x ALeaf)
      as (h2 & Hsplay & Hcheck & Hwf2 & Hrc2 & Hmono2); try done.
    rewrite Hsplay. simpl. rewrite Hcheck. simpl.
    destruct (splay_all_right ctx l n x ALeaf Hright) as (L & HL).
    exists h2, n, L, x. rewrite <-HL. split_and!; try done.
    + pose proof (splay_vals ctx l n x ALeaf) as Hv.
      rewrite HL, Hplug in Hv. exact Hv.
    + by rewrite Hrc2.
    + intros q' Hq'. by apply Hmono2, Hmono1.
  - simpl root.
    destruct (IHr fuel (mk_frame true n x l :: ctx) h1 m1
                (l1 ++ vals l ++ [x]) rq)
      as (h2 & n2 & L & x2 & Hloop & Hwf2 & Hvals2 & Hrc2 & Hexcl2 & Hmono2);
      try done.
    { by apply (descent_push h1 m1 bs ctx l n x (ANode rl rq rx rr) true). }
    { lia. }
    { intros t. rewrite plug_cons. unfold plug_frame. simpl.
      rewrite Hplug. simpl. by rewrite <-!app_assoc. }
    { by apply Forall_cons. }
    exists h2, n2, L, x2. split_and!; try done.
    + cbn [vals] in *. rewrite Hvals2. by rewrite <-!app_assoc.
    + intros q' Hq'. by apply Hmono2, Hmono1.
Qed.

(** [pull_max] brings the greatest element to the root, whose right child
    is then empty. *)
Lemma pull_max_spec h a bs :
  wf cmp h (a :: bs) →
  ∃ h' a',
    pull_max cmp h (root a) = Some (h', root a') ∧
    wf cmp h' (a' :: bs) ∧
    vals a' = vals a ∧
    (∀ q, is_Some (h !! q) → is_Some (h' !! q)) ∧
    (a = ALeaf → a' = ALeaf ∧ h' = h) ∧
    (a ≠ ALeaf → ∃ L n x,
       a' = ANode L n x ALeaf ∧ rc_of h' n = 1 ∧ (∀ b, b ∈ bs → n ∉ ptrs b)).
Proof.
  intros Hwf. pose proof (wf_descent h a bs Hwf) as Hdi.
  destruct Hwf as [Hcnt Hrepr Hasc].
  apply Forall_cons in Hrepr as [Ha Hbs]. apply Forall_cons in Hasc as [Haa Hbsa].
  destruct a as [|l q x r].
  - exists h, ALeaf. split_and!; try done.
    split; [done|by apply Forall_cons|by apply Forall_cons].
  - destruct (pull_max_loop_spec bs (ANode l q x r) (size h) [] h (Some q) [] q)
      as (h' & n & L & x' & Hloop & Hwf' & Hvals' & Hrc' & Hexcl' & Hmono');
      try done.
    { by apply tree_fits. }
    exists h', (ANode L n x' ALeaf). split_and!; try done.
    intros _. by exists L, n, x'.
Qed.

Lemma dec_ref_fuel_unfold fuel o h :
  dec_ref_fuel fuel o h =
  match o with
  | None => Some h
  | Some p =>
    nd ← h !! p;
    lean_assert (bool_decide (0 < m_rc nd));;
    let h := <[p := with_rc (m_rc nd - 1) nd]> h in
    if bool_decide (m_rc nd = 1) then
      match fuel with
      | 0 => None
      | S fuel =>
        h ← dec_ref_fuel fuel (m_left nd) h;
        h ← dec_ref_fuel fuel (m_right nd) h;
        Some (delete p h)
      end
    else Some h
  end.
Proof. by destruct fuel. Qed.

(** A run of [dec_ref] does not see a cell that it never reaches. *)
Lemma dec_ref_fuel_comm fuel : ∀ o h h' p (z : node T),
  h !! p = None →
  dec_ref_fuel fuel o h = Some h' →
  dec_ref_fuel fuel o (<[p := z]> h) = Some (<[p := z]> h') ∧ h' !! p = None.
Proof.
  induction fuel as [|fuel IH]; intros o h h' p z Hp;
    rewrite !dec_ref_fuel_unfold; (destruct o as [q|]; [|by intros [= <-]]).
  - destruct (h !! q) as [nd|] eqn:Hq; [|done]. simpl.
    assert (p ≠ q) as Hne by (intros ->; congruence).
    rewrite lookup_insert_ne, Hq by done. simpl.
    destruct (bool_decide (0 < m_rc nd)); [|done]. simpl.
    destruct (bool_decide (m_rc nd = 1)); [done|].
    intros [= <-]. split; [by rewrite insert_insert_ne|].
    by rewrite lookup_insert_ne.
  - destruct (h !! q) as [nd|] eqn:Hq; [|done]. simpl.
    assert (p ≠ q) as Hne by (intros ->; congruence).
    rewrite lookup_insert_ne, Hq by done. simpl.
    destruct (bool_decide (0 < m_rc nd)); [|done]. simpl.
    destruct (bool_decide (m_rc nd = 1)).
    + destruct (dec_ref_fuel fuel (m_left nd) (<[q:=_]> h)) as [h2|] eqn:H2;
        [|done]. simpl.
      destruct (dec_ref_fuel fuel (m_right nd) h2) as [h3|] eqn:H3; [|done].
      simpl. intros [= <-].
      destruct (IH _ _ _ p z (eq_trans (lookup_insert_ne h q p _ (not_eq_sym Hne)) Hp) H2)
        as [H2' Hp2].
      destruct (IH _ _ _ p z Hp2 H3) as [H3' Hp3].
      rewrite (insert_insert_ne h) by done. rewrite H2'. simpl. rewrite H3'. simpl.
      split; [by rewrite delete_insert_ne|]. by rewrite lookup_delete_ne.
    + intros [= <-]. split; [by rewrite insert_insert_ne|].
      by rewrite lookup_insert_ne.
Qed.

(** A node that no slot points to occurs in a tree at most as its root. *)
Lemma unreferenced_not_in h t p :
  heap_refs h p = 0 → repr h t → root t ≠ Some p → p ∉ ptrs t.
Proof.
  intros Hrefs Hrepr Hroot Hin.
  destruct (repr_parent h t p Hrepr Hin) as [?|(y & sl & sr & w & Hy & Hsy & Hpt)];
    [done|].
  apply shape_Some in Hsy as [k Hly].
  pose proof (heap_refs_ge h y _ p Hly) as Hge. simpl in Hge.
  pose proof (slot_count_points sl sr p Hpt). lia.
Qed.

(** Releasing the reference that a handle holds: the nodes that nothing
    else refers to are freed, the counts stay right for the other handles
    and their trees stay as they are. *)
Lemma dec_ref_fuel_spec a : ∀ fuel h ts,
  repr h a →
  counted h (root a :: (root <$> ts)) →
  Forall (repr h) ts →
  height a ≤ fuel →
  ∃ h',
    dec_ref_fuel fuel (root a) h = Some h' ∧
    counted h' (root <$> ts) ∧
    Forall (repr h') ts ∧
    (∀ q, is_Some (h' !! q) → is_Some (h !! q)).
Proof.
  induction a as [|l IHl p v r IHr]; intros fuel h ts Hrepr Hcnt Hts Hfuel.
  - exists h. rewrite dec_ref_fuel_unfold. simpl. split_and!; done.
  - destruct Hrepr as (Hp & Hl & Hr). simpl root in *.
    pose proof Hp as Hp'. apply shape_Some in Hp' as [k Hlp].
    pose proof (rc_of_lookup _ _ _ Hlp) as Hrc. simpl in Hrc.
    pose proof (Hcnt p) as Hcp. unfold refs in Hcp. simpl in Hcp.
    rewrite decide_True, Hrc in Hcp by done.
    destruct (decide (1 < k)) as [Hk|Hk].
    + destruct (dec_ref_fuel_shared fuel h (Some p)) as (h' & Hdec & Hs & Hrc').
      { intros ? [= <-]. by rewrite Hrc. }
      exists h'. split_and!; [done| | |].
      * intros q. specialize (Hcnt q). specialize (Hrc' q).
        unfold refs in *. simpl in Hcnt.
        rewrite (same_shapes_heap_refs h h') by done. lia.
      * eapply Forall_impl; [exact Hts|]. intros t Ht.
        eapply repr_frame; [|done]. intros q _. apply Hs.
      * intros q Hq. by rewrite <-shape_is_Some, <-Hs, shape_is_Some.
    + assert (k = 1) as -> by lia.
      assert (heap_refs h p = 0 ∧ root_refs (root <$> ts) p = 0) as [Hhr Hrr] by lia.
      destruct fuel as [|fuel]; [simpl in Hfuel; lia|]. simpl in Hfuel.
      set (z := mk_node (root l) (root r) v 0).
      set (h0 := delete p h).
      assert (h0 !! p = None) as Hp0 by apply lookup_delete_eq.
      assert (<[p := z]> h = <[p := z]> h0) as Hz
        by (unfold h0; by rewrite insert_delete_eq).
      assert (root l ≠ Some p ∧ root r ≠ Some p) as [Hlp' Hrp'].
      { pose proof (heap_refs_ge h p _ p Hlp) as Hge. simpl in Hge.
        rewrite slot_count_pair in Hge. simpl in Hge.
        rewrite Hhr in Hge.
        destruct (decide (root l = Some p)), (decide (root r = Some p));
          simpl in Hge; try lia. done. }
      assert (∀ t, repr h t → root t ≠ Some p → repr h0 t) as Hframe.
      { intros t Ht Hroot. eapply repr_frame; [|done]. intros q Hq.
        unfold h0. apply shape_delete_ne. intros ->.
        by eapply (unreferenced_not_in h t q). }
      assert (counted h0 (root l :: (root <$> r :: ts))) as Hcnt0.
      { intros q. specialize (Hcnt q). unfold refs in *.
        rewrite fmap_cons. cbn [root_refs] in *.
        pose proof (heap_refs_delete h p _ q Hlp) as Hdel. fold h0 in Hdel.
        simpl in Hdel. rewrite slot_count_pair in Hdel. simpl in Hdel.
        unfold rc_of in *. unfold h0 at 1. rewrite lookup_delete.
        destruct (decide (p = q)) as [<-|Hne].
        - rewrite Hlp in Hcnt. simpl in Hcnt.
          rewrite !decide_False by done. rewrite !decide_False in Hdel by done.
          lia.
        - rewrite (decide_False (P := Some p = Some q)) in Hcnt by congruence.
          lia. }
      assert (Forall (repr h0) (r :: ts)) as Hts0.
      { apply Forall_cons. split; [by apply Hframe|].
        apply Forall_forall. intros t Ht. rewrite Forall_forall in Hts.
        apply Hframe; [by apply Hts|]. intros Heq.
        assert (1 ≤ root_refs (root <$> ts) p); [|lia].
        apply root_refs_ge. rewrite <-Heq. apply list_elem_of_fmap. eauto. }
      destruct (IHl fuel h0 (r :: ts)) as (h2 & Hdec2 & Hcnt2 & Hts2 & Hmono2);
        [by apply Hframe|done|done|lia|].
      apply Forall_cons in Hts2 as [Hr2 Hts2].
      destruct (IHr fuel h2 ts) as (h3 & Hdec3 & Hcnt3 & Hts3 & Hmono3);
        [done|done|done|lia|].
      destruct (dec_ref_fuel_comm fuel _ _ _ p z Hp0 Hdec2) as [Hdec2' Hp2].
      destruct (dec_ref_fuel_comm fuel _ _ _ p z Hp2 Hdec3) as [Hdec3' Hp3].
      exists h3. split_and!; [|done|done|].
      * rewrite dec_ref_fuel_unfold. rewrite Hlp. simpl.
        change (with_rc 0 (mk_node (root l) (root r) v 1)) with z. rewrite Hz.
        rewrite Hdec2'. simpl. rewrite Hdec3'. simpl.
        by rewrite delete_insert_eq, delete_id.
      * intros q Hq. apply Hmono3, Hmono2 in Hq. unfold h0 in Hq.
        destruct (decide (p = q)) as [<-|Hne]; [eauto|].
        by rewrite lookup_delete_ne in Hq.
Qed.

Lemma wf_perm h ts ts' : ts ≡ₚ ts' → wf cmp h ts → wf cmp h ts'.
Proof.
  intros Hperm [Hcnt Hrepr Hasc]. split.
  - intros p. rewrite (Hcnt p). unfold refs. f_equal.
    apply root_refs_perm. by rewrite Hperm.
  - by rewrite <-Hperm.
  - by rewrite <-Hperm.
Qed.

Lemma wf_add_leaf h ts : wf cmp h ts → wf cmp h (ALeaf :: ts).
Proof.
  intros [Hcnt Hrepr Hasc]. split.
  - done.
  - by apply Forall_cons.
  - apply Forall_cons. split; [apply ascending_nil|done].
Qed.

Lemma wf_drop_leaf h ts : wf cmp h (ALeaf :: ts) → wf cmp h ts.
Proof.
  intros [Hcnt Hrepr Hasc].
  apply Forall_cons in Hrepr as [_ Hrepr]. apply Forall_cons in Hasc as [_ Hasc].
  by split.
Qed.

Lemma wf_head h a ts :
  wf cmp h (a :: ts) → repr h a ∧ ascending cmp (vals a).
Proof.
  intros [_ Hrepr Hasc].
  apply Forall_cons in Hrepr as [? _]. apply Forall_cons in Hasc as [? _]. done.
Qed.

(** A new handle on a tree that is in the store: the constructors
    [splay_tree(s)] and [splay_tree(s, new_root)]. *)
Lemma copy_spec h a ts :
  wf cmp h ts → repr h a → ascending cmp (vals a) →
  ∃ h',
    copy (root a) h = Some (h', root a) ∧
    wf cmp h' (a :: ts) ∧
    (∀ q, shape h' q = shape h q) ∧
    (∀ q, rc_of h' q = rc_of h q + if decide (root a = Some q) then 1 else 0).
Proof.
  intros [Hcnt Hrepr Hasc] Ha Haa.
  destruct (inc_ref_spec h (root a)) as (h' & Hinc & Hs & Hrc).
  { intros p Hp. eapply repr_allocated; [done|]. by apply root_in_ptrs. }
  exists h'. unfold copy. rewrite Hinc. simpl. split_and!; try done.
  split.
  - intros p. rewrite Hrc, (Hcnt p). unfold refs.
    rewrite fmap_cons. cbn [root_refs].
    rewrite (same_shapes_heap_refs h h') by done. lia.
  - apply Forall_cons. split.
    + eapply repr_frame; [|done]. intros q _. apply Hs.
    + eapply Forall_impl; [exact Hrepr|]. intros t Ht.
      eapply repr_frame; [|done]. intros q _. apply Hs.
  - by apply Forall_cons.
Qed.

(** Giving up the reference of a handle: the destructor and [clear]. *)
Lemma release_spec h a ts :
  wf cmp h (a :: ts) →
  ∃ h',
    dec_ref (root a) h = Some h' ∧
    wf cmp h' ts ∧
    (∀ q, is_Some (h' !! q) → is_Some (h !! q)).
Proof.
  intros [Hcnt Hrepr Hasc].
  apply Forall_cons in Hrepr as [Ha Hrepr]. apply Forall_cons in Hasc as [Haa Hasc].
  destruct (dec_ref_fuel_spec a (size h) h ts) as (h' & Hdec & Hcnt' & Hrepr' & Hmono);
    try done.
  { by apply tree_fits. }
  exists h'. split_and!; try done.
Qed.

(** The last step of the join in [erase]: [R] becomes the right child of
    the root [lp] of the left tree, whose right child was empty. *)
Lemma join_link h (LL : atree T) (lp : positive) xl (R : atree T) (rq : positive)
    (ts : list (atree T)) :
  wf cmp h (ANode LL lp xl ALeaf :: R :: ts) →
  rc_of h lp = 1 →
  lp ∉ ptrs R → (∀ t, t ∈ ts → lp ∉ ptrs t) →
  root R = Some rq →
  ascending cmp (vals LL ++ xl :: vals R) →
  ∃ h1 h2,
    node_inc_ref rq h = Some h1 ∧
    store lp (with_right (Some rq)) h1 = Some h2 ∧
    wf cmp h2 (ANode LL lp xl R :: R :: ts).
Proof.
  intros Hwf Hrc HlR Hlts HrootR Hasc.
  destruct (wf_head _ _ _ Hwf) as [(Hl' & HLL & _) HaL].
  pose proof (ptrs_NoDup h _ (proj1 (wf_head _ _ _ Hwf)) HaL) as Hnd.
  simpl in Hnd. apply NoDup_app in Hnd as (_ & Hsep & _).
  assert (lp ∉ ptrs LL) as HlLL.
  { intros Hin. eapply Hsep; [done|]. apply elem_of_cons. by left. }
  destruct Hwf as [Hcnt Hrepr Hascs].
  apply Forall_cons in Hrepr as [_ Hrepr]. apply Forall_cons in Hrepr as [HR Hts].
  apply Forall_cons in Hascs as [_ Hascs].
  assert (rq ≠ lp) as Hne.
  { intros ->. apply HlR. by apply root_in_ptrs. }
  destruct (node_inc_ref_spec h rq) as (h1 & Hinc & Hs1 & Hrc1).
  { eapply (repr_allocated h R); [done|]. by apply root_in_ptrs. }
  assert (shape h1 lp = Some (root LL, None, xl)) as Hl1 by (rewrite Hs1; exact Hl').
  assert (rc_of h1 lp = 1) as Hrcl1.
  { rewrite Hrc1, Hrc, decide_False by done. lia. }
  exists h1, (<[lp := mk_node (root LL) (Some rq) xl 1]> h1).
  split; [done|]. split.
  { erewrite store_spec; [|done|lia]. by rewrite Hrcl1. }
  pose proof (lookup_shape_rc h1 lp _ _ _ _ Hl1 Hrcl1) as Hll1.
  assert (∀ t, lp ∉ ptrs t → repr h t →
               repr (<[lp := mk_node (root LL) (Some rq) xl 1]> h1) t) as Hframe.
  { intros t Ht Hrt. eapply repr_frame; [|done]. intros q Hq.
    rewrite shape_insert_ne, Hs1; [done|]. by intros ->. }
  split.
  - intros p. rewrite rc_of_insert. unfold refs.
    pose proof (heap_refs_update h1 lp _ (mk_node (root LL) (Some rq) xl 1) p Hll1)
      as Hupd.
    rewrite (same_shapes_heap_refs h h1) in Hupd by done.
    rewrite !slot_count_pair in Hupd. simpl in Hupd.
    specialize (Hcnt p). unfold refs in Hcnt.
    rewrite !fmap_cons in *. cbn [root_refs root] in *. rewrite HrootR in *.
    specialize (Hrc1 p).
    assert ((if decide (Some rq = Some p) then 1 else 0) =
            (if decide (rq = p) then 1 else 0)) as Hpq
      by (repeat case_decide; simplify_eq; done).
    rewrite Hpq in *.
    destruct (decide (lp = p)) as [<-|Hnp].
    + rewrite Hrc, decide_False in Hrc1 by done. simpl.
      rewrite (decide_False (P := rq = lp)) in * by done. lia.
    + lia.
  - apply Forall_cons. split; [|apply Forall_cons; split].
    + simpl. rewrite shape_insert, decide_True by done. rewrite HrootR.
      split_and!; [done|by apply Hframe..].
    + by apply Hframe.
    + apply Forall_forall. intros t Ht. rewrite Forall_forall in Hts.
      apply Hframe; [by apply Hlts|by apply Hts].
  - apply Forall_cons. split; done.
Qed.

Lemma dec_ref_null h : dec_ref None h = Some h.
Proof. unfold dec_ref. by rewrite dec_ref_fuel_unfold. Qed.

(** What [erase] does once [pull] has brought the element to the root:
    the root is dropped and its two subtrees are joined. *)
Lemma erase_found_spec v h L n x R bs :
  wf cmp h (ANode L n x R :: bs) →
  rc_of h n = 1 →
  (∀ b, b ∈ bs → n ∉ ptrs b) →
  cmp v x = 0%Z →
  ∃ h' a',
    erase_found cmp v h (Some n) = Some (h', root a') ∧
    wf cmp h' (a' :: bs) ∧
    vals a' = vals L ++ vals R ∧
    match L, R with
    | ALeaf, _ => a' = R
    | _, ALeaf => a' = L
    | _, _ =>
      ∃ h2 h3 h4 h5 LL lp xl,
        copy (root L) h = Some (h2, root L) ∧
        copy (root R) h2 = Some (h3, root R) ∧
        clear h3 (Some n) = Some (h4, None) ∧
        pull_max cmp h4 (root L) = Some (h5, Some lp) ∧
        repr h5 (ANode LL lp xl ALeaf) ∧
        vals LL ++ [xl] = vals L ∧
        a' = ANode LL lp xl R
    end.
Proof.
  intros Hwf Hrc Hexcl Heq.
  destruct (wf_head _ _ _ Hwf) as [Ha1 Hasc1].
  pose proof Ha1 as (Hn & HL & HR).
  pose proof Hasc1 as Hasc1'. simpl in Hasc1'.
  apply ascending_app_cons in Hasc1' as (HaL & HaR & HLx & HxR).
  assert (ascending cmp (vals L ++ vals R)) as HaLR.
  { eapply ascending_sublist; [|exact Hasc1]. simpl.
    apply sublist_app; [done|]. by apply sublist_cons. }
  unfold erase_found. simpl.
  rewrite (lookup_shape_rc h n _ _ _ _ Hn Hrc). simpl.
  rewrite (bool_decide_true (cmp x v = 0%Z)) by by apply cmp_eq_sym. simpl.
  destruct (copy_spec h L (ANode L n x R :: bs) Hwf HL HaL)
    as (h2 & Hcopy2 & Hwf2 & Hs2 & Hrc2).
  rewrite Hcopy2. simpl.
  assert (shape h2 n = Some (root L, root R, x)) as Hn2 by by rewrite Hs2.
  apply shape_Some in Hn2 as [k2 Hn2]. rewrite Hn2. simpl.
  assert (repr h2 R) as HR2.
  { eapply repr_frame; [|exact HR]. intros q _. apply Hs2. }
  destruct (copy_spec h2 R (L :: ANode L n x R :: bs) Hwf2 HR2 HaR)
    as (h3 & Hcopy3 & Hwf3 & Hs3 & Hrc3).
  rewrite Hcopy3. simpl.
  assert (wf cmp h3 (ANode L n x R :: R :: L :: bs)) as Hwf3'.
  { eapply wf_perm; [|exact Hwf3]. solve_Permutation. }
  destruct L as [|Ll Lp Lx Lr].
  - (* no left subtree *)
    simpl. destruct (release_spec h3 _ _ Hwf3') as (h4 & Hdec4 & Hwf4 & _).
    unfold destroy. simpl in Hdec4. rewrite Hdec4. simpl.
    rewrite dec_ref_null. simpl.
    exists h4, R. split_and!; try done.
    eapply wf_drop_leaf, wf_perm; [|exact Hwf4]. solve_Permutation.
  - destruct R as [|Rl Rp Rx Rr].
    + (* no right subtree *)
      simpl. unfold destroy. rewrite dec_ref_null. simpl.
      destruct (release_spec h3 _ _ Hwf3') as (h4 & Hdec4 & Hwf4 & _).
      simpl in Hdec4. rewrite Hdec4. simpl.
      exists h4, (ANode Ll Lp Lx Lr). split_and!; try done.
      * by eapply wf_drop_leaf.
      * simpl. by rewrite app_nil_r.
    + (* the join *)
      cbn [root empty]. unfold clear.
      destruct (release_spec h3 _ _ Hwf3') as (h4 & Hdec4 & Hwf4 & _).
      simpl in Hdec4. rewrite Hdec4. simpl.
      assert (wf cmp h4 (ANode Ll Lp Lx Lr :: ANode Rl Rp Rx Rr :: bs)) as Hwf4'.
      { eapply wf_perm; [|exact Hwf4]. solve_Permutation. }
      destruct (pull_max_spec h4 _ _ Hwf4')
        as (h5 & L' & Hpm & Hwf5 & Hvals5 & _ & _ & Hnode); try done.
      destruct Hnode as (LL & lp & xl & -> & Hrc5 & Hexcl5); [done|].
      simpl root in Hpm. simpl in Hpm. rewrite Hpm. simpl.
      destruct (wf_head _ _ _ Hwf5) as [Hrepr5 _].
      pose proof Hrepr5 as (Hlp5 & _ & _).
      simpl root in Hlp5.
      rewrite (lookup_shape_rc h5 lp _ _ _ _ Hlp5 Hrc5). simpl.
      destruct (join_link h5 LL lp xl (ANode Rl Rp Rx Rr) Rp bs)
        as (h6 & h7 & Hinc6 & Hst7 & Hwf7); try done.
      { apply Hexcl5. apply elem_of_cons. by left. }
      { intros t Ht. apply Hexcl5. apply elem_of_cons. by right. }
      { simpl in Hvals5. assert (vals LL ++ xl :: vals (ANode Rl Rp Rx Rr) =
          (vals LL ++ [xl]) ++ vals (ANode Rl Rp Rx Rr)) as ->
          by by rewrite <-app_assoc.
        by rewrite Hvals5. }
      rewrite Hinc6. simpl. rewrite Hst7. simpl.
      assert (wf cmp h7 (ANode Rl Rp Rx Rr ::
                ANode LL lp xl (ANode Rl Rp Rx Rr) :: bs)) as Hwf7'.
      { eapply wf_perm; [|exact Hwf7]. solve_Permutation. }
      destruct (release_spec h7 _ _ Hwf7') as (h8 & Hdec8 & Hwf8 & _).
      unfold destroy. simpl in Hdec8. rewrite Hdec8. simpl.
      rewrite dec_ref_null. simpl.
      exists h8, (ANode LL lp xl (ANode Rl Rp Rx Rr)). split_and!; try done.
      * simpl in *. rewrite <-Hvals5. by rewrite <-!app_assoc.
      * exists h2, h3, h4, h5, LL, lp, xl. split_and!; try done.
        -- unfold clear. simpl. by rewrite Hdec4.
        -- apply Hrepr5.
Qed.

(** [insert] on a well-formed store. *)
Lemma insert_spec v h a bs :
  wf cmp h (a :: bs) →
  ∃ h' a',
    insert cmp v h (root a) = Some (h', root a') ∧
    wf cmp h' (a' :: bs) ∧
    vals a' = seq_insert cmp v (vals a) ∧
    ∃ L n R h1 m1 path sl sr,
      a' = ANode L n v R ∧
      insert_pull_loop cmp (size h) v true [] (root a) h (root a) =
        Some (descent_break h1 m1 path n (seq_has cmp v (vals a))) ∧
      shape h1 n = Some (sl, sr, v) ∧
      (seq_has cmp v (vals a) = false → sl = None ∧ sr = None ∧ h !! n = None).
Proof.
  intros Hwf.
  destruct (insert_pull_spec v true h a bs Hwf)
    as (d & h' & m' & found & a' & Hloop & Hpost & Hpull & Hroot & Hwf' &
        Hvals & Hfound & Hmono & Hd).
  exists h', a'. unfold insert. rewrite Hpull. simpl. rewrite Hroot.
  split_and!; try done.
  destruct d as [h1 m1|h1 m1 path n found'].
  - cbn [descent_post] in Hpost. by destruct Hpost as (_ & _ & _ & _ & ?).
  - destruct Hd as (Hf' & L & x & R & -> & _ & _ & _ & Hx).
    rewrite (Hx eq_refl). cbn [descent_post] in Hpost.
    destruct Hpost as (ctx' & A & y & B & _ & Hdi & _ & _ & _ & _ & _ & Hy & Hnew & _).
    pose proof (di_cur _ _ _ _ _ _ Hdi) as (Hn & _ & _).
    rewrite (Hy eq_refl) in Hn.
    exists L, n, R, h1, m1, path, (root A), (root B).
    rewrite Hloop, Hf', Hfound. split_and!; try done.
    intros Hnf. destruct (Hnew eq_refl) as (-> & -> & Hfresh); [congruence|].
    done.
Qed.

(** [pull] on a well-formed store: the tree is rearranged, the elements
    stay, and an element equal to [v] is at the root if there is one. *)
Lemma pull_spec v h a bs :
  wf cmp h (a :: bs) →
  ∃ h' a',
    pull cmp v h (root a) = Some (h', root a', seq_has cmp v (vals a)) ∧
    wf cmp h' (a' :: bs) ∧
    vals a' = vals a ∧
    (a = ALeaf → a' = ALeaf ∧ h' = h) ∧
    (a ≠ ALeaf → ∃ L n x R,
       a' = ANode L n x R ∧ rc_of h' n = 1 ∧ (∀ b, b ∈ bs → n ∉ ptrs b) ∧
       (seq_has cmp v (vals a) = true → cmp v x = 0%Z) ∧
       ∃ h1 m1 path,
         insert_pull_loop cmp (size h) v false [] (root a) h (root a) =
           Some (descent_break h1 m1 path n (seq_has cmp v (vals a)))).
Proof.
  intros Hwf.
  destruct (insert_pull_spec v false h a bs Hwf)
    as (d & h' & m' & found & a' & Hloop & Hpost & Hpull & Hroot & Hwf' &
        Hvals & Hfound & Hmono & Hd).
  exists h', a'. unfold pull. rewrite Hpull, Hroot, Hfound.
  split_and!; try done.
  - intros ->. destruct d as [h1 m1|h1 m1 path n found'].
    + by destruct Hd as (-> & -> & _).
    + cbn [descent_post] in Hpost.
      destruct Hpost as (ctx' & A & x & B & _ & Hdi & _ & _ & Hv & _).
      destruct (vals_plug ctx') as (l1 & l2 & Hplug). rewrite Hplug in Hv.
      apply app_eq_nil in Hv as [_ Hv]. apply app_eq_nil in Hv as [Hv _].
      simpl in Hv. apply app_eq_nil in Hv as [_ Hv]. done.
  - intros Hne. destruct d as [h1 m1|h1 m1 path n found'].
    + by destruct Hd as (_ & _ & ?).
    + destruct Hd as (Hf' & L & x & R & -> & Hrc & Hexcl & Hfx & _).
      exists L, n, x, R. split_and!; try done.
      * intros Hhas. apply Hfx. by rewrite Hfound.
      * exists h1, m1, path. by rewrite Hloop, Hf', Hfound.
Qed.

(** [find_memoize] on a well-formed store. *)
Lemma find_memoize_spec v h a bs :
  wf cmp h (a :: bs) →
  ∃ h' a' res,
    find_memoize cmp v h (root a) = Some (h', root a', res) ∧
    wf cmp h' (a' :: bs) ∧
    vals a' = vals a ∧
    pull cmp v h (root a) = Some (h', root a', seq_has cmp v (vals a)) ∧
    (a = ALeaf → a' = ALeaf ∧ h' = h) ∧
    (a ≠ ALeaf → ∃ h1 m1 path n,
       insert_pull_loop cmp (size h) v false [] (root a) h (root a) =
         Some (descent_break h1 m1 path n (seq_has cmp v (vals a))) ∧
       root a' = Some n) ∧
    match res with
    | Some y =>
      seq_has cmp v (vals a) = true ∧ cmp v y = 0%Z ∧
      ∃ L n R, a' = ANode L n y R
    | None => seq_has cmp v (vals a) = false
    end.
Proof.
  intros Hwf.
  destruct (pull_spec v h a bs Hwf) as (h' & a' & Hpull & Hwf' & Hvals & Hleaf & Hnode).
  assert (a ≠ ALeaf → ∃ h1 m1 path n,
       insert_pull_loop cmp (size h) v false [] (root a) h (root a) =
         Some (descent_break h1 m1 path n (seq_has cmp v (vals a))) ∧
       root a' = Some n) as Hloop.
  { intros Hne. destruct (Hnode Hne) as (L & n & y & R & -> & _ & _ & _ & h1 & m1 & path & Hl).
    by exists h1, m1, path, n. }
  unfold find_memoize. rewrite Hpull. simpl.
  destruct (seq_has cmp v (vals a)) eqn:Hhas.
  - destruct a as [|l p x r]; [done|].
    destruct Hnode as (L & n & y & R & -> & Hrc & Hexcl & Hy & _); [done|].
    destruct (wf_head _ _ _ Hwf') as [(Hn & _ & _) _].
    simpl. rewrite (lookup_shape_rc h' n _ _ _ _ Hn Hrc). simpl.
    rewrite bool_decide_true by (apply cmp_eq_sym; auto). simpl.
    exists h', (ANode L n y R), (Some y). split_and!; try done; eauto.
  - exists h', a', None. split_and!; done.
Qed.

(** [erase] on a well-formed store. *)
Lemma erase_spec v h a bs :
  wf cmp h (a :: bs) →
  ∃ h' a',
    erase cmp v h (root a) = Some (h', root a') ∧
    wf cmp h' (a' :: bs) ∧
    vals a' = seq_erase cmp v (vals a).
Proof.
  intros Hwf.
  destruct (pull_spec v h a bs Hwf) as (h1 & a1 & Hpull & Hwf1 & Hvals1 & Hleaf & Hnode).
  destruct (wf_head _ _ _ Hwf1) as [_ Hasc1].
  unfold erase. rewrite Hpull. simpl.
  destruct (seq_has cmp v (vals a)) eqn:Hhas.
  - destruct a as [|l p x r]; [done|].
    destruct Hnode as (L & n & y & R & -> & Hrc & Hexcl & Hy & _); [done|].
    specialize (Hy eq_refl).
    destruct (erase_found_spec v h1 L n y R bs Hwf1 Hrc Hexcl Hy)
      as (h' & a' & Herase & Hwf' & Hvals' & _).
    simpl root. rewrite Herase. exists h', a'. split_and!; try done.
    rewrite Hvals', <-Hvals1. simpl. symmetry. by apply seq_erase_found.
  - exists h1, a1. split_and!; try done.
    rewrite Hvals1. symmetry. by apply seq_erase_absent.
Qed.

(** [find], [contains] and [to_buffer] read a well-formed store. *)
Lemma find_spec v h a :
  repr h a → ascending cmp (vals a) →
  ∃ res k,
    find cmp v h (root a) = Some res ∧
    find_cost cmp v h (root a) = Some k ∧
    contains cmp v h (root a) = Some (seq_has cmp v (vals a)) ∧
    bool_decide (is_Some res) = seq_has cmp v (vals a) ∧
    (∀ y, res = Some y → y ∈ vals a ∧ cmp v y = 0%Z) ∧
    (∀ l p x r, a = ANode l p x r → cmp v x = 0%Z → res = Some x ∧ k = 1).
Proof.
  intros Hrepr Hasc.
  destruct (find_loop_ok v h a (size h) 0 Hrepr Hasc)
    as (res & k & Hfind & Hhas & Hres & Hroot); [by apply tree_fits|].
  exists res, k. unfold contains, find, find_cost. rewrite Hfind. simpl.
  split_and!; try done. by rewrite Hhas.
Qed.

(** [clear] on a well-formed store. *)
Lemma clear_spec h a bs :
  wf cmp h (a :: bs) →
  ∃ h', clear h (root a) = Some (h', None) ∧ wf cmp h' (ALeaf :: bs).
Proof.
  intros Hwf. destruct (release_spec h a bs Hwf) as (h' & Hdec & Hwf' & _).
  exists h'. unfold clear. rewrite Hdec. split; [done|]. by apply wf_add_leaf.
Qed.

(** ** Where the descent ends when the element is absent *)

(** The loop of [insert_pull(v, false)] on a subtree without an element
    equal to [v]: it breaks at the node whose slot on the side of [v] is
    empty, which is the node that was visited last.  [l1] and [l2] are
    the values before and after the current subtree; the value of the
    last node is the last value below [v] or the first value above it. *)
Lemma insert_pull_loop_last v bs a :
  ∀ fuel ctx h m (l1 l2 : list T) d,
  descent_inv cmp h m bs ctx a →
  Forall (λ y, lt cmp y v) l1 → Forall (lt cmp v) l2 →
  (∀ f, head ctx = Some f →
        if f_right f then last l1 = Some (f_value f)
        else head l2 = Some (f_value f)) →
  seq_has cmp v (vals a) = false →
  insert_pull_loop cmp fuel v false (path_of ctx) (root a) h m = Some d →
  match d with
  | descent_return _ _ => ctx = []
  | descent_break h' _ _ n _ =>
    ∃ (l1' l2' : list T) nd,
      l1' ++ l2' = l1 ++ vals a ++ l2 ∧
      Forall (λ y, lt cmp y v) l1' ∧ Forall (lt cmp v) l2' ∧
      h' !! n = Some nd ∧
      (((cmp v (m_value nd) < 0)%Z ∧ m_left nd = None ∧
        head l2' = Some (m_value nd)) ∨
       ((cmp v (m_value nd) > 0)%Z ∧ m_right nd = None ∧
        last l1' = Some (m_value nd)))
  end.
Proof.
  induction a as [|l IHl q x r IHr];
    intros fuel ctx h m l1 l2 d Hdi Hlo Hhi Hside Habs Hloop.
  - (* an empty slot: the last frame of the path is taken back *)
    simpl root in Hloop. rewrite insert_pull_loop_null in Hloop.
    destruct ctx as [|f ctx]; [by injection Hloop as <-|].
    injection Hloop as <-. specialize (Hside f eq_refl).
    pose proof (di_path _ _ _ _ _ _ Hdi) as (Hf & Hrc & _ & _).
    exists l1, l2. destruct (f_right f) eqn:Hright.
    + eexists. split_and!; [done..|exact (lookup_shape_rc h _ _ _ _ _ Hf Hrc)|].
      right. simpl. split_and!; [|done..].
      apply last_Some_elem_of in Hside. rewrite Forall_forall in Hlo.
      by apply cmp_gt_lt, Hlo.
    + eexists. split_and!; [done..|exact (lookup_shape_rc h _ _ _ _ _ Hf Hrc)|].
      left. simpl. split_and!; [|done..].
      apply head_Some_elem_of in Hside. rewrite Forall_forall in Hhi.
      by apply Hhi.
  - (* a node *)
    destruct fuel as [|fuel]; [done|].
    simpl root in Hloop. rewrite insert_pull_loop_node in Hloop.
    cbn [vals] in Habs. rewrite seq_has_app in Habs. simpl in Habs.
    apply orb_false_iff in Habs as [Habsl Habs].
    apply orb_false_iff in Habs as [Hne Habsr].
    apply bool_decide_eq_false in Hne.
    destruct (unshare_spec h m bs ctx l q x r Hdi)
      as (h1 & m1 & n & Hun & Hdi1 & Hrc1 & Hexcl1 & Hmono1 & _).
    rewrite Hun in Hloop. simpl in Hloop.
    pose proof (di_cur _ _ _ _ _ _ Hdi1) as (Hn & Hl & Hr).
    pose proof (lookup_shape_rc h1 n _ _ _ _ Hn Hrc1) as Hln.
    rewrite Hln in Hloop. simpl in Hloop.
    destruct (decide (cmp v x < 0)%Z) as [Hlt|Hnlt].
    + (* left *)
      rewrite bool_decide_true in Hloop by done.
      apply (IHl fuel (mk_frame false n x r :: ctx) h1 m1 l1
               (x :: vals r ++ l2) d) in Hloop; try done.
      * destruct d as [|h' m' path' n' found]; [done|].
        destruct Hloop as (l1' & l2' & nd & Heq & Hrest).
        exists l1', l2', nd. split; [|done].
        rewrite Heq. cbn [vals]. by rewrite <-!app_assoc.
      * by apply (descent_push h1 m1 bs ctx l n x r false).
      * pose proof (descent_asc_cur _ _ _ _ _ Hdi) as Hascq. simpl in Hascq.
        apply ascending_app_cons in Hascq as (_ & _ & _ & Hxr).
        constructor; [done|]. apply Forall_app. split; [|done].
        eapply Forall_impl; [exact Hxr|]. intros y Hy.
        by apply (cmp_trans v x y).
      * by intros f [= <-].
    + (* right *)
      assert (cmp v x > 0)%Z as Hgt by lia.
      rewrite bool_decide_false, bool_decide_true in Hloop by done.
      apply (IHr fuel (mk_frame true n x l :: ctx) h1 m1
               (l1 ++ vals l ++ [x]) l2 d) in Hloop; try done.
      * destruct d as [|h' m' path' n' found]; [done|].
        destruct Hloop as (l1' & l2' & nd & Heq & Hrest).
        exists l1', l2', nd. split; [|done].
        rewrite Heq. cbn [vals]. by rewrite <-!app_assoc.
      * by apply (descent_push h1 m1 bs ctx l n x r true).
      * pose proof (descent_asc_cur _ _ _ _ _ Hdi) as Hascq. simpl in Hascq.
        apply ascending_app_cons in Hascq as (_ & _ & Hlx & _).
        apply Forall_app. split; [done|]. apply Forall_app. split.
        -- eapply Forall_impl; [exact Hlx|]. intros y Hy.
           apply (cmp_trans y x v); [done|by apply cmp_gt_lt].
        -- constructor; [by apply cmp_gt_lt|constructor].
      * intros f [= <-]. simpl. by rewrite !app_assoc, last_snoc.
Qed.

(** [pull(v)] on a tree that is not empty and has no element equal to
    [v]: the node at which the loop breaks is the root afterwards, with the
    value it had. *)
Lemma pull_last_visited v h a bs :
  wf cmp h (a :: bs) → a ≠ ALeaf → seq_has cmp v (vals a) = false →
  ∃ h1 m1 path n nd1 h' nd (l1 l2 : list T),
    insert_pull_loop cmp (size h) v false [] (root a) h (root a) =
      Some (descent_break h1 m1 path n false) ∧
    pull cmp v h (root a) = Some (h', Some n, false) ∧
    h1 !! n = Some nd1 ∧ h' !! n = Some nd ∧ m_value nd = m_value nd1 ∧
    vals a = l1 ++ l2 ∧
    Forall (λ y, lt cmp y v) l1 ∧ Forall (lt cmp v) l2 ∧
    (((cmp v (m_value nd1) < 0)%Z ∧ m_left nd1 = None ∧
      head l2 = Some (m_value nd1)) ∨
     ((cmp v (m_value nd1) > 0)%Z ∧ m_right nd1 = None ∧
      last l1 = Some (m_value nd1))).
Proof.
  intros Hwf Hne Habs. pose proof (wf_descent h a bs Hwf) as Hdi.
  destruct (insert_pull_spec v false h a bs Hwf)
    as (d & h' & m' & found & a' & Hloop & Hpost & Hpull & Hroot & Hwf' &
        _ & Hfound & _ & Hd).
  pose proof (insert_pull_loop_last v bs a (size h) [] h (root a) [] [] d Hdi
                (Forall_nil_2 _) (Forall_nil_2 _)) as Hlast.
  change (path_of []) with (@nil entry) in Hlast.
  specialize (Hlast ltac:(by intros f [=]) Habs Hloop).
  unfold pull. rewrite Hpull.
  destruct d as [h1 m1|h1 m1 path n found'].
  { by destruct Hd as (_ & _ & ?). }
  destruct Hd as (-> & L & y & R & -> & _).
  destruct Hlast as (l1 & l2 & nd1 & Heq & Hlo & Hhi & Hn1 & Hside).
  simpl in Heq. rewrite app_nil_r in Heq.
  cbn [descent_post] in Hpost.
  destruct Hpost as (ctx' & A & x & B & -> & Hdi' & Hrc' & Hexcl' & _).
  pose proof (di_cur _ _ _ _ _ _ Hdi') as (Hshape1 & _ & _).
  rewrite (shape_lookup _ _ _ Hn1) in Hshape1. injection Hshape1 as _ _ Hx.
  destruct (splay_descent h1 m1 bs ctx' A n x B Hdi' Hrc' Hexcl')
    as (h2 & Hsplay & Hcheck & Hwf2 & _).
  { destruct Hwf as [_ _ Hasc]. by apply Forall_cons in Hasc as [_ ?]. }
  assert (h2 = h') as ->.
  { unfold insert_pull in Hpull. rewrite Hloop in Hpull. simpl in Hpull.
    rewrite Hsplay in Hpull. simpl in Hpull. rewrite Hcheck in Hpull.
    simpl in Hpull. by injection Hpull as ->. }
  destruct (splay_is_node ctx' A n x B) as (L' & R' & HLR).
  rewrite HLR in Hwf2. destruct (wf_head _ _ _ Hwf2) as [(Hn2 & _ & _) _].
  apply shape_Some in Hn2 as [k Hn2].
  exists h1, m1, (path_of ctx'), n, nd1, h', (mk_node (root L') (root R') x k),
    l1, l2.
  rewrite <-Hroot, Hfound, Habs. split_and!; try done.
  by rewrite Hfound, Habs in Hloop.
Qed.

End operations.

(** * Handles and programs *)

Section handles.
Context {T : Type} {cmp : T → T → Z} `{!Comparator cmp}.

Local Abbreviation heap := (gmap positive (node T)).
Implicit Types (h : heap) (p q n : positive) (o m : option positive).
Implicit Types (a b l r A B : atree T) (bs ts : list (atree T)) (v x : T).
Implicit Types (others roots : list (option positive)) (w : world T).
Implicit Types (xs ys : list T).

Lemma Inv_cons h m others :
  Inv cmp h (m :: others) ↔
  ∃ a bs, m = root a ∧ others = root <$> bs ∧ wf cmp h (a :: bs).
Proof.
  split.
  - intros (trees & Hroots & Hwf). destruct trees as [|a bs]; [done|].
    simpl in Hroots. injection Hroots as -> ->. by exists a, bs.
  - intros (a & bs & -> & -> & Hwf). by exists (a :: bs).
Qed.

Lemma wf_member h ts a :
  wf cmp h ts → a ∈ ts → repr h a ∧ ascending cmp (vals a).
Proof.
  intros [_ Hrepr Hasc] Hin. rewrite Forall_forall in Hrepr, Hasc. auto.
Qed.

Lemma Inv_member h roots m :
  Inv cmp h roots → m ∈ roots →
  ∃ a, root a = m ∧ repr h a ∧ ascending cmp (vals a).
Proof.
  intros (ts & -> & Hwf) Hin.
  apply list_elem_of_fmap in Hin as (a & -> & Hin).
  exists a. split; [done|]. by eapply wf_member.
Qed.

(** The two readers succeed on every handle of a well-formed store. *)
Lemma Inv_read h roots m :
  Inv cmp h roots → m ∈ roots →
  ∃ xs, to_buffer h m = Some xs ∧ ascending cmp xs ∧
       check_invariant cmp h m = Some true.
Proof.
  intros HInv Hin. destruct (Inv_member h roots m HInv Hin) as (a & <- & Hrepr & Hasc).
  exists (vals a). split_and!; [by apply to_buffer_ok|done|by apply check_invariant_ok].
Qed.

(** A node that is reachable from the root of a tree is the root of one of
    its subtrees. *)
Lemma reaches_subtree h a p :
  repr h a → ascending cmp (vals a) → reaches h (root a) p →
  ∃ s, root s = Some p ∧ repr h s ∧ ascending cmp (vals s) ∧
       (∀ q, q ∈ ptrs s → q ∈ ptrs a).
Proof.
  intros Hrepr Hasc Hreach. remember (root a) as o eqn:Ho.
  induction Hreach as [p Hp|o p nd q Hreach IH Hnd Hq|o p nd q Hreach IH Hnd Hq].
  - exists a. by split_and!.
  - destruct (IH Ho) as (s & Hs & Hrs & Has & Hsub).
    destruct s as [|sl sp sv sr]; [done|]. injection Hs as ->.
    destruct Hrs as (Hshape & Hl & Hr).
    rewrite (shape_lookup _ _ _ Hnd) in Hshape. injection Hshape as Hl' _ _.
    simpl in Has. apply ascending_app_cons in Has as (Hal & _ & _ & _).
    exists sl. split_and!; [congruence|done..|].
    intros q' Hq'. apply Hsub. simpl. apply elem_of_app. by left.
  - destruct (IH Ho) as (s & Hs & Hrs & Has & Hsub).
    destruct s as [|sl sp sv sr]; [done|]. injection Hs as ->.
    destruct Hrs as (Hshape & Hl & Hr).
    rewrite (shape_lookup _ _ _ Hnd) in Hshape. injection Hshape as _ Hr' _.
    simpl in Has. apply ascending_app_cons in Has as (_ & Har & _ & _).
    exists sr. split_and!; [congruence|done..|].
    intros q' Hq'. apply Hsub. simpl. apply elem_of_app. right.
    apply elem_of_cons. by right.
Qed.

Lemma subtree_ordered_at h s p :
  root s = Some p → repr h s → ascending cmp (vals s) → ordered_at cmp h p.
Proof.
  intros Hroot Hrepr Hasc nd Hnd.
  destruct s as [|sl sp sv sr]; [done|]. injection Hroot as ->.
  destruct Hrepr as (Hshape & Hl & Hr).
  rewrite (shape_lookup _ _ _ Hnd) in Hshape. injection Hshape as Hl' Hr' Hv.
  simpl in Hasc. apply ascending_app_cons in Hasc as (_ & _ & Hlv & Hvr).
  rewrite Forall_forall in Hlv, Hvr. split.
  - intros q qn Hq Hqn. rewrite Hl' in Hq.
    destruct sl as [|ll lp lv lr]; [done|]. injection Hq as ->.
    destruct Hl as (Hs & _). rewrite (shape_lookup _ _ _ Hqn) in Hs.
    injection Hs as _ _ ->. rewrite Hv. apply Hlv. simpl.
    apply elem_of_app. right. apply elem_of_cons. by left.
  - intros q qn Hq Hqn. rewrite Hr' in Hq.
    destruct sr as [|rl rp rv rr]; [done|]. injection Hq as ->.
    destruct Hr as (Hs & _). rewrite (shape_lookup _ _ _ Hqn) in Hs.
    injection Hs as _ _ ->. rewrite Hv. apply Hvr. simpl.
    apply elem_of_app. right. apply elem_of_cons. by left.
Qed.

(** In a well-formed store every node that a handle reaches is allocated,
    in BST order with its children, and counted. *)
Lemma Inv_live h roots m p :
  Inv cmp h roots → m ∈ roots → reaches h m p →
  ∃ nd, h !! p = Some nd ∧ 1 ≤ m_rc nd ∧ m_rc nd = refs h roots p ∧
        ordered_at cmp h p.
Proof.
  intros HInv Hin Hreach.
  destruct (Inv_member h roots m HInv Hin) as (a & <- & Hrepr & Hasc).
  destruct (reaches_subtree h a p Hrepr Hasc Hreach) as (s & Hs & Hrs & Has & Hsub).
  assert (p ∈ ptrs a) as Hpa by by apply Hsub, root_in_ptrs.
  destruct (repr_allocated h a p Hrepr Hpa) as [nd Hnd].
  destruct HInv as (ts & -> & [Hcnt _ _]).
  specialize (Hcnt p). rewrite (rc_of_lookup _ _ _ Hnd) in Hcnt.
  exists nd. split_and!; [done| |done|by eapply subtree_ordered_at].
  rewrite Hcnt. unfold refs.
  destruct (repr_parent h a p Hrepr Hpa) as [Hroot|(y & sl & sr & u & Hy & Hshape & Hlink)].
  - assert (Some p ∈ root <$> ts) as Hr by by rewrite <-Hroot.
    apply root_refs_ge in Hr. lia.
  - apply shape_Some in Hshape as [k Hshape].
    pose proof (heap_refs_ge h y _ p Hshape) as Hge. simpl in Hge.
    pose proof (slot_count_points sl sr p Hlink). lia.
Qed.

(** Two stores that hold the same tree agree on its nodes. *)
Lemma repr_agree h h' a q :
  repr h a → repr h' a → q ∈ ptrs a → shape h' q = shape h q.
Proof.
  induction a as [|l IHl p v r IHr]; simpl.
  - intros _ _ Hq. by apply elem_of_nil in Hq.
  - intros (Hp & Hl & Hr) (Hp' & Hl' & Hr') Hq.
    apply elem_of_app in Hq as [Hq|[->|Hq]%elem_of_cons]; auto.
    by rewrite Hp, Hp'.
Qed.

(** ** One operation of a program *)

Lemma delete_insert_same {X} (l : list X) i y : delete i (<[i := y]> l) = delete i l.
Proof.
  revert i. induction l as [|z l IH]; intros [|i]; simpl; try done.
  by rewrite IH.
Qed.

Lemma insert_Permutation {X} (l : list X) i y :
  i < length l → <[i := y]> l ≡ₚ y :: delete i l.
Proof.
  intros Hi. rewrite <-(delete_insert_same l i y).
  apply delete_Permutation. by apply list_lookup_insert_eq.
Qed.

Lemma swap_Permutation {X} (l : list X) i j xi xj :
  l !! i = Some xi → l !! j = Some xj →
  <[j := xi]> (<[i := xj]> l) ≡ₚ l.
Proof.
  intros Hi Hj.
  pose proof (lookup_lt_Some _ _ _ Hi) as Hli.
  pose proof (lookup_lt_Some _ _ _ Hj) as Hlj.
  destruct (decide (i = j)) as [->|Hne].
  - rewrite list_insert_insert_eq, list_insert_id by done. reflexivity.
  - rewrite insert_Permutation by by rewrite length_insert.
    rewrite (delete_Permutation l i xi Hi) at 2. apply Permutation_skip.
    apply (Permutation_cons_inv (a := xj)).
    rewrite <-(insert_Permutation l i xj) by done.
    symmetry. apply delete_Permutation.
    rewrite list_lookup_insert_ne by done. done.
Qed.

Lemma wf_at h ts i a : ts !! i = Some a → wf cmp h ts → wf cmp h (a :: delete i ts).
Proof. intros Hi. apply wf_perm. by apply delete_Permutation. Qed.

Lemma wf_put h ts i a :
  i < length ts → wf cmp h (a :: delete i ts) → wf cmp h (<[i := a]> ts).
Proof. intros Hi. apply wf_perm. symmetry. by apply insert_Permutation. Qed.

Lemma lookup_other_insert ts i a k (t : atree T) :
  k ∉ [i] → ts !! k = Some t → <[i := a]> ts !! k = Some t.
Proof.
  intros Hk Ht. rewrite list_lookup_insert_ne; [done|].
  intros ->. apply Hk. apply elem_of_cons. by left.
Qed.

(** An operation on existing handles runs to the end, keeps the store
    well-formed, changes the element sequences as [seq_step] says, and
    leaves the tree of every handle that it is not called on in place. *)
Lemma step_spec (o : op T) w ts :
  w_handles w = root <$> ts → wf cmp (w_heap w) ts → op_valid o w →
  ∃ w' ts',
    step cmp o w = Some w' ∧
    w_handles w' = root <$> ts' ∧
    wf cmp (w_heap w') ts' ∧
    seq_step cmp o (vals <$> ts) = Some (vals <$> ts') ∧
    (∀ k t, k ∉ op_handles o → ts !! k = Some t → ts' !! k = Some t).
Proof.
  destruct w as [h hs]. simpl. intros -> Hwf Hvalid.
  assert (∀ i, i < length (root <$> ts) →
            ∃ a, ts !! i = Some a ∧ (root <$> ts) !! i = Some (root a) ∧
                 (vals <$> ts) !! i = Some (vals a) ∧ i < length ts ∧
                 wf cmp h (a :: delete i ts)) as Hget.
  { intros i Hi. rewrite length_fmap in Hi.
    destruct (lookup_lt_is_Some_2 ts i Hi) as [a Ha].
    exists a. rewrite !list_lookup_fmap, Ha. split_and!; try done.
    by apply wf_at. }
  destruct o as [|i|i v|i v|i v|i v|i|i j]; simpl in Hvalid; simpl.
  - (* constructor *)
    exists (mk_world h ((root <$> ts) ++ [None])), (ts ++ [ALeaf]).
    rewrite !fmap_snoc. split_and!; try done.
    + eapply wf_perm; [|by apply wf_add_leaf]. apply Permutation_cons_append.
    + intros k t _ Ht. by apply lookup_app_l_Some.
  - (* copy constructor *)
    destruct (Hget i Hvalid) as (a & Ha & Hr & Hv & Hi & Hwfa).
    destruct (wf_member h ts a Hwf) as [Hrepr Hasc].
    { by eapply list_elem_of_lookup_2. }
    destruct (copy_spec h a ts Hwf Hrepr Hasc) as (h' & Hcopy & Hwf' & _).
    rewrite Hr, Hv. simpl. rewrite Hcopy. simpl.
    exists (mk_world h' ((root <$> ts) ++ [root a])), (ts ++ [a]).
    rewrite !fmap_snoc. split_and!; try done.
    + eapply wf_perm; [|done]. apply Permutation_cons_append.
    + intros k t _ Ht. by apply lookup_app_l_Some.
  - (* insert *)
    destruct (Hget i Hvalid) as (a & Ha & Hr & Hv & Hi & Hwfa).
    destruct (insert_spec v h a _ Hwfa) as (h' & a' & Hins & Hwf' & Hvals & _).
    rewrite Hr, Hv. simpl. rewrite Hins. simpl.
    exists (mk_world h' (<[i := root a']> (root <$> ts))), (<[i := a']> ts).
    rewrite !list_fmap_insert, Hvals. split_and!; try done.
    + by apply wf_put.
    + intros k t. apply lookup_other_insert.
  - (* erase *)
    destruct (Hget i Hvalid) as (a & Ha & Hr & Hv & Hi & Hwfa).
    destruct (erase_spec v h a _ Hwfa) as (h' & a' & Hers & Hwf' & Hvals).
    rewrite Hr, Hv. simpl. rewrite Hers. simpl.
    exists (mk_world h' (<[i := root a']> (root <$> ts))), (<[i := a']> ts).
    rewrite !list_fmap_insert, Hvals. split_and!; try done.
    + by apply wf_put.
    + intros k t. apply lookup_other_insert.
  - (* find *)
    destruct (Hget i Hvalid) as (a & Ha & Hr & Hv & Hi & Hwfa).
    destruct (wf_head _ _ _ Hwfa) as [Hrepr Hasc].
    destruct (find_spec v h a Hrepr Hasc) as (res & k & Hfind & _).
    rewrite Hr, Hv. simpl. rewrite Hfind. simpl.
    exists (mk_world h (root <$> ts)), ts. split_and!; done.
  - (* find_memoize *)
    destruct (Hget i Hvalid) as (a & Ha & Hr & Hv & Hi & Hwfa).
    destruct (find_memoize_spec v h a _ Hwfa)
      as (h' & a' & res & Hfm & Hwf' & Hvals & _).
    rewrite Hr, Hv. simpl. rewrite Hfm. simpl.
    exists (mk_world h' (<[i := root a']> (root <$> ts))), (<[i := a']> ts).
    rewrite !list_fmap_insert, Hvals. split_and!; try done.
    + by apply wf_put.
    + f_equal. symmetry. apply list_insert_id. done.
    + intros k t. apply lookup_other_insert.
  - (* clear *)
    destruct (Hget i Hvalid) as (a & Ha & Hr & Hv & Hi & Hwfa).
    destruct (clear_spec h a _ Hwfa) as (h' & Hclear & Hwf').
    rewrite Hr, Hv. simpl. rewrite Hclear. simpl.
    exists (mk_world h' (<[i := None]> (root <$> ts))), (<[i := ALeaf]> ts).
    rewrite !list_fmap_insert. split_and!; try done.
    + by apply wf_put.
    + intros k t. apply lookup_other_insert.
  - (* swap *)
    destruct Hvalid as [Hvi Hvj].
    destruct (Hget i Hvi) as (ai & Hai & Hri & Hxi & Hi & _).
    destruct (Hget j Hvj) as (aj & Haj & Hrj & Hxj & Hj & _).
    rewrite Hri, Hrj, Hxi, Hxj. simpl.
    exists (mk_world h (<[j := root ai]> (<[i := root aj]> (root <$> ts)))),
      (<[j := ai]> (<[i := aj]> ts)).
    rewrite !list_fmap_insert. split_and!; try done.
    + eapply wf_perm; [|done]. symmetry. by apply swap_Permutation.
    + intros k t Hk Ht.
      rewrite !list_lookup_insert_ne; [done|..]; intros ->; apply Hk.
      * apply elem_of_cons. by left.
      * apply elem_of_cons. right. apply elem_of_cons. by left.
Qed.

(** A step that runs to the end was called on existing handles. *)
Lemma step_valid (o : op T) w w' : step cmp o w = Some w' → op_valid o w.
Proof.
  destruct w as [h hs].
  assert (∀ i, is_Some (hs !! i) → i < length hs) as Hlt
    by (intros i [? ?]; by eapply lookup_lt_Some).
  destruct o as [|i|i v|i v|i v|i v|i|i j]; simpl; try done;
    destruct (hs !! i) eqn:Hi; try done; intros Hstep;
    try (apply Hlt; by rewrite Hi).
  split; [apply Hlt; by rewrite Hi|].
  simpl in Hstep. destruct (hs !! j) eqn:Hj; [|done]. apply Hlt. by rewrite Hj.
Qed.

Lemma empty_Inv : Inv cmp (w_heap (empty_world (T := T))) (w_handles (empty_world (T := T))).
Proof.
  exists []. split; [done|]. split; [|done..].
  intros p. unfold rc_of, refs, heap_refs, slot_refs, links. simpl.
  rewrite lookup_empty, fmap_empty, map_fold_empty. done.
Qed.

Lemma step_Inv (o : op T) w w' :
  Inv cmp (w_heap w) (w_handles w) → step cmp o w = Some w' →
  Inv cmp (w_heap w') (w_handles w').
Proof.
  intros (ts & Hroots & Hwf) Hstep.
  destruct (step_spec o w ts Hroots Hwf (step_valid _ _ _ Hstep))
    as (w'' & ts' & Hstep' & Hroots' & Hwf' & _).
  rewrite Hstep in Hstep'. injection Hstep' as <-. by exists ts'.
Qed.

(** Every world that a program builds is well-formed. *)
Lemma run_Inv ops : ∀ w w',
  Inv cmp (w_heap w) (w_handles w) → run cmp ops w = Some w' →
  Inv cmp (w_heap w') (w_handles w').
Proof.
  induction ops as [|o ops IH]; intros w w' HInv; simpl.
  - by intros [= <-].
  - destruct (step cmp o w) as [w1|] eqn:Hstep; [|done]. simpl.
    apply IH. by eapply step_Inv.
Qed.

(** ** Laws of the element sequences *)

Lemma seq_insert_lt v x xs :
  (cmp v x < 0)%Z → seq_insert cmp v (x :: xs) = v :: x :: xs.
Proof. intros Hlt. simpl. by rewrite bool_decide_true. Qed.

Lemma seq_insert_gt v x xs :
  (cmp v x > 0)%Z → seq_insert cmp v (x :: xs) = x :: seq_insert cmp v xs.
Proof.
  intros Hgt. simpl. rewrite bool_decide_false by lia. by rewrite bool_decide_true.
Qed.

Lemma seq_insert_eq v x xs :
  cmp v x = 0%Z → seq_insert cmp v (x :: xs) = v :: xs.
Proof. intros Heq. simpl. by rewrite !bool_decide_false by lia. Qed.

Lemma seq_insert_idem v xs :
  seq_insert cmp v (seq_insert cmp v xs) = seq_insert cmp v xs.
Proof.
  pose proof (cmp_refl (cmp := cmp) v) as Hvv.
  induction xs as [|x xs IH].
  - simpl. by rewrite !bool_decide_false by lia.
  - destruct (Z.lt_trichotomy (cmp v x) 0) as [Hlt|[Heq|Hgt]].
    + rewrite (seq_insert_lt v x xs Hlt). by apply seq_insert_eq.
    + rewrite (seq_insert_eq v x xs Heq). by apply seq_insert_eq.
    + rewrite (seq_insert_gt v x xs) by lia.
      rewrite (seq_insert_gt v x) by lia. by rewrite IH.
Qed.

Lemma seq_erase_idem v xs :
  seq_erase cmp v (seq_erase cmp v xs) = seq_erase cmp v xs.
Proof. apply seq_erase_absent, seq_has_erase. Qed.

Lemma seq_insert_comm u v xs :
  cmp u v ≠ 0%Z →
  seq_insert cmp v (seq_insert cmp u xs) = seq_insert cmp u (seq_insert cmp v xs).
Proof.
  intros Hne.
  assert (cmp v u ≠ 0%Z) as Hne' by (intros Heq; by apply Hne, cmp_eq_sym).
  pose proof (cmp_antisym (cmp := cmp) u v) as Huv.
  pose proof (cmp_antisym (cmp := cmp) v u) as Hvu.
  induction xs as [|x xs IH].
  - simpl. repeat case_bool_decide; try done; lia.
  - pose proof (cmp_antisym (cmp := cmp) u x) as Hux.
    pose proof (cmp_antisym (cmp := cmp) x u) as Hxu.
    pose proof (cmp_antisym (cmp := cmp) v x) as Hvx.
    pose proof (cmp_antisym (cmp := cmp) x v) as Hxv.
    destruct (Z.lt_trichotomy (cmp u x) 0) as [Hu|[Hu|Hu]];
      destruct (Z.lt_trichotomy (cmp v x) 0) as [Hv|[Hv|Hv]].
    + (* both below [x] *)
      rewrite (seq_insert_lt u x xs Hu), (seq_insert_lt v x xs Hv).
      destruct (Z.lt_trichotomy (cmp u v) 0) as [Hlt|[?|Hgt]]; [|done|].
      * rewrite (seq_insert_gt v u) by lia. rewrite (seq_insert_lt v x xs Hv).
        by rewrite (seq_insert_lt u v).
      * rewrite (seq_insert_lt v u) by lia.
        rewrite (seq_insert_gt u v) by lia. by rewrite (seq_insert_lt u x xs Hu).
    + (* [u] below, [v] at [x] *)
      rewrite (seq_insert_lt u x xs Hu), (seq_insert_eq v x xs Hv).
      assert (cmp u v < 0)%Z as Hlt
        by (apply (cmp_lt_eq u x v); [done|by apply cmp_eq_sym]).
      rewrite (seq_insert_gt v u) by lia. rewrite (seq_insert_eq v x xs Hv).
      by rewrite (seq_insert_lt u v).
    + (* [u] below, [v] above *)
      rewrite (seq_insert_lt u x xs Hu), (seq_insert_gt v x xs) by lia.
      assert (cmp u v < 0)%Z as Hlt by (apply (cmp_trans u x v); lia).
      rewrite (seq_insert_gt v u) by lia. rewrite (seq_insert_gt v x xs) by lia.
      by rewrite (seq_insert_lt u x).
    + (* [u] at [x], [v] below *)
      rewrite (seq_insert_eq u x xs Hu), (seq_insert_lt v x xs Hv).
      assert (cmp v u < 0)%Z as Hlt
        by (apply (cmp_lt_eq v x u); [done|by apply cmp_eq_sym]).
      rewrite (seq_insert_lt v u) by done.
      rewrite (seq_insert_gt u v) by lia. by rewrite (seq_insert_eq u x xs Hu).
    + (* both at [x] *)
      exfalso. apply Hne. apply (cmp_eq_trans u x v); [done|by apply cmp_eq_sym].
    + (* [u] at [x], [v] above *)
      rewrite (seq_insert_eq u x xs Hu), (seq_insert_gt v x xs) by lia.
      assert (cmp u v < 0)%Z as Hlt by (apply (cmp_eq_lt u x v); lia).
      rewrite (seq_insert_gt v u) by lia. by rewrite (seq_insert_eq u x).
    + (* [u] above, [v] below *)
      rewrite (seq_insert_gt u x xs), (seq_insert_lt v x xs Hv) by lia.
      assert (cmp v u < 0)%Z as Hlt by (apply (cmp_trans v x u); lia).
      rewrite (seq_insert_lt v x) by done.
      rewrite (seq_insert_gt u v) by lia. by rewrite (seq_insert_gt u x xs) by lia.
    + (* [u] above, [v] at [x] *)
      rewrite (seq_insert_gt u x xs), (seq_insert_eq v x xs Hv) by lia.
      rewrite (seq_insert_eq v x) by done.
      assert (cmp v u < 0)%Z as Hlt by (apply (cmp_eq_lt v x u); lia).
      by rewrite (seq_insert_gt u v) by lia.
    + (* both above [x] *)
      rewrite (seq_insert_gt u x xs), (seq_insert_gt v x xs) by lia.
      rewrite (seq_insert_gt v x), (seq_insert_gt u x) by lia. by rewrite IH.
Qed.

Lemma seq_erase_elem_of v xs (y : T) :
  y ∈ seq_erase cmp v xs ↔ y ∈ xs ∧ cmp v y ≠ 0%Z.
Proof.
  induction xs as [|x xs IH]; simpl.
  - split; [intros Hy|intros [Hy _]]; by apply elem_of_nil in Hy.
  - case_bool_decide as Hx; rewrite ?elem_of_cons, IH.
    + split; [tauto|]. intros [[->|Hy] Hne]; [done|tauto].
    + split; [|tauto]. intros [->|[? ?]]; tauto.
Qed.

(** In an ascending sequence [seq_insert] replaces the element that is
    equal to [v], if there is one, and keeps the others. *)
Lemma seq_insert_elem_of_iff v xs (y : T) :
  ascending cmp xs →
  y ∈ seq_insert cmp v xs ↔ y = v ∨ (y ∈ xs ∧ cmp v y ≠ 0%Z).
Proof.
  induction 1 as [|x xs Hxs IH Hx]; simpl.
  - rewrite list_elem_of_singleton. split; [by left|].
    intros [?|[Hy _]]; [done|]. by apply elem_of_nil in Hy.
  - rewrite Forall_forall in Hx.
    pose proof (cmp_antisym (cmp := cmp) v x) as Hvx.
    case_bool_decide as Hlt; [|case_bool_decide as Hgt].
    + rewrite !elem_of_cons. split; [|tauto].
      intros [->|[->|Hy]]; [by left|right..].
      * split; [by left|lia].
      * split; [by right|]. pose proof (cmp_trans v x y Hlt (Hx y Hy)). lia.
    + rewrite !elem_of_cons, IH. split.
      * intros [->|[->|[? ?]]]; [right|by left|right]; [|tauto].
        split; [by left|lia].
      * intros [->|[[->|?] ?]]; tauto.
    + assert (cmp v x = 0%Z) as Heq by lia.
      rewrite !elem_of_cons. split.
      * intros [->|Hy]; [by left|right]. split; [by right|].
        pose proof (cmp_eq_lt v x y Heq (Hx y Hy)). lia.
      * intros [->|[[->|?] ?]]; tauto.
Qed.

Lemma ascending_NoDup xs : ascending cmp xs → NoDup xs.
Proof.
  induction 1 as [|x xs Hxs IH Hx]; constructor; [|done].
  intros Hin. rewrite Forall_forall in Hx. by apply (cmp_irrefl x), Hx.
Qed.

(** ** Reading a well-formed store *)

Lemma wf_read h a bs :
  wf cmp h (a :: bs) →
  to_buffer h (root a) = Some (vals a) ∧ ascending cmp (vals a) ∧
  check_invariant cmp h (root a) = Some true.
Proof.
  intros Hwf. destruct (wf_head _ _ _ Hwf) as [Hrepr Hasc].
  split_and!; [by apply to_buffer_ok|done|by apply check_invariant_ok].
Qed.

(** The handles that share a store with the handle that an operation
    changed see what they saw before. *)
Lemma wf_frame h h' a a' bs k :
  wf cmp h (a :: bs) → wf cmp h' (a' :: bs) → k ∈ root <$> bs →
  to_buffer h' k = to_buffer h k ∧
  (∀ p, reaches h k p → shape h' p = shape h p).
Proof.
  intros Hwf Hwf' Hk. apply list_elem_of_fmap in Hk as (b & -> & Hb).
  destruct (wf_member h (a :: bs) b Hwf) as [Hrepr Hasc].
  { apply elem_of_cons. by right. }
  destruct (wf_member h' (a' :: bs) b Hwf') as [Hrepr' _].
  { apply elem_of_cons. by right. }
  split.
  - by rewrite !to_buffer_ok.
  - intros p Hp.
    destruct (reaches_subtree h b p Hrepr Hasc Hp) as (s & Hs & _ & _ & Hsub).
    apply (repr_agree h h' b); [done..|]. by apply Hsub, root_in_ptrs.
Qed.

(** ** The methods on a handle of a well-formed store *)

Lemma Inv_insert v h m others :
  Inv cmp h (m :: others) →
  ∃ xs h' m',
    to_buffer h m = Some xs ∧ ascending cmp xs ∧
    insert cmp v h m = Some (h', m') ∧
    Inv cmp h' (m' :: others) ∧
    to_buffer h' m' = Some (seq_insert cmp v xs) ∧
    (∀ k, k ∈ others → to_buffer h' k = to_buffer h k).
Proof.
  intros (a & bs & -> & -> & Hwf)%Inv_cons.
  destruct (wf_read h a bs Hwf) as (Hbuf & Hasc & _).
  destruct (insert_spec v h a bs Hwf) as (h' & a' & Hins & Hwf' & Hvals & _).
  destruct (wf_read h' a' bs Hwf') as (Hbuf' & _ & _).
  exists (vals a), h', (root a'). split_and!; try done.
  - apply Inv_cons. by exists a', bs.
  - by rewrite Hbuf', Hvals.
  - intros k Hk. by apply (wf_frame h h' a a' bs k).
Qed.

Lemma Inv_erase v h m others :
  Inv cmp h (m :: others) →
  ∃ xs h' m',
    to_buffer h m = Some xs ∧ ascending cmp xs ∧
    erase cmp v h m = Some (h', m') ∧
    Inv cmp h' (m' :: others) ∧
    to_buffer h' m' = Some (seq_erase cmp v xs) ∧
    (∀ k, k ∈ others → to_buffer h' k = to_buffer h k).
Proof.
  intros (a & bs & -> & -> & Hwf)%Inv_cons.
  destruct (wf_read h a bs Hwf) as (Hbuf & Hasc & _).
  destruct (erase_spec v h a bs Hwf) as (h' & a' & Hers & Hwf' & Hvals).
  destruct (wf_read h' a' bs Hwf') as (Hbuf' & _ & _).
  exists (vals a), h', (root a'). split_and!; try done.
  - apply Inv_cons. by exists a', bs.
  - by rewrite Hbuf', Hvals.
  - intros k Hk. by apply (wf_frame h h' a a' bs k).
Qed.

Lemma Inv_find_memoize v h m others :
  Inv cmp h (m :: others) →
  ∃ xs h' m' res,
    to_buffer h m = Some xs ∧
    find_memoize cmp v h m = Some (h', m', res) ∧
    Inv cmp h' (m' :: others) ∧
    to_buffer h' m' = Some xs ∧
    (∀ k, k ∈ others → to_buffer h' k = to_buffer h k).
Proof.
  intros (a & bs & -> & -> & Hwf)%Inv_cons.
  destruct (wf_read h a bs Hwf) as (Hbuf & Hasc & _).
  destruct (find_memoize_spec v h a bs Hwf)
    as (h' & a' & res & Hfm & Hwf' & Hvals & _).
  destruct (wf_read h' a' bs Hwf') as (Hbuf' & _ & _).
  exists (vals a), h', (root a'), res. split_and!; try done.
  - apply Inv_cons. by exists a', bs.
  - by rewrite Hbuf', Hvals.
  - intros k Hk. by apply (wf_frame h h' a a' bs k).
Qed.

Lemma Inv_clear h m others :
  Inv cmp h (m :: others) →
  ∃ h',
    clear h m = Some (h', None) ∧
    Inv cmp h' (None :: others) ∧
    to_buffer h' None = Some [] ∧
    (∀ k, k ∈ others → to_buffer h' k = to_buffer h k).
Proof.
  intros (a & bs & -> & -> & Hwf)%Inv_cons.
  destruct (clear_spec h a bs Hwf) as (h' & Hclear & Hwf').
  exists h'. split_and!; try done.
  - apply Inv_cons. by exists ALeaf, bs.
  - by destruct (wf_read h' ALeaf bs Hwf') as (? & _).
  - intros k Hk. by apply (wf_frame h h' a ALeaf bs k).
Qed.

(** The copy constructor: the new handle comes first. *)
Lemma Inv_copy h m others :
  Inv cmp h (m :: others) →
  ∃ xs h',
    to_buffer h m = Some xs ∧
    copy m h = Some (h', m) ∧
    Inv cmp h' (m :: m :: others) ∧
    to_buffer h' m = Some xs ∧
    (∀ k, k ∈ others → to_buffer h' k = to_buffer h k).
Proof.
  intros (a & bs & -> & -> & Hwf)%Inv_cons.
  destruct (wf_read h a bs Hwf) as (Hbuf & Hasc & _).
  destruct (wf_head _ _ _ Hwf) as [Hrepr _].
  destruct (copy_spec h a (a :: bs) Hwf Hrepr Hasc) as (h' & Hcopy & Hwf' & _).
  destruct (wf_read h' a (a :: bs) Hwf') as (Hbuf' & _ & _).
  exists (vals a), h'. split_and!; try done.
  - apply Inv_cons. exists a, (a :: bs). by split_and!.
  - intros k Hk. apply list_elem_of_fmap in Hk as (b & -> & Hb).
    destruct (wf_member h (a :: bs) b Hwf) as [Hrb Hab].
    { apply elem_of_cons. by right. }
    destruct (wf_member h' (a :: a :: bs) b Hwf') as [Hrb' _].
    { apply elem_of_cons. right. apply elem_of_cons. by right. }
    by rewrite !to_buffer_ok.
Qed.

End handles.

(** * The comparators of the scenarios *)

Lemma sgn_cases (z : Z) :
  (z < 0 ∧ Z.sgn z = -1 ∨ z = 0 ∧ Z.sgn z = 0 ∨ 0 < z ∧ Z.sgn z = 1)%Z.
Proof. destruct (Z.sgn_spec z) as [[? ?]|[[? ?]|[? ?]]]; lia. Qed.

#[global] Instance int_cmp_comparator : Comparator int_cmp.
Proof.
  split; unfold int_cmp; intros x y; [|intros z..];
    pose proof (sgn_cases (x - y)); pose proof (sgn_cases (y - x));
    try (pose proof (sgn_cases (y - z)); pose proof (sgn_cases (x - z))); lia.
Qed.

#[global] Instance key_cmp_comparator : Comparator key_cmp.
Proof.
  split; unfold key_cmp; intros x y; [|intros z..];
    pose proof (sgn_cases (x.1 - y.1)); pose proof (sgn_cases (y.1 - x.1));
    try (pose proof (sgn_cases (y.1 - z.1)); pose proof (sgn_cases (x.1 - z.1)));
    lia.
Qed.

(** The worlds of the scenarios are well-formed. *)
Lemma world_of_Inv ops :
  Inv int_cmp (w_heap (world_of ops)) (w_handles (world_of ops)).
Proof.
  unfold world_of. destruct (run int_cmp ops empty_world) as [w|] eqn:Hrun; simpl.
  - eapply run_Inv; [|done]. apply empty_Inv.
  - apply (empty_Inv (cmp := int_cmp)).
Qed.

Lemma keyed_world_of_Inv ops :
  Inv key_cmp (w_heap (keyed_world_of ops)) (w_handles (keyed_world_of ops)).
Proof.
  unfold keyed_world_of.
  destruct (run key_cmp ops empty_world) as [w|] eqn:Hrun; simpl.
  - eapply run_Inv; [|done]. apply empty_Inv.
  - apply (empty_Inv (cmp := key_cmp)).
Qed.

(** * The claims of the specification *)

Section claims.
Context {T : Type} {cmp : T → T → Z} `{!Comparator cmp}.

Local Abbreviation heap := (gmap positive (node T)).
Implicit Types (h : heap) (p q n : positive) (m : option positive).
Implicit Types (a b l r A B : atree T) (bs ts : list (atree T)) (v x : T).
Implicit Types (others roots : list (option positive)) (w : world T).
Implicit Types (xs ys : list T).

Ltac splay_case h p_frame g_frames n A B vn Hnd :=
  let Hbefore := fresh "Hbefore" in
  intros Hbefore; cbn [repr root] in Hbefore; destruct_and!;
  destruct (splay_to_top_spec h (p_frame :: g_frames) n A B vn (Some n))
    as (?h' & ?Hrun & ?Hrepr & ?Hrc & _);
  [cbn [path_ok f_right f_node f_value f_other]; split_and!; done
  |done|done|done|done
  |eapply NoDup_Permutation_proper; [|exact Hnd];
   unfold ctx_ptrs; cbn [mbind list_bind f_node f_other ptrs app];
   rewrite ?app_nil_r; solve_Permutation
  |eexists; split; [exact Hrun|split; [exact Hrepr|exact Hrc]]].

(** C1.  The splay phase has six rewrites, chosen by the directions that
    the entries of the parent [p] and of the grandparent [g] record.  Run on
    a store that holds the before-shape, [splay_to_top] leaves the
    after-shape of the table:
    zig-zig left (g (p (n A B) C) D) ==> (n A (p B (g C D))),
    zig-zag left-right (g (p A (n B C)) D) ==> (n (p A B) (g C D)),
    zig-zag right-left (g A (p (n B C) D)) ==> (n (g A B) (p C D)),
    zig-zig right (g A (p B (n C D))) ==> (n (p (g A B) C) D),
    zig left (p (n A B) C) ==> (n A (p B C)) and
    zig right (p A (n B C)) ==> (n (p A B) C).
    The subtrees [A] to [D] are the same nodes before and after, and the
    counter of every node of the store is what it was. *)
Theorem splay_rewrites :
  (∀ h (g p n : positive) (vg vp vn : T) (A B C D : atree T),
     rc_of h g = 1 → rc_of h p = 1 → rc_of h n = 1 →
     NoDup (g :: p :: n :: ptrs A ++ ptrs B ++ ptrs C ++ ptrs D) →
     rewrites h [mk_entry false p; mk_entry false g] n
       (ANode (ANode (ANode A n vn B) p vp C) g vg D)
       (ANode A n vn (ANode B p vp (ANode C g vg D))) ∧
     rewrites h [mk_entry true p; mk_entry false g] n
       (ANode (ANode A p vp (ANode B n vn C)) g vg D)
       (ANode (ANode A p vp B) n vn (ANode C g vg D)) ∧
     rewrites h [mk_entry false p; mk_entry true g] n
       (ANode A g vg (ANode (ANode B n vn C) p vp D))
       (ANode (ANode A g vg B) n vn (ANode C p vp D)) ∧
     rewrites h [mk_entry true p; mk_entry true g] n
       (ANode A g vg (ANode B p vp (ANode C n vn D)))
       (ANode (ANode (ANode A g vg B) p vp C) n vn D)) ∧
  (∀ h (p n : positive) (vp vn : T) (A B C : atree T),
     rc_of h p = 1 → rc_of h n = 1 →
     NoDup (p :: n :: ptrs A ++ ptrs B ++ ptrs C) →
     rewrites h [mk_entry false p] n
       (ANode (ANode A n vn B) p vp C)
       (ANode A n vn (ANode B p vp C)) ∧
     rewrites h [mk_entry true p] n
       (ANode A p vp (ANode B n vn C))
       (ANode (ANode A p vp B) n vn C)).
Proof.
  split.
  - intros h g p n vg vp vn A B C D Hg Hp Hn Hnd. unfold rewrites. split_and!.
    + splay_case h (mk_frame false p vp C) [mk_frame false g vg D] n A B vn Hnd.
    + splay_case h (mk_frame true p vp A) [mk_frame false g vg D] n B C vn Hnd.
    + splay_case h (mk_frame false p vp D) [mk_frame true g vg A] n B C vn Hnd.
    + splay_case h (mk_frame true p vp B) [mk_frame true g vg A] n C D vn Hnd.
  - intros h p n vp vn A B C Hp Hn Hnd. unfold rewrites. split.
    + splay_case h (mk_frame false p vp C) (@nil (frame T)) n A B vn Hnd.
    + splay_case h (mk_frame true p vp A) (@nil (frame T)) n B C vn Hnd.
Qed.

(** C3.  When [erase(v)] finds [v], [pull] has brought it to the root [n];
    the root is dropped and the tree becomes the join of its subtrees [L]
    (elements [ls]) and [R] (elements [rs]).  If [L] is empty the new root
    is the root of [R]; if [R] is empty it is the root of [L]; otherwise
    [pull_max] brings the maximum of [L] to the root [lp] of [L], where the
    right child is empty, [R] becomes the right child of [lp], and [lp] is
    the new root.  Every element of [L] is below every element of [R], and
    the result is in BST order: it holds [ls ++ rs], which is ascending. *)
Theorem erase_joins v h m others xs :
  Inv cmp h (m :: others) →
  to_buffer h m = Some xs →
  seq_has cmp v xs = true →
  ∃ h1 n nd h' m' ls rs,
    pull cmp v h m = Some (h1, Some n, true) ∧
    h1 !! n = Some nd ∧ cmp (m_value nd) v = 0%Z ∧
    to_buffer h1 (m_left nd) = Some ls ∧
    to_buffer h1 (m_right nd) = Some rs ∧
    (∀ y z, y ∈ ls → z ∈ rs → lt cmp y z) ∧
    erase cmp v h m = Some (h', m') ∧
    Inv cmp h' (m' :: others) ∧
    to_buffer h' m' = Some (ls ++ rs) ∧
    ascending cmp (ls ++ rs) ∧
    check_invariant cmp h' m' = Some true ∧
    (m_left nd = None → m' = m_right nd) ∧
    (m_right nd = None → m' = m_left nd) ∧
    (m_left nd ≠ None → m_right nd ≠ None →
     ∃ h2 h3 h4 h5 lp ln ln',
       copy (m_left nd) h1 = Some (h2, m_left nd) ∧
       copy (m_right nd) h2 = Some (h3, m_right nd) ∧
       clear h3 (Some n) = Some (h4, None) ∧
       pull_max cmp h4 (m_left nd) = Some (h5, Some lp) ∧
       to_buffer h5 (Some lp) = Some ls ∧
       h5 !! lp = Some ln ∧
       m_right ln = None ∧
       m_value ln ∈ ls ∧
       (∀ y, y ∈ ls → y = m_value ln ∨ lt cmp y (m_value ln)) ∧
       m' = Some lp ∧
       h' !! lp = Some ln' ∧
       m_left ln' = m_left ln ∧
       m_right ln' = m_right nd ∧
       m_value ln' = m_value ln).
Proof.
  intros (a & bs & -> & -> & Hwf)%Inv_cons Hbuf Hhas.
  destruct (wf_read h a bs Hwf) as (Hbuf0 & _ & _).
  rewrite Hbuf0 in Hbuf. injection Hbuf as <-.
  destruct (pull_spec v h a bs Hwf)
    as (h1 & a1 & Hpull & Hwf1 & Hvals1 & _ & Hnode).
  rewrite Hhas in Hpull, Hnode.
  destruct a as [|l0 p0 x0 r0]; [done|].
  destruct Hnode as (L & n & x & R & -> & Hrc & Hexcl & Hx & _); [done|].
  specialize (Hx eq_refl).
  destruct (wf_head _ _ _ Hwf1) as [Hrepr1 Hasc1].
  pose proof Hrepr1 as (Hn & HL & HR).
  pose proof (lookup_shape_rc h1 n _ _ _ _ Hn Hrc) as Hnd.
  pose proof Hasc1 as Hasc1'. cbn [vals] in Hasc1'.
  apply ascending_app_cons in Hasc1' as (HaL & HaR & HLx & HxR).
  rewrite Forall_forall in HLx, HxR.
  destruct (erase_found_spec v h1 L n x R bs Hwf1 Hrc Hexcl Hx)
    as (h' & a' & Hef & Hwf' & Hvals' & Hjoin).
  destruct (wf_read h' a' bs Hwf') as (Hbuf' & Hasc' & Hchk').
  exists h1, n, (mk_node (root L) (root R) x 1), h', (root a'), (vals L), (vals R).
  cbn [m_left m_right m_value]. split_and!.
  - exact Hpull.
  - exact Hnd.
  - by apply cmp_eq_sym.
  - by apply to_buffer_ok.
  - by apply to_buffer_ok.
  - intros y z Hy Hz. apply (cmp_trans y x z); [by apply HLx|by apply HxR].
  - unfold erase. rewrite Hpull. simpl. exact Hef.
  - apply Inv_cons. by exists a', bs.
  - by rewrite Hbuf', Hvals'.
  - by rewrite <-Hvals'.
  - exact Hchk'.
  - intros HLn. destruct L; [|done]. by rewrite Hjoin.
  - intros HRn. destruct R; [|done]. destruct L; by rewrite Hjoin.
  - intros HLn HRn.
    destruct L as [|Ll Lp Lx Lr]; [done|]. destruct R as [|Rl Rp Rx Rr]; [done|].
    destruct Hjoin as (h2 & h3 & h4 & h5 & LL & lp & xl & Hc2 & Hc3 & Hcl &
                       Hpm & Hrepr5 & HvL & ->).
    pose proof Hrepr5 as (Hlp5 & _ & _).
    apply shape_Some in Hlp5 as [k5 Hlp5].
    destruct (wf_head _ _ _ Hwf') as [(Hlp' & _ & _) _].
    apply shape_Some in Hlp' as [k' Hlp'].
    assert (ascending cmp (vals LL ++ [xl])) as HaLL by by rewrite HvL.
    pose proof HaLL as HaLL'.
    apply ascending_app_cons in HaLL as (_ & _ & HLLx & _).
    rewrite Forall_forall in HLLx.
    eexists h2, h3, h4, h5, lp, _, _. split_and!; try done.
    + pose proof (to_buffer_ok h5 (ANode LL lp xl ALeaf) Hrepr5 HaLL') as Hb5.
      cbn [root vals] in Hb5. rewrite Hb5. exact (f_equal Some HvL).
    + cbn [m_value]. change (xl ∈ vals (ANode Ll Lp Lx Lr)).
      rewrite <-HvL. apply elem_of_app. right.
      by apply list_elem_of_singleton.
    + cbn [m_value]. intros y. change (y ∈ vals (ANode Ll Lp Lx Lr) → y = xl ∨ lt cmp y xl).
      rewrite <-HvL.
      intros [Hy| ->%list_elem_of_singleton]%elem_of_app; [right|by left].
      by apply HLLx.
Qed.

(** C4.  [insert(v)] overwrites on equality.  Afterwards [contains(v)]
    holds and the handle holds the old elements with [v] added, in place of
    the element that compared equal to [v] if there was one.  The value
    that is stored is [v] itself: [find] with any key that compares equal to
    [v] returns [v], and inserting a second value [v2] that compares equal
    replaces the stored one, so that [find] then returns [v2] (with a
    comparator that looks at a key field only, the payload is replaced).
    The node [n] that is splayed to the root is the one on which the
    descent ends: a new leaf when no element compared equal to [v], and
    otherwise the node whose value was overwritten. *)
Theorem insert_overwrites v h m others :
  Inv cmp h (m :: others) →
  ∃ xs h' m',
    to_buffer h m = Some xs ∧
    insert cmp v h m = Some (h', m') ∧
    Inv cmp h' (m' :: others) ∧
    to_buffer h' m' = Some (seq_insert cmp v xs) ∧
    (∀ y, y ∈ seq_insert cmp v xs ↔ y = v ∨ (y ∈ xs ∧ cmp v y ≠ 0%Z)) ∧
    contains cmp v h' m' = Some true ∧
    (∀ u, cmp u v = 0%Z → find cmp u h' m' = Some (Some v)) ∧
    (∀ v2, cmp v2 v = 0%Z →
       ∃ h2 m2, insert cmp v2 h' m' = Some (h2, m2) ∧
                find cmp v h2 m2 = Some (Some v2)) ∧
    ∃ h1 m1 path n sl sr,
      insert_pull_loop cmp (size h) v true [] m h m =
        Some (descent_break h1 m1 path n (seq_has cmp v xs)) ∧
      m' = Some n ∧
      shape h1 n = Some (sl, sr, v) ∧
      (seq_has cmp v xs = false → sl = None ∧ sr = None ∧ h !! n = None).
Proof.
  intros (a & bs & -> & -> & Hwf)%Inv_cons.
  destruct (wf_read h a bs Hwf) as (Hbuf & Hasc & _).
  destruct (insert_spec v h a bs Hwf)
    as (h' & a' & Hins & Hwf' & Hvals &
        L & n & R & h1 & m1 & path & sl & sr & -> & Hloop & Hshape & Hnew).
  destruct (wf_read h' _ bs Hwf') as (Hbuf' & _ & _).
  destruct (wf_head _ _ _ Hwf') as [Hrepr' Hasc'].
  assert (∀ u, cmp u v = 0%Z →
            find cmp u h' (Some n) = Some (Some v) ∧
            contains cmp u h' (Some n) = Some true) as Hfind.
  { intros u Hu.
    destruct (find_spec u h' (ANode L n v R) Hrepr' Hasc')
      as (res & k & Hf & _ & Hc & _ & _ & Hroot).
    destruct (Hroot L n v R eq_refl Hu) as [-> _].
    cbn [root] in Hf, Hc. split; [done|].
    unfold contains. by rewrite Hf. }
  exists (vals a), h', (Some n). split_and!; try done.
  - apply Inv_cons. by exists (ANode L n v R), bs.
  - by rewrite <-Hvals.
  - intros y. by apply seq_insert_elem_of_iff.
  - apply Hfind, cmp_refl.
  - intros u Hu. by apply Hfind.
  - intros v2 Hv2.
    destruct (insert_spec v2 h' (ANode L n v R) bs Hwf')
      as (h2 & a2 & Hins2 & Hwf2 & _ &
          L2 & n2 & R2 & _ & _ & _ & _ & _ & -> & _).
    destruct (wf_head _ _ _ Hwf2) as [Hrepr2 Hasc2].
    destruct (find_spec v h2 (ANode L2 n2 v2 R2) Hrepr2 Hasc2)
      as (res & k & Hf & _ & _ & _ & _ & Hroot).
    destruct (Hroot L2 n2 v2 R2 eq_refl) as [-> _]; [by apply cmp_eq_sym|].
    by exists h2, (Some n2).
  - by exists h1, m1, path, n, sl, sr.
Qed.


(** C9.  [find_memoize(v)] keeps the elements of the handle, whatever [v]
    is.  When an element compares equal to [v], that element is at the root
    afterwards.  When none does and the tree is not empty, the root
    afterwards is the last node that the descent visited, with the value it
    had: the node [n] at which the loop breaks, whose child on the side of
    [v] is empty at that moment, and whose value is next to [v] in the
    sequence (the first element above [v] when the descent ended to the
    left, the last element below [v] when it ended to the right); the
    elements are the same.  On the empty tree the result is nothing, and
    neither the handle nor the store changes. *)
Theorem find_memoize_elements v h m others :
  Inv cmp h (m :: others) →
  ∃ xs h' m' res,
    to_buffer h m = Some xs ∧
    find_memoize cmp v h m = Some (h', m', res) ∧
    Inv cmp h' (m' :: others) ∧
    to_buffer h' m' = Some xs ∧
    (seq_has cmp v xs = true →
       ∃ y n nd, res = Some y ∧ y ∈ xs ∧ cmp v y = 0%Z ∧
                 m' = Some n ∧ h' !! n = Some nd ∧ m_value nd = y) ∧
    (seq_has cmp v xs = false → res = None) ∧
    (m ≠ None →
       ∃ h1 m1 path n,
         insert_pull_loop cmp (size h) v false [] m h m =
           Some (descent_break h1 m1 path n (seq_has cmp v xs)) ∧
         m' = Some n) ∧
    (seq_has cmp v xs = false → m ≠ None →
       ∃ h1 m1 path n nd1 nd (l1 l2 : list T),
         insert_pull_loop cmp (size h) v false [] m h m =
           Some (descent_break h1 m1 path n false) ∧
         h1 !! n = Some nd1 ∧
         m' = Some n ∧ h' !! n = Some nd ∧ m_value nd = m_value nd1 ∧
         xs = l1 ++ l2 ∧
         Forall (λ y, lt cmp y v) l1 ∧ Forall (lt cmp v) l2 ∧
         (((cmp v (m_value nd1) < 0)%Z ∧ m_left nd1 = None ∧
           head l2 = Some (m_value nd1)) ∨
          ((cmp v (m_value nd1) > 0)%Z ∧ m_right nd1 = None ∧
           last l1 = Some (m_value nd1)))) ∧
    (m = None → xs = [] ∧ res = None ∧ m' = None ∧ h' = h).
Proof.
  intros (a & bs & -> & -> & Hwf)%Inv_cons.
  destruct (wf_read h a bs Hwf) as (Hbuf & Hasc & _).
  destruct (find_memoize_spec v h a bs Hwf)
    as (h' & a' & res & Hfm & Hwf' & Hvals & Hpull & Hleaf & Hnode & Hres).
  destruct (wf_read h' a' bs Hwf') as (Hbuf' & _ & _).
  destruct (wf_head _ _ _ Hwf') as [Hrepr' Hasc'].
  exists (vals a), h', (root a'), res. split_and!; try done.
  - apply Inv_cons. by exists a', bs.
  - by rewrite <-Hvals.
  - intros Hhas. destruct res as [y|]; [|congruence].
    destruct Hres as (_ & Hy & L & n & R & ->).
    destruct Hrepr' as (Hn & _ & _). apply shape_Some in Hn as [k Hn].
    eexists y, n, _. split_and!; [done| |done|done|exact Hn|done].
    rewrite <-Hvals. cbn [vals]. apply elem_of_app. right.
    apply elem_of_cons. by left.
  - intros Hhas. destruct res as [y|]; [|done].
    destruct Hres as (Hhas' & _). congruence.
  - intros Hne. apply Hnode. by intros ->.
  - intros Habs Hne.
    destruct (pull_last_visited v h a bs Hwf) as
      (h1 & m1 & path & n & nd1 & h2 & nd & l1 & l2 & Hloop & Hpull2 & Hn1 &
       Hn2 & Hval & Hxs & Hlo & Hhi & Hside); [by intros ->|done|].
    rewrite Habs, Hpull2 in Hpull. injection Hpull as -> Hroot.
    by exists h1, m1, path, n, nd1, nd, l1, l2.
  - intros Hm. destruct a; [|done]. destruct (Hleaf eq_refl) as [-> ->].
    split_and!; try done. destruct res as [y|]; [|done].
    by destruct Hres as (Hhas' & _).
Qed.

Lemma ascending_lookup xs i j (y z : T) :
  ascending cmp xs → i < j → xs !! i = Some y → xs !! j = Some z → lt cmp y z.
Proof.
  intros Hasc. revert i j. induction Hasc as [|x xs Hxs IH Hx]; intros i j Hij Hi Hj.
  - done.
  - destruct j as [|j]; [lia|]. simpl in Hj. destruct i as [|i].
    + injection Hi as <-. rewrite Forall_forall in Hx. apply Hx.
      by eapply list_elem_of_lookup_2.
    + simpl in Hi. apply (IH i j); [lia|done..].
Qed.

Lemma Inv_contains v h roots m xs :
  Inv cmp h roots → m ∈ roots → to_buffer h m = Some xs →
  contains cmp v h m = Some (seq_has cmp v xs).
Proof.
  intros HInv Hm Hbuf.
  destruct (Inv_member h roots m HInv Hm) as (a & <- & Hrepr & Hasc).
  rewrite (to_buffer_ok h a Hrepr Hasc) in Hbuf. injection Hbuf as <-.
  by destruct (find_spec v h a Hrepr Hasc) as (res & k & _ & _ & Hc & _).
Qed.

(** C6.  After every operation ([insert], [erase], [find], [find_memoize],
    the copy constructor, [clear], [swap], and the default constructor),
    run on existing handles of a well-formed world, the BST-order invariant
    holds at every node that is reachable from a handle: the value of its
    left child is strictly below its own value, which is strictly below the
    value of its right child.  [check_invariant] passes on every handle, and
    [to_buffer] yields the elements of every handle in strictly ascending
    order, without duplicates. *)
Theorem bst_order_preserved (o : op T) w :
  Inv cmp (w_heap w) (w_handles w) → op_valid o w →
  ∃ w',
    step cmp o w = Some w' ∧
    (∀ p, live w' p → ordered_at cmp (w_heap w') p) ∧
    (∀ m, m ∈ w_handles w' →
       check_invariant cmp (w_heap w') m = Some true ∧
       ∃ xs, to_buffer (w_heap w') m = Some xs ∧
             ascending cmp xs ∧ NoDup xs ∧
             (∀ i j y z, i < j → xs !! i = Some y → xs !! j = Some z →
                         (cmp y z < 0)%Z)).
Proof.
  intros (ts & Hroots & Hwf) Hvalid.
  destruct (step_spec o w ts Hroots Hwf Hvalid)
    as (w' & ts' & Hstep & Hroots' & Hwf' & _).
  assert (Inv cmp (w_heap w') (w_handles w')) as HInv' by by exists ts'.
  exists w'. split_and!; [done| |].
  - intros p (m & Hm & Hreach).
    by destruct (Inv_live _ _ m p HInv' Hm Hreach) as (nd & _ & _ & _ & ?).
  - intros m Hm.
    destruct (Inv_read _ _ m HInv' Hm) as (xs & Hbuf & Hasc & Hchk).
    split; [done|]. exists xs. split_and!; [done..|by apply ascending_NoDup|].
    intros i j y z. by apply ascending_lookup.
Qed.

(** C7.  After every operation, each node that is reachable from a live
    handle is allocated, and its counter is at least one and equal to the
    number of references to it: the child slots of nodes plus the [m_ptr]
    of handles.  No operation rewrites a shared node.  Every write to a
    field of an existing node is a [store], which aborts when the counter
    of the node exceeds one, and the operation runs to the end; the nodes
    that are reachable from a handle that the operation is not called on
    keep their children and their value.  Where a descent meets a shared
    node [q], [unshare] leaves [q] as it is and puts a new node [n] with
    the same children and value in its place: the parent on the path, or
    the handle when the path is empty, is linked to [n]. *)
Theorem refcounts_preserved (o : op T) w :
  Inv cmp (w_heap w) (w_handles w) → op_valid o w →
  ∃ w',
    step cmp o w = Some w' ∧
    (∀ p, live w' p →
       ∃ nd, w_heap w' !! p = Some nd ∧ 1 ≤ m_rc nd ∧
             m_rc nd = refs (w_heap w') (w_handles w') p) ∧
    (∀ k m p, k ∉ op_handles o → w_handles w !! k = Some m →
       reaches (w_heap w) m p →
       w_handles w' !! k = Some m ∧
       shape (w_heap w') p = shape (w_heap w) p) ∧
    (∀ p (f : node T → node T) h0 h1,
       store p f h0 = Some h1 → rc_of h0 p ≤ 1) ∧
    (∀ h m bs (ctx : list (frame T)) l q x r,
       descent_inv cmp h m bs ctx (ANode l q x r) → 1 < rc_of h q →
       ∃ h' m' n,
         unshare (path_of ctx) q h m = Some (h', m', n) ∧
         h !! n = None ∧
         shape h' q = shape h q ∧
         rc_of h' n = 1 ∧
         descent_inv cmp h' m' bs ctx (ANode l n x r)).
Proof.
  intros (ts & Hroots & Hwf) Hvalid.
  destruct (step_spec o w ts Hroots Hwf Hvalid)
    as (w' & ts' & Hstep & Hroots' & Hwf' & _ & Hkeep).
  assert (Inv cmp (w_heap w') (w_handles w')) as HInv' by by exists ts'.
  exists w'. split_and!; [done|..].
  - intros p (m & Hm & Hreach).
    destruct (Inv_live _ _ m p HInv' Hm Hreach) as (nd & ? & ? & ? & _).
    by exists nd.
  - intros k m p Hk Hm Hreach. rewrite Hroots, list_lookup_fmap in Hm.
    destruct (ts !! k) as [t|] eqn:Ht; [|done]. injection Hm as <-.
    pose proof (Hkeep k t Hk Ht) as Ht'.
    split; [by rewrite Hroots', list_lookup_fmap, Ht'|].
    destruct (wf_member _ ts t Hwf) as [Hrepr Hasc];
      [by eapply list_elem_of_lookup_2|].
    destruct (wf_member _ ts' t Hwf') as [Hrepr' _];
      [by eapply list_elem_of_lookup_2|].
    destruct (reaches_subtree _ t p Hrepr Hasc Hreach) as (s & Hs & _ & _ & Hsub).
    apply (repr_agree _ _ t); [done..|]. by apply Hsub, root_in_ptrs.
  - intros p f h0 h1. unfold store, rc_of, is_shared.
    destruct (h0 !! p) as [nd|]; [|done]. simpl.
    case_bool_decide; [done|]. intros _. lia.
  - intros h m bs ctx l q x r Hdi Hshared.
    destruct (unshare_spec h m bs ctx l q x r Hdi)
      as (h' & m' & n & Hun & Hdi' & Hrc & _ & _ & Hclone).
    rewrite decide_True in Hclone by done. destruct Hclone as [-> Hq].
    exists h', m', (fresh (dom h)). split_and!; try done. apply lookup_fresh.
Qed.

(** C8.  Persistence under aliasing.  Let [b] be a copy of the handle [m],
    which holds [xs].  After [insert], [erase], [find_memoize] or [clear]
    on the first handle, [b] still holds [xs].  The free functions [insert]
    and [erase] return a handle [r] that holds the result of the
    operation, and their argument still holds [xs]. *)
Theorem persistence v h m others :
  Inv cmp h (m :: others) →
  ∃ xs h0 (b : option positive),
    to_buffer h m = Some xs ∧
    copy m h = Some (h0, b) ∧
    to_buffer h0 b = Some xs ∧
    (∃ h' m', insert cmp v h0 m = Some (h', m') ∧
              to_buffer h' m' = Some (seq_insert cmp v xs) ∧
              to_buffer h' b = Some xs) ∧
    (∃ h' m', erase cmp v h0 m = Some (h', m') ∧
              to_buffer h' m' = Some (seq_erase cmp v xs) ∧
              to_buffer h' b = Some xs) ∧
    (∃ h' m' res, find_memoize cmp v h0 m = Some (h', m', res) ∧
                  to_buffer h' m' = Some xs ∧
                  to_buffer h' b = Some xs) ∧
    (∃ h' m', clear h0 m = Some (h', m') ∧
              to_buffer h' m' = Some [] ∧
              to_buffer h' b = Some xs) ∧
    (∃ h' (r : option positive), nm_insert cmp m v h = Some (h', r) ∧
             to_buffer h' r = Some (seq_insert cmp v xs) ∧
             to_buffer h' m = Some xs) ∧
    (∃ h' (r : option positive), nm_erase cmp m v h = Some (h', r) ∧
             to_buffer h' r = Some (seq_erase cmp v xs) ∧
             to_buffer h' m = Some xs).
Proof.
  intros HInv.
  destruct (Inv_copy h m others HInv) as (xs & h0 & Hbuf & Hcopy & HInv0 & Hbuf0 & _).
  assert (m ∈ m :: others) as Hin by (apply elem_of_cons; by left).
  exists xs, h0, m. split_and!; try done.
  - destruct (Inv_insert v h0 m _ HInv0) as (xs' & h' & m' & Hb & _ & Hop & _ & Hb' & Hfr).
    rewrite Hbuf0 in Hb. injection Hb as <-.
    exists h', m'. split_and!; try done. by rewrite Hfr.
  - destruct (Inv_erase v h0 m _ HInv0) as (xs' & h' & m' & Hb & _ & Hop & _ & Hb' & Hfr).
    rewrite Hbuf0 in Hb. injection Hb as <-.
    exists h', m'. split_and!; try done. by rewrite Hfr.
  - destruct (Inv_find_memoize v h0 m _ HInv0)
      as (xs' & h' & m' & res & Hb & Hop & _ & Hb' & Hfr).
    rewrite Hbuf0 in Hb. injection Hb as <-.
    exists h', m', res. split_and!; try done. by rewrite Hfr.
  - destruct (Inv_clear h0 m _ HInv0) as (h' & Hop & _ & Hb' & Hfr).
    exists h', None. split_and!; try done. by rewrite Hfr.
  - destruct (Inv_insert v h0 m _ HInv0) as (xs' & h' & m' & Hb & _ & Hop & _ & Hb' & Hfr).
    rewrite Hbuf0 in Hb. injection Hb as <-.
    exists h', m'. unfold nm_insert. rewrite Hcopy. simpl.
    split_and!; try done. by rewrite Hfr.
  - destruct (Inv_erase v h0 m _ HInv0) as (xs' & h' & m' & Hb & _ & Hop & _ & Hb' & Hfr).
    rewrite Hbuf0 in Hb. injection Hb as <-.
    exists h', m'. unfold nm_erase. rewrite Hcopy. simpl.
    split_and!; try done. by rewrite Hfr.
Qed.

(** C10.  [insert] and [erase] are idempotent on the elements of a handle:
    a second [insert(v)] or [erase(v)] leaves the elements that the first
    one produced.  Two insertions of values that do not compare equal
    commute: both orders produce the same elements. *)
Theorem insert_erase_algebra u v h m others :
  Inv cmp h (m :: others) →
  (∃ h1 m1 h2 m2 xs,
     insert cmp v h m = Some (h1, m1) ∧
     insert cmp v h1 m1 = Some (h2, m2) ∧
     to_buffer h1 m1 = Some xs ∧ to_buffer h2 m2 = Some xs) ∧
  (∃ h1 m1 h2 m2 xs,
     erase cmp v h m = Some (h1, m1) ∧
     erase cmp v h1 m1 = Some (h2, m2) ∧
     to_buffer h1 m1 = Some xs ∧ to_buffer h2 m2 = Some xs) ∧
  (cmp u v ≠ 0%Z →
   ∃ h1 m1 h2 m2 h1' m1' h2' m2' xs,
     insert cmp u h m = Some (h1, m1) ∧
     insert cmp v h1 m1 = Some (h2, m2) ∧
     insert cmp v h m = Some (h1', m1') ∧
     insert cmp u h1' m1' = Some (h2', m2') ∧
     to_buffer h2 m2 = Some xs ∧ to_buffer h2' m2' = Some xs).
Proof.
  intros HInv.
  destruct (Inv_insert v h m others HInv)
    as (xs & hv & mv & Hb & _ & Hiv & HInvv & Hbv & _).
  destruct (Inv_insert v hv mv others HInvv)
    as (xs1 & hvv & mvv & Hb1 & _ & Hivv & _ & Hbvv & _).
  rewrite Hbv in Hb1. injection Hb1 as <-.
  destruct (Inv_erase v h m others HInv)
    as (xs2 & he & me & Hb2 & _ & Hie & HInve & Hbe & _).
  rewrite Hb in Hb2. injection Hb2 as <-.
  destruct (Inv_erase v he me others HInve)
    as (xs3 & hee & mee & Hb3 & _ & Hiee & _ & Hbee & _).
  rewrite Hbe in Hb3. injection Hb3 as <-.
  split_and!.
  - exists hv, mv, hvv, mvv, (seq_insert cmp v xs).
    split_and!; try done. by rewrite Hbvv, seq_insert_idem.
  - exists he, me, hee, mee, (seq_erase cmp v xs).
    split_and!; try done. by rewrite Hbee, seq_erase_idem.
  - intros Hne.
    destruct (Inv_insert u h m others HInv)
      as (xs4 & hu & mu & Hb4 & _ & Hiu & HInvu & Hbu & _).
    rewrite Hb in Hb4. injection Hb4 as <-.
    destruct (Inv_insert v hu mu others HInvu)
      as (xs5 & huv & muv & Hb5 & _ & Hiuv & _ & Hbuv & _).
    rewrite Hbu in Hb5. injection Hb5 as <-.
    destruct (Inv_insert u hv mv others HInvv)
      as (xs6 & hvu & mvu & Hb6 & _ & Hivu & _ & Hbvu & _).
    rewrite Hbv in Hb6. injection Hb6 as <-.
    exists hu, mu, huv, muv, hv, mv, hvu, mvu,
      (seq_insert cmp v (seq_insert cmp u xs)).
    split_and!; try done. by rewrite Hbvu, (seq_insert_comm u v xs Hne).
Qed.

End claims.

(** * The claims at the integers, and instances of the claims *)

(** C2.  [erase(v)] removes the element that compares equal to [v]: the
    handle then holds the elements that it held except those equal to [v],
    and [contains(v)] is false.  When no element compares equal to [v],
    the handle holds what it held.  At the integers: erasing 1 from a tree
    that holds 1 and 2 leaves 2, erasing 1 from a tree that holds 1 leaves
    nothing, and erasing 1 from the empty tree leaves nothing. *)
Theorem erase_removes :
  (∀ (T : Type) (cmp : T → T → Z), Comparator cmp →
   ∀ (v : T) (h : gmap positive (node T)) m others,
     Inv cmp h (m :: others) →
     ∃ xs h' m',
       to_buffer h m = Some xs ∧
       erase cmp v h m = Some (h', m') ∧
       Inv cmp h' (m' :: others) ∧
       to_buffer h' m' = Some (seq_erase cmp v xs) ∧
       (∀ y, y ∈ seq_erase cmp v xs ↔ y ∈ xs ∧ cmp v y ≠ 0%Z) ∧
       contains cmp v h' m' = Some false ∧
       (contains cmp v h m = Some false → to_buffer h' m' = Some xs)) ∧
  (∀ (h : gmap positive (node Z)) m others,
     Inv int_cmp h (m :: others) →
     ∃ h' m',
       erase int_cmp 1%Z h m = Some (h', m') ∧
       (to_buffer h m = Some [1%Z; 2%Z] → to_buffer h' m' = Some [2%Z]) ∧
       (to_buffer h m = Some [1%Z] → to_buffer h' m' = Some []) ∧
       (to_buffer h m = Some [] → to_buffer h' m' = Some [])).
Proof.
  split.
  - intros T cmp Hcmp v h m others HInv.
    destruct (Inv_erase v h m others HInv)
      as (xs & h' & m' & Hb & _ & Hers & HInv' & Hb' & _).
    exists xs, h', m'. split_and!; try done.
    + intros y. apply seq_erase_elem_of.
    + rewrite (Inv_contains v h' (m' :: others) m' _ HInv' ltac:(by left) Hb').
      by rewrite seq_has_erase.
    + rewrite (Inv_contains v h (m :: others) m _ HInv ltac:(by left) Hb).
      intros [= Hhas]. by rewrite Hb', seq_erase_absent.
  - intros h m others HInv.
    destruct (Inv_erase 1%Z h m others HInv)
      as (xs & h' & m' & Hb & _ & Hers & _ & Hb' & _).
    exists h', m'. split; [done|].
    split_and!; intros Hxs; rewrite Hb in Hxs; injection Hxs as ->; exact Hb'.
Qed.

Lemma erase_removes_witness :
  (Inv int_cmp (w_heap scenario_12) [Some 2%positive] ∧
   ∃ h' m', erase int_cmp 1%Z (w_heap scenario_12) (Some 2%positive) = Some (h', m') ∧
            to_buffer h' m' = Some [2%Z] ∧
            contains int_cmp 1%Z h' m' = Some false) ∧
  (Inv int_cmp (w_heap scenario_1) [Some 1%positive] ∧
   ∃ h' m', erase int_cmp 1%Z (w_heap scenario_1) (Some 1%positive) = Some (h', m') ∧
            to_buffer h' m' = Some []) ∧
  (Inv int_cmp (w_heap scenario_empty) [None] ∧
   ∃ h' m', erase int_cmp 1%Z (w_heap scenario_empty) None = Some (h', m') ∧
            to_buffer h' m' = Some []).
Proof.
  pose proof erase_removes as [Hgen Hex].
  refine (conj (conj (world_of_Inv _) _)
            (conj (conj (world_of_Inv _) _) (conj (world_of_Inv _) _))).
  - destruct (Hgen Z int_cmp _ 1%Z (w_heap scenario_12) (Some 2%positive) []
                (world_of_Inv _))
      as (xs & h' & m' & Hb & He & _ & Hb' & _ & Hc & _).
    injection Hb as <-. exists h', m'. exact (conj He (conj Hb' Hc)).
  - destruct (Hex (w_heap scenario_1) (Some 1%positive) [] (world_of_Inv _))
      as (h' & m' & He & _ & H1 & _).
    exists h', m'. exact (conj He (H1 eq_refl)).
  - destruct (Hex (w_heap scenario_empty) None [] (world_of_Inv _))
      as (h' & m' & He & _ & _ & H0).
    exists h', m'. exact (conj He (H0 eq_refl)).
Defined.

Lemma splay_rewrites_witness :
  let P (h : gmap positive (node Z)) path before after :=
    repr h before ∧
    ∃ h', splay_to_top path 3%positive h = Some h' ∧ repr h' after ∧
          ∀ q, rc_of h' q = rc_of h q in
  let leaf := ALeaf (T := Z) in
  P (three_nodes (Some 2%positive, None, 30%Z) (Some 3%positive, None, 20%Z) (None, None, 10%Z))
    [mk_entry false 2%positive; mk_entry false 1%positive]
    (ANode (ANode (ANode leaf 3%positive 10%Z leaf) 2%positive 20%Z leaf) 1%positive 30%Z leaf)
    (ANode leaf 3%positive 10%Z (ANode leaf 2%positive 20%Z (ANode leaf 1%positive 30%Z leaf))) ∧
  P (three_nodes (Some 2%positive, None, 30%Z) (None, Some 3%positive, 10%Z) (None, None, 20%Z))
    [mk_entry true 2%positive; mk_entry false 1%positive]
    (ANode (ANode leaf 2%positive 10%Z (ANode leaf 3%positive 20%Z leaf)) 1%positive 30%Z leaf)
    (ANode (ANode leaf 2%positive 10%Z leaf) 3%positive 20%Z (ANode leaf 1%positive 30%Z leaf)) ∧
  P (three_nodes (None, Some 2%positive, 10%Z) (Some 3%positive, None, 30%Z) (None, None, 20%Z))
    [mk_entry false 2%positive; mk_entry true 1%positive]
    (ANode leaf 1%positive 10%Z (ANode (ANode leaf 3%positive 20%Z leaf) 2%positive 30%Z leaf))
    (ANode (ANode leaf 1%positive 10%Z leaf) 3%positive 20%Z (ANode leaf 2%positive 30%Z leaf)) ∧
  P (three_nodes (None, Some 2%positive, 10%Z) (None, Some 3%positive, 20%Z) (None, None, 30%Z))
    [mk_entry true 2%positive; mk_entry true 1%positive]
    (ANode leaf 1%positive 10%Z (ANode leaf 2%positive 20%Z (ANode leaf 3%positive 30%Z leaf)))
    (ANode (ANode (ANode leaf 1%positive 10%Z leaf) 2%positive 20%Z leaf) 3%positive 30%Z leaf) ∧
  P (three_nodes (None, None, 30%Z) (Some 3%positive, None, 20%Z) (None, None, 10%Z))
    [mk_entry false 2%positive]
    (ANode (ANode leaf 3%positive 10%Z leaf) 2%positive 20%Z leaf)
    (ANode leaf 3%positive 10%Z (ANode leaf 2%positive 20%Z leaf)) ∧
  P (three_nodes (None, None, 30%Z) (None, Some 3%positive, 10%Z) (None, None, 20%Z))
    [mk_entry true 2%positive]
    (ANode leaf 2%positive 10%Z (ANode leaf 3%positive 20%Z leaf))
    (ANode (ANode leaf 2%positive 10%Z leaf) 3%positive 20%Z leaf).
Proof.
  pose proof (@splay_rewrites Z) as [Hround Hzig].
  assert (NoDup [1%positive; 2%positive; 3%positive]) as Hnd3
    by (apply (bool_decide_unpack _); by vm_compute).
  assert (NoDup [2%positive; 3%positive]) as Hnd2
    by (apply (bool_decide_unpack _); by vm_compute).
  intros P leaf. unfold P.
  refine (conj _ (conj _ (conj _ (conj _ (conj _ _))))).
  - assert (repr (three_nodes (Some 2%positive, None, 30%Z) (Some 3%positive, None, 20%Z) (None, None, 10%Z))
        (ANode (ANode (ANode leaf 3%positive 10%Z leaf) 2%positive 20%Z leaf) 1%positive 30%Z leaf))
      as Hb by (simpl; split_and!; reflexivity).
    split; [exact Hb|].
    destruct (Hround (three_nodes (Some 2%positive, None, 30%Z) (Some 3%positive, None, 20%Z) (None, None, 10%Z))
                1%positive 2%positive 3%positive 30%Z 20%Z 10%Z leaf leaf leaf leaf
                eq_refl eq_refl eq_refl Hnd3)
      as (Hc & _ & _ & _).
    exact (Hc Hb).
  - assert (repr (three_nodes (Some 2%positive, None, 30%Z) (None, Some 3%positive, 10%Z) (None, None, 20%Z))
        (ANode (ANode leaf 2%positive 10%Z (ANode leaf 3%positive 20%Z leaf)) 1%positive 30%Z leaf))
      as Hb by (simpl; split_and!; reflexivity).
    split; [exact Hb|].
    destruct (Hround (three_nodes (Some 2%positive, None, 30%Z) (None, Some 3%positive, 10%Z) (None, None, 20%Z))
                1%positive 2%positive 3%positive 30%Z 10%Z 20%Z leaf leaf leaf leaf
                eq_refl eq_refl eq_refl Hnd3)
      as (_ & Hc & _ & _).
    exact (Hc Hb).
  - assert (repr (three_nodes (None, Some 2%positive, 10%Z) (Some 3%positive, None, 30%Z) (None, None, 20%Z))
        (ANode leaf 1%positive 10%Z (ANode (ANode leaf 3%positive 20%Z leaf) 2%positive 30%Z leaf)))
      as Hb by (simpl; split_and!; reflexivity).
    split; [exact Hb|].
    destruct (Hround (three_nodes (None, Some 2%positive, 10%Z) (Some 3%positive, None, 30%Z) (None, None, 20%Z))
                1%positive 2%positive 3%positive 10%Z 30%Z 20%Z leaf leaf leaf leaf
                eq_refl eq_refl eq_refl Hnd3)
      as (_ & _ & Hc & _).
    exact (Hc Hb).
  - assert (repr (three_nodes (None, Some 2%positive, 10%Z) (None, Some 3%positive, 20%Z) (None, None, 30%Z))
        (ANode leaf 1%positive 10%Z (ANode leaf 2%positive 20%Z (ANode leaf 3%positive 30%Z leaf))))
      as Hb by (simpl; split_and!; reflexivity).
    split; [exact Hb|].
    destruct (Hround (three_nodes (None, Some 2%positive, 10%Z) (None, Some 3%positive, 20%Z) (None, None, 30%Z))
                1%positive 2%positive 3%positive 10%Z 20%Z 30%Z leaf leaf leaf leaf
                eq_refl eq_refl eq_refl Hnd3)
      as (_ & _ & _ & Hc).
    exact (Hc Hb).
  - assert (repr (three_nodes (None, None, 30%Z) (Some 3%positive, None, 20%Z) (None, None, 10%Z))
        (ANode (ANode leaf 3%positive 10%Z leaf) 2%positive 20%Z leaf))
      as Hb by (simpl; split_and!; reflexivity).
    split; [exact Hb|].
    destruct (Hzig (three_nodes (None, None, 30%Z) (Some 3%positive, None, 20%Z) (None, None, 10%Z))
                2%positive 3%positive 20%Z 10%Z leaf leaf leaf eq_refl eq_refl Hnd2)
      as (Hc & _).
    exact (Hc Hb).
  - assert (repr (three_nodes (None, None, 30%Z) (None, Some 3%positive, 10%Z) (None, None, 20%Z))
        (ANode leaf 2%positive 10%Z (ANode leaf 3%positive 20%Z leaf)))
      as Hb by (simpl; split_and!; reflexivity).
    split; [exact Hb|].
    destruct (Hzig (three_nodes (None, None, 30%Z) (None, Some 3%positive, 10%Z) (None, None, 20%Z))
                2%positive 3%positive 10%Z 20%Z leaf leaf leaf eq_refl eq_refl Hnd2)
      as (_ & Hc).
    exact (Hc Hb).
Defined.

Lemma erase_joins_witness :
  Inv int_cmp (w_heap scenario_123) [Some 3%positive] ∧
  to_buffer (w_heap scenario_123) (Some 3%positive) = Some [1%Z; 2%Z; 3%Z] ∧
  seq_has int_cmp 2%Z [1%Z; 2%Z; 3%Z] = true ∧
  ∃ h1 n nd h' m' ls rs,
    pull int_cmp 2%Z (w_heap scenario_123) (Some 3%positive) =
      Some (h1, Some n, true) ∧
    h1 !! n = Some nd ∧
    to_buffer h1 (m_left nd) = Some ls ∧
    to_buffer h1 (m_right nd) = Some rs ∧
    erase int_cmp 2%Z (w_heap scenario_123) (Some 3%positive) = Some (h', m') ∧
    to_buffer h' m' = Some (ls ++ rs) ∧
    ascending int_cmp (ls ++ rs).
Proof.
  refine (conj (world_of_Inv _) (conj eq_refl (conj eq_refl _))).
  destruct (erase_joins (cmp := int_cmp) 2%Z (w_heap scenario_123)
              (Some 3%positive) [] [1%Z; 2%Z; 3%Z]
              (world_of_Inv _) eq_refl eq_refl)
    as (h1 & n & nd & h' & m' & ls & rs & Hp & Hn & _ & Hl & Hr & _ & He & _ &
        Hb & Ha & _).
  exists h1, n, nd, h', m', ls, rs.
  exact (conj Hp (conj Hn (conj Hl (conj Hr (conj He (conj Hb Ha)))))).
Defined.

Lemma insert_overwrites_witness :
  Inv key_cmp (w_heap scenario_keyed) [Some 1%positive] ∧
  ∃ h' m',
    insert key_cmp (1%Z, 20%Z) (w_heap scenario_keyed) (Some 1%positive) =
      Some (h', m') ∧
    to_buffer h' m' = Some [(1%Z, 20%Z)] ∧
    contains key_cmp (1%Z, 20%Z) h' m' = Some true ∧
    find key_cmp (1%Z, 0%Z) h' m' = Some (Some (1%Z, 20%Z)).
Proof.
  refine (conj (keyed_world_of_Inv _) _).
  destruct (insert_overwrites (cmp := key_cmp) (1%Z, 20%Z) (w_heap scenario_keyed)
              (Some 1%positive) [] (keyed_world_of_Inv _))
    as (xs & h' & m' & Hb & Hi & _ & Hb' & _ & Hc & Hf & _).
  injection Hb as <-.
  exists h', m'.
  exact (conj Hi (conj Hb' (conj Hc (Hf (1%Z, 0%Z) eq_refl)))).
Defined.


Lemma bst_order_preserved_witness :
  Inv int_cmp (w_heap scenario_shared) (w_handles scenario_shared) ∧
  op_valid (op_erase 0 2%Z) scenario_shared ∧
  ∃ w',
    step int_cmp (op_erase 0 2%Z) scenario_shared = Some w' ∧
    (∀ p, live w' p → ordered_at int_cmp (w_heap w') p) ∧
    (∀ m, m ∈ w_handles w' →
       check_invariant int_cmp (w_heap w') m = Some true ∧
       ∃ xs, to_buffer (w_heap w') m = Some xs ∧ ascending int_cmp xs).
Proof.
  assert (op_valid (op_erase 0 2%Z) scenario_shared) as Hvalid
    by (vm_compute; lia).
  refine (conj (world_of_Inv _) (conj Hvalid _)).
  destruct (bst_order_preserved (cmp := int_cmp) (op_erase 0 2%Z) scenario_shared
              (world_of_Inv _) Hvalid)
    as (w' & Hstep & Hord & Hread).
  exists w'. refine (conj Hstep (conj Hord _)).
  intros m Hm. destruct (Hread m Hm) as (Hchk & xs & Hb & Ha & _).
  refine (conj Hchk _). exists xs. exact (conj Hb Ha).
Defined.

Lemma refcounts_preserved_witness :
  Inv int_cmp (w_heap scenario_shared) (w_handles scenario_shared) ∧
  op_valid (op_insert 0 0%Z) scenario_shared ∧
  ∃ w',
    step int_cmp (op_insert 0 0%Z) scenario_shared = Some w' ∧
    (∀ p, live w' p →
       ∃ nd, w_heap w' !! p = Some nd ∧ 1 ≤ m_rc nd ∧
             m_rc nd = refs (w_heap w') (w_handles w') p) ∧
    (∀ p, reaches (w_heap scenario_shared) (Some 3%positive) p →
       w_handles w' !! 1 = Some (Some 3%positive) ∧
       shape (w_heap w') p = shape (w_heap scenario_shared) p).
Proof.
  assert (op_valid (op_insert 0 0%Z) scenario_shared) as Hvalid
    by (vm_compute; lia).
  refine (conj (world_of_Inv _) (conj Hvalid _)).
  destruct (refcounts_preserved (cmp := int_cmp) (op_insert 0 0%Z) scenario_shared
              (world_of_Inv _) Hvalid)
    as (w' & Hstep & Hrc & Hkeep & _).
  exists w'. refine (conj Hstep (conj Hrc _)).
  intros p Hp. apply (Hkeep 1 (Some 3%positive) p); [|reflexivity|done].
  intros Hin. apply list_elem_of_singleton in Hin. discriminate.
Defined.

Lemma persistence_witness :
  Inv int_cmp (w_heap scenario_12) [Some 2%positive] ∧
  ∃ h0 b,
    copy (Some 2%positive) (w_heap scenario_12) = Some (h0, b) ∧
    (∃ h' m', insert int_cmp 3%Z h0 (Some 2%positive) = Some (h', m') ∧
              to_buffer h' m' = Some [1%Z; 2%Z; 3%Z] ∧
              to_buffer h' b = Some [1%Z; 2%Z]) ∧
    (∃ h' m', erase int_cmp 3%Z h0 (Some 2%positive) = Some (h', m') ∧
              to_buffer h' b = Some [1%Z; 2%Z]) ∧
    (∃ h' r, nm_insert int_cmp (Some 2%positive) 3%Z (w_heap scenario_12) =
               Some (h', r) ∧
             to_buffer h' r = Some [1%Z; 2%Z; 3%Z] ∧
             to_buffer h' (Some 2%positive) = Some [1%Z; 2%Z]).
Proof.
  refine (conj (world_of_Inv _) _).
  destruct (persistence (cmp := int_cmp) 3%Z (w_heap scenario_12)
              (Some 2%positive) [] (world_of_Inv _))
    as (xs & h0 & b & Hb & Hcopy & _ & Hins & Hers & _ & _ & Hnm & _).
  injection Hb as <-.
  exists h0, b. refine (conj Hcopy (conj Hins (conj _ Hnm))).
  destruct Hers as (h' & m' & He & _ & Hb'). exists h', m'. exact (conj He Hb').
Defined.

Lemma find_memoize_elements_witness :
  Inv int_cmp (w_heap scenario_123) [Some 3%positive] ∧
  ∃ h' n nd,
    find_memoize int_cmp 0%Z (w_heap scenario_123) (Some 3%positive) =
      Some (h', Some n, None) ∧
    to_buffer h' (Some n) = Some [1%Z; 2%Z; 3%Z] ∧
    h' !! n = Some nd ∧ m_value nd = 1%Z.
Proof.
  refine (conj (world_of_Inv _) _).
  destruct (find_memoize_elements (cmp := int_cmp) 0%Z (w_heap scenario_123)
              (Some 3%positive) [] (world_of_Inv _))
    as (xs & h' & m' & res & Hb & Hfm & _ & Hb' & _ & Hnone & _ & Hlast & _).
  injection Hb as <-.
  destruct (Hlast eq_refl ltac:(discriminate))
    as (h1 & m1 & path & n & nd1 & nd & l1 & l2 & _ & _ & -> & Hn & Hval &
        Hxs & Hlo & _ & Hside).
  rewrite (Hnone eq_refl) in Hfm.
  assert (l1 = []) as ->.
  { destruct l1 as [|y l1]; [done|]. injection Hxs as <- _.
    apply Forall_cons_1 in Hlo as [Hy _]. discriminate Hy. }
  simpl in Hxs. subst l2.
  exists h', n, nd. refine (conj Hfm (conj Hb' (conj Hn _))).
  rewrite Hval. destruct Hside as [(_ & _ & [= <-])|(_ & _ & [=])]. done.
Defined.

Lemma insert_erase_algebra_witness :
  Inv int_cmp (w_heap scenario_12) [Some 2%positive] ∧
  int_cmp 3%Z 4%Z ≠ 0%Z ∧
  ∃ h1 m1 h2 m2 h1' m1' h2' m2' xs,
    insert int_cmp 3%Z (w_heap scenario_12) (Some 2%positive) = Some (h1, m1) ∧
    insert int_cmp 4%Z h1 m1 = Some (h2, m2) ∧
    insert int_cmp 4%Z (w_heap scenario_12) (Some 2%positive) = Some (h1', m1') ∧
    insert int_cmp 3%Z h1' m1' = Some (h2', m2') ∧
    to_buffer h2 m2 = Some xs ∧ to_buffer h2' m2' = Some xs.
Proof.
  assert (int_cmp 3%Z 4%Z ≠ 0%Z) as Hne by (vm_compute; discriminate).
  refine (conj (world_of_Inv _) (conj Hne _)).
  destruct (insert_erase_algebra (cmp := int_cmp) 3%Z 4%Z (w_heap scenario_12)
              (Some 2%positive) [] (world_of_Inv _))
    as (_ & _ & Hcomm).
  exact (Hcomm Hne).
Defined.

(** * Further properties of the methods *)

Section methods.
Context {T : Type} {cmp : T → T → Z} `{!Comparator cmp}.

Local Abbreviation heap := (gmap positive (node T)).
Implicit Types (h : heap) (p q n : positive) (m : option positive).
Implicit Types (a b l r A B : atree T) (bs ts : list (atree T)) (v x : T).
Implicit Types (others roots : list (option positive)) (w : world T).
Implicit Types (xs ys : list T).

(** ** Traversals *)

Lemma fold_fuel_ok {R : Type} h a (f : T → R → R) :
  ∀ fuel (r0 : R), repr h a → height a ≤ fuel →
  fold_fuel fuel (root a) h f r0 = Some (foldl (λ acc y, f y acc) r0 (vals a)).
Proof.
  induction a as [|l IHl p x r IHr]; intros fuel r0 Hrepr Hfuel.
  - by destruct fuel.
  - destruct fuel as [|fuel]; [simpl in Hfuel; lia|].
    simpl in Hfuel. destruct Hrepr as (Hp & Hl & Hr).
    apply shape_Some in Hp as [k Hp].
    simpl. rewrite Hp. simpl. rewrite (IHl fuel r0 Hl) by lia. simpl.
    rewrite (IHr fuel _ Hr) by lia. by rewrite foldl_app.
Qed.

Lemma for_each_fuel_ok {S : Type} h a (f : T → S → S) :
  ∀ fuel (s0 : S), repr h a → height a ≤ fuel →
  for_each_fuel fuel (root a) h f s0 =
    Some (foldl (λ acc y, f y acc) s0 (vals a)).
Proof.
  induction a as [|l IHl p x r IHr]; intros fuel s0 Hrepr Hfuel.
  - by destruct fuel.
  - destruct fuel as [|fuel]; [simpl in Hfuel; lia|].
    simpl in Hfuel. destruct Hrepr as (Hp & Hl & Hr).
    apply shape_Some in Hp as [k Hp].
    simpl. rewrite Hp. simpl. rewrite (IHl fuel s0 Hl) by lia. simpl.
    rewrite (IHr fuel _ Hr) by lia. by rewrite foldl_app.
Qed.

Lemma count_wraps xs : ∀ z : Z,
  (0 ≤ z < 2 ^ 32)%Z →
  foldl (λ (acc : Z) (_ : T), (acc + 1) `mod` 2 ^ 32)%Z z xs =
    ((z + Z.of_nat (length xs)) `mod` 2 ^ 32)%Z.
Proof.
  induction xs as [|x xs IH]; intros z Hz; simpl.
  - rewrite Z.add_0_r. symmetry. by apply Z.mod_small.
  - rewrite IH by (apply Z.mod_pos_bound; lia).
    rewrite Zplus_mod_idemp_l. f_equal. lia.
Qed.

Lemma length_ptrs_vals a : length (ptrs a) = length (vals a).
Proof.
  induction a as [|l IHl p x r IHr]; simpl; [done|].
  rewrite !length_app. simpl. lia.
Qed.

Lemma traversals_ok h roots m xs :
  Inv cmp h roots → m ∈ roots → to_buffer h m = Some xs →
  (∀ (R : Type) (f : T → R → R) (r0 : R),
     fold h m f r0 = Some (foldl (λ acc y, f y acc) r0 xs)) ∧
  (∀ (S : Type) (f : T → S → S) (s0 : S),
     for_each h m f s0 = Some (foldl (λ acc y, f y acc) s0 xs)) ∧
  (∀ buf, to_buffer_fuel (size h) m h buf = Some (buf ++ xs)).
Proof.
  intros HInv Hm Hbuf.
  destruct (Inv_member h roots m HInv Hm) as (a & <- & Hrepr & Hasc).
  rewrite (to_buffer_ok h a Hrepr Hasc) in Hbuf. injection Hbuf as <-.
  pose proof (tree_fits h a Hrepr Hasc) as Hfits.
  split_and!.
  - intros R f r0. by apply fold_fuel_ok.
  - intros S f s0. by apply for_each_fuel_ok.
  - intros buf. by apply to_buffer_fuel_ok.
Qed.

Lemma tree_size_ok h roots m xs :
  Inv cmp h roots → m ∈ roots → to_buffer h m = Some xs →
  tree_size h m = Some (Z.of_nat (length xs) `mod` 2 ^ 32)%Z.
Proof.
  intros HInv Hm Hbuf.
  destruct (traversals_ok h roots m xs HInv Hm Hbuf) as (Hfold & _).
  unfold tree_size. rewrite Hfold. f_equal.
  rewrite count_wraps by lia. by rewrite Z.add_0_l.
Qed.

(** X1.  [fold], [for_each] and [to_buffer] visit the elements of a handle
    in ascending order and read only: [fold(f, r)] is the left fold of [f]
    over the sequence that [to_buffer] yields, [for_each(f)] calls [f] on
    the same sequence, and [to_buffer] appends it to the buffer that it is
    given. *)
Theorem traversals_in_order h roots m :
  Inv cmp h roots → m ∈ roots →
  ∃ xs,
    to_buffer h m = Some xs ∧
    ascending cmp xs ∧
    (∀ (R : Type) (f : T → R → R) (r0 : R),
       fold h m f r0 = Some (foldl (λ acc y, f y acc) r0 xs)) ∧
    (∀ (S : Type) (f : T → S → S) (s0 : S),
       for_each h m f s0 = Some (foldl (λ acc y, f y acc) s0 xs)) ∧
    (∀ buf, to_buffer_fuel (size h) m h buf = Some (buf ++ xs)).
Proof.
  intros HInv Hm.
  destruct (Inv_read h roots m HInv Hm) as (xs & Hbuf & Hasc & _).
  exists xs. split; [done|]. split; [done|]. by apply (traversals_ok h roots m).
Qed.

(** X2.  [size()] is the number of elements that the handle holds, counted
    in 32-bit unsigned arithmetic, and [empty()] is true exactly when the
    handle holds no element. *)
Theorem size_and_empty h roots m :
  Inv cmp h roots → m ∈ roots →
  ∃ xs,
    to_buffer h m = Some xs ∧
    tree_size h m = Some (Z.of_nat (length xs) `mod` 2 ^ 32)%Z ∧
    ((Z.of_nat (length xs) < 2 ^ 32)%Z →
       tree_size h m = Some (Z.of_nat (length xs))) ∧
    (empty m = true ↔ xs = []).
Proof.
  intros HInv Hm.
  destruct (Inv_read h roots m HInv Hm) as (xs & Hbuf & Hasc & _).
  pose proof (tree_size_ok h roots m xs HInv Hm Hbuf) as Hsize.
  exists xs. split_and!; [done|done| |].
  - intros Hlt. rewrite Hsize. f_equal. apply Z.mod_small. lia.
  - destruct (Inv_member h roots m HInv Hm) as (a & <- & Hrepr & Hasc').
    rewrite (to_buffer_ok h a Hrepr Hasc') in Hbuf. injection Hbuf as <-.
    destruct a as [|l p x r]; simpl; [done|].
    split; [done|]. intros Hnil. symmetry in Hnil. by apply app_cons_not_nil in Hnil.
Qed.

Lemma length_seq_insert v xs :
  ascending cmp xs →
  length (seq_insert cmp v xs) =
    length xs + (if seq_has cmp v xs then 0 else 1).
Proof.
  induction 1 as [|x xs Hxs IH Hx].
  - simpl. done.
  - rewrite Forall_forall in Hx.
    destruct (Z.lt_trichotomy (cmp v x) 0) as [Hlt|[Heq|Hgt]].
    + rewrite (seq_insert_lt v x xs Hlt).
      assert (seq_has cmp v (x :: xs) = false) as ->.
      { apply seq_has_false. apply Forall_cons. split; [lia|].
        apply Forall_forall. intros y Hy.
        pose proof (cmp_trans v x y Hlt (Hx y Hy)). lia. }
      simpl. lia.
    + rewrite (seq_insert_eq v x xs Heq). simpl.
      rewrite (bool_decide_true (cmp v x = 0%Z)) by done. simpl. lia.
    + rewrite (seq_insert_gt v x xs) by lia. simpl.
      rewrite (bool_decide_false (cmp v x = 0%Z)) by lia. simpl.
      rewrite IH. done.
Qed.

Lemma length_seq_erase v xs :
  ascending cmp xs →
  length (seq_erase cmp v xs) + (if seq_has cmp v xs then 1 else 0) =
    length xs.
Proof.
  induction 1 as [|x xs Hxs IH Hx]; [done|].
  rewrite Forall_forall in Hx. simpl.
  case_bool_decide as Heq; simpl.
  - rewrite seq_erase_absent; [lia|].
    apply seq_has_false, Forall_forall. intros y Hy.
    pose proof (cmp_eq_lt v x y Heq (Hx y Hy)). lia.
  - lia.
Qed.

(** X3.  [insert(v)] adds one to [size()] when no element compared equal to
    [v] and leaves it otherwise; [erase(v)] takes one off when an element
    compared equal to [v] and leaves it otherwise (in arithmetic modulo
    [2^32]).  The tree is not empty after an [insert]. *)
Theorem size_after_update v h m others :
  Inv cmp h (m :: others) →
  ∃ xs (present : bool) h1 m1 h2 m2,
    to_buffer h m = Some xs ∧
    contains cmp v h m = Some present ∧
    insert cmp v h m = Some (h1, m1) ∧
    erase cmp v h m = Some (h2, m2) ∧
    tree_size h1 m1 =
      Some ((Z.of_nat (length xs) + (if present then 0 else 1)) `mod` 2 ^ 32)%Z ∧
    tree_size h2 m2 =
      Some ((Z.of_nat (length xs) - (if present then 1 else 0)) `mod` 2 ^ 32)%Z ∧
    empty m1 = false.
Proof.
  intros HInv.
  destruct (Inv_insert v h m others HInv)
    as (xs & h1 & m1 & Hb & Hasc & Hins & HInv1 & Hb1 & _).
  destruct (Inv_erase v h m others HInv)
    as (xs' & h2 & m2 & Hb' & _ & Hers & HInv2 & Hb2 & _).
  rewrite Hb in Hb'. injection Hb' as <-.
  assert (∀ k, k ∈ k :: others) as Hin by (intros k; apply elem_of_cons; by left).
  exists xs, (seq_has cmp v xs), h1, m1, h2, m2. split_and!; try done.
  - by apply (Inv_contains v h (m :: others)).
  - rewrite (tree_size_ok h1 _ m1 _ HInv1 (Hin m1) Hb1).
    rewrite length_seq_insert by done. do 2 f_equal.
    destruct (seq_has cmp v xs); lia.
  - rewrite (tree_size_ok h2 _ m2 _ HInv2 (Hin m2) Hb2).
    pose proof (length_seq_erase v xs Hasc). do 2 f_equal.
    destruct (seq_has cmp v xs); lia.
  - destruct m1 as [n1|]; [done|].
    destruct (Inv_member h1 _ None HInv1 (Hin None)) as (a & Hroot & Hrepr & Hasc1).
    rewrite <-Hroot, (to_buffer_ok h1 a Hrepr Hasc1) in Hb1.
    destruct a; [|done]. injection Hb1 as Hb1.
    pose proof (length_seq_insert v xs Hasc) as Hlen. rewrite <-Hb1 in Hlen.
    simpl in Hlen. destruct (seq_has cmp v xs) eqn:Hhas; [|lia].
    apply seq_has_true in Hhas as (y & Hy & _).
    destruct xs; [by apply elem_of_nil in Hy|simpl in Hlen; lia].
Qed.

(** ** Lookup *)

Lemma ascending_unique xs (y z : T) :
  ascending cmp xs → y ∈ xs → z ∈ xs → cmp y z = 0%Z → y = z.
Proof.
  induction 1 as [|x xs Hxs IH Hx]; intros Hy Hz Heq.
  - by apply elem_of_nil in Hy.
  - rewrite Forall_forall in Hx.
    apply elem_of_cons in Hy as [->|Hy]; apply elem_of_cons in Hz as [->|Hz].
    + done.
    + pose proof (Hx z Hz) as Hlt. unfold lt in Hlt. lia.
    + pose proof (Hx y Hy) as Hlt. unfold lt in Hlt.
      apply cmp_eq_sym in Heq. lia.
    + by apply IH.
Qed.

Lemma find_loop_cost v h a :
  ∀ fuel steps res k, repr h a →
  find_loop cmp fuel v (root a) h steps = Some (res, k) →
  k ≤ steps + height a.
Proof.
  induction a as [|l IHl p x r IHr]; intros fuel steps res k Hrepr.
  - destruct fuel; simpl; intros [= _ <-]; lia.
  - destruct fuel as [|fuel]; [done|].
    destruct Hrepr as (Hp & Hl & Hr). apply shape_Some in Hp as [c Hp].
    simpl. rewrite Hp. simpl.
    repeat case_bool_decide.
    + intros Hf. apply (IHl _ _ _ _ Hl) in Hf. lia.
    + intros Hf. apply (IHr _ _ _ _ Hr) in Hf. lia.
    + intros [= _ <-]. lia.
Qed.

(** What [find] returns is fixed by the elements of the tree. *)
Lemma find_char v h a :
  repr h a → ascending cmp (vals a) →
  ∃ res k,
    find cmp v h (root a) = Some res ∧
    find_cost cmp v h (root a) = Some k ∧
    contains cmp v h (root a) = Some (bool_decide (is_Some res)) ∧
    k ≤ length (vals a) ∧
    (∀ y, res = Some y ↔ y ∈ vals a ∧ cmp v y = 0%Z).
Proof.
  intros Hrepr Hasc.
  destruct (find_loop_ok v h a (size h) 0 Hrepr Hasc)
    as (res & k & Hfind & Hhas & Hres & _); [by apply tree_fits|].
  pose proof (find_loop_cost v h a _ _ _ _ Hrepr Hfind) as Hcost.
  exists res, k. unfold contains, find, find_cost. rewrite Hfind. simpl.
  split_and!; try done.
  - pose proof (height_le_ptrs a). rewrite <-length_ptrs_vals. lia.
  - intros y. split; [by apply Hres|]. intros [Hy Heq].
    destruct res as [y'|].
    + destruct (Hres y' eq_refl) as [Hy' Heq']. f_equal.
      apply (ascending_unique (vals a)); [done..|].
      apply (cmp_eq_trans y' v y); [by apply cmp_eq_sym|done].
    + exfalso. symmetry in Hhas. rewrite bool_decide_eq_false_2 in Hhas
        by (by intros [? ?]).
      apply seq_has_false in Hhas. rewrite Forall_forall in Hhas.
      by apply (Hhas y).
Qed.

Lemma find_ext v h a h' a' res :
  repr h a → ascending cmp (vals a) →
  repr h' a' → ascending cmp (vals a') →
  (∀ y, cmp v y = 0%Z → y ∈ vals a ↔ y ∈ vals a') →
  find cmp v h (root a) = Some res → find cmp v h' (root a') = Some res.
Proof.
  intros Hr Ha Hr' Ha' Hsame Hfind.
  destruct (find_char v h a Hr Ha) as (res1 & _ & Hf1 & _ & _ & _ & Hc1).
  destruct (find_char v h' a' Hr' Ha') as (res2 & _ & Hf2 & _ & _ & _ & Hc2).
  rewrite Hfind in Hf1. injection Hf1 as <-. rewrite Hf2. f_equal.
  destruct res as [y|].
  - apply Hc2. destruct (proj1 (Hc1 y) eq_refl) as [Hy Heq].
    split; [by apply Hsame|done].
  - destruct res2 as [y|]; [|done].
    destruct (proj1 (Hc2 y) eq_refl) as [Hy Heq].
    symmetry. apply Hc1. split; [by apply Hsame|done].
Qed.

(** X4.  [find(v)] returns the element of the handle that compares equal
    to [v], which is unique, and [nullptr] when there is none; [contains]
    says whether [find] returned an element; and [find] compares [v] with
    at most as many nodes as the handle holds elements. *)
Theorem find_correct v h roots m :
  Inv cmp h roots → m ∈ roots →
  ∃ xs res k,
    to_buffer h m = Some xs ∧
    find cmp v h m = Some res ∧
    find_cost cmp v h m = Some k ∧
    k ≤ length xs ∧
    contains cmp v h m = Some (bool_decide (is_Some res)) ∧
    (∀ y, res = Some y ↔ y ∈ xs ∧ cmp v y = 0%Z) ∧
    (res = None ↔ ∀ y, y ∈ xs → cmp v y ≠ 0%Z).
Proof.
  intros HInv Hm.
  destruct (Inv_member h roots m HInv Hm) as (a & <- & Hrepr & Hasc).
  destruct (find_char v h a Hrepr Hasc) as (res & k & Hf & Hk & Hc & Hle & Hchar).
  exists (vals a), res, k. split_and!; try done.
  - by apply to_buffer_ok.
  - split.
    + intros -> y Hy Heq. by pose proof (proj2 (Hchar y) (conj Hy Heq)).
    + intros Hnone. destruct res as [y|]; [|done].
      destruct (proj1 (Hchar y) eq_refl) as [Hy Heq]. by destruct (Hnone y Hy).
Qed.

(** X5.  [find_memoize(v)] returns what [find(v)] returns, and [find(v)]
    returns the same after the tree has been reorganized. *)
Theorem find_memoize_agrees v h m others :
  Inv cmp h (m :: others) →
  ∃ res h' m',
    find cmp v h m = Some res ∧
    find_memoize cmp v h m = Some (h', m', res) ∧
    find cmp v h' m' = Some res.
Proof.
  intros (a & bs & -> & -> & Hwf)%Inv_cons.
  destruct (wf_head _ _ _ Hwf) as [Hrepr Hasc].
  destruct (find_memoize_spec v h a bs Hwf)
    as (h' & a' & res' & Hfm & Hwf' & Hvals & _ & _ & _ & Hres).
  destruct (wf_head _ _ _ Hwf') as [Hrepr' Hasc'].
  destruct (find_char v h a Hrepr Hasc) as (res & _ & Hf & _ & _ & _ & Hchar).
  assert (res = res') as <-.
  { destruct res' as [y|].
    - destruct Hres as (_ & Heq & L & n & R & ->). apply Hchar.
      split; [|done]. rewrite <-Hvals. cbn [vals]. apply elem_of_app. right.
      apply elem_of_cons. by left.
    - destruct res as [y|]; [|done].
      destruct (proj1 (Hchar y) eq_refl) as [Hy Heq].
      apply seq_has_false in Hres. rewrite Forall_forall in Hres.
      by destruct (Hres y Hy). }
  exists res, h', (root a'). split_and!; [done..|].
  apply (find_ext v h a h' a'); try done. intros y _. by rewrite Hvals.
Qed.

(** ** How [insert], [erase] and [find] compose *)

Lemma ascending_ext xs ys :
  ascending cmp xs → ascending cmp ys → (∀ y, y ∈ xs ↔ y ∈ ys) → xs = ys.
Proof.
  intros Hxs Hys Hsame.
  apply (StronglySorted_unique_strong (lt cmp)); [|done..|].
  - intros y z _ _ Hyz Hzy. unfold lt in *.
    pose proof (cmp_antisym (cmp := cmp) y z). lia.
  - apply NoDup_Permutation; [by apply ascending_NoDup..|done].
Qed.

Lemma seq_erase_insert v xs :
  ascending cmp xs →
  seq_erase cmp v (seq_insert cmp v xs) = seq_erase cmp v xs.
Proof.
  intros Hasc. pose proof (cmp_refl (cmp := cmp) v).
  apply ascending_ext.
  - by apply ascending_seq_erase, ascending_seq_insert.
  - by apply ascending_seq_erase.
  - intros y. rewrite !seq_erase_elem_of, seq_insert_elem_of_iff by done.
    naive_solver.
Qed.

Lemma seq_insert_erase v xs :
  ascending cmp xs →
  seq_insert cmp v (seq_erase cmp v xs) = seq_insert cmp v xs.
Proof.
  intros Hasc.
  apply ascending_ext.
  - by apply ascending_seq_insert, ascending_seq_erase.
  - by apply ascending_seq_insert.
  - intros y.
    rewrite !seq_insert_elem_of_iff, seq_erase_elem_of
      by (done || by apply ascending_seq_erase).
    naive_solver.
Qed.

Lemma seq_erase_comm u v xs :
  seq_erase cmp u (seq_erase cmp v xs) = seq_erase cmp v (seq_erase cmp u xs).
Proof.
  induction xs as [|x xs IH]; simpl; [done|].
  repeat (case_bool_decide; simpl); rewrite ?IH; done.
Qed.

Lemma seq_erase_insert_comm u v xs :
  cmp u v ≠ 0%Z → ascending cmp xs →
  seq_erase cmp u (seq_insert cmp v xs) = seq_insert cmp v (seq_erase cmp u xs).
Proof.
  intros Hne Hasc.
  apply ascending_ext.
  - by apply ascending_seq_erase, ascending_seq_insert.
  - by apply ascending_seq_insert, ascending_seq_erase.
  - intros y.
    rewrite seq_erase_elem_of, !seq_insert_elem_of_iff, seq_erase_elem_of
      by (done || by apply ascending_seq_erase).
    naive_solver.
Qed.

(** X6.  [erase(v)] undoes [insert(v)] up to the element that [insert]
    replaced: after [insert(v)] and [erase(v)] the handle holds what it
    held, without the elements equal to [v]; when [v] was not there, it
    holds exactly what it held.  [insert(v)] after [erase(v)] gives what
    [insert(v)] alone gives. *)
Theorem insert_erase_cancel v h m others :
  Inv cmp h (m :: others) →
  ∃ xs h1 m1 h2 m2 h3 m3 h4 m4,
    to_buffer h m = Some xs ∧
    insert cmp v h m = Some (h1, m1) ∧
    erase cmp v h1 m1 = Some (h2, m2) ∧
    to_buffer h2 m2 = Some (seq_erase cmp v xs) ∧
    (contains cmp v h m = Some false → to_buffer h2 m2 = Some xs) ∧
    erase cmp v h m = Some (h3, m3) ∧
    insert cmp v h3 m3 = Some (h4, m4) ∧
    to_buffer h4 m4 = to_buffer h1 m1.
Proof.
  intros HInv.
  destruct (Inv_insert v h m others HInv)
    as (xs & h1 & m1 & Hb & Hasc & Hins & HInv1 & Hb1 & _).
  destruct (Inv_erase v h1 m1 others HInv1)
    as (xs1 & h2 & m2 & Hb1' & _ & Hers2 & _ & Hb2 & _).
  rewrite Hb1 in Hb1'. injection Hb1' as <-.
  destruct (Inv_erase v h m others HInv)
    as (xs' & h3 & m3 & Hb' & _ & Hers & HInv3 & Hb3 & _).
  rewrite Hb in Hb'. injection Hb' as <-.
  destruct (Inv_insert v h3 m3 others HInv3)
    as (xs3 & h4 & m4 & Hb3' & _ & Hins4 & _ & Hb4 & _).
  rewrite Hb3 in Hb3'. injection Hb3' as <-.
  exists xs, h1, m1, h2, m2, h3, m3, h4, m4. split_and!; try done.
  - by rewrite Hb2, seq_erase_insert.
  - rewrite (Inv_contains v h (m :: others) m xs HInv ltac:(by left) Hb).
    intros [= Hhas]. by rewrite Hb2, seq_erase_insert, seq_erase_absent.
  - by rewrite Hb4, Hb1, seq_insert_erase.
Qed.

(** X7.  An [insert] and an [erase] of values that do not compare equal
    commute, and so do two [erase]s: both orders leave the same
    elements. *)
Theorem update_commute u v h m others :
  Inv cmp h (m :: others) →
  (cmp u v ≠ 0%Z →
   ∃ h1 m1 h2 m2 h1' m1' h2' m2' xs,
     insert cmp v h m = Some (h1, m1) ∧
     erase cmp u h1 m1 = Some (h2, m2) ∧
     erase cmp u h m = Some (h1', m1') ∧
     insert cmp v h1' m1' = Some (h2', m2') ∧
     to_buffer h2 m2 = Some xs ∧ to_buffer h2' m2' = Some xs) ∧
  (∃ h1 m1 h2 m2 h1' m1' h2' m2' xs,
     erase cmp v h m = Some (h1, m1) ∧
     erase cmp u h1 m1 = Some (h2, m2) ∧
     erase cmp u h m = Some (h1', m1') ∧
     erase cmp v h1' m1' = Some (h2', m2') ∧
     to_buffer h2 m2 = Some xs ∧ to_buffer h2' m2' = Some xs).
Proof.
  intros HInv.
  destruct (Inv_insert v h m others HInv)
    as (xs & hi & mi & Hb & Hasc & Hins & HInvi & Hbi & _).
  destruct (Inv_erase u hi mi others HInvi)
    as (xs1 & hie & mie & Hb1 & _ & Hie & _ & Hbie & _).
  rewrite Hbi in Hb1. injection Hb1 as <-.
  destruct (Inv_erase u h m others HInv)
    as (xs2 & hu & mu & Hb2 & _ & Heu & HInvu & Hbu & _).
  rewrite Hb in Hb2. injection Hb2 as <-.
  destruct (Inv_insert v hu mu others HInvu)
    as (xs3 & hui & mui & Hb3 & _ & Hui & _ & Hbui & _).
  rewrite Hbu in Hb3. injection Hb3 as <-.
  destruct (Inv_erase v h m others HInv)
    as (xs4 & hv & mv & Hb4 & _ & Hev & HInvv & Hbv & _).
  rewrite Hb in Hb4. injection Hb4 as <-.
  destruct (Inv_erase u hv mv others HInvv)
    as (xs5 & hvu & mvu & Hb5 & _ & Hevu & _ & Hbvu & _).
  rewrite Hbv in Hb5. injection Hb5 as <-.
  destruct (Inv_erase v hu mu others HInvu)
    as (xs6 & huv & muv & Hb6 & _ & Heuv & _ & Hbuv & _).
  rewrite Hbu in Hb6. injection Hb6 as <-.
  split.
  - intros Hne.
    exists hi, mi, hie, mie, hu, mu, hui, mui,
      (seq_erase cmp u (seq_insert cmp v xs)).
    split_and!; try done. by rewrite Hbui, seq_erase_insert_comm.
  - exists hv, mv, hvu, mvu, hu, mu, huv, muv,
      (seq_erase cmp u (seq_erase cmp v xs)).
    split_and!; try done. by rewrite Hbuv, (seq_erase_comm u v).
Qed.

(** X8.  [insert(v)] and [erase(v)] do not change what [find(u)] and
    [contains(u)] return for a [u] that does not compare equal to [v]. *)
Theorem lookup_frame u v h m others :
  Inv cmp h (m :: others) →
  cmp u v ≠ 0%Z →
  ∃ res h1 m1 h2 m2,
    find cmp u h m = Some res ∧
    insert cmp v h m = Some (h1, m1) ∧
    find cmp u h1 m1 = Some res ∧
    contains cmp u h1 m1 = contains cmp u h m ∧
    erase cmp v h m = Some (h2, m2) ∧
    find cmp u h2 m2 = Some res ∧
    contains cmp u h2 m2 = contains cmp u h m.
Proof.
  intros (a & bs & -> & -> & Hwf)%Inv_cons Hne.
  destruct (wf_head _ _ _ Hwf) as [Hrepr Hasc].
  destruct (insert_spec v h a bs Hwf) as (h1 & a1 & Hins & Hwf1 & Hvals1 & _).
  destruct (erase_spec v h a bs Hwf) as (h2 & a2 & Hers & Hwf2 & Hvals2).
  destruct (wf_head _ _ _ Hwf1) as [Hrepr1 Hasc1].
  destruct (wf_head _ _ _ Hwf2) as [Hrepr2 Hasc2].
  destruct (find_char u h a Hrepr Hasc) as (res & _ & Hf & _ & _ & _ & _).
  assert (∀ y, cmp u y = 0%Z → cmp v y ≠ 0%Z) as Hsep.
  { intros y Huy Hvy. apply Hne.
    apply (cmp_eq_trans u y v); [done|by apply cmp_eq_sym]. }
  assert (find cmp u h1 (root a1) = Some res) as Hf1.
  { apply (find_ext u h a h1 a1); try done. intros y Hy.
    rewrite Hvals1, seq_insert_elem_of_iff by done. split; [naive_solver|].
    intros [->|[? _]]; [|done]. by destruct (Hsep v Hy (cmp_refl v)). }
  assert (find cmp u h2 (root a2) = Some res) as Hf2.
  { apply (find_ext u h a h2 a2); try done. intros y Hy.
    rewrite Hvals2, seq_erase_elem_of. naive_solver. }
  exists res, h1, (root a1), h2, (root a2). unfold contains.
  rewrite Hf, Hf1, Hf2. split_and!; done.
Qed.

(** X9.  The result of [insert_pull(v, is_insert)], and so of [pull(v)],
    says whether an element compared equal to [v] when it was called: it
    is what [contains(v)] returned before. *)
Theorem pull_reports_membership v (is_insert : bool) h m others :
  Inv cmp h (m :: others) →
  ∃ (present : bool) h' m',
    contains cmp v h m = Some present ∧
    insert_pull cmp v is_insert h m = Some (h', m', present) ∧
    (is_insert = false → pull cmp v h m = Some (h', m', present)) ∧
    Inv cmp h' (m' :: others).
Proof.
  intros (a & bs & -> & -> & Hwf)%Inv_cons.
  destruct (wf_head _ _ _ Hwf) as [Hrepr Hasc].
  destruct (insert_pull_spec v is_insert h a bs Hwf)
    as (d & h' & m' & found & a' & _ & _ & Hpull & Hroot & Hwf' & _ & Hfound & _).
  destruct (find_spec v h a Hrepr Hasc) as (res & k & _ & _ & Hc & _).
  exists found, h', m'. split_and!; try done.
  - by rewrite Hc, Hfound.
  - by intros ->.
  - apply Inv_cons. by exists a', bs.
Qed.

(** ** The splay phase on a path of any length *)

Lemma repr_plug_inv h ctx : ∀ a,
  repr h (plug ctx a) → (∀ f, f ∈ ctx → rc_of h (f_node f) = 1) →
  path_ok h ctx (root a) ∧ repr h a.
Proof.
  induction ctx as [|f ctx IH]; intros a Hrepr Hrc; [done|].
  rewrite plug_cons in Hrepr.
  destruct (IH (plug_frame f a) Hrepr) as [Hpath Hfa].
  { intros f' Hf'. apply Hrc. apply elem_of_cons. by right. }
  rewrite root_plug_frame in Hpath.
  assert (rc_of h (f_node f) = 1) as Hrcf
    by (apply Hrc; apply elem_of_cons; by left).
  unfold plug_frame in Hfa. cbn [path_ok].
  destruct (f_right f); destruct Hfa as (Hs & Hl & Hr); split_and!; done.
Qed.

(** X10.  [splay_to_top(path, n)] on a path of any length: when the nodes
    of the path and [n] are unshared, it runs to the end, [n] is the root
    of the tree afterwards, the tree has the same nodes and the same
    in-order sequence of values as before, no counter has changed, and the
    nodes outside the tree are as they were. *)
Theorem splay_to_top_general h (ctx : list (frame T)) n A B x :
  repr h (plug ctx (ANode A n x B)) →
  (∀ f, f ∈ ctx → rc_of h (f_node f) = 1) →
  rc_of h n = 1 →
  NoDup (ptrs (plug ctx (ANode A n x B))) →
  ∃ h' t,
    splay_to_top (path_of ctx) n h = Some h' ∧
    repr h' t ∧
    root t = Some n ∧
    vals t = vals (plug ctx (ANode A n x B)) ∧
    ptrs t = ptrs (plug ctx (ANode A n x B)) ∧
    (∀ q, rc_of h' q = rc_of h q) ∧
    (∀ q, q ∉ ptrs (plug ctx (ANode A n x B)) → shape h' q = shape h q).
Proof.
  intros Hrepr Hrc Hn Hnd.
  destruct (repr_plug_inv h ctx _ Hrepr Hrc) as [Hpath (Hs & HA & HB)].
  destruct (splay_to_top_spec h ctx n A B x (Some n))
    as (h' & Hrun & Hrepr' & Hrc' & Hsame); try done.
  { rewrite ptrs_plug_perm in Hnd. simpl in Hnd.
    by rewrite <-app_assoc in Hnd. }
  exists h', (splay ctx A n x B). split_and!; try done.
  - apply splay_root.
  - apply splay_vals.
  - apply splay_ptrs.
  - intros q Hq. apply Hsame.
    + intros ->. apply Hq. rewrite ptrs_plug_perm. simpl.
      apply elem_of_app. left. apply elem_of_app. right.
      apply elem_of_cons. by left.
    + intros (f & -> & Hf)%list_elem_of_fmap. apply Hq.
      rewrite ptrs_plug_perm. apply elem_of_app. right.
      unfold ctx_ptrs. apply list_elem_of_bind. exists f. split; [|done].
      apply elem_of_cons. by left.
Qed.

(** ** What [check_invariant] checks *)

Lemma check_invariant_fuel_local h a :
  ∀ fuel, repr h a → height a ≤ fuel →
  locally_ordered cmp a ∧ check_invariant_fuel cmp fuel (root a) h = Some true ∨
  ¬ locally_ordered cmp a ∧ check_invariant_fuel cmp fuel (root a) h = None.
Proof.
  induction a as [|l IHl p v r IHr]; intros fuel Hrepr Hfuel.
  - left. split; [done|by destruct fuel].
  - destruct fuel as [|fuel]; [simpl in Hfuel; lia|].
    simpl in Hfuel. destruct Hrepr as (Hp & Hl & Hr).
    apply shape_Some in Hp as [k Hp].
    specialize (IHl fuel Hl ltac:(lia)). specialize (IHr fuel Hr ltac:(lia)).
    simpl check_invariant_fuel. rewrite Hp.
    cbn [m_left m_right m_value mbind option_bind].
    cbn [locally_ordered].
    assert (let P := locally_ordered cmp l ∧
                     match l with ALeaf => True | ANode _ _ y _ => lt cmp y v end in
            match root l with
            | Some l0 =>
              check_invariant_fuel cmp fuel (Some l0) h;;
              ln ← h !! l0;
              lean_assert (bool_decide (cmp (m_value ln) v < 0)%Z)
            | None => Some tt
            end = Some tt ∧ P ∨
            match root l with
            | Some l0 =>
              check_invariant_fuel cmp fuel (Some l0) h;;
              ln ← h !! l0;
              lean_assert (bool_decide (cmp (m_value ln) v < 0)%Z)
            | None => Some tt
            end = None ∧ ¬ P) as [[-> HP]|[-> HP]].
    { destruct l as [|ll lp lx lr]; [left; done|]. cbn [root] in *.
      destruct IHl as [[Hlo ->]|[Hlo ->]]; simpl.
      - destruct Hl as (Hlp & _). apply shape_Some in Hlp as [kl ->]. simpl.
        destruct (decide (cmp lx v < 0)%Z) as [Hlt|Hlt].
        + rewrite bool_decide_true by done. by left.
        + rewrite bool_decide_false by done. right. split; [done|].
          by intros [_ ?].
      - right. split; [done|]. by intros [? _]. }
    2:{ right. split; [|done]. intros (? & ? & ? & ?). by apply HP. }
    simpl.
    assert (let P := locally_ordered cmp r ∧
                     match r with ALeaf => True | ANode _ _ y _ => lt cmp v y end in
            match root r with
            | Some r0 =>
              check_invariant_fuel cmp fuel (Some r0) h;;
              rn ← h !! r0;
              lean_assert (bool_decide (cmp v (m_value rn) < 0)%Z)
            | None => Some tt
            end = Some tt ∧ P ∨
            match root r with
            | Some r0 =>
              check_invariant_fuel cmp fuel (Some r0) h;;
              rn ← h !! r0;
              lean_assert (bool_decide (cmp v (m_value rn) < 0)%Z)
            | None => Some tt
            end = None ∧ ¬ P) as [[-> HQ]|[-> HQ]].
    { destruct r as [|rl rp rx rr]; [left; done|]. cbn [root] in *.
      destruct IHr as [[Hro ->]|[Hro ->]]; simpl.
      - destruct Hr as (Hrp & _). apply shape_Some in Hrp as [kr ->]. simpl.
        destruct (decide (cmp v rx < 0)%Z) as [Hlt|Hlt].
        + rewrite bool_decide_true by done. by left.
        + rewrite bool_decide_false by done. right. split; [done|].
          by intros [_ ?].
      - right. split; [done|]. by intros [? _]. }
    2:{ right. split; [|done]. intros (? & ? & ? & ?). by apply HQ. }
    left. simpl. destruct HP, HQ. done.
Qed.

(** X11.  [check_invariant] passes exactly when, at every node of the tree,
    the value of the left child is below the value of the node and the
    value of the right child is above it; otherwise one of its assertions
    fails. *)
Theorem check_invariant_local h a :
  repr h a → NoDup (ptrs a) →
  (locally_ordered cmp a ↔ check_invariant cmp h (root a) = Some true) ∧
  (¬ locally_ordered cmp a ↔ check_invariant cmp h (root a) = None).
Proof.
  intros Hrepr Hnd.
  assert (height a ≤ size h) as Hfits.
  { etrans; [apply height_le_ptrs|]. apply NoDup_allocated_size; [done|].
    intros q Hq. by eapply repr_allocated. }
  unfold check_invariant.
  destruct (check_invariant_fuel_local h a (size h) Hrepr Hfits)
    as [[Hlo ->]|[Hlo ->]]; split; split; done.
Qed.

(** X12.  [check_invariant] looks at parent and child only, which is less
    than BST order: for values [x < y < z] there is a tree, with [y] at the
    root, [x] as its left child and [z] as the right child of [x], on which
    [check_invariant] passes although [to_buffer] yields [x, z, y], which
    is not ascending. *)
Theorem check_invariant_partial (x y z : T) :
  lt cmp x y → lt cmp y z →
  ∃ h m,
    check_invariant cmp h m = Some true ∧
    to_buffer h m = Some [x; z; y] ∧
    ¬ ascending cmp [x; z; y].
Proof.
  intros Hxy Hyz.
  assert (lt cmp x z) as Hxz by by apply (cmp_trans x y z).
  set (hh := <[1%positive := mk_node (Some 2%positive) None y 1]>
            (<[2%positive := mk_node None (Some 3%positive) x 1]>
               (<[3%positive := mk_node None None z 1]> (∅ : heap)))).
  assert (hh !! 1%positive = Some (mk_node (Some 2%positive) None y 1)) as H1
    by done.
  assert (hh !! 2%positive = Some (mk_node None (Some 3%positive) x 1)) as H2
    by done.
  assert (hh !! 3%positive = Some (mk_node None None z 1)) as H3 by done.
  assert (size hh = 3) as Hsize by done.
  clearbody hh.
  exists hh, (Some 1%positive). split_and!.
  - unfold check_invariant. rewrite Hsize.
    cbn [check_invariant_fuel]. rewrite H1. simpl. rewrite H2. simpl.
    rewrite H3. simpl.
    rewrite (bool_decide_true (cmp x z < 0)%Z) by done. simpl.
    by rewrite (bool_decide_true (cmp x y < 0)%Z) by done.
  - unfold to_buffer. rewrite Hsize.
    cbn [to_buffer_fuel]. rewrite H1. simpl. rewrite H2. simpl.
    rewrite H3. simpl. done.
  - intros Hasc. apply StronglySorted_inv in Hasc as [Hasc _].
    apply StronglySorted_inv in Hasc as [_ Hzy].
    apply Forall_cons in Hzy as [Hzy _]. unfold lt in *.
    pose proof (cmp_antisym (cmp := cmp) y z). lia.
Qed.

(** ** Handles: destruction, transfer and copy *)

(** X13.  The destructor gives up the reference of the handle: it runs to
    the end, the store stays well-formed for the handles that are left,
    they hold what they held, their nodes keep children and value, and no
    node is allocated. *)
Theorem destroy_frame h m others :
  Inv cmp h (m :: others) →
  ∃ h',
    destroy h m = Some h' ∧
    Inv cmp h' others ∧
    (∀ k, k ∈ others → to_buffer h' k = to_buffer h k) ∧
    (∀ k q, k ∈ others → reaches h k q → shape h' q = shape h q) ∧
    (∀ q, is_Some (h' !! q) → is_Some (h !! q)).
Proof.
  intros (a & bs & -> & -> & Hwf)%Inv_cons.
  destruct (release_spec h a bs Hwf) as (h' & Hdec & Hwf' & Hmono).
  exists h'. split_and!; try done.
  - by exists bs.
  - intros k Hk.
    by destruct (wf_frame h h' a ALeaf bs k Hwf (wf_add_leaf _ _ Hwf') Hk).
  - intros k q Hk.
    destruct (wf_frame h h' a ALeaf bs k Hwf (wf_add_leaf _ _ Hwf') Hk) as [_ Hs].
    apply Hs.
Qed.

(** X14.  [swap] and the move constructor change no node and no counter,
    and the counters stay right: after [swap] each handle holds what the
    other held; after a move the new handle holds what the source held and
    the source is empty. *)
Theorem handle_transfer h m t others :
  Inv cmp h (m :: t :: others) →
  Inv cmp h ((swap m t).1 :: (swap m t).2 :: others) ∧
  to_buffer h (swap m t).1 = to_buffer h t ∧
  to_buffer h (swap m t).2 = to_buffer h m ∧
  Inv cmp h ((move_from m).1 :: (move_from m).2 :: t :: others) ∧
  to_buffer h (move_from m).1 = to_buffer h m ∧
  to_buffer h (move_from m).2 = Some [] ∧
  empty (move_from m).2 = true.
Proof.
  intros (ts & Hroots & Hwf). destruct ts as [|a [|b bs]]; try done.
  simpl in Hroots. injection Hroots as -> -> ->. simpl.
  split_and!; try done.
  - exists (b :: a :: bs). split; [done|].
    eapply wf_perm; [|done]. apply Permutation_swap.
  - exists (a :: ALeaf :: b :: bs). split; [done|].
    eapply wf_perm; [|apply wf_add_leaf, Hwf]. apply Permutation_swap.
  - unfold to_buffer. by destruct (size h).
Qed.

(** X15.  The copy constructor is constant-time sharing: it adds one to the
    counter of the root and changes nothing else, no node is allocated,
    and the new handle points to the same node as the source
    ([is_eqp]). *)
Theorem copy_constant h m others :
  Inv cmp h (m :: others) →
  ∃ h' (b : option positive),
    copy m h = Some (h', b) ∧
    is_eqp b m = true ∧
    Inv cmp h' (b :: m :: others) ∧
    (∀ q, shape h' q = shape h q) ∧
    (∀ q, rc_of h' q = rc_of h q + if decide (m = Some q) then 1 else 0) ∧
    dom h' = dom h.
Proof.
  intros (a & bs & -> & -> & Hwf)%Inv_cons.
  destruct (wf_head _ _ _ Hwf) as [Hrepr Hasc].
  destruct (copy_spec h a (a :: bs) Hwf Hrepr Hasc)
    as (h' & Hcopy & Hwf' & Hs & Hrc).
  exists h', (root a). split_and!; try done.
  - unfold is_eqp. by apply bool_decide_eq_true.
  - by exists (a :: a :: bs).
  - by apply same_shapes_dom.
Qed.

(** X16.  After [insert] the root of the handle is a node of its own: its
    counter is one, and no other handle points to it ([is_eqp] is false
    against every other handle), also when the tree was shared before. *)
Theorem insert_unshares_root v h m others :
  Inv cmp h (m :: others) →
  ∃ h' n,
    insert cmp v h m = Some (h', Some n) ∧
    rc_of h' n = 1 ∧
    (∀ k, k ∈ others → is_eqp (Some n) k = false) ∧
    (∀ k q, k ∈ others → reaches h' k q → q ≠ n).
Proof.
  intros (a & bs & -> & -> & Hwf)%Inv_cons.
  destruct (insert_pull_spec v true h a bs Hwf)
    as (d & h' & m' & found & a' & Hloop & Hpost & Hpull & Hroot & Hwf' &
        _ & _ & _ & Hd).
  destruct d as [h1 m1|h1 m1 path n found'].
  { cbn [descent_post] in Hpost. by destruct Hpost as (_ & _ & _ & _ & ?). }
  destruct Hd as (_ & L & x & R & -> & Hrc & Hexcl & _).
  simpl in Hroot. subst m'.
  exists h', n. unfold insert. rewrite Hpull. simpl.
  assert (∀ k q, k ∈ root <$> bs → reaches h' k q → q ≠ n) as Hreach.
  { intros k q (b & -> & Hb)%list_elem_of_fmap Hq ->.
    destruct (wf_member h' _ b Hwf') as [Hrb Hab].
    { apply elem_of_cons. by right. }
    destruct (reaches_subtree h' b n Hrb Hab Hq) as (s & Hs & _ & _ & Hsub).
    apply (Hexcl b Hb). by apply Hsub, root_in_ptrs. }
  split_and!; try done.
  intros k Hk. unfold is_eqp. apply bool_decide_eq_false. intros <-.
  apply (Hreach (Some n) n Hk); [|done]. apply reaches_root.
  apply list_elem_of_fmap in Hk as (b & Hb' & Hb).
  destruct (wf_member h' _ b Hwf') as [Hrb _].
  { apply elem_of_cons. by right. }
  eapply repr_allocated; [done|]. by apply root_in_ptrs.
Qed.

(** ** Programs *)

Lemma seq_step_valid (o : op T) ts w ls :
  w_handles w = root <$> ts →
  seq_step cmp o (vals <$> ts) = Some ls → op_valid o w.
Proof.
  intros Hroots.
  assert (∀ i, is_Some ((vals <$> ts) !! i) → i < length (w_handles w)) as Hlt.
  { intros i [? Hi]. apply lookup_lt_Some in Hi.
    by rewrite Hroots, length_fmap, <-(length_fmap vals). }
  destruct o as [|i|i v|i v|i v|i v|i|i j]; simpl; try done;
    destruct ((vals <$> ts) !! i) eqn:Hi; try done; intros Hstep;
    try (apply Hlt; by rewrite Hi).
  split; [apply Hlt; by rewrite Hi|].
  simpl in Hstep. destruct ((vals <$> ts) !! j) eqn:Hj; [|done].
  apply Hlt. by rewrite Hj.
Qed.

Lemma run_spec (ops : list (op T)) : ∀ w ts ls,
  w_handles w = root <$> ts → wf cmp (w_heap w) ts →
  seq_run cmp ops (vals <$> ts) = Some ls →
  ∃ w' ts',
    run cmp ops w = Some w' ∧
    w_handles w' = root <$> ts' ∧
    wf cmp (w_heap w') ts' ∧
    ls = vals <$> ts'.
Proof.
  induction ops as [|o ops IH]; intros w ts ls Hroots Hwf; simpl.
  - intros [= <-]. by exists w, ts.
  - destruct (seq_step cmp o (vals <$> ts)) as [ls1|] eqn:Hseq; [|done]. simpl.
    intros Hrun.
    destruct (step_spec o w ts Hroots Hwf (seq_step_valid o ts w ls1 Hroots Hseq))
      as (w1 & ts1 & Hstep & Hroots1 & Hwf1 & Hseq1 & _).
    rewrite Hseq in Hseq1. injection Hseq1 as ->.
    rewrite Hstep. simpl. by apply (IH w1 ts1 ls).
Qed.

Lemma run_abort (ops : list (op T)) : ∀ w ts,
  w_handles w = root <$> ts → wf cmp (w_heap w) ts →
  seq_run cmp ops (vals <$> ts) = None → run cmp ops w = None.
Proof.
  induction ops as [|o ops IH]; intros w ts Hroots Hwf; simpl; [done|].
  destruct (step cmp o w) as [w1|] eqn:Hstep; [|done]. simpl.
  destruct (step_spec o w ts Hroots Hwf (step_valid _ _ _ Hstep))
    as (w1' & ts1 & Hstep' & Hroots1 & Hwf1 & Hseq1 & _).
  rewrite Hstep in Hstep'. injection Hstep' as <-.
  rewrite Hseq1. simpl. by apply IH.
Qed.

Lemma contents_trees w ts :
  w_handles w = root <$> ts → wf cmp (w_heap w) ts →
  contents w = Some <$> (vals <$> ts).
Proof.
  intros Hroots Hwf. unfold contents. rewrite Hroots, <-!list_fmap_compose.
  apply list_fmap_ext. intros i t Ht. simpl.
  destruct (wf_member _ ts t Hwf) as [Hrepr Hasc];
    [by eapply list_elem_of_lookup_2|].
  by apply to_buffer_ok.
Qed.

(** X17.  A program of constructor calls, copies, [insert], [erase],
    [find], [find_memoize], [clear] and [swap], started without handles,
    does to the elements what the same program does on plain ascending
    sequences: when the program on sequences ends with [ls], the program
    on the store runs to the end and [to_buffer] reads [ls] from the
    handles; the program on the store aborts only where the program on
    sequences names a handle that does not exist. *)
Theorem run_refines (ops : list (op T)) :
  (∀ ls, seq_run cmp ops [] = Some ls →
     ∃ w, run cmp ops empty_world = Some w ∧
          contents w = Some <$> ls ∧
          Inv cmp (w_heap w) (w_handles w)) ∧
  (seq_run cmp ops [] = None → run cmp ops empty_world = None).
Proof.
  assert (wf cmp (w_heap (empty_world (T := T))) []) as Hwf0.
  { destruct (empty_Inv (cmp := cmp)) as (ts & Hroots & Hwf).
    destruct ts; [done|discriminate]. }
  split.
  - intros ls Hseq.
    destruct (run_spec ops empty_world [] ls eq_refl Hwf0 Hseq)
      as (w & ts & Hrun & Hroots & Hwf & ->).
    exists w. split_and!; [done|by apply contents_trees|by exists ts].
  - by apply (run_abort ops empty_world []).
Qed.

(** ** The greatest element *)

(** X21.  [pull_max] brings the greatest element to the root: it runs to
    the end and keeps the store well-formed, the handle and every other
    handle hold the elements they held, and afterwards the root is
    unshared, has no right child and holds the last element of the
    sequence.  On an empty handle it does nothing. *)
Theorem pull_max_greatest h m others :
  Inv cmp h (m :: others) →
  ∃ xs h' m',
    to_buffer h m = Some xs ∧
    pull_max cmp h m = Some (h', m') ∧
    Inv cmp h' (m' :: others) ∧
    to_buffer h' m' = Some xs ∧
    (∀ k, k ∈ others → to_buffer h' k = to_buffer h k) ∧
    match m' with
    | None => xs = [] ∧ h' = h
    | Some n =>
      ∃ nd, h' !! n = Some nd ∧ m_right nd = None ∧ m_rc nd = 1 ∧
            last xs = Some (m_value nd)
    end.
Proof.
  intros (a & bs & -> & -> & Hwf)%Inv_cons.
  destruct (wf_read h a bs Hwf) as (Hbuf & Hasc & _).
  destruct (pull_max_spec h a bs Hwf)
    as (h' & a' & Hpm & Hwf' & Hvals & _ & Hleaf & Hnode).
  destruct (wf_read h' a' bs Hwf') as (Hbuf' & _ & _).
  exists (vals a), h', (root a'). split_and!; try done.
  - apply Inv_cons. by exists a', bs.
  - by rewrite Hbuf', Hvals.
  - intros k Hk. by apply (wf_frame h h' a a' bs k).
  - destruct a as [|l p x r].
    + by destruct Hleaf as [-> ->].
    + destruct Hnode as (L & n & y & -> & Hrc & _); [done|].
      destruct (wf_head _ _ _ Hwf') as [(Hn & _ & _) _].
      exists (mk_node (root L) None y 1).
      split_and!; [by apply lookup_shape_rc|done..|].
      rewrite <-Hvals. simpl. by rewrite last_snoc.
Qed.

End methods.

(** * Instances of the further properties *)

Lemma head_elem_of {X} (y : X) (ys : list X) : y ∈ y :: ys.
Proof. apply elem_of_cons. by left. Qed.

Lemma traversals_in_order_witness :
  Inv int_cmp (w_heap scenario_123) [Some 3%positive] ∧
  Some 3%positive ∈ [Some 3%positive] ∧
  fold (w_heap scenario_123) (Some 3%positive) Z.add 0%Z = Some 6%Z ∧
  for_each (w_heap scenario_123) (Some 3%positive) (λ y s, y :: s) [] =
    Some [3%Z; 2%Z; 1%Z] ∧
  to_buffer_fuel (size (w_heap scenario_123)) (Some 3%positive)
    (w_heap scenario_123) [9%Z] = Some [9%Z; 1%Z; 2%Z; 3%Z].
Proof.
  refine (conj (world_of_Inv _) (conj (head_elem_of _ _) _)).
  destruct (traversals_in_order (cmp := int_cmp) (w_heap scenario_123)
              [Some 3%positive] (Some 3%positive)
              (world_of_Inv _) (head_elem_of _ _))
    as (xs & Hb & _ & Hfold & Heach & Hbuf).
  injection Hb as <-.
  exact (conj (Hfold Z Z.add 0%Z) (conj (Heach (list Z) (λ y s, y :: s) [])
                                      (Hbuf [9%Z]))).
Defined.

Lemma size_and_empty_witness :
  Inv int_cmp (w_heap scenario_123) [Some 3%positive] ∧
  Some 3%positive ∈ [Some 3%positive] ∧
  tree_size (w_heap scenario_123) (Some 3%positive) = Some 3%Z.
Proof.
  refine (conj (world_of_Inv _) (conj (head_elem_of _ _) _)).
  destruct (size_and_empty (cmp := int_cmp) (w_heap scenario_123)
              [Some 3%positive] (Some 3%positive)
              (world_of_Inv _) (head_elem_of _ _))
    as (xs & Hb & Hsize & _).
  injection Hb as <-. exact Hsize.
Defined.

Lemma size_after_update_witness :
  Inv int_cmp (w_heap scenario_12) [Some 2%positive] ∧
  ∃ h1 m1 h2 m2,
    insert int_cmp 5%Z (w_heap scenario_12) (Some 2%positive) = Some (h1, m1) ∧
    erase int_cmp 5%Z (w_heap scenario_12) (Some 2%positive) = Some (h2, m2) ∧
    tree_size h1 m1 = Some 3%Z ∧
    tree_size h2 m2 = Some 2%Z.
Proof.
  refine (conj (world_of_Inv _) _).
  destruct (size_after_update (cmp := int_cmp) 5%Z (w_heap scenario_12)
              (Some 2%positive) [] (world_of_Inv _))
    as (xs & present & h1 & m1 & h2 & m2 & Hb & Hc & Hi & He & Hs1 & Hs2 & _).
  injection Hb as <-. injection Hc as <-.
  exists h1, m1, h2, m2. exact (conj Hi (conj He (conj Hs1 Hs2))).
Defined.

Lemma find_correct_witness :
  Inv int_cmp (w_heap scenario_123) [Some 3%positive] ∧
  Some 3%positive ∈ [Some 3%positive] ∧
  ∃ res k,
    find int_cmp 2%Z (w_heap scenario_123) (Some 3%positive) = Some res ∧
    find_cost int_cmp 2%Z (w_heap scenario_123) (Some 3%positive) = Some k ∧
    k ≤ 3 ∧
    (∀ y, res = Some y ↔ y ∈ [1%Z; 2%Z; 3%Z] ∧ int_cmp 2%Z y = 0%Z).
Proof.
  refine (conj (world_of_Inv _) (conj (head_elem_of _ _) _)).
  destruct (find_correct (cmp := int_cmp) 2%Z (w_heap scenario_123)
              [Some 3%positive] (Some 3%positive)
              (world_of_Inv _) (head_elem_of _ _))
    as (xs & res & k & Hb & Hf & Hk & Hle & _ & Hchar & _).
  injection Hb as <-.
  exists res, k. exact (conj Hf (conj Hk (conj Hle Hchar))).
Defined.

Lemma find_memoize_agrees_witness :
  Inv int_cmp (w_heap scenario_123) [Some 3%positive] ∧
  ∃ res h' m',
    find int_cmp 1%Z (w_heap scenario_123) (Some 3%positive) = Some res ∧
    find_memoize int_cmp 1%Z (w_heap scenario_123) (Some 3%positive) =
      Some (h', m', res) ∧
    find int_cmp 1%Z h' m' = Some res.
Proof.
  refine (conj (world_of_Inv _) _).
  exact (find_memoize_agrees (cmp := int_cmp) 1%Z (w_heap scenario_123)
           (Some 3%positive) [] (world_of_Inv _)).
Defined.

Lemma insert_erase_cancel_witness :
  Inv int_cmp (w_heap scenario_12) [Some 2%positive] ∧
  ∃ h1 m1 h2 m2,
    insert int_cmp 7%Z (w_heap scenario_12) (Some 2%positive) = Some (h1, m1) ∧
    erase int_cmp 7%Z h1 m1 = Some (h2, m2) ∧
    to_buffer h2 m2 = Some [1%Z; 2%Z].
Proof.
  refine (conj (world_of_Inv _) _).
  destruct (insert_erase_cancel (cmp := int_cmp) 7%Z (w_heap scenario_12)
              (Some 2%positive) [] (world_of_Inv _))
    as (xs & h1 & m1 & h2 & m2 & _ & _ & _ & _ & Hb & Hi & He & Hb2 & _).
  injection Hb as <-.
  exists h1, m1, h2, m2. exact (conj Hi (conj He Hb2)).
Defined.

Lemma update_commute_witness :
  Inv int_cmp (w_heap scenario_123) [Some 3%positive] ∧
  int_cmp 2%Z 5%Z ≠ 0%Z ∧
  ∃ h1 m1 h2 m2 h1' m1' h2' m2' xs,
    insert int_cmp 5%Z (w_heap scenario_123) (Some 3%positive) = Some (h1, m1) ∧
    erase int_cmp 2%Z h1 m1 = Some (h2, m2) ∧
    erase int_cmp 2%Z (w_heap scenario_123) (Some 3%positive) = Some (h1', m1') ∧
    insert int_cmp 5%Z h1' m1' = Some (h2', m2') ∧
    to_buffer h2 m2 = Some xs ∧ to_buffer h2' m2' = Some xs.
Proof.
  assert (int_cmp 2%Z 5%Z ≠ 0%Z) as Hne by (vm_compute; discriminate).
  refine (conj (world_of_Inv _) (conj Hne _)).
  destruct (update_commute (cmp := int_cmp) 2%Z 5%Z (w_heap scenario_123)
              (Some 3%positive) [] (world_of_Inv _)) as (Hcomm & _).
  exact (Hcomm Hne).
Defined.

Lemma lookup_frame_witness :
  Inv int_cmp (w_heap scenario_123) [Some 3%positive] ∧
  int_cmp 2%Z 3%Z ≠ 0%Z ∧
  ∃ res h1 m1 h2 m2,
    find int_cmp 2%Z (w_heap scenario_123) (Some 3%positive) = Some res ∧
    insert int_cmp 3%Z (w_heap scenario_123) (Some 3%positive) = Some (h1, m1) ∧
    find int_cmp 2%Z h1 m1 = Some res ∧
    erase int_cmp 3%Z (w_heap scenario_123) (Some 3%positive) = Some (h2, m2) ∧
    find int_cmp 2%Z h2 m2 = Some res.
Proof.
  assert (int_cmp 2%Z 3%Z ≠ 0%Z) as Hne by (vm_compute; discriminate).
  refine (conj (world_of_Inv _) (conj Hne _)).
  destruct (lookup_frame (cmp := int_cmp) 2%Z 3%Z (w_heap scenario_123)
              (Some 3%positive) [] (world_of_Inv _) Hne)
    as (res & h1 & m1 & h2 & m2 & Hf & Hi & Hf1 & _ & He & Hf2 & _).
  exists res, h1, m1, h2, m2.
  exact (conj Hf (conj Hi (conj Hf1 (conj He Hf2)))).
Defined.

Lemma pull_reports_membership_witness :
  Inv int_cmp (w_heap scenario_123) [Some 3%positive] ∧
  (∃ h' m', pull int_cmp 2%Z (w_heap scenario_123) (Some 3%positive) =
              Some (h', m', true)) ∧
  (∃ h' m', insert_pull int_cmp 7%Z true (w_heap scenario_123) (Some 3%positive) =
              Some (h', m', false)).
Proof.
  refine (conj (world_of_Inv _) (conj _ _)).
  - destruct (pull_reports_membership (cmp := int_cmp) 2%Z false
                (w_heap scenario_123) (Some 3%positive) [] (world_of_Inv _))
      as (present & h' & m' & Hc & _ & Hp & _).
    injection Hc as <-. exists h', m'. exact (Hp eq_refl).
  - destruct (pull_reports_membership (cmp := int_cmp) 7%Z true
                (w_heap scenario_123) (Some 3%positive) [] (world_of_Inv _))
      as (present & h' & m' & Hc & Hp & _).
    injection Hc as <-. exists h', m'. exact Hp.
Defined.

Lemma splay_to_top_general_witness :
  let ctx := [mk_frame false 2%positive 2%Z ALeaf;
              mk_frame false 3%positive 3%Z ALeaf;
              mk_frame false 4%positive 4%Z ALeaf] in
  let t := plug ctx (ANode ALeaf 1%positive 1%Z ALeaf) in
  repr (w_heap scenario_1234) t ∧
  (∀ f, f ∈ ctx → rc_of (w_heap scenario_1234) (f_node f) = 1) ∧
  rc_of (w_heap scenario_1234) 1%positive = 1 ∧
  NoDup (ptrs t) ∧
  ∃ h' t',
    splay_to_top (path_of ctx) 1%positive (w_heap scenario_1234) = Some h' ∧
    repr h' t' ∧ root t' = Some 1%positive ∧
    vals t' = [1%Z; 2%Z; 3%Z; 4%Z].
Proof.
  intros ctx t.
  assert (repr (w_heap scenario_1234) t) as Hrepr
    by (unfold t, ctx; simpl; repeat split; reflexivity).
  assert (∀ f, f ∈ ctx → rc_of (w_heap scenario_1234) (f_node f) = 1) as Hrc.
  { intros f Hf. unfold ctx in Hf.
    apply elem_of_cons in Hf as [->|Hf]; [reflexivity|].
    apply elem_of_cons in Hf as [->|Hf]; [reflexivity|].
    apply elem_of_cons in Hf as [->|Hf]; [reflexivity|].
    by apply elem_of_nil in Hf. }
  assert (NoDup (ptrs t)) as Hnd
    by (apply (bool_decide_unpack _); by vm_compute).
  refine (conj Hrepr (conj Hrc (conj eq_refl (conj Hnd _)))).
  destruct (splay_to_top_general (w_heap scenario_1234) ctx 1%positive
              ALeaf ALeaf 1%Z Hrepr Hrc eq_refl Hnd)
    as (h' & t' & Hrun & Hrepr' & Hroot & Hvals & _).
  exists h', t'. exact (conj Hrun (conj Hrepr' (conj Hroot Hvals))).
Defined.

Lemma check_invariant_local_witness :
  let t := ANode (ANode (ANode ALeaf 1%positive 1%Z ALeaf) 2%positive 2%Z ALeaf)
             3%positive 3%Z ALeaf in
  repr (w_heap scenario_123) t ∧ NoDup (ptrs t) ∧
  (locally_ordered int_cmp t ↔
   check_invariant int_cmp (w_heap scenario_123) (Some 3%positive) = Some true).
Proof.
  intros t.
  assert (repr (w_heap scenario_123) t) as Hrepr
    by (unfold t; simpl; repeat split; reflexivity).
  assert (NoDup (ptrs t)) as Hnd
    by (apply (bool_decide_unpack _); by vm_compute).
  refine (conj Hrepr (conj Hnd _)).
  exact (proj1 (check_invariant_local (cmp := int_cmp) (w_heap scenario_123) t
                  Hrepr Hnd)).
Defined.

Lemma check_invariant_partial_witness :
  lt int_cmp 1%Z 2%Z ∧ lt int_cmp 2%Z 3%Z ∧
  ∃ h m,
    check_invariant int_cmp h m = Some true ∧
    to_buffer h m = Some [1%Z; 3%Z; 2%Z] ∧
    ¬ ascending int_cmp [1%Z; 3%Z; 2%Z].
Proof.
  assert (lt int_cmp 1%Z 2%Z) as H12 by reflexivity.
  assert (lt int_cmp 2%Z 3%Z) as H23 by reflexivity.
  refine (conj H12 (conj H23 _)).
  exact (check_invariant_partial (cmp := int_cmp) 1%Z 2%Z 3%Z H12 H23).
Defined.

Lemma destroy_frame_witness :
  Inv int_cmp (w_heap scenario_shared) [Some 3%positive; Some 3%positive] ∧
  ∃ h',
    destroy (w_heap scenario_shared) (Some 3%positive) = Some h' ∧
    Inv int_cmp h' [Some 3%positive] ∧
    to_buffer h' (Some 3%positive) = Some [1%Z; 2%Z; 3%Z].
Proof.
  refine (conj (world_of_Inv _) _).
  destruct (destroy_frame (cmp := int_cmp) (w_heap scenario_shared)
              (Some 3%positive) [Some 3%positive] (world_of_Inv _))
    as (h' & Hd & HInv & Hbuf & _).
  exists h'. refine (conj Hd (conj HInv _)).
  exact (Hbuf (Some 3%positive) (head_elem_of _ _)).
Defined.

Lemma handle_transfer_witness :
  let w := world_of [op_new; op_insert 0 1%Z; op_new; op_insert 1 2%Z] in
  Inv int_cmp (w_heap w) [Some 1%positive; Some 2%positive] ∧
  to_buffer (w_heap w) (swap (Some 1%positive) (Some 2%positive)).1 = Some [2%Z] ∧
  to_buffer (w_heap w) (swap (Some 1%positive) (Some 2%positive)).2 = Some [1%Z] ∧
  Inv int_cmp (w_heap w) [Some 1%positive; None; Some 2%positive].
Proof.
  intros w.
  refine (conj (world_of_Inv _) _).
  destruct (handle_transfer (cmp := int_cmp) (w_heap w) (Some 1%positive)
              (Some 2%positive) [] (world_of_Inv _))
    as (_ & H1 & H2 & H3 & _).
  exact (conj H1 (conj H2 H3)).
Defined.

Lemma copy_constant_witness :
  Inv int_cmp (w_heap scenario_123) [Some 3%positive] ∧
  ∃ h' b,
    copy (Some 3%positive) (w_heap scenario_123) = Some (h', b) ∧
    is_eqp b (Some 3%positive) = true ∧
    rc_of h' 3%positive = 2 ∧
    dom h' = dom (w_heap scenario_123).
Proof.
  refine (conj (world_of_Inv _) _).
  destruct (copy_constant (cmp := int_cmp) (w_heap scenario_123)
              (Some 3%positive) [] (world_of_Inv _))
    as (h' & b & Hc & He & _ & _ & Hrc & Hdom).
  exists h', b. exact (conj Hc (conj He (conj (Hrc 3%positive) Hdom))).
Defined.

Lemma insert_unshares_root_witness :
  Inv int_cmp (w_heap scenario_shared) [Some 3%positive; Some 3%positive] ∧
  ∃ h' n,
    insert int_cmp 3%Z (w_heap scenario_shared) (Some 3%positive) =
      Some (h', Some n) ∧
    rc_of h' n = 1 ∧
    is_eqp (Some n) (Some 3%positive) = false.
Proof.
  refine (conj (world_of_Inv _) _).
  destruct (insert_unshares_root (cmp := int_cmp) 3%Z (w_heap scenario_shared)
              (Some 3%positive) [Some 3%positive] (world_of_Inv _))
    as (h' & n & Hi & Hrc & He & _).
  exists h', n.
  exact (conj Hi (conj Hrc (He (Some 3%positive) (head_elem_of _ _)))).
Defined.

Lemma run_refines_witness :
  let ops := [op_new; op_insert 0 3%Z; op_insert 0 1%Z; op_copy 0;
              op_erase 0 3%Z] in
  seq_run int_cmp ops [] = Some [[1%Z]; [1%Z; 3%Z]] ∧
  ∃ w, run int_cmp ops empty_world = Some w ∧
       contents w = [Some [1%Z]; Some [1%Z; 3%Z]].
Proof.
  intros ops. refine (conj eq_refl _).
  destruct (run_refines (cmp := int_cmp) ops) as [Hrun _].
  destruct (Hrun [[1%Z]; [1%Z; 3%Z]] eq_refl) as (w & Hw & Hc & _).
  exists w. exact (conj Hw Hc).
Defined.

(** * No node is leaked *)

Section leaks.
Context {T : Type} {cmp : T → T → Z} `{!Comparator cmp}.

Local Abbreviation heap := (gmap positive (node T)).
Implicit Types (h : heap) (p q n : positive) (m : option positive).
Implicit Types (a b l r A B : atree T) (bs ts : list (atree T)) (v x : T).
Implicit Types (others roots : list (option positive)) (w : world T).
Implicit Types (xs ys : list T) (ctx : list (frame T)).

(** ** Which nodes a primitive leaves allocated *)

Lemma node_inc_ref_dom p h h' q :
  node_inc_ref p h = Some h' → is_Some (h' !! q) → is_Some (h !! q).
Proof.
  unfold node_inc_ref. destruct (h !! p) as [nd|] eqn:Hp; [|done]. simpl.
  intros [= <-]. rewrite lookup_insert. case_decide; [|done]. subst. eauto.
Qed.

Lemma inc_ref_dom (o : option positive) h h' q :
  inc_ref o h = Some h' → is_Some (h' !! q) → is_Some (h !! q).
Proof.
  destruct o as [p|]; simpl; [apply node_inc_ref_dom|]. by intros [= <-].
Qed.

Lemma store_dom p (f : node T → node T) h h' q :
  store p f h = Some h' → is_Some (h' !! q) → is_Some (h !! q).
Proof.
  unfold store. destruct (h !! p) as [nd|] eqn:Hp; [|done]. simpl.
  destruct (is_shared nd); [done|]. simpl.
  intros [= <-]. rewrite lookup_insert. case_decide; [|done]. subst. eauto.
Qed.

Lemma dec_ref_fuel_dom fuel : ∀ (o : option positive) h h' q,
  dec_ref_fuel fuel o h = Some h' → is_Some (h' !! q) → is_Some (h !! q).
Proof.
  induction fuel as [|fuel IH]; intros o h h' q.
  - destruct o as [p|]; simpl; [|by intros [= <-]].
    destruct (h !! p) as [nd|] eqn:Hp; [|done]. simpl.
    destruct (bool_decide (0 < m_rc nd)); [|done]. simpl.
    case_bool_decide; [done|].
    intros [= <-]. rewrite lookup_insert. case_decide; [|done]. subst. eauto.
  - destruct o as [p|]; simpl; [|by intros [= <-]].
    destruct (h !! p) as [nd|] eqn:Hp; [|done]. simpl.
    destruct (bool_decide (0 < m_rc nd)); [|done]. simpl.
    case_bool_decide.
    + destruct (dec_ref_fuel fuel (m_left nd) _) as [h1|] eqn:H1; [|done]. simpl.
      destruct (dec_ref_fuel fuel (m_right nd) _) as [h2|] eqn:H2; [|done]. simpl.
      intros [= <-] Hq.
      destruct (decide (p = q)) as [->|Hne]; [eauto|].
      rewrite lookup_delete_ne in Hq by done.
      apply (IH _ _ _ q H2), (IH _ _ _ q H1) in Hq.
      by rewrite lookup_insert_ne in Hq.
    + intros [= <-]. rewrite lookup_insert. case_decide; [|done]. subst. eauto.
Qed.

Lemma dec_ref_dom (o : option positive) h h' q :
  dec_ref o h = Some h' → is_Some (h' !! q) → is_Some (h !! q).
Proof. apply dec_ref_fuel_dom. Qed.

Lemma new_node_dom (v : T) (sl sr : option positive) h h' p q :
  new_node v sl sr h = Some (h', p) →
  p = fresh (dom h) ∧ (is_Some (h' !! q) → q = p ∨ is_Some (h !! q)).
Proof.
  unfold new_node.
  destruct (inc_ref sl _) as [h1|] eqn:H1; [|done]. simpl.
  destruct (inc_ref sr h1) as [h2|] eqn:H2; [|done]. simpl.
  intros [= <- <-]. split; [done|]. intros Hq.
  apply (inc_ref_dom _ _ _ q H2), (inc_ref_dom _ _ _ q H1) in Hq.
  rewrite lookup_insert in Hq. case_decide; [by left|by right].
Qed.

Lemma update_parent_dom (path : list entry) child h m h' m' q :
  update_parent path child h m = Some (h', m') →
  is_Some (h' !! q) → is_Some (h !! q).
Proof.
  unfold update_parent. destruct path as [|last path].
  - destruct (node_inc_ref child h) as [h1|] eqn:H1; [|done]. simpl.
    destruct (dec_ref m h1) as [h2|] eqn:H2; [|done]. simpl.
    intros [= <- <-] Hq.
    by apply (dec_ref_dom _ _ _ q H2), (node_inc_ref_dom _ _ _ q H1) in Hq.
  - destruct (node_inc_ref child h) as [h1|] eqn:H1; [|done]. simpl.
    destruct (h1 !! entry_node last) as [pn|] eqn:Hp; [|done]. simpl.
    destruct (is_shared pn); [done|]. simpl.
    destruct (entry_right last).
    + destruct (dec_ref (m_right pn) h1) as [h2|] eqn:H2; [|done]. simpl.
      destruct (store _ _ h2) as [h3|] eqn:H3; [|done]. simpl.
      intros [= <- <-] Hq.
      by apply (store_dom _ _ _ _ q H3), (dec_ref_dom _ _ _ q H2),
        (node_inc_ref_dom _ _ _ q H1) in Hq.
    + destruct (dec_ref (m_left pn) h1) as [h2|] eqn:H2; [|done]. simpl.
      destruct (store _ _ h2) as [h3|] eqn:H3; [|done]. simpl.
      intros [= <- <-] Hq.
      by apply (store_dom _ _ _ _ q H3), (dec_ref_dom _ _ _ q H2),
        (node_inc_ref_dom _ _ _ q H1) in Hq.
Qed.

Lemma unshare_dom (path : list entry) n0 h m h' m' n q :
  unshare path n0 h m = Some (h', m', n) →
  is_Some (h' !! q) → q = n ∨ is_Some (h !! q).
Proof.
  unfold unshare. destruct (h !! n0) as [nd|] eqn:Hn; [|done]. simpl.
  destruct (is_shared nd).
  - unfold copy_node. rewrite Hn. simpl.
    destruct (new_node _ _ _ h) as [[h1 n1]|] eqn:H1; [|done]. simpl.
    destruct (update_parent path n1 h1 m) as [[h2 m2]|] eqn:H2; [|done]. simpl.
    intros [= <- <- <-] Hq.
    apply (update_parent_dom _ _ _ _ _ _ q H2) in Hq.
    by apply (new_node_dom _ _ _ _ _ _ q H1) in Hq.
  - intros [= <- <- <-] Hq. by right.
Qed.

(** ** A shared node is held from outside the tree *)

Lemma heap_refs_empty p : heap_refs (∅ : heap) p = 0.
Proof.
  unfold heap_refs, slot_refs, links. by rewrite fmap_empty, map_fold_empty.
Qed.

Lemma heap_refs_pos h p :
  1 ≤ heap_refs h p →
  ∃ y nd, h !! y = Some nd ∧ 1 ≤ slot_count (m_left nd, m_right nd) p.
Proof.
  induction h as [|y nd h Hy IH] using map_ind.
  - rewrite heap_refs_empty. lia.
  - rewrite heap_refs_insert_fresh by done. intros Hge.
    destruct (decide (1 ≤ slot_count (m_left nd, m_right nd) p)) as [Hsc|Hsc].
    + exists y, nd. by rewrite lookup_insert_eq.
    + destruct IH as (y' & nd' & Hy' & Hsc'); [lia|].
      exists y', nd'. split; [|done].
      rewrite lookup_insert_ne; [done|]. intros ->. congruence.
Qed.

Lemma outside_referent (L : list positive) : ∀ h p,
  NoDup L → (∀ q, q ∈ L → is_Some (h !! q)) →
  sum_links h L p < heap_refs h p →
  ∃ y nd, h !! y = Some nd ∧ y ∉ L ∧
          1 ≤ slot_count (m_left nd, m_right nd) p.
Proof.
  induction L as [|q L IH]; intros h p Hnd Halloc Hlt.
  - destruct (heap_refs_pos h p) as (y & nd & Hy & Hsc); [lia|].
    exists y, nd. split_and!; [done| |done]. apply not_elem_of_nil.
  - apply NoDup_cons in Hnd as [Hq Hnd].
    destruct (Halloc q) as [nd Hnq]; [apply elem_of_cons; by left|].
    rewrite sum_links_cons, (sum_links_lookup h q nd p Hnq) in Hlt.
    rewrite (heap_refs_delete h q nd p Hnq) in Hlt.
    assert (sum_links (delete q h) L p = sum_links h L p) as Hsum.
    { apply sum_links_same. intros y Hy. apply shape_delete_ne.
      intros ->. done. }
    destruct (IH (delete q h) p Hnd) as (y & ndy & Hy & HyL & Hsc).
    { intros y Hy. rewrite lookup_delete_ne by (intros ->; done).
      apply Halloc. apply elem_of_cons. by right. }
    { lia. }
    assert (y ≠ q) as Hne by (intros ->; by rewrite lookup_delete_eq in Hy).
    rewrite lookup_delete_ne in Hy by done.
    exists y, ndy. split_and!; [done| |done].
    intros [?|?]%elem_of_cons; done.
Qed.

Lemma occurrences_NoDup (L : list positive) p :
  NoDup L → p ∈ L → occurrences L p = 1.
Proof.
  induction 1 as [|q L Hq Hnd IH]; intros Hp.
  - by apply elem_of_nil in Hp.
  - change (occurrences (q :: L) p)
      with ((if decide (q = p) then 1 else 0) + occurrences L p).
    apply elem_of_cons in Hp as [->|Hp].
    + rewrite decide_True by done.
      assert (occurrences L q = 0) as ->; [|done].
      clear IH Hnd. induction L as [|y L IH]; [done|].
      change (occurrences (y :: L) q)
        with ((if decide (y = q) then 1 else 0) + occurrences L q).
      rewrite decide_False, IH; [done| |].
      * intros HqL. apply Hq. apply elem_of_cons. by right.
      * intros ->. apply Hq. apply elem_of_cons. by left.
    + rewrite decide_False, IH; [done..|]. intros ->. done.
Qed.

Lemma root_refs_pos roots p : 1 ≤ root_refs roots p → Some p ∈ roots.
Proof.
  induction roots as [|r roots IH]; simpl; [lia|].
  case_decide as Hr.
  - intros _. subst. apply elem_of_cons. by left.
  - intros Hge. apply elem_of_cons. right. apply IH. lia.
Qed.

Lemma child_in_ptrs h b y (nd : node T) q :
  repr h b → y ∈ ptrs b → h !! y = Some nd →
  1 ≤ slot_count (m_left nd, m_right nd) q → q ∈ ptrs b.
Proof.
  induction b as [|l IHl p v r IHr]; simpl.
  - intros _ Hy. by apply elem_of_nil in Hy.
  - intros (Hp & Hl & Hr) Hy Hnd Hsc.
    apply elem_of_app in Hy as [Hy|[->|Hy]%elem_of_cons].
    + apply elem_of_app. left. by apply IHl.
    + rewrite (shape_lookup _ _ _ Hnd) in Hp. injection Hp as Hl' Hr' _.
      rewrite slot_count_pair, Hl', Hr' in Hsc.
      destruct (decide (root l = Some q)) as [Hlq|Hlq].
      * apply elem_of_app. left. by apply root_in_ptrs.
      * destruct (decide (root r = Some q)) as [Hrq|Hrq]; [|lia].
        apply elem_of_app. right. apply elem_of_cons. right.
        by apply root_in_ptrs.
    + apply elem_of_app. right. apply elem_of_cons. right. by apply IHr.
Qed.

(** A node of a tree whose counter exceeds one belongs to the tree of
    another handle, when no node is garbage. *)
Lemma shared_in_other h t bs q :
  counted h (root t :: (root <$> bs)) →
  repr h t → NoDup (ptrs t) → Forall (repr h) bs →
  tight h (t :: bs) →
  q ∈ ptrs t → 1 < rc_of h q →
  ∃ b, b ∈ bs ∧ q ∈ ptrs b.
Proof.
  intros Hcnt Hrepr Hnd Hbs Htight Hq Hrc.
  specialize (Hcnt q). unfold refs in Hcnt. cbn [root_refs] in Hcnt.
  pose proof (repr_links_sum h t q Hrepr) as Hsum.
  rewrite (occurrences_NoDup _ _ Hnd Hq) in Hsum.
  destruct (decide (1 ≤ root_refs (root <$> bs) q)) as [Hroot|Hroot].
  - apply root_refs_pos, list_elem_of_fmap in Hroot as (b & Hb & Hin).
    exists b. split; [done|]. by apply root_in_ptrs.
  - destruct (outside_referent (ptrs t) h q Hnd) as (y & nd & Hy & HyL & Hsc).
    { intros y Hy. by eapply repr_allocated. }
    { lia. }
    destruct (Htight y) as (b & Hb & Hyb); [eauto|].
    apply elem_of_cons in Hb as [->|Hb]; [done|].
    exists b. split; [done|]. rewrite Forall_forall in Hbs.
    by apply (child_in_ptrs h b y nd q (Hbs b Hb)).
Qed.

Lemma repr_inj h t1 : ∀ t2, repr h t1 → repr h t2 → root t1 = root t2 → t1 = t2.
Proof.
  induction t1 as [|l1 IHl p1 v1 r1 IHr]; intros [|l2 p2 v2 r2]; try done.
  simpl. intros (Hp1 & Hl1 & Hr1) (Hp2 & Hl2 & Hr2) [= <-].
  rewrite Hp1 in Hp2. injection Hp2 as Hl Hr <-.
  by rewrite (IHl l2 Hl1 Hl2 Hl), (IHr r2 Hr1 Hr2 Hr).
Qed.

Lemma tight_perm h ts ts' : ts ≡ₚ ts' → tight h ts → tight h ts'.
Proof.
  intros Hperm Ht p Hp. destruct (Ht p Hp) as (t & Hin & Hpt).
  exists t. split; [|done]. by rewrite <-Hperm.
Qed.

(** ** The descents keep every node in a tree *)

Lemma descent_tight_any h m bs ctx a t :
  descent_inv cmp h m bs ctx a → tight h (plug ctx a :: bs) →
  repr h t → root t = m → tight h (t :: bs).
Proof.
  intros Hdi Ht Hrepr Hroot.
  rewrite (repr_inj h t (plug ctx a)); [done|done|by eapply descent_repr|].
  rewrite Hroot. by apply (di_top _ _ _ _ _ _ Hdi).
Qed.

Lemma descent_shared_in_other h m bs ctx a q :
  descent_inv cmp h m bs ctx a → tight h (plug ctx a :: bs) →
  q ∈ ptrs (plug ctx a) → 1 < rc_of h q →
  ∃ b, b ∈ bs ∧ q ∈ ptrs b.
Proof.
  intros Hdi Ht Hq Hrc.
  pose proof (descent_repr _ _ _ _ _ Hdi) as Hrepr.
  apply (shared_in_other h (plug ctx a) bs q); try done.
  - rewrite <-(di_top _ _ _ _ _ _ Hdi). by apply (di_counted _ _ _ _ _ _ Hdi).
  - eapply ptrs_NoDup; [done|]. by apply (di_asc _ _ _ _ _ _ Hdi).
  - by apply (di_others _ _ _ _ _ _ Hdi).
Qed.

Lemma elem_of_ptrs_plug ctx a q :
  q ∈ ptrs (plug ctx a) ↔ q ∈ ptrs a ∨ q ∈ ctx_ptrs ctx.
Proof. by rewrite ptrs_plug_perm, elem_of_app. Qed.

Lemma unshare_tight h m bs ctx l q x r h' m' n :
  descent_inv cmp h m bs ctx (ANode l q x r) →
  tight h (plug ctx (ANode l q x r) :: bs) →
  unshare (path_of ctx) q h m = Some (h', m', n) →
  tight h' (plug ctx (ANode l n x r) :: bs).
Proof.
  intros Hdi Ht Hun.
  destruct (unshare_spec h m bs ctx l q x r Hdi)
    as (h1 & m1 & n1 & Hun1 & Hdi1 & Hrc1 & Hexcl1 & Hmono1 & Hif).
  rewrite Hun in Hun1. injection Hun1 as <- <- <-.
  destruct (decide (1 < rc_of h q)) as [Hsh|Hsh].
  - destruct Hif as [-> Hsame]. intros q' Hq'.
    destruct (unshare_dom _ _ _ _ _ _ _ q' Hun Hq') as [->|Hold].
    + eexists. split; [apply elem_of_cons; by left|].
      apply elem_of_ptrs_plug. left. simpl. apply elem_of_app. right.
      apply elem_of_cons. by left.
    + destruct (Ht q' Hold) as (t & Hin & Hqt).
      apply elem_of_cons in Hin as [->|Hin];
        [|exists t; split; [apply elem_of_cons; by right|done]].
      destruct (decide (q' = q)) as [->|Hne].
      * destruct (descent_shared_in_other h m bs ctx _ q Hdi Ht Hqt Hsh)
          as (b & Hb & Hqb).
        exists b. split; [apply elem_of_cons; by right|done].
      * eexists. split; [apply elem_of_cons; by left|].
        apply elem_of_ptrs_plug. apply elem_of_ptrs_plug in Hqt as [Hqt|Hqt];
          [left|by right].
        simpl in *. apply elem_of_app in Hqt as [?|[?|?]%elem_of_cons];
          [|done|]; apply elem_of_app; [by left|right].
        apply elem_of_cons. by right.
  - destruct Hif as [-> ->]. done.
Qed.

Lemma splay_descent_tight h m bs ctx A n x B h' :
  descent_inv cmp h m bs ctx (ANode A n x B) →
  rc_of h n = 1 →
  tight h (plug ctx (ANode A n x B) :: bs) →
  splay_to_top (path_of ctx) n h = Some h' →
  tight h' (splay ctx A n x B :: bs).
Proof.
  intros Hdi Hrc Ht Hsplay.
  pose proof (descent_NoDup _ _ _ _ _ Hdi) as Hnd.
  destruct Hdi as [Hcnt Htop Hpath (Hn & HA & HB) Hasc Hbs Hexclp].
  destruct (splay_to_top_spec h ctx n A B x (Some n))
    as (h2 & Hsplay2 & Hrepr' & Hrc' & Hs'); try done.
  { simpl in Hnd. by rewrite <-app_assoc in Hnd. }
  rewrite Hsplay in Hsplay2. injection Hsplay2 as <-.
  intros q Hq.
  destruct (decide (q ∈ ptrs (plug ctx (ANode A n x B)))) as [Hin|Hnin].
  - eexists. split; [apply elem_of_cons; by left|]. by rewrite splay_ptrs.
  - assert (shape h' q = shape h q) as Hsame.
    { apply Hs'.
      - intros ->. apply Hnin, elem_of_ptrs_plug. left. simpl.
        apply elem_of_app. right. apply elem_of_cons. by left.
      - intros (f & -> & Hf)%list_elem_of_fmap. apply Hnin, elem_of_ptrs_plug.
        right. by apply path_node_in_ctx_ptrs. }
    apply shape_is_Some in Hq. rewrite Hsame in Hq. apply shape_is_Some in Hq.
    destruct (Ht q Hq) as (t & Hint & Hqt).
    apply elem_of_cons in Hint as [->|Hint]; [done|].
    exists t. split; [apply elem_of_cons; by right|done].
Qed.

Lemma insert_pull_loop_tight v is_insert bs a :
  ∀ fuel ctx h m (l1 l2 : list T) d,
  descent_inv cmp h m bs ctx a →
  (∀ t, vals (plug ctx t) = l1 ++ vals t ++ l2) →
  Forall (λ y, lt cmp y v) l1 → Forall (lt cmp v) l2 →
  tight h (plug ctx a :: bs) →
  insert_pull_loop cmp fuel v is_insert (path_of ctx) (root a) h m = Some d →
  match d with
  | descent_return h' m' => h' = h ∧ ctx = []
  | descent_break h' m' _ _ _ =>
    ∀ t, repr h' t → root t = m' → tight h' (t :: bs)
  end.
Proof.
  induction a as [|l IHl q x r IHr];
    intros fuel ctx h m l1 l2 d Hdi Hplug Hlo Hhi Ht Hloop.
  - (* an empty slot *)
    simpl root in Hloop. rewrite insert_pull_loop_null in Hloop.
    destruct is_insert.
    + destruct (attach_spec h m bs ctx ALeaf ALeaf v ALeaf)
        as (h1 & h' & m' & Hnew & Hupd & Hdi' & Hrc' & Hexcl & Hmono & _);
        try done.
      { rewrite Hplug. simpl. apply ascending_app_cons.
        pose proof (di_asc _ _ _ _ _ _ Hdi) as Hasc. rewrite Hplug in Hasc.
        simpl in Hasc. unfold ascending in *.
        split_and!; [|by apply StronglySorted_app_1_r in Hasc|done..].
        by apply StronglySorted_app_1_l in Hasc. }
      simpl in Hnew. rewrite Hnew in Hloop. simpl in Hloop.
      rewrite Hupd in Hloop. simpl in Hloop. injection Hloop as <-.
      intros t Hrepr Hroot.
      apply (descent_tight_any h' m' bs ctx (ANode ALeaf (fresh (dom h)) v ALeaf));
        try done.
      intros q' Hq'.
      apply (update_parent_dom _ _ _ _ _ _ q' Hupd) in Hq'.
      destruct (new_node_dom _ _ _ _ _ _ q' Hnew) as [_ Hold].
      destruct (Hold Hq') as [->|Hq]; clear Hold.
      * eexists. split; [apply elem_of_cons; by left|].
        apply elem_of_ptrs_plug. left. simpl. apply elem_of_cons. by left.
      * destruct (Ht q' Hq) as (s & Hin & Hqs).
        apply elem_of_cons in Hin as [->|Hin];
          [|exists s; split; [apply elem_of_cons; by right|done]].
        eexists. split; [apply elem_of_cons; by left|].
        apply elem_of_ptrs_plug. apply elem_of_ptrs_plug in Hqs as [Hqs|Hqs];
          [by apply elem_of_nil in Hqs|by right].
    + destruct ctx as [|f ctx].
      * by injection Hloop as <-.
      * injection Hloop as <-. intros t Hrepr Hroot.
        by apply (descent_tight_any h m bs (f :: ctx) ALeaf).
  - (* a node *)
    destruct fuel as [|fuel]; [done|].
    simpl root in Hloop. rewrite insert_pull_loop_node in Hloop.
    pose proof (descent_asc_cur _ _ _ _ _ Hdi) as Hascq. simpl in Hascq.
    pose proof Hascq as Hascq'.
    apply ascending_app_cons in Hascq' as (Hal & Har & Hlx & Hxr).
    destruct (unshare_spec h m bs ctx l q x r Hdi)
      as (h1 & m1 & n & Hun & Hdi1 & Hrc1 & Hexcl1 & Hmono1 & _).
    pose proof (unshare_tight h m bs ctx l q x r h1 m1 n Hdi Ht Hun) as Ht1.
    rewrite Hun in Hloop. simpl in Hloop.
    pose proof (di_cur _ _ _ _ _ _ Hdi1) as (Hn & Hl & Hr).
    pose proof (lookup_shape_rc h1 n _ _ _ _ Hn Hrc1) as Hln.
    rewrite Hln in Hloop. simpl in Hloop.
    destruct (decide (cmp v x < 0)%Z) as [Hlt|Hnlt];
      [|destruct (decide (cmp v x > 0)%Z) as [Hgt|Hngt]].
    + (* left *)
      rewrite bool_decide_true in Hloop by done.
      apply (IHl fuel (mk_frame false n x r :: ctx) h1 m1 l1
               (x :: vals r ++ l2) d) in Hloop.
      * destruct d; [by destruct Hloop|done].
      * by apply (descent_push h1 m1 bs ctx l n x r false).
      * intros t. rewrite plug_cons. unfold plug_frame. simpl.
        rewrite Hplug. simpl. by rewrite <-app_assoc.
      * done.
      * constructor; [done|]. apply Forall_app. split; [|done].
        eapply Forall_impl; [exact Hxr|]. intros y Hy.
        by apply (cmp_trans v x y).
      * by rewrite plug_cons.
    + (* right *)
      rewrite bool_decide_false, bool_decide_true in Hloop by done.
      apply (IHr fuel (mk_frame true n x l :: ctx) h1 m1
               (l1 ++ vals l ++ [x]) l2 d) in Hloop.
      * destruct d; [by destruct Hloop|done].
      * by apply (descent_push h1 m1 bs ctx l n x r true).
      * intros t. rewrite plug_cons. unfold plug_frame. simpl.
        rewrite Hplug. simpl. by rewrite <-!app_assoc.
      * apply Forall_app. split; [done|]. apply Forall_app. split.
        -- eapply Forall_impl; [exact Hlx|]. intros y Hy.
           apply (cmp_trans y x v); [done|by apply cmp_gt_lt].
        -- constructor; [by apply cmp_gt_lt|constructor].
      * done.
      * by rewrite plug_cons.
    + (* found *)
      rewrite !bool_decide_false in Hloop by done.
      assert (cmp v x = 0%Z) as Heq by lia.
      destruct is_insert.
      * erewrite store_spec in Hloop; [|done|lia]. simpl in Hloop.
        rewrite Hrc1 in Hloop. injection Hloop as <-.
        intros t Hrepr Hroot.
        apply (descent_tight_any _ m1 bs ctx (ANode l n v r)); try done.
        -- by apply (descent_overwrite h1 m1 bs ctx l n x r v).
        -- intros q' Hq'.
           assert (is_Some (h1 !! q')) as Hq1.
           { rewrite lookup_insert in Hq'.
             case_decide; [subst; by rewrite Hln|done]. }
           destruct (Ht1 q' Hq1) as (s & Hin & Hqs).
           apply elem_of_cons in Hin as [->|Hin];
             [|exists s; split; [apply elem_of_cons; by right|done]].
           eexists. split; [apply elem_of_cons; by left|].
           apply elem_of_ptrs_plug. by apply elem_of_ptrs_plug in Hqs.
      * simpl in Hloop. injection Hloop as <-. intros t Hrepr Hroot.
        by apply (descent_tight_any h1 m1 bs ctx (ANode l n x r)).
Qed.

Lemma insert_pull_tight v is_insert h a bs h' m' found :
  wf cmp h (a :: bs) → tight h (a :: bs) →
  insert_pull cmp v is_insert h (root a) = Some (h', m', found) →
  ∀ a', repr h' a' → root a' = m' → tight h' (a' :: bs).
Proof.
  intros Hwf Ht Hpull a' Hrepr' Hroot'.
  pose proof (wf_descent h a bs Hwf) as Hdi.
  destruct (insert_pull_spec v is_insert h a bs Hwf)
    as (d & h2 & m2 & found2 & a2 & Hloop & Hpost & Hpull2 & _).
  pose proof (insert_pull_loop_tight v is_insert bs a (size h) [] h (root a)
                [] [] d Hdi) as Hlt.
  unfold insert_pull in Hpull. change (path_of []) with (@nil entry) in Hlt.
  rewrite Hloop in Hpull. simpl in Hpull.
  specialize (Hlt (λ t, eq_sym (app_nil_r _)) (Forall_nil_2 _) (Forall_nil_2 _)
                Ht Hloop).
  destruct d as [h1 m1|h1 m1 path n fnd]; cbn [descent_post] in Hpost.
  - destruct Hpost as (-> & -> & -> & _ & ->).
    injection Hpull as <- <- <-. destruct a'; [done|discriminate].
  - destruct Hpost as (ctx' & A & x & B & -> & Hdi' & Hrc' & Hexcl' & _).
    destruct (splay_to_top (path_of ctx') n h1) as [h3|] eqn:Hsplay; [|done].
    simpl in Hpull.
    destruct (check_invariant cmp h3 (Some n)) as [[]|]; try done.
    simpl in Hpull. injection Hpull as <- <- <-.
    pose proof (splay_descent_tight h1 m1 bs ctx' A n x B h3 Hdi' Hrc') as Ht3.
    destruct (splay_descent h1 m1 bs ctx' A n x B Hdi' Hrc' Hexcl')
      as (h4 & Hsplay4 & _ & Hwf4 & _).
    { destruct Hwf as [_ _ Hasc]. by apply Forall_cons in Hasc as [_ ?]. }
    rewrite Hsplay in Hsplay4. injection Hsplay4 as <-.
    rewrite (repr_inj h3 a' (splay ctx' A n x B)); try done.
    + apply Ht3; [|done]. apply Hlt; [by eapply descent_repr|].
      symmetry. by apply (di_top _ _ _ _ _ _ Hdi').
    + destruct Hwf4 as [_ Hr _]. by apply Forall_cons in Hr as [? _].
    + by rewrite splay_root.
Qed.

(** ** Releasing a handle frees what it alone held *)

Lemma subtree_ptrs h b : ∀ a p,
  repr h b → repr h a → root a = Some p → p ∈ ptrs b →
  ∀ q, q ∈ ptrs a → q ∈ ptrs b.
Proof.
  induction b as [|l IHl p0 v r IHr]; intros a p Hb Ha Hroot Hp q Hq.
  - by apply elem_of_nil in Hp.
  - destruct (decide (p = p0)) as [->|Hne].
    + by rewrite <-(repr_inj h a (ANode l p0 v r)).
    + destruct Hb as (_ & Hl & Hr). simpl in *.
      apply elem_of_app in Hp as [Hp|[?|Hp]%elem_of_cons]; [|done|].
      * apply elem_of_app. left. by apply (IHl a p).
      * apply elem_of_app. right. apply elem_of_cons. right.
        by apply (IHr a p).
Qed.

Lemma dec_ref_fuel_tight a : ∀ fuel h ts,
  repr h a → ascending cmp (vals a) →
  counted h (root a :: (root <$> ts)) →
  Forall (repr h) ts →
  height a ≤ fuel →
  tight h (a :: ts) →
  ∃ h', dec_ref_fuel fuel (root a) h = Some h' ∧ tight h' ts.
Proof.
  induction a as [|l IHl p v r IHr];
    intros fuel h ts Hrepr Hasc Hcnt Hts Hfuel Ht.
  - exists h. rewrite dec_ref_fuel_unfold. simpl. split; [done|].
    intros q Hq. destruct (Ht q Hq) as (t & Hin & Hqt).
    apply elem_of_cons in Hin as [->|Hin]; [by apply elem_of_nil in Hqt|].
    by exists t.
  - pose proof Hrepr as (Hp & Hl & Hr). simpl root in *.
    pose proof Hasc as Hasc'. simpl in Hasc'.
    apply ascending_app_cons in Hasc' as (Hal & Har & _ & _).
    pose proof Hp as Hp'. apply shape_Some in Hp' as [k Hlp].
    pose proof (rc_of_lookup _ _ _ Hlp) as Hrc. simpl in Hrc.
    pose proof (Hcnt p) as Hcp. unfold refs in Hcp. simpl in Hcp.
    rewrite decide_True, Hrc in Hcp by done.
    destruct (decide (1 < k)) as [Hk|Hk].
    + destruct (dec_ref_fuel_shared fuel h (Some p)) as (h' & Hdec & Hs & Hrc').
      { intros ? [= <-]. by rewrite Hrc. }
      exists h'. split; [done|].
      destruct (shared_in_other h (ANode l p v r) ts p) as (b & Hb & Hpb);
        try done.
      { by eapply ptrs_NoDup. }
      { simpl. apply elem_of_app. right. apply elem_of_cons. by left. }
      { by rewrite Hrc. }
      intros q Hq. apply shape_is_Some in Hq. rewrite Hs in Hq.
      apply shape_is_Some in Hq.
      destruct (Ht q Hq) as (t & Hin & Hqt).
      apply elem_of_cons in Hin as [->|Hin]; [|by exists t].
      exists b. split; [done|]. rewrite Forall_forall in Hts.
      by apply (subtree_ptrs h b (ANode l p v r) p (Hts b Hb) Hrepr).
    + assert (k = 1) as -> by lia.
      assert (heap_refs h p = 0 ∧ root_refs (root <$> ts) p = 0) as [Hhr Hrr] by lia.
      destruct fuel as [|fuel]; [simpl in Hfuel; lia|]. simpl in Hfuel.
      set (z := mk_node (root l) (root r) v 0).
      set (h0 := delete p h).
      assert (h0 !! p = None) as Hp0 by apply lookup_delete_eq.
      assert (<[p := z]> h = <[p := z]> h0) as Hz
        by (unfold h0; by rewrite insert_delete_eq).
      assert (root l ≠ Some p ∧ root r ≠ Some p) as [Hlp' Hrp'].
      { pose proof (heap_refs_ge h p _ p Hlp) as Hge. simpl in Hge.
        rewrite slot_count_pair in Hge. simpl in Hge.
        rewrite Hhr in Hge.
        destruct (decide (root l = Some p)), (decide (root r = Some p));
          simpl in Hge; try lia. done. }
      assert (∀ t, repr h t → root t ≠ Some p → repr h0 t) as Hframe.
      { intros t Hrt Hroot. eapply repr_frame; [|done]. intros q Hq.
        unfold h0. apply shape_delete_ne. intros ->.
        by eapply (unreferenced_not_in h t q). }
      assert (counted h0 (root l :: (root <$> r :: ts))) as Hcnt0.
      { intros q. specialize (Hcnt q). unfold refs in *.
        rewrite fmap_cons. cbn [root_refs] in *.
        pose proof (heap_refs_delete h p _ q Hlp) as Hdel. fold h0 in Hdel.
        simpl in Hdel. rewrite slot_count_pair in Hdel. simpl in Hdel.
        unfold rc_of in *. unfold h0 at 1. rewrite lookup_delete.
        destruct (decide (p = q)) as [<-|Hne].
        - rewrite Hlp in Hcnt. simpl in Hcnt.
          rewrite !decide_False by done. rewrite !decide_False in Hdel by done.
          lia.
        - rewrite (decide_False (P := Some p = Some q)) in Hcnt by congruence.
          lia. }
      assert (Forall (repr h0) (r :: ts)) as Hts0.
      { apply Forall_cons. split; [by apply Hframe|].
        apply Forall_forall. intros t Hin. rewrite Forall_forall in Hts.
        apply Hframe; [by apply Hts|]. intros Heq.
        assert (1 ≤ root_refs (root <$> ts) p); [|lia].
        apply root_refs_ge. rewrite <-Heq. apply list_elem_of_fmap. eauto. }
      assert (tight h0 (l :: r :: ts)) as Ht0.
      { intros q Hq. unfold h0 in Hq.
        destruct (decide (p = q)) as [<-|Hne];
          [by rewrite lookup_delete_eq in Hq; destruct Hq|].
        rewrite lookup_delete_ne in Hq by done.
        destruct (Ht q Hq) as (t & Hin & Hqt).
        apply elem_of_cons in Hin as [->|Hin].
        - simpl in Hqt.
          apply elem_of_app in Hqt as [?|[?|?]%elem_of_cons]; [|done|].
          + exists l. split; [apply elem_of_cons; by left|done].
          + exists r. split; [|done]. apply elem_of_cons. right.
            apply elem_of_cons. by left.
        - exists t. split; [|done]. apply elem_of_cons. right.
          apply elem_of_cons. by right. }
      destruct (dec_ref_fuel_spec l fuel h0 (r :: ts))
        as (h2 & Hdec2 & Hcnt2 & Hts2 & Hmono2);
        [by apply Hframe|done|done|lia|].
      destruct (IHl fuel h0 (r :: ts)) as (h2' & Hdec2' & Ht2);
        [by apply Hframe|done|done|done|lia|done|].
      rewrite Hdec2 in Hdec2'. injection Hdec2' as <-.
      apply Forall_cons in Hts2 as [Hr2 Hts2].
      destruct (IHr fuel h2 ts) as (h3 & Hdec3 & Ht3);
        [done|done|done|done|lia|done|].
      destruct (dec_ref_fuel_comm fuel _ _ _ p z Hp0 Hdec2) as [Hdec2' Hp2].
      destruct (dec_ref_fuel_comm fuel _ _ _ p z Hp2 Hdec3) as [Hdec3' Hp3].
      exists h3. split; [|done].
      rewrite dec_ref_fuel_unfold. rewrite Hlp. simpl.
      change (with_rc 0 (mk_node (root l) (root r) v 1)) with z. rewrite Hz.
      rewrite Hdec2'. simpl. rewrite Hdec3'. simpl.
      by rewrite delete_insert_eq, delete_id.
Qed.

(** ** Well-formed stores without garbage *)

Lemma tight_cons_leaf h ts : tight h ts ↔ tight h (ALeaf :: ts).
Proof.
  split; intros Ht q Hq; destruct (Ht q Hq) as (t & Hin & Hqt).
  - exists t. split; [apply elem_of_cons; by right|done].
  - apply elem_of_cons in Hin as [->|Hin]; [by apply elem_of_nil in Hqt|].
    by exists t.
Qed.

Lemma release_tight h a ts h' :
  wf cmp h (a :: ts) → tight h (a :: ts) →
  dec_ref (root a) h = Some h' → tight h' ts.
Proof.
  intros [Hcnt Hrepr Hasc] Ht Hdec.
  apply Forall_cons in Hrepr as [Ha Hrepr]. apply Forall_cons in Hasc as [Haa Hasc].
  destruct (dec_ref_fuel_tight a (size h) h ts) as (h2 & Hdec2 & Ht2);
    try done.
  { by apply tree_fits. }
  unfold dec_ref in Hdec. rewrite Hdec in Hdec2. by injection Hdec2 as <-.
Qed.

Lemma copy_tight h a ts h' m :
  tight h ts → copy (root a) h = Some (h', m) → tight h' (a :: ts).
Proof.
  unfold copy. intros Ht Hcopy.
  destruct (inc_ref (root a) h) as [h2|] eqn:Hinc; [|done].
  injection Hcopy as <- <-. intros q Hq.
  apply (inc_ref_dom _ _ _ q Hinc) in Hq.
  destruct (Ht q Hq) as (t & Hin & Hqt).
  exists t. split; [apply elem_of_cons; by right|done].
Qed.

Lemma pull_max_loop_tight bs a :
  ∀ fuel ctx h m q h' m',
  root a = Some q →
  descent_inv cmp h m bs ctx a →
  Forall (λ b, ascending cmp (vals b)) bs →
  tight h (plug ctx a :: bs) →
  pull_max_loop cmp fuel (path_of ctx) q h m = Some (h', m') →
  ∀ t, repr h' t → root t = m' → tight h' (t :: bs).
Proof.
  induction a as [|l _ q0 x r IHr];
    intros fuel ctx h m q h' m' Hroot Hdi Hbsa Ht Hloop t Hrepr' Hroot';
    [done|].
  injection Hroot as ->.
  destruct fuel as [|fuel]; [done|].
  rewrite pull_max_loop_node in Hloop.
  destruct (unshare_spec h m bs ctx l q x r Hdi)
    as (h1 & m1 & n & Hun & Hdi1 & Hrc1 & Hexcl1 & Hmono1 & _).
  pose proof (unshare_tight h m bs ctx l q x r h1 m1 n Hdi Ht Hun) as Ht1.
  rewrite Hun in Hloop. simpl in Hloop.
  pose proof (di_cur _ _ _ _ _ _ Hdi1) as (Hn & Hl & Hr).
  pose proof (lookup_shape_rc h1 n _ _ _ _ Hn Hrc1) as Hln.
  rewrite Hln in Hloop. simpl in Hloop.
  destruct r as [|rl rq rx rr].
  - simpl root in Hloop.
    destruct (splay_descent h1 m1 bs ctx l n x ALeaf)
      as (h2 & Hsplay & Hcheck & Hwf2 & Hrc2 & Hmono2); try done.
    pose proof (splay_descent_tight h1 m1 bs ctx l n x ALeaf h2 Hdi1 Hrc1 Ht1
                  Hsplay) as Ht2.
    rewrite Hsplay in Hloop. simpl in Hloop. rewrite Hcheck in Hloop.
    simpl in Hloop. injection Hloop as <- <-.
    assert (t = splay ctx l n x ALeaf) as ->; [|done].
    apply (repr_inj h2); [done| |by rewrite splay_root].
    destruct Hwf2 as [_ Hr2 _]. by apply Forall_cons in Hr2 as [? _].
  - simpl root in Hloop.
    apply (IHr fuel (mk_frame true n x l :: ctx) h1 m1 rq h' m'); try done.
    by apply (descent_push h1 m1 bs ctx l n x (ANode rl rq rx rr) true).
Qed.

Lemma pull_max_tight h a bs h' m' :
  wf cmp h (a :: bs) → tight h (a :: bs) →
  pull_max cmp h (root a) = Some (h', m') →
  ∀ a', repr h' a' → root a' = m' → tight h' (a' :: bs).
Proof.
  intros Hwf Ht Hpm a' Hrepr' Hroot'.
  pose proof (wf_descent h a bs Hwf) as Hdi.
  destruct Hwf as [_ _ Hasc]. apply Forall_cons in Hasc as [_ Hbsa].
  destruct a as [|l q x r].
  - simpl in Hpm. injection Hpm as <- <-. destruct a'; [|done].
    done.
  - simpl in Hpm.
    by apply (pull_max_loop_tight bs (ANode l q x r) (size h) [] h (Some q) q
                h' m').
Qed.

Lemma wft_perm h ts ts' : ts ≡ₚ ts' → wft cmp h ts → wft cmp h ts'.
Proof.
  intros Hperm [Hwf Ht]. split; [by eapply wf_perm|by eapply tight_perm].
Qed.

Lemma wft_drop_leaf h ts : wft cmp h (ALeaf :: ts) → wft cmp h ts.
Proof.
  intros [Hwf Ht]. split; [by apply wf_drop_leaf|by apply (proj2 (tight_cons_leaf h ts))].
Qed.

Lemma wft_add_leaf h ts : wft cmp h ts → wft cmp h (ALeaf :: ts).
Proof.
  intros [Hwf Ht]. split; [by apply wf_add_leaf|by apply (proj1 (tight_cons_leaf h ts))].
Qed.

Lemma copy_wft h a ts :
  wft cmp h ts → repr h a → ascending cmp (vals a) →
  ∃ h',
    copy (root a) h = Some (h', root a) ∧
    wft cmp h' (a :: ts) ∧
    (∀ q, shape h' q = shape h q) ∧
    (∀ q, rc_of h' q = rc_of h q + if decide (root a = Some q) then 1 else 0).
Proof.
  intros [Hwf Ht] Ha Haa.
  destruct (copy_spec h a ts Hwf Ha Haa) as (h' & Hcopy & Hwf' & Hs & Hrc).
  exists h'. split_and!; try done. split; [done|]. by eapply copy_tight.
Qed.

Lemma release_wft h a ts :
  wft cmp h (a :: ts) → ∃ h', dec_ref (root a) h = Some h' ∧ wft cmp h' ts.
Proof.
  intros [Hwf Ht]. destruct (release_spec h a ts Hwf) as (h' & Hdec & Hwf' & _).
  exists h'. split; [done|]. split; [done|]. by eapply release_tight.
Qed.

Lemma pull_max_wft h a bs :
  wft cmp h (a :: bs) →
  ∃ h' a',
    pull_max cmp h (root a) = Some (h', root a') ∧
    wft cmp h' (a' :: bs) ∧
    vals a' = vals a ∧
    (a ≠ ALeaf → ∃ L n x,
       a' = ANode L n x ALeaf ∧ rc_of h' n = 1 ∧ (∀ b, b ∈ bs → n ∉ ptrs b)).
Proof.
  intros [Hwf Ht].
  destruct (pull_max_spec h a bs Hwf)
    as (h' & a' & Hpm & Hwf' & Hvals & _ & _ & Hnode).
  exists h', a'. split_and!; try done. split; [done|].
  destruct (wf_head _ _ _ Hwf') as [Ha' _].
  by apply (pull_max_tight h a bs h' (root a')).
Qed.

Lemma join_link_wft h (LL : atree T) (lp : positive) xl (R : atree T)
    (rq : positive) ts :
  wft cmp h (ANode LL lp xl ALeaf :: R :: ts) →
  rc_of h lp = 1 →
  lp ∉ ptrs R → (∀ t, t ∈ ts → lp ∉ ptrs t) →
  root R = Some rq →
  ascending cmp (vals LL ++ xl :: vals R) →
  ∃ h1 h2,
    node_inc_ref rq h = Some h1 ∧
    store lp (with_right (Some rq)) h1 = Some h2 ∧
    wft cmp h2 (ANode LL lp xl R :: R :: ts).
Proof.
  intros [Hwf Ht] Hrc HlpR Hlpts HrootR Hasc.
  destruct (join_link h LL lp xl R rq ts Hwf Hrc HlpR Hlpts HrootR Hasc)
    as (h1 & h2 & Hinc & Hst & Hwf2).
  exists h1, h2. split_and!; try done. split; [done|].
  intros q Hq.
  apply (store_dom _ _ _ _ q Hst), (node_inc_ref_dom _ _ _ q Hinc) in Hq.
  destruct (Ht q Hq) as (t & Hin & Hqt).
  apply elem_of_cons in Hin as [->|Hin].
  - eexists. split; [apply elem_of_cons; by left|].
    simpl in *. apply elem_of_app in Hqt as [?|[?|?%elem_of_nil]%elem_of_cons];
      [apply elem_of_app; by left| |done].
    apply elem_of_app. right. apply elem_of_cons. by left.
  - exists t. split; [apply elem_of_cons; by right|done].
Qed.

(** ** The operations leave no garbage *)

Lemma insert_pull_wft v is_insert h a bs :
  wft cmp h (a :: bs) →
  ∃ h' a' found,
    insert_pull cmp v is_insert h (root a) = Some (h', root a', found) ∧
    wft cmp h' (a' :: bs).
Proof.
  intros [Hwf Ht].
  destruct (insert_pull_spec v is_insert h a bs Hwf)
    as (d & h' & m' & found & a' & _ & _ & Hpull & Hroot & Hwf' & _).
  exists h', a', found. rewrite Hroot. split; [done|]. split; [done|].
  destruct (wf_head _ _ _ Hwf') as [Ha' _].
  by apply (insert_pull_tight v is_insert h a bs h' m' found).
Qed.

Lemma insert_wft v h a bs :
  wft cmp h (a :: bs) →
  ∃ h' a', insert cmp v h (root a) = Some (h', root a') ∧ wft cmp h' (a' :: bs).
Proof.
  intros Hwft.
  destruct (insert_pull_wft v true h a bs Hwft) as (h' & a' & found & Hpull & Hwft').
  exists h', a'. unfold insert. by rewrite Hpull.
Qed.

Lemma pull_wft v h a bs :
  wft cmp h (a :: bs) →
  ∃ h' a',
    pull cmp v h (root a) = Some (h', root a', seq_has cmp v (vals a)) ∧
    wft cmp h' (a' :: bs).
Proof.
  intros [Hwf Ht].
  destruct (pull_spec v h a bs Hwf) as (h' & a' & Hpull & Hwf' & _).
  exists h', a'. split; [done|]. split; [done|].
  destruct (wf_head _ _ _ Hwf') as [Ha' _].
  by apply (insert_pull_tight v false h a bs h' (root a')
              (seq_has cmp v (vals a))).
Qed.

Lemma find_memoize_wft v h a bs :
  wft cmp h (a :: bs) →
  ∃ h' a' res,
    find_memoize cmp v h (root a) = Some (h', root a', res) ∧
    wft cmp h' (a' :: bs).
Proof.
  intros [Hwf Ht].
  destruct (find_memoize_spec v h a bs Hwf)
    as (h' & a' & res & Hfm & Hwf' & _ & Hpull & _).
  exists h', a', res. split; [done|]. split; [done|].
  destruct (wf_head _ _ _ Hwf') as [Ha' _].
  by apply (insert_pull_tight v false h a bs h' (root a')
              (seq_has cmp v (vals a))).
Qed.

Lemma clear_wft h a bs :
  wft cmp h (a :: bs) →
  ∃ h', clear h (root a) = Some (h', None) ∧ wft cmp h' (ALeaf :: bs).
Proof.
  intros Hwft. destruct (release_wft h a bs Hwft) as (h' & Hdec & Hwft').
  exists h'. unfold clear. rewrite Hdec. split; [done|]. by apply wft_add_leaf.
Qed.

Lemma erase_found_wft v h L n x R bs :
  wft cmp h (ANode L n x R :: bs) →
  rc_of h n = 1 →
  (∀ b, b ∈ bs → n ∉ ptrs b) →
  cmp v x = 0%Z →
  ∃ h' a',
    erase_found cmp v h (Some n) = Some (h', root a') ∧ wft cmp h' (a' :: bs).
Proof.
  intros Hwft Hrc Hexcl Heq. pose proof Hwft as [Hwf _].
  destruct (wf_head _ _ _ Hwf) as [Ha1 Hasc1].
  pose proof Ha1 as (Hn & HL & HR).
  pose proof Hasc1 as Hasc1'. simpl in Hasc1'.
  apply ascending_app_cons in Hasc1' as (HaL & HaR & HLx & HxR).
  assert (ascending cmp (vals L ++ vals R)) as HaLR.
  { eapply ascending_sublist; [|exact Hasc1]. simpl.
    apply sublist_app; [done|]. by apply sublist_cons. }
  unfold erase_found. simpl.
  rewrite (lookup_shape_rc h n _ _ _ _ Hn Hrc). simpl.
  rewrite (bool_decide_true (cmp x v = 0%Z)) by by apply cmp_eq_sym. simpl.
  destruct (copy_wft h L (ANode L n x R :: bs) Hwft HL HaL)
    as (h2 & Hcopy2 & Hwft2 & Hs2 & Hrc2).
  rewrite Hcopy2. simpl.
  assert (shape h2 n = Some (root L, root R, x)) as Hn2 by by rewrite Hs2.
  apply shape_Some in Hn2 as [k2 Hn2]. rewrite Hn2. simpl.
  assert (repr h2 R) as HR2.
  { eapply repr_frame; [|exact HR]. intros q _. apply Hs2. }
  destruct (copy_wft h2 R (L :: ANode L n x R :: bs) Hwft2 HR2 HaR)
    as (h3 & Hcopy3 & Hwft3 & Hs3 & Hrc3).
  rewrite Hcopy3. simpl.
  assert (wft cmp h3 (ANode L n x R :: R :: L :: bs)) as Hwft3'.
  { eapply wft_perm; [|exact Hwft3]. solve_Permutation. }
  destruct L as [|Ll Lp Lx Lr].
  - (* no left subtree *)
    simpl. destruct (release_wft h3 _ _ Hwft3') as (h4 & Hdec4 & Hwft4).
    unfold destroy. simpl in Hdec4. rewrite Hdec4. simpl.
    rewrite dec_ref_null. simpl.
    exists h4, R. split; [done|].
    eapply wft_drop_leaf, wft_perm; [|exact Hwft4]. solve_Permutation.
  - destruct R as [|Rl Rp Rx Rr].
    + (* no right subtree *)
      simpl. unfold destroy. rewrite dec_ref_null. simpl.
      destruct (release_wft h3 _ _ Hwft3') as (h4 & Hdec4 & Hwft4).
      simpl in Hdec4. rewrite Hdec4. simpl.
      exists h4, (ANode Ll Lp Lx Lr). split; [done|].
      by eapply wft_drop_leaf.
    + (* the join *)
      cbn [root empty]. unfold clear.
      destruct (release_wft h3 _ _ Hwft3') as (h4 & Hdec4 & Hwft4).
      simpl in Hdec4. rewrite Hdec4. simpl.
      assert (wft cmp h4 (ANode Ll Lp Lx Lr :: ANode Rl Rp Rx Rr :: bs)) as Hwft4'.
      { eapply wft_perm; [|exact Hwft4]. solve_Permutation. }
      destruct (pull_max_wft h4 _ _ Hwft4')
        as (h5 & L' & Hpm & Hwft5 & Hvals5 & Hnode); try done.
      destruct Hnode as (LL & lp & xl & -> & Hrc5 & Hexcl5); [done|].
      simpl root in Hpm. simpl in Hpm. rewrite Hpm. simpl.
      pose proof Hwft5 as [Hwf5 _].
      destruct (wf_head _ _ _ Hwf5) as [Hrepr5 _].
      pose proof Hrepr5 as (Hlp5 & _ & _).
      simpl root in Hlp5.
      rewrite (lookup_shape_rc h5 lp _ _ _ _ Hlp5 Hrc5). simpl.
      destruct (join_link_wft h5 LL lp xl (ANode Rl Rp Rx Rr) Rp bs)
        as (h6 & h7 & Hinc6 & Hst7 & Hwft7); try done.
      { apply Hexcl5. apply elem_of_cons. by left. }
      { intros t Hin. apply Hexcl5. apply elem_of_cons. by right. }
      { simpl in Hvals5. assert (vals LL ++ xl :: vals (ANode Rl Rp Rx Rr) =
          (vals LL ++ [xl]) ++ vals (ANode Rl Rp Rx Rr)) as ->
          by by rewrite <-app_assoc.
        by rewrite Hvals5. }
      rewrite Hinc6. simpl. rewrite Hst7. simpl.
      assert (wft cmp h7 (ANode Rl Rp Rx Rr ::
                ANode LL lp xl (ANode Rl Rp Rx Rr) :: bs)) as Hwft7'.
      { eapply wft_perm; [|exact Hwft7]. solve_Permutation. }
      destruct (release_wft h7 _ _ Hwft7') as (h8 & Hdec8 & Hwft8).
      unfold destroy. simpl in Hdec8. rewrite Hdec8. simpl.
      rewrite dec_ref_null. simpl.
      by exists h8, (ANode LL lp xl (ANode Rl Rp Rx Rr)).
Qed.

Lemma erase_wft v h a bs :
  wft cmp h (a :: bs) →
  ∃ h' a', erase cmp v h (root a) = Some (h', root a') ∧ wft cmp h' (a' :: bs).
Proof.
  intros Hwft. pose proof Hwft as [Hwf _].
  destruct (pull_spec v h a bs Hwf) as (h1 & a1 & Hpull & Hwf1 & Hvals1 & Hleaf & Hnode).
  destruct (pull_wft v h a bs Hwft) as (h1' & a1' & Hpull' & Hwft1).
  rewrite Hpull in Hpull'. injection Hpull' as <- Hroot1.
  assert (a1' = a1) as ->.
  { destruct Hwft1 as [Hwf1' _].
    destruct (wf_head _ _ _ Hwf1) as [? _], (wf_head _ _ _ Hwf1') as [? _].
    by apply (repr_inj h1). }
  unfold erase. rewrite Hpull. simpl.
  destruct (seq_has cmp v (vals a)) eqn:Hhas.
  - destruct a as [|l p x r]; [done|].
    destruct Hnode as (L & n & y & R & -> & Hrc & Hexcl & Hy & _); [done|].
    specialize (Hy eq_refl).
    destruct (erase_found_wft v h1 L n y R bs Hwft1 Hrc Hexcl Hy)
      as (h' & a' & Herase & Hwft').
    simpl root. rewrite Herase. by exists h', a'.
  - by exists h1, a1.
Qed.

(** ** Programs leave no garbage *)

Lemma reaches_child h (o : option positive) q p :
  reaches h (Some q) p → reaches h o q → reaches h o p.
Proof.
  intros Hqp Hoq. remember (Some q) as oq eqn:Hq.
  induction Hqp as [p Hp|oq p nd p' Hreach IH Hnd Hl|oq p nd p' Hreach IH Hnd Hr].
  - by injection Hq as ->.
  - eapply reaches_left; [by apply IH|done..].
  - eapply reaches_right; [by apply IH|done..].
Qed.

Lemma reaches_None h p : ¬ reaches h None p.
Proof.
  intros Hreach. remember None as o eqn:Ho.
  induction Hreach; [done|by apply IHHreach..].
Qed.

Lemma ptrs_reaches h t p : repr h t → p ∈ ptrs t → reaches h (root t) p.
Proof.
  induction t as [|l IHl p0 v r IHr]; simpl.
  - intros _ Hp. by apply elem_of_nil in Hp.
  - intros (Hp0 & Hl & Hr) Hp.
    pose proof Hp0 as Hp0'. apply shape_Some in Hp0' as [k Hk].
    assert (reaches h (Some p0) p0) as Hroot by (apply reaches_root; eauto).
    apply elem_of_app in Hp as [Hp|[->|Hp]%elem_of_cons]; [|done|].
    + specialize (IHl Hl Hp). destruct (root l) as [q|] eqn:Hq;
        [|by apply reaches_None in IHl].
      apply (reaches_child h _ q); [done|].
      by eapply reaches_left.
    + specialize (IHr Hr Hp). destruct (root r) as [q|] eqn:Hq;
        [|by apply reaches_None in IHr].
      apply (reaches_child h _ q); [done|].
      by eapply reaches_right.
Qed.

Lemma tight_no_garbage h ts :
  Forall (repr h) ts → tight h ts → no_garbage (mk_world h (root <$> ts)).
Proof.
  intros Hrepr Ht p Hp. simpl in Hp. destruct (Ht p Hp) as (t & Hin & Hpt).
  exists (root t). simpl. split; [apply list_elem_of_fmap; eauto|].
  rewrite Forall_forall in Hrepr. by apply ptrs_reaches; [apply Hrepr|].
Qed.

Lemma no_garbage_tight h ts :
  wf cmp h ts → no_garbage (mk_world h (root <$> ts)) → tight h ts.
Proof.
  intros Hwf Hng p Hp. destruct (Hng p Hp) as (m & Hm & Hreach). simpl in *.
  apply list_elem_of_fmap in Hm as (t & -> & Hin).
  destruct (wf_member h ts t Hwf Hin) as [Hrepr Hasc].
  destruct (reaches_subtree h t p Hrepr Hasc Hreach) as (s & Hs & _ & _ & Hsub).
  exists t. split; [done|]. by apply Hsub, root_in_ptrs.
Qed.

Lemma wft_at h ts i a :
  ts !! i = Some a → wft cmp h ts → wft cmp h (a :: delete i ts).
Proof. intros Hi. apply wft_perm. by apply delete_Permutation. Qed.

Lemma wft_put h ts i a :
  i < length ts → wft cmp h (a :: delete i ts) → wft cmp h (<[i := a]> ts).
Proof. intros Hi. apply wft_perm. symmetry. by apply insert_Permutation. Qed.

Lemma step_wft (o : op T) w ts :
  w_handles w = root <$> ts → wft cmp (w_heap w) ts → op_valid o w →
  ∃ w' ts',
    step cmp o w = Some w' ∧
    w_handles w' = root <$> ts' ∧
    wft cmp (w_heap w') ts'.
Proof.
  destruct w as [h hs]. simpl. intros -> Hwft Hvalid.
  assert (∀ i, i < length (root <$> ts) →
            ∃ a, ts !! i = Some a ∧ (root <$> ts) !! i = Some (root a) ∧
                 i < length ts ∧ wft cmp h (a :: delete i ts)) as Hget.
  { intros i Hi. rewrite length_fmap in Hi.
    destruct (lookup_lt_is_Some_2 ts i Hi) as [a Ha].
    exists a. rewrite !list_lookup_fmap, Ha. split_and!; try done.
    by apply wft_at. }
  destruct o as [|i|i v|i v|i v|i v|i|i j]; simpl in Hvalid; simpl.
  - (* constructor *)
    exists (mk_world h ((root <$> ts) ++ [None])), (ts ++ [ALeaf]).
    rewrite !fmap_snoc. split_and!; try done.
    eapply wft_perm; [|by apply wft_add_leaf]. apply Permutation_cons_append.
  - (* copy constructor *)
    destruct (Hget i Hvalid) as (a & Ha & Hr & Hi & Hwfa).
    destruct Hwft as [Hwf Ht].
    destruct (wf_member h ts a Hwf) as [Hrepr Hasc].
    { by eapply list_elem_of_lookup_2. }
    destruct (copy_wft h a ts (conj Hwf Ht) Hrepr Hasc) as (h' & Hcopy & Hwft' & _).
    rewrite Hr. simpl. rewrite Hcopy. simpl.
    exists (mk_world h' ((root <$> ts) ++ [root a])), (ts ++ [a]).
    rewrite !fmap_snoc. split_and!; try done.
    eapply wft_perm; [|done]. apply Permutation_cons_append.
  - (* insert *)
    destruct (Hget i Hvalid) as (a & Ha & Hr & Hi & Hwfa).
    destruct (insert_wft v h a _ Hwfa) as (h' & a' & Hins & Hwft').
    rewrite Hr. simpl. rewrite Hins. simpl.
    exists (mk_world h' (<[i := root a']> (root <$> ts))), (<[i := a']> ts).
    rewrite !list_fmap_insert. split_and!; try done. by apply wft_put.
  - (* erase *)
    destruct (Hget i Hvalid) as (a & Ha & Hr & Hi & Hwfa).
    destruct (erase_wft v h a _ Hwfa) as (h' & a' & Hers & Hwft').
    rewrite Hr. simpl. rewrite Hers. simpl.
    exists (mk_world h' (<[i := root a']> (root <$> ts))), (<[i := a']> ts).
    rewrite !list_fmap_insert. split_and!; try done. by apply wft_put.
  - (* find *)
    destruct (Hget i Hvalid) as (a & Ha & Hr & Hi & [Hwfa _]).
    destruct (wf_head _ _ _ Hwfa) as [Hrepr Hasc].
    destruct (find_spec v h a Hrepr Hasc) as (res & k & Hfind & _).
    rewrite Hr. simpl. rewrite Hfind. simpl.
    exists (mk_world h (root <$> ts)), ts. split_and!; done.
  - (* find_memoize *)
    destruct (Hget i Hvalid) as (a & Ha & Hr & Hi & Hwfa).
    destruct (find_memoize_wft v h a _ Hwfa) as (h' & a' & res & Hfm & Hwft').
    rewrite Hr. simpl. rewrite Hfm. simpl.
    exists (mk_world h' (<[i := root a']> (root <$> ts))), (<[i := a']> ts).
    rewrite !list_fmap_insert. split_and!; try done. by apply wft_put.
  - (* clear *)
    destruct (Hget i Hvalid) as (a & Ha & Hr & Hi & Hwfa).
    destruct (clear_wft h a _ Hwfa) as (h' & Hclear & Hwft').
    rewrite Hr. simpl. rewrite Hclear. simpl.
    exists (mk_world h' (<[i := None]> (root <$> ts))), (<[i := ALeaf]> ts).
    rewrite !list_fmap_insert. split_and!; try done. by apply wft_put.
  - (* swap *)
    destruct Hvalid as [Hvi Hvj].
    destruct (Hget i Hvi) as (ai & Hai & Hri & Hi & _).
    destruct (Hget j Hvj) as (aj & Haj & Hrj & Hj & _).
    rewrite Hri, Hrj. simpl.
    exists (mk_world h (<[j := root ai]> (<[i := root aj]> (root <$> ts)))),
      (<[j := ai]> (<[i := aj]> ts)).
    rewrite !list_fmap_insert. split_and!; try done.
    eapply wft_perm; [|done]. symmetry. by apply swap_Permutation.
Qed.

Lemma run_wft (ops : list (op T)) : ∀ w w' ts,
  w_handles w = root <$> ts → wft cmp (w_heap w) ts →
  run cmp ops w = Some w' →
  ∃ ts', w_handles w' = root <$> ts' ∧ wft cmp (w_heap w') ts'.
Proof.
  induction ops as [|o ops IH]; intros w w' ts Hroots Hwft; simpl.
  - intros [= <-]. by exists ts.
  - destruct (step cmp o w) as [w1|] eqn:Hstep; [|done]. simpl.
    destruct (step_wft o w ts Hroots Hwft (step_valid _ _ _ Hstep))
      as (w1' & ts1 & Hstep' & Hroots1 & Hwft1).
    rewrite Hstep in Hstep'. injection Hstep' as <-.
    by apply (IH w1 w' ts1).
Qed.

Lemma size_list_to_set_le (L : list positive) :
  size (list_to_set (C := gset positive) L) ≤ length L.
Proof.
  induction L as [|x L IH].
  - rewrite list_to_set_nil, size_empty. done.
  - rewrite list_to_set_cons, size_union_alt, size_singleton. simpl.
    assert (size (list_to_set (C := gset positive) L ∖ {[x]}) ≤
            size (list_to_set (C := gset positive) L)); [|lia].
    apply subseteq_size. set_solver.
Qed.

Lemma tight_size h ts :
  tight h ts → size h ≤ sum_list (length <$> (vals <$> ts)).
Proof.
  intros Ht.
  assert (dom h ⊆ list_to_set (C := gset positive) (ts ≫= ptrs)) as Hsub.
  { intros p Hp. apply elem_of_dom in Hp.
    destruct (Ht p Hp) as (t & Hin & Hpt).
    apply elem_of_list_to_set, list_elem_of_bind. eauto. }
  apply subseteq_size in Hsub. rewrite size_dom in Hsub.
  pose proof (size_list_to_set_le (ts ≫= ptrs)) as Hle.
  assert (length (ts ≫= ptrs) = sum_list (length <$> (vals <$> ts))) as Hlen.
  { clear. induction ts as [|t ts IH]; [done|].
    rewrite bind_cons, length_app, !fmap_cons. simpl.
    by rewrite IH, length_ptrs_vals. }
  lia.
Qed.

Lemma repr_size h t :
  repr h t → ascending cmp (vals t) → length (vals t) ≤ size h.
Proof.
  intros Hrepr Hasc. pose proof (ptrs_NoDup h t Hrepr Hasc) as Hnd.
  rewrite <-length_ptrs_vals, <-(size_list_to_set (C := gset positive)) by done.
  rewrite <-size_dom. apply subseteq_size. intros p Hp.
  apply elem_of_list_to_set in Hp. apply elem_of_dom.
  by eapply repr_allocated.
Qed.

Lemma empty_no_garbage : no_garbage (empty_world (T := T)).
Proof. intros p [nd Hp]. simpl in Hp. by rewrite lookup_empty in Hp. Qed.

Lemma empty_wf : wf cmp (w_heap (empty_world (T := T))) [].
Proof.
  destruct (empty_Inv (cmp := cmp)) as (ts & Hroots & Hwf).
  destruct ts; [done|discriminate].
Qed.

(** The worlds that a program builds from a world without garbage: the
    handles hold trees that cover the store. *)
Lemma run_covered (ops : list (op T)) w w' :
  Inv cmp (w_heap w) (w_handles w) → no_garbage w →
  run cmp ops w = Some w' →
  ∃ ts', w_handles w' = root <$> ts' ∧ wft cmp (w_heap w') ts'.
Proof.
  intros (ts & Hroots & Hwf) Hng Hrun.
  apply (run_wft ops w w' ts); [done| |done].
  split; [done|]. apply no_garbage_tight; [done|].
  destruct w as [h hs]. simpl in *. by rewrite <-Hroots.
Qed.

(** X18.  No node is leaked.  In a well-formed store in which every node
    is reachable from a handle, every program of constructor calls,
    copies, [insert], [erase], [find], [find_memoize], [clear] and [swap]
    that runs to the end leaves a store in which every node is reachable
    from a handle: what path copying leaves behind and what [erase] and
    [clear] drop is freed as soon as no handle reaches it. *)
Theorem no_leak (ops : list (op T)) w w' :
  Inv cmp (w_heap w) (w_handles w) → no_garbage w →
  run cmp ops w = Some w' →
  no_garbage w'.
Proof.
  intros HInv Hng Hrun.
  destruct (run_covered ops w w' HInv Hng Hrun) as (ts' & Hroots' & Hwf' & Ht').
  destruct w' as [h' hs']. simpl in *. subst hs'.
  apply tight_no_garbage; [|done]. by destruct Hwf'.
Qed.

(** X19.  The store is as large as the trees need.  After a program that
    started without garbage, [to_buffer] reads a sequence from every
    handle, no sequence is longer than the number of allocated nodes, and
    the number of allocated nodes is at most the sum of the lengths: a
    node is allocated once however many handles share it, and no node is
    allocated that holds no element of a handle. *)
Theorem store_bound (ops : list (op T)) w w' :
  Inv cmp (w_heap w) (w_handles w) → no_garbage w →
  run cmp ops w = Some w' →
  ∃ xss,
    contents w' = Some <$> xss ∧
    Forall (λ xs, length xs ≤ size (w_heap w')) xss ∧
    size (w_heap w') ≤ sum_list (length <$> xss).
Proof.
  intros HInv Hng Hrun.
  destruct (run_covered ops w w' HInv Hng Hrun) as (ts' & Hroots' & Hwf' & Ht').
  exists (vals <$> ts'). split_and!.
  - by apply (contents_trees (cmp := cmp)).
  - apply Forall_fmap, Forall_forall. intros t Hin. simpl.
    destruct (wf_member _ ts' t Hwf' Hin) as [Hrepr Hasc].
    by apply repr_size.
  - by apply tight_size.
Qed.

(** X20.  When every handle is empty, every node has been freed: after a
    program that started without garbage and ends with [empty()] true for
    each handle, the store holds no node. *)
Theorem all_empty_all_freed (ops : list (op T)) w w' :
  Inv cmp (w_heap w) (w_handles w) → no_garbage w →
  run cmp ops w = Some w' →
  Forall (λ m, empty m = true) (w_handles w') →
  w_heap w' = ∅.
Proof.
  intros HInv Hng Hrun Hempty.
  destruct (run_covered ops w w' HInv Hng Hrun) as (ts' & Hroots' & Hwf' & Ht').
  apply map_empty. intros p. destruct (w_heap w' !! p) as [nd|] eqn:Hp; [|done].
  destruct (Ht' p) as (t & Hin & Hpt); [eauto|].
  rewrite Hroots' in Hempty. rewrite Forall_fmap, Forall_forall in Hempty.
  specialize (Hempty t Hin). simpl in Hempty.
  destruct t; [by apply elem_of_nil in Hpt|done].
Qed.

End leaks.
(** * Instances of the absence of leaks *)

Lemma empty_handles {T : Type} (ts : list (atree T)) :
  Forall (λ xs, xs = []) (vals <$> ts) →
  Forall (λ m, empty m = true) (root <$> ts).
Proof.
  rewrite !Forall_fmap. intros Hts. eapply Forall_impl; [exact Hts|].
  intros [|l p v r]; simpl; [done|]. intros Hnil. symmetry in Hnil. by apply app_cons_not_nil in Hnil.
Qed.

Lemma no_leak_witness :
  let ops := [op_new; op_insert 0 2%Z; op_insert 0 1%Z; op_copy 0;
              op_insert 1 3%Z; op_erase 0 2%Z; op_find_memoize 1 1%Z;
              op_clear 1] in
  ∃ w', run int_cmp ops empty_world = Some w' ∧ no_garbage w'.
Proof.
  intros ops.
  destruct (run_spec (cmp := int_cmp) ops empty_world [] [[1%Z]; []]
              eq_refl empty_wf eq_refl) as (w' & _ & Hrun & _).
  exists w'.
  exact (conj Hrun (no_leak (cmp := int_cmp) ops empty_world w'
                      empty_Inv empty_no_garbage Hrun)).
Defined.

Lemma store_bound_witness :
  let ops := [op_new; op_insert 0 2%Z; op_insert 0 1%Z; op_copy 0;
              op_insert 1 3%Z; op_erase 0 2%Z] in
  ∃ w', run int_cmp ops empty_world = Some w' ∧
    ∃ xss,
      contents w' = Some <$> xss ∧
      Forall (λ xs, length xs ≤ size (w_heap w')) xss ∧
      size (w_heap w') ≤ sum_list (length <$> xss).
Proof.
  intros ops.
  destruct (run_spec (cmp := int_cmp) ops empty_world []
              [[1%Z]; [1%Z; 2%Z; 3%Z]] eq_refl empty_wf eq_refl)
    as (w' & _ & Hrun & _).
  exists w'.
  exact (conj Hrun (store_bound (cmp := int_cmp) ops empty_world w'
                      empty_Inv empty_no_garbage Hrun)).
Defined.

Lemma all_empty_all_freed_witness :
  let ops := [op_new; op_insert 0 2%Z; op_insert 0 1%Z; op_copy 0;
              op_insert 1 3%Z; op_erase 0 2%Z; op_clear 1; op_erase 0 1%Z] in
  ∃ w', run int_cmp ops empty_world = Some w' ∧
        Forall (λ m, empty m = true) (w_handles w') ∧
        w_heap w' = ∅.
Proof.
  intros ops.
  destruct (run_spec (cmp := int_cmp) ops empty_world [] [[]; []]
              eq_refl empty_wf eq_refl) as (w' & ts' & Hrun & Hroots & _ & Hvals).
  assert (Forall (λ m, empty m = true) (w_handles w')) as Hempty.
  { rewrite Hroots. apply empty_handles. rewrite <-Hvals.
    exact (Forall_cons_2 _ _ _ eq_refl (Forall_cons_2 _ _ _ eq_refl (Forall_nil_2 _))). }
  exists w'.
  exact (conj Hrun (conj Hempty
    (all_empty_all_freed (cmp := int_cmp) ops empty_world w'
       empty_Inv empty_no_garbage Hrun Hempty))).
Defined.

Lemma pull_max_greatest_witness :
  let h := w_heap (world_of [op_new; op_insert 0 3%Z; op_insert 0 1%Z]) in
  Inv int_cmp h [Some 2%positive] ∧
  ∃ h' n nd,
    pull_max int_cmp h (Some 2%positive) = Some (h', Some n) ∧
    to_buffer h' (Some n) = Some [1%Z; 3%Z] ∧
    h' !! n = Some nd ∧ m_right nd = None ∧ m_value nd = 3%Z.
Proof.
  intros h. refine (conj (world_of_Inv _) _).
  destruct (pull_max_greatest (cmp := int_cmp) h (Some 2%positive) []
              (world_of_Inv _))
    as (xs & h' & m' & Hb & Hpm & _ & Hb' & _ & Hroot).
  injection Hb as <-. destruct m' as [n|].
  - destruct Hroot as (nd & Hn & Hr & _ & Hlast). injection Hlast as Hv.
    exists h', n, nd. exact (conj Hpm (conj Hb' (conj Hn (conj Hr (eq_sym Hv))))).
  - destruct Hroot as [Hnil _]. discriminate Hnil.
Defined.
